(** * The effect subsystem of the Svelte 5 client runtime

    A shallow embedding of
    [packages/svelte/src/internal/client/reactivity/effects.js]:
    effect creation, destruction, and the pause / resume protocol that
    lets outro transitions finish before a block is torn down.

    JavaScript objects live in a store indexed by references; the module
    level variables of [runtime.js] are fields of that store; calls that
    leave the module towards user or host code (effect bodies, teardown
    closures, transition managers, DOM removal, completion callbacks) are
    recorded in a trace, in call order. Effect bodies and dirtiness checks
    act on the store as the host decides; the other calls are taken to
    return without touching the effect graph. *)

From Stdlib Require Import ZArith Lia String.

From stdpp Require Import base option list gmap sets.

Local Open Scope Z_scope.

(** ** JavaScript's 32-bit bitwise operators *)

Module Int32.

(** [ToInt32]: reduction modulo 2^32 into the signed range. *)
Definition to_int32 (z : Z) : Z := (z + 2 ^ 31) mod 2 ^ 32 - 2 ^ 31.

Definition js_and (a b : Z) : Z := Z.land (to_int32 a) (to_int32 b).

Definition js_or (a b : Z) : Z := Z.lor (to_int32 a) (to_int32 b).

Definition js_xor (a b : Z) : Z := Z.lxor (to_int32 a) (to_int32 b).

Definition js_not (a : Z) : Z := Z.lnot (to_int32 a).

(** [1 << k] for a bit index below 31. *)
Definition mask (k : Z) : Z := Z.shiftl 1 k.

Definition is_int32 (z : Z) : Prop := - 2 ^ 31 <= z < 2 ^ 31.

End Int32.

Import Int32.

(** ** Flag constants

    The values given in [constants.js] are left open: each flag is a
    parameter, a single bit [1 << k] of the 32-bit word [f]. *)

Class Constants := {
  bit_EFFECT : Z;
  bit_PRE_EFFECT : Z;
  bit_RENDER_EFFECT : Z;
  bit_BLOCK_EFFECT : Z;
  bit_BRANCH_EFFECT : Z;
  bit_ROOT_EFFECT : Z;
  bit_CLEAN : Z;
  bit_DIRTY : Z;
  bit_MAYBE_DIRTY : Z;
  bit_INERT : Z;
  bit_DESTROYED : Z;
  bit_IS_ELSEIF : Z;
  bit_EFFECT_RAN : Z
}.

Section Flags.

Context {K : Constants}.

Definition EFFECT : Z := mask bit_EFFECT.

Definition PRE_EFFECT : Z := mask bit_PRE_EFFECT.

Definition RENDER_EFFECT : Z := mask bit_RENDER_EFFECT.

Definition BLOCK_EFFECT : Z := mask bit_BLOCK_EFFECT.

Definition BRANCH_EFFECT : Z := mask bit_BRANCH_EFFECT.

Definition ROOT_EFFECT : Z := mask bit_ROOT_EFFECT.

Definition CLEAN : Z := mask bit_CLEAN.

Definition DIRTY : Z := mask bit_DIRTY.

Definition MAYBE_DIRTY : Z := mask bit_MAYBE_DIRTY.

Definition INERT : Z := mask bit_INERT.

Definition DESTROYED : Z := mask bit_DESTROYED.

Definition IS_ELSEIF : Z := mask bit_IS_ELSEIF.

Definition EFFECT_RAN : Z := mask bit_EFFECT_RAN.

Definition all_bits : list Z :=
  [ bit_EFFECT; bit_PRE_EFFECT; bit_RENDER_EFFECT; bit_BLOCK_EFFECT;
    bit_BRANCH_EFFECT; bit_ROOT_EFFECT; bit_CLEAN; bit_DIRTY;
    bit_MAYBE_DIRTY; bit_INERT; bit_DESTROYED; bit_IS_ELSEIF;
    bit_EFFECT_RAN ].

(** The flags are pairwise distinct bits that fit a signed 32-bit word. *)
Definition constants_ok : Prop :=
  NoDup all_bits /\ Forall (fun k => 0 <= k < 31) all_bits.

(** [(x & FLAG) !== 0] *)
Definition has_flag (x flag : Z) : bool := negb (js_and x flag =? 0).

End Flags.

(** ** Data model *)

Definition ref := nat.

(** Functions passed to the runtime: user closures are opaque and named by
    a number; [effect_root] wraps its argument as [() => untrack(fn)]. *)
Inductive Closure :=
| noop
| user_fn (id : nat)
| untracked (fn : Closure).

(** A [TransitionManager]: its methods [in], [out] and [stop] belong to the
    host and show up as events. *)
Record Transition := { tid : nat; is_global : bool }.

Module Effect.

Record t := make {
  parent : option ref;
  dom : option nat;
  deps : option (list ref);
  f : Z;
  l : Z;
  fn : option Closure;
  effects : option (list ref);
  deriveds : option (list ref);
  teardown : option Closure;
  ctx : option ref;
  transitions : option (list Transition)
}.

Definition with_f (v : Z) (e : t) : t :=
  make (parent e) (dom e) (deps e) v (l e) (fn e) (effects e) (deriveds e)
       (teardown e) (ctx e) (transitions e).

Definition with_l (v : Z) (e : t) : t :=
  make (parent e) (dom e) (deps e) (f e) v (fn e) (effects e) (deriveds e)
       (teardown e) (ctx e) (transitions e).

Definition with_effects (v : option (list ref)) (e : t) : t :=
  make (parent e) (dom e) (deps e) (f e) (l e) (fn e) v (deriveds e)
       (teardown e) (ctx e) (transitions e).

End Effect.

Module ComponentContext.

(** Only the fields [effects.js] touches: [m], the mounted flag, and [e],
    the user effects deferred until mount. *)
Record t := make { m : bool; e : option (list ref) }.

End ComponentContext.

(** The closure [check] built by [out]: the captured counter and the
    continuation [fn], which destroys the paused effects and then calls
    the completion callback. *)
Record Pending := {
  remaining : Z;
  to_destroy : list ref;
  callback : Closure
}.

Record Store := {
  heap : gmap ref Effect.t;
  subscribers : gmap ref (gset ref);
  contexts : gmap ref ComponentContext.t;
  current_effect : option ref;
  current_reaction : option ref;
  current_component_context : option ref;
  is_flushing_effect : bool;
  queue : list ref;
  pending : gmap nat Pending
}.

Definition with_heap (h : gmap ref Effect.t) (s : Store) : Store :=
  Build_Store h (subscribers s) (contexts s) (current_effect s) (current_reaction s)
    (current_component_context s) (is_flushing_effect s) (queue s) (pending s).

Definition with_subscribers (v : gmap ref (gset ref)) (s : Store) : Store :=
  Build_Store (heap s) v (contexts s) (current_effect s) (current_reaction s)
    (current_component_context s) (is_flushing_effect s) (queue s) (pending s).

Definition with_contexts (v : gmap ref ComponentContext.t) (s : Store) : Store :=
  Build_Store (heap s) (subscribers s) v (current_effect s) (current_reaction s)
    (current_component_context s) (is_flushing_effect s) (queue s) (pending s).

Definition with_is_flushing_effect (v : bool) (s : Store) : Store :=
  Build_Store (heap s) (subscribers s) (contexts s) (current_effect s) (current_reaction s)
    (current_component_context s) v (queue s) (pending s).

Definition with_queue (v : list ref) (s : Store) : Store :=
  Build_Store (heap s) (subscribers s) (contexts s) (current_effect s) (current_reaction s)
    (current_component_context s) (is_flushing_effect s) v (pending s).

Definition with_pending (v : gmap nat Pending) (s : Store) : Store :=
  Build_Store (heap s) (subscribers s) (contexts s) (current_effect s) (current_reaction s)
    (current_component_context s) (is_flushing_effect s) (queue s) v.

(** Calls that leave [effects.js], in the order they are made. *)
Inductive Event :=
| Ev_check_dirtiness (effect : ref) (result : bool)
| Ev_check_raised (effect : ref)
| Ev_execute_effect (effect : ref)
| Ev_teardown (effect : ref) (c : Closure)
| Ev_remove (dom : nat)
| Ev_transition_stop (t : Transition)
| Ev_transition_out (t : Transition) (check : nat)
| Ev_transition_in (t : Transition)
| Ev_callback (c : Closure).

Record World := { store : Store; trace : list Event }.

Inductive Exn :=
| Error (message : string)
| Thrown (v : nat).

(** What a call into user code does to the store: it returns, or it raises. *)
Inductive Completion :=
| Returned (s : Store)
| Raised (v : nat) (s : Store).

(** What a dirtiness check comes to: it answers, or it raises, as the
    spec lets it when it has to recompute a derived on the way. *)
Inductive Verdict :=
| Answered (dirty : bool) (s : Store)
| Failed (v : nat) (s : Store).

(** The parts of [runtime.js] and of the build that run user code or
    depend on the dependency graph; they are parameters of the
    development. *)
Class Host := {
  DEV : bool;
  execute_effect : ref -> Store -> Completion;
  check_dirtiness : ref -> Store -> Verdict
}.

(** ** State and exceptions

    A computation ends with a value, or with an exception, or it is stuck:
    it followed a reference to nothing, or a recursive walk ran out of
    fuel. *)

Inductive Outcome (A : Type) :=
| Ok (a : A) (w : World)
| Throw (x : Exn) (w : World)
| Stuck.

Arguments Ok {A} a w.

Arguments Throw {A} x w.

Arguments Stuck {A}.

Definition M (A : Type) : Type := World -> Outcome A.

Definition ret {A} (a : A) : M A := fun w => Ok a w.

Definition bind {A B} (m : M A) (k : A -> M B) : M B :=
  fun w => match m w with
           | Ok a w' => k a w'
           | Throw x w' => Throw x w'
           | Stuck => Stuck
           end.

Definition throw {A} (x : Exn) : M A := fun w => Throw x w.

Definition stuck {A} : M A := fun _ => Stuck.

(** [try { body } finally { cleanup }] *)
Definition try_finally {A} (body : M A) (cleanup : M unit) : M A :=
  fun w => match body w with
           | Ok a w' => bind cleanup (fun _ => ret a) w'
           | Throw x w' => bind cleanup (fun _ => throw x) w'
           | Stuck => Stuck
           end.

Declare Scope js_scope.

Delimit Scope js_scope with js.

Notation "'let!' x := m 'in' k" := (bind m (fun x => k))
  (at level 10, x name, m at level 100, k at level 200) : js_scope.

Notation "m ;; k" := (bind m (fun _ => k))
  (at level 100, k at level 200, right associativity) : js_scope.

Local Open Scope js_scope.

Definition get_store : M Store := fun w => Ok (store w) w.

Definition modify_store (g : Store -> Store) : M unit :=
  fun w => Ok tt {| store := g (store w); trace := trace w |}.

Definition log (ev : Event) : M unit :=
  fun w => Ok tt {| store := store w; trace := trace w ++ [ev] |}.

(** Reading through a reference; a reference to nothing cannot arise in
    JavaScript and stops the model. *)
Definition get_effect (r : ref) : M Effect.t :=
  fun w => match heap (store w) !! r with
           | Some e => Ok e w
           | None => Stuck
           end.

Definition set_effect (r : ref) (e : Effect.t) : M unit :=
  modify_store (fun s => with_heap (<[r := e]> (heap s)) s).

Definition modify_effect (r : ref) (g : Effect.t -> Effect.t) : M unit :=
  let! e := get_effect r in set_effect r (g e).

(** [for (const x of xs) body(x)], for an array that the body leaves as
    it is. *)
Fixpoint for_each {A} (xs : list A) (body : A -> M unit) : M unit :=
  match xs with
  | [] => ret tt
  | x :: xs' => body x ;; for_each xs' body
  end.

(** A loop whose body updates a local array. *)
Fixpoint for_each_acc {A B} (xs : list A) (acc : B) (body : A -> B -> M B) : M B :=
  match xs with
  | [] => ret acc
  | x :: xs' => let! acc' := body x acc in for_each_acc xs' acc' body
  end.

Definition array (o : option (list ref)) : list ref := default [] o.

(** ** The helpers imported from [runtime.js] and [reconciler.js] *)

Section Runtime.

Context {K : Constants} {H : Host}.

(** Modelled from the spec: [set_is_flushing_effect] of [runtime.js] is
    missing; it is the setter of the module variable
    [is_flushing_effect], which importers cannot assign. *)
Definition set_is_flushing_effect (v : bool) : M unit :=
  modify_store (with_is_flushing_effect v).

(** Modelled from the spec: [schedule_effect] of [runtime.js] is missing;
    the spec says that an effect that is not run inline is enqueued on
    the scheduler. *)
Definition schedule_effect (effect : ref) : M unit :=
  modify_store (fun s => with_queue (queue s ++ [effect]) s).

(** [execute_effect] and [check_dirtiness] are the host's; every call is
    recorded. *)
Definition call_execute_effect (effect : ref) : M unit :=
  fun w =>
    let w := {| store := store w; trace := trace w ++ [Ev_execute_effect effect] |} in
    match execute_effect effect (store w) with
    | Returned s => Ok tt {| store := s; trace := trace w |}
    | Raised v s => Throw (Thrown v) {| store := s; trace := trace w |}
    end.

Definition call_check_dirtiness (effect : ref) : M bool :=
  fun w =>
    match check_dirtiness effect (store w) with
    | Answered b s => Ok b {| store := s; trace := trace w ++ [Ev_check_dirtiness effect b] |}
    | Failed v s => Throw (Thrown v) {| store := s; trace := trace w ++ [Ev_check_raised effect] |}
    end.

(** Modelled from the spec: [set_signal_status] of [runtime.js] is
    missing; the spec gives every node one status among clean, dirty,
    maybe_dirty and destroyed, kept in the flag word: the status bits are
    cleared and the new status is set. *)
Definition STATUS_MASK : Z :=
  js_not (js_or (js_or (js_or DIRTY MAYBE_DIRTY) CLEAN) DESTROYED).

Definition set_signal_status (signal : ref) (status : Z) : M unit :=
  modify_effect signal
    (fun e => Effect.with_f (js_or (js_and (Effect.f e) STATUS_MASK) status) e).

(** Modelled from the spec: [remove_reactions] of [runtime.js] is missing;
    the spec says that destroy removes the node from every dep's
    subscriber set. [start_index] is the first dep to drop. *)
Definition remove_reaction (signal : ref) (dependency : ref) : M unit :=
  modify_store (fun s =>
    with_subscribers (alter (fun subs => subs ∖ {[signal]}) dependency (subscribers s)) s).

Definition remove_reactions (signal : ref) (start_index : nat) : M unit :=
  let! e := get_effect signal in
  match Effect.deps e with
  | None => ret tt
  | Some dependencies =>
      for_each (drop start_index dependencies) (remove_reaction signal)
  end.

(** Modelled from the spec: [destroy_children] of [runtime.js] is missing;
    the spec says that destroying a node destroys all its children,
    the effects and the deriveds created during its last run, depth
    first and before the node releases its own resources. [destroy] is
    the routine that destroys one child. *)
Definition destroy_children (destroy : ref -> M unit) (signal : ref) : M unit :=
  let! e := get_effect signal in
  for_each (array (Effect.effects e)) destroy ;;
  for_each (array (Effect.deriveds e)) destroy.

(** [remove(effect.dom)] of [reconciler.js] detaches host nodes. *)
Definition remove (dom : nat) : M unit := log (Ev_remove dom).

End Runtime.

(** ** [effects.js] *)

Section Effects.

Context {K : Constants} {H : Host}.

Definition new_effect (type : Z) (fn : Closure) (s : Store) : Effect.t :=
  let is_root := has_flag type ROOT_EFFECT in
  {| Effect.parent := if is_root then None else current_effect s;
     Effect.dom := None;
     Effect.deps := None;
     Effect.f := js_or type DIRTY;
     Effect.l := 0;
     Effect.fn := Some fn;
     Effect.effects := None;
     Effect.deriveds := None;
     Effect.teardown := None;
     Effect.ctx := current_component_context s;
     Effect.transitions := None |}.

(** [current_reaction.effects.push(effect)], or a new array. *)
Definition push_effect (effect : ref) (e : Effect.t) : Effect.t :=
  match Effect.effects e with
  | None => Effect.with_effects (Some [effect]) e
  | Some effects => Effect.with_effects (Some (effects ++ [effect])) e
  end.

Definition create_effect (type : Z) (fn : Closure) (sync : bool) (init : bool) : M ref :=
  let! s := get_store in
  let is_root := has_flag type ROOT_EFFECT in
  let effect := fresh (dom (heap s)) in
  set_effect effect (new_effect type fn s) ;;
  match current_effect s with
  | Some ce =>
      let! c := get_effect ce in
      modify_effect effect (Effect.with_l (Effect.l c + 1))
  | None => ret tt
  end ;;
  match current_reaction s with
  | Some cr =>
      if negb is_root then modify_effect cr (push_effect effect) else ret tt
  | None => ret tt
  end ;;
  (if init then
     if sync then
       let! previously_flushing_effect := (let! s := get_store in ret (is_flushing_effect s)) in
       try_finally
         (set_is_flushing_effect true ;;
          call_execute_effect effect ;;
          modify_effect effect (fun e => Effect.with_f (js_or (Effect.f e) EFFECT_RAN) e))
         (set_is_flushing_effect previously_flushing_effect)
     else schedule_effect effect
   else ret tt) ;;
  ret effect.

Definition effect_active : M bool :=
  let! s := get_store in
  match current_effect s with
  | Some ce =>
      let! c := get_effect ce in
      ret (js_and (Effect.f c) (js_or BRANCH_EFFECT ROOT_EFFECT) =? 0)
  | None => ret false
  end.

Definition orphan_effect_message (rune : string) : string :=
  String.append "ERR_SVELTE_ORPHAN_EFFECT"
    (if DEV
     then String.append ": The Svelte "
            (String.append rune " rune can only be used during component initialisation.")
     else "").

Definition user_effect (fn : Closure) : M ref :=
  let! s := get_store in
  match current_effect s with
  | None => throw (Error (orphan_effect_message "$effect"))
  | Some ce =>
      let! c := get_effect ce in
      let! defer :=
        (if has_flag (Effect.f c) RENDER_EFFECT then
           match current_component_context s with
           | Some cc =>
               fun w => match contexts (store w) !! cc with
                        | Some context => Ok (negb (ComponentContext.m context)) w
                        | None => Stuck
                        end
           | None => ret false
           end
         else ret false) in
      let! effect := create_effect EFFECT fn false (negb defer) in
      (if defer then
         match current_component_context s with
         | Some cc =>
             modify_store (fun s =>
               with_contexts
                 (alter (fun context =>
                           ComponentContext.make (ComponentContext.m context)
                             (Some (array (ComponentContext.e context) ++ [effect])))
                        cc (contexts s)) s)
         | None => stuck
         end
       else ret tt) ;;
      ret effect
  end.

Definition pre_effect (fn : Closure) : M ref := create_effect PRE_EFFECT fn true true.

Definition user_pre_effect (fn : Closure) : M ref :=
  let! s := get_store in
  match current_effect s with
  | None => throw (Error (orphan_effect_message "$effect.pre"))
  | Some _ => pre_effect fn
  end.

Definition effect (fn : Closure) : M ref := create_effect EFFECT fn false true.

Definition render_effect (fn : Closure) : M ref := create_effect RENDER_EFFECT fn true true.

Definition block (fn : Closure) : M ref :=
  create_effect (js_or RENDER_EFFECT BLOCK_EFFECT) fn true true.

Definition branch (fn : Closure) : M ref :=
  create_effect (js_or RENDER_EFFECT BRANCH_EFFECT) fn true true.

Fixpoint destroy_effect (fuel : nat) (effect : ref) : M unit :=
  match fuel with
  | O => stuck
  | S fuel' =>
      destroy_children (destroy_effect fuel') effect ;;
      remove_reactions effect 0 ;;
      set_signal_status effect DESTROYED ;;
      let! e := get_effect effect in
      match Effect.transitions e with
      | Some transitions => for_each transitions (fun transition => log (Ev_transition_stop transition))
      | None => ret tt
      end ;;
      match Effect.teardown e with
      | Some teardown => log (Ev_teardown effect teardown)
      | None => ret tt
      end ;;
      match Effect.dom e with
      | Some dom => remove dom
      | None => ret tt
      end ;;
      modify_effect effect (fun e =>
        {| Effect.parent := Effect.parent e;
           Effect.dom := None;
           Effect.deps := None;
           Effect.f := Effect.f e;
           Effect.l := Effect.l e;
           Effect.fn := None;
           Effect.effects := None;
           Effect.deriveds := Effect.deriveds e;
           Effect.teardown := None;
           Effect.ctx := None;
           Effect.transitions := Effect.transitions e |})
  end.

(** [effect_root] returns the closure [() => destroy_effect(effect)]; the
    model returns the effect, and [call_root_disposer] is the call of
    that closure. *)
Definition effect_root (fn : Closure) : M ref :=
  create_effect ROOT_EFFECT (untracked fn) true true.

Definition call_root_disposer (fuel : nat) (effect : ref) : M unit :=
  destroy_effect fuel effect.

(** The continuation [fn] handed to [out] by [pause_effect] and
    [pause_effects]. *)
Definition call_fn (fuel : nat) (effects : list ref) (callback : Closure) : M unit :=
  for_each effects (destroy_effect fuel) ;;
  log (Ev_callback callback).

(** [check = () => --remaining || fn()], the closure numbered [k]. *)
Definition check (fuel : nat) (k : nat) : M unit :=
  let! s := get_store in
  match pending s !! k with
  | None => stuck
  | Some p =>
      let remaining := remaining p - 1 in
      modify_store (fun s =>
        with_pending (<[k := {| remaining := remaining;
                                to_destroy := to_destroy p;
                                callback := callback p |}]> (pending s)) s) ;;
      if remaining =? 0 then call_fn fuel (to_destroy p) (callback p) else ret tt
  end.

Definition out (fuel : nat) (transitions : list Transition)
    (effects : list ref) (callback : Closure) : M unit :=
  let remaining := Z.of_nat (length transitions) in
  if 0 <? remaining then
    let! s := get_store in
    let k := fresh (dom (pending s)) in
    modify_store (fun s =>
      with_pending (<[k := {| remaining := remaining;
                              to_destroy := effects;
                              callback := callback |}]> (pending s)) s) ;;
    for_each transitions (fun transition => log (Ev_transition_out transition k))
  else call_fn fuel effects callback.

Definition transparent (child : Effect.t) : bool :=
  has_flag (Effect.f child) IS_ELSEIF || has_flag (Effect.f child) BRANCH_EFFECT.

Fixpoint pause_children (fuel : nat) (effect : ref) (transitions : list Transition)
    (local : bool) : M (list Transition) :=
  match fuel with
  | O => stuck
  | S fuel' =>
      let! e := get_effect effect in
      if has_flag (Effect.f e) INERT then ret transitions
      else
        set_effect effect (Effect.with_f (js_xor (Effect.f e) INERT) e) ;;
        let transitions :=
          match Effect.transitions e with
          | Some ts => transitions ++ filter (fun t => orb (is_global t) local = true) ts
          | None => transitions
          end in
        match Effect.effects e with
        | Some children =>
            for_each_acc children transitions (fun child transitions =>
              let! c := get_effect child in
              pause_children fuel' child transitions (if transparent c then local else false))
        | None => ret transitions
        end
  end.

Definition pause_effect (fuel : nat) (effect : ref) (callback : Closure) : M unit :=
  let! transitions := pause_children fuel effect [] true in
  out fuel transitions [effect] callback.

Definition pause_effects (fuel : nat) (effects : list ref) (callback : Closure) : M unit :=
  let! transitions :=
    for_each_acc effects [] (fun effect transitions =>
      pause_children fuel effect transitions true) in
  out fuel transitions effects callback.

Fixpoint resume_children (fuel : nat) (effect : ref) (local : bool) : M unit :=
  match fuel with
  | O => stuck
  | S fuel' =>
      let! e := get_effect effect in
      if negb (has_flag (Effect.f e) INERT) then ret tt
      else
        set_effect effect (Effect.with_f (js_xor (Effect.f e) INERT) e) ;;
        let! dirty := call_check_dirtiness effect in
        (if dirty then call_execute_effect effect else ret tt) ;;
        let! e := get_effect effect in
        match Effect.effects e with
        | Some children =>
            for_each children (fun child =>
              let! c := get_effect child in
              resume_children fuel' child (if transparent c then local else false))
        | None => ret tt
        end ;;
        let! e := get_effect effect in
        match Effect.transitions e with
        | Some ts =>
            for_each (filter (fun t => orb (is_global t) local = true) ts)
              (fun transition => log (Ev_transition_in transition))
        | None => ret tt
        end
  end.

Definition resume_effect (fuel : nat) (effect : ref) : M unit :=
  resume_children fuel effect true.

End Effects.

(** ** Ownership trees

    [effects.js] reaches the nodes it owns through the arrays [effects]
    (and, for destruction, [deriveds]). A [Tree] is the shape of what a
    walk from a node finds; the spec's data model makes ownership a tree,
    every node having one owner, which [NoDup (nodes t)] says. *)

#[local] Set Warnings "-register-all".

Inductive Tree := Node (r : ref) (kids : list Tree).

Definition root (t : Tree) : ref := let 'Node r _ := t in r.

Fixpoint nodes (t : Tree) : list ref :=
  match t with Node r ts => r :: flat_map nodes ts end.

(** Post-order: the order in which a depth-first teardown finishes nodes. *)
Fixpoint post_order (t : Tree) : list ref :=
  match t with Node r ts => flat_map post_order ts ++ [r] end.

Fixpoint height (t : Tree) : nat :=
  match t with Node _ ts => S (max_list (map height ts)) end.

Section Shape.

(** [owned e]: the references the walk follows from a node. *)
Variable owned : Effect.t -> list ref.

Inductive shaped (h : gmap ref Effect.t) : Tree -> Prop :=
| shaped_node r ts e :
    h !! r = Some e ->
    owned e = map root ts ->
    Forall (shaped h) ts ->
    shaped h (Node r ts).

(** Two heaps that give the nodes of [t] the same owned references. *)
Definition same_owned (rs : list ref) (h h' : gmap ref Effect.t) : Prop :=
  forall n, n ∈ rs ->
    forall e, h !! n = Some e -> exists e', h' !! n = Some e' /\ owned e' = owned e.

End Shape.

(** ** What pausing does, following the spec *)

Definition set_heap (h : gmap ref Effect.t) (w : World) : World :=
  {| store := with_heap h (store w); trace := trace w |}.

Section PauseSpec.

Context {K : Constants}.

Definition inert (e : Effect.t) : bool := has_flag (Effect.f e) INERT.

Definition toggle_inert (e : Effect.t) : Effect.t :=
  Effect.with_f (js_xor (Effect.f e) INERT) e.

(** The transitions of a node that play: the global ones, and the local
    ones when the walk is still within the family of its origin. *)
Definition eligible (local : bool) (e : Effect.t) : list Transition :=
  match Effect.transitions e with
  | Some ts => filter (fun t => orb (is_global t) local = true) ts
  | None => []
  end.

Definition local_for (h : gmap ref Effect.t) (local : bool) (child : ref) : bool :=
  match h !! child with
  | Some c => if transparent c then local else false
  | None => false
  end.

(** The nodes whose inert flag a pause flips, in the order of the walk:
    a subtree whose root is already inert is skipped. *)
Fixpoint paused (h : gmap ref Effect.t) (t : Tree) : list ref :=
  match t with
  | Node r ts =>
      match h !! r with
      | Some e => if inert e then [] else r :: flat_map (paused h) ts
      | None => []
      end
  end.

(** The transitions a pause collects, in the order of the walk. *)
Fixpoint collected (h : gmap ref Effect.t) (local : bool) (t : Tree) : list Transition :=
  match t with
  | Node r ts =>
      match h !! r with
      | Some e =>
          if inert e then []
          else eligible local e
                 ++ flat_map (fun k => collected h (local_for h local (root k)) k) ts
      | None => []
      end
  end.

Definition toggle_all (rs : list ref) (h : gmap ref Effect.t) : gmap ref Effect.t :=
  foldl (fun h r => alter toggle_inert r h) h rs.

Definition children (e : Effect.t) : list ref := array (Effect.effects e).

End PauseSpec.

(** ** What destroying does, following the spec *)

Definition set_subscribers (v : gmap ref (gset ref)) (w : World) : World :=
  {| store := with_subscribers v (store w); trace := trace w |}.

Definition add_trace (evs : list Event) (w : World) : World :=
  {| store := store w; trace := trace w ++ evs |}.

Section DestroySpec.

Context {K : Constants}.

(** A destroy follows both arrays of owned nodes. *)
Definition owned_nodes (e : Effect.t) : list ref :=
  array (Effect.effects e) ++ array (Effect.deriveds e).

(** The node once [destroy_effect] is done with it. *)
Definition destroyed_node (e : Effect.t) : Effect.t :=
  {| Effect.parent := Effect.parent e;
     Effect.dom := None;
     Effect.deps := None;
     Effect.f := js_or (js_and (Effect.f e) STATUS_MASK) DESTROYED;
     Effect.l := Effect.l e;
     Effect.fn := None;
     Effect.effects := None;
     Effect.deriveds := Effect.deriveds e;
     Effect.teardown := None;
     Effect.ctx := None;
     Effect.transitions := Effect.transitions e |}.

(** The host calls a node makes when it releases its own resources. *)
Definition release_events (r : ref) (e : Effect.t) : list Event :=
  map Ev_transition_stop (default [] (Effect.transitions e))
  ++ match Effect.teardown e with Some c => [Ev_teardown r c] | None => [] end
  ++ match Effect.dom e with Some d => [Ev_remove d] | None => [] end.

(** Depth first: the children release their resources before the node. *)
Fixpoint destroy_events (h : gmap ref Effect.t) (t : Tree) : list Event :=
  match t with
  | Node r ts =>
      flat_map (destroy_events h) ts
      ++ match h !! r with Some e => release_events r e | None => [] end
  end.

Definition destroy_all (rs : list ref) (h : gmap ref Effect.t) : gmap ref Effect.t :=
  foldl (fun h r => alter destroyed_node r h) h rs.

Definition deps_of (h : gmap ref Effect.t) (n : ref) : list ref :=
  match h !! n with Some e => default [] (Effect.deps e) | None => [] end.

Definition unsubscribe (n : ref) (ds : list ref) (subs : gmap ref (gset ref)) :
    gmap ref (gset ref) :=
  foldl (fun subs d => alter (fun S => S ∖ {[n]}) d subs) subs ds.

Definition unsubscribe_all (h : gmap ref Effect.t) (rs : list ref)
    (subs : gmap ref (gset ref)) : gmap ref (gset ref) :=
  foldl (fun subs n => unsubscribe n (deps_of h n) subs) subs rs.

(** The subscribers of [d] that a teardown of [rs] removes. *)
Definition unsubscribed (h : gmap ref Effect.t) (rs : list ref) (d : ref) : gset ref :=
  list_to_set (filter (fun n => d ∈ deps_of h n) rs).

(** The world after the nodes [rs] were destroyed in that order, with the
    host calls [evs]. *)
Definition destroyed (rs : list ref) (evs : list Event) (w : World) : World :=
  {| store := with_subscribers
                (unsubscribe_all (heap (store w)) rs (subscribers (store w)))
                (with_heap (destroy_all rs (heap (store w))) (store w));
     trace := trace w ++ evs |}.

(** What [destroy_effect] does to a node once its children are gone. *)
Definition release (effect : ref) : M unit :=
  (remove_reactions effect 0 ;;
   set_signal_status effect DESTROYED ;;
   let! e := get_effect effect in
   match Effect.transitions e with
   | Some transitions => for_each transitions (fun transition => log (Ev_transition_stop transition))
   | None => ret tt
   end ;;
   match Effect.teardown e with
   | Some teardown => log (Ev_teardown effect teardown)
   | None => ret tt
   end ;;
   match Effect.dom e with
   | Some dom => remove dom
   | None => ret tt
   end ;;
   modify_effect effect (fun e =>
     {| Effect.parent := Effect.parent e;
        Effect.dom := None;
        Effect.deps := None;
        Effect.f := Effect.f e;
        Effect.l := Effect.l e;
        Effect.fn := None;
        Effect.effects := None;
        Effect.deriveds := Effect.deriveds e;
        Effect.teardown := None;
        Effect.ctx := None;
        Effect.transitions := Effect.transitions e |}))%js.

End DestroySpec.

(** The host calls of a second destroy, [h] being the heap before the
    first one, which nulled [effects], [teardown] and [dom] and kept
    [deriveds] and [transitions]: the walk follows the deriveds only, and
    every node it reaches stops its transitions again. *)
Fixpoint stops_again (h : gmap ref Effect.t) (t : Tree) : list Event :=
  match t with
  | Node r ts =>
      match h !! r with
      | Some e =>
          flat_map (fun k => if bool_decide (root k ∈ array (Effect.deriveds e))
                             then stops_again h k else []) ts
          ++ map Ev_transition_stop (default [] (Effect.transitions e))
      | None => []
      end
  end.

(** The heap of [w] holds the nodes of [rs] as a destroy of [h] left
    them. *)
Definition destroyed_in {K : Constants} (h : gmap ref Effect.t) (rs : list ref) (w : World) : Prop :=
  forall n e, n ∈ rs -> h !! n = Some e -> heap (store w) !! n = Some (destroyed_node e).

(** ** What resuming does, following the spec *)

Section ResumeSpec.

Context {K : Constants}.

(** What the walks read of a node. *)
Definition links (e : Effect.t) :
    option (list ref) * option (list Transition) * bool * bool * bool :=
  (Effect.effects e, Effect.transitions e, transparent e,
   has_flag (Effect.f e) DESTROYED, inert e).

Definition flip_inert
    (lk : option (list ref) * option (list Transition) * bool * bool * bool) :=
  let '(a, b, c, d, i) := lk in (a, b, c, d, negb i).

(** [keeps flipped h h']: every node of [h] is still in [h'] with the
    same links, but for the inert flag of the nodes in [flipped]. *)
Definition keeps (flipped : list ref) (h h' : gmap ref Effect.t) : Prop :=
  forall n e, h !! n = Some e ->
    exists e', h' !! n = Some e'
               /\ links e' = (if bool_decide (n ∈ flipped) then flip_inert (links e) else links e).

Definition agree_on (rs : list ref) (h h' : gmap ref Effect.t) : Prop :=
  forall n e, n ∈ rs -> h !! n = Some e ->
    exists e', h' !! n = Some e' /\ links e' = links e.

(** The nodes whose inert flag a resume clears, in the order of the walk:
    the walk stops at a node that is not inert. *)
Fixpoint resumed (h : gmap ref Effect.t) (t : Tree) : list ref :=
  match t with
  | Node r ts =>
      match h !! r with
      | Some e => if inert e then r :: flat_map (resumed h) ts else []
      | None => []
      end
  end.

(** The host calls of a resume: at an inert node, the dirtiness check,
    then the re-execution if the check said so, then the children, and
    finally the enter transitions that are eligible. *)
Inductive resume_trace (h : gmap ref Effect.t) : bool -> Tree -> list Event -> Prop :=
| resume_stop local r ts e :
    h !! r = Some e -> inert e = false ->
    resume_trace h local (Node r ts) []
| resume_visit local r ts e (dirty : bool) trs :
    h !! r = Some e -> inert e = true ->
    Forall2 (fun k tr => resume_trace h (local_for h local (root k)) k tr) ts trs ->
    resume_trace h local (Node r ts)
      (Ev_check_dirtiness r dirty
         :: (if dirty then [Ev_execute_effect r] else [])
         ++ concat trs
         ++ map Ev_transition_in (eligible local e)).

(** The transitions a resume enters, in call order: the children come
    before the node. *)
Fixpoint entering (h : gmap ref Effect.t) (local : bool) (t : Tree) : list Transition :=
  match t with
  | Node r ts =>
      match h !! r with
      | Some e =>
          if inert e
          then flat_map (fun k => entering h (local_for h local (root k)) k) ts
                 ++ eligible local e
          else []
      | None => []
      end
  end.

End ResumeSpec.

Section ResumeHost.

Context {K : Constants} {H : Host}.

(** The assumption on the host under which a resume is described: a
    re-execution or a dirtiness check requested for a node of [rs]
    returns, and leaves the links of the nodes that exist as they are. *)
Definition host_keeps_links (rs : list ref) : Prop :=
  forall r s, r ∈ rs ->
    (exists s', execute_effect r s = Returned s' /\ keeps [] (heap s) (heap s'))
    /\ (exists b s', check_dirtiness r s = Answered b s' /\ keeps [] (heap s) (heap s')).

Definition resume_body (fuel : nat) (local : bool) (child : ref) : M unit :=
  bind (get_effect child) (fun c =>
    resume_children fuel child (if transparent c then local else false)).

Definition resume_ok (fuel : nat) (k : Tree) : Prop :=
  forall local w,
    shaped children (heap (store w)) k -> NoDup (nodes k) -> host_keeps_links (nodes k) ->
    exists w' evs,
      resume_children fuel (root k) local w = Ok tt w'
      /\ trace w' = trace w ++ evs
      /\ resume_trace (heap (store w)) local k evs
      /\ keeps (resumed (heap (store w)) k) (heap (store w)) (heap (store w')).

End ResumeHost.


(** ** Completion of a pause *)

Section PauseCompletion.

Context {K : Constants}.

(** The family of the node a pause starts from: the nodes reached from it
    through branch and else-if children only. *)
Fixpoint family (h : gmap ref Effect.t) (t : Tree) : list ref :=
  match t with
  | Node r ts =>
      r :: flat_map (fun k => if local_for h true (root k) then family h k else []) ts
  end.

Definition eligible_at (h : gmap ref Effect.t) (local : bool) (n : ref) : list Transition :=
  match h !! n with
  | Some e => eligible local e
  | None => []
  end.

(** [n] calls of a closure in a row. *)
Fixpoint times (n : nat) (m : M unit) : M unit :=
  match n with
  | O => ret tt
  | S n' => m ;; times n' m
  end.

(** The world in which the counter captured by the closure [k] holds [v]. *)
Definition with_remaining (k : nat) (v : Z) (w : World) : World :=
  {| store := with_pending
                (alter (fun p => {| remaining := v;
                                    to_destroy := to_destroy p;
                                    callback := callback p |}) k (pending (store w)))
                (store w);
     trace := trace w |}.

End PauseCompletion.

(** ** The two halves of [create_effect] *)

Section Creation.

Context {K : Constants} {H : Host}.

(** Lines 42 to 68: the node is built and registered. *)
Definition allocate_effect (type : Z) (fn : Closure) : M ref :=
  let! s := get_store in
  let is_root := has_flag type ROOT_EFFECT in
  let effect := fresh (dom (heap s)) in
  set_effect effect (new_effect type fn s) ;;
  match current_effect s with
  | Some ce =>
      let! c := get_effect ce in
      modify_effect effect (Effect.with_l (Effect.l c + 1))
  | None => ret tt
  end ;;
  match current_reaction s with
  | Some cr =>
      if negb is_root then modify_effect cr (push_effect effect) else ret tt
  | None => ret tt
  end ;;
  ret effect.

(** Lines 70 to 84: the node is run, or scheduled, or left alone. *)
Definition initialise_effect (effect : ref) (sync : bool) (init : bool) : M unit :=
  if init then
    if sync then
      let! previously_flushing_effect := (let! s := get_store in ret (is_flushing_effect s)) in
      try_finally
        (set_is_flushing_effect true ;;
         call_execute_effect effect ;;
         modify_effect effect (fun e => Effect.with_f (js_or (Effect.f e) EFFECT_RAN) e))
        (set_is_flushing_effect previously_flushing_effect)
    else schedule_effect effect
  else ret tt.

(** The node [create_effect] builds in the store [s]. *)
Definition created_effect (type : Z) (fn : Closure) (s : Store) : Effect.t :=
  match current_effect s with
  | Some ce =>
      match heap s !! ce with
      | Some c => Effect.with_l (Effect.l c + 1) (new_effect type fn s)
      | None => new_effect type fn s
      end
  | None => new_effect type fn s
  end.

(** The heap once the node is built and, unless it is a root, pushed on
    the [effects] of the current reaction. *)
Definition registered_heap (type : Z) (fn : Closure) (s : Store) : gmap ref Effect.t :=
  let effect := fresh (dom (heap s)) in
  let h := <[effect := created_effect type fn s]> (heap s) in
  match current_reaction s with
  | Some cr => if has_flag type ROOT_EFFECT then h else alter (push_effect effect) cr h
  | None => h
  end.

(** The references the module variables hold point to nodes. *)
Definition current_allocated (s : Store) : Prop :=
  (forall ce, current_effect s = Some ce -> is_Some (heap s !! ce))
  /\ (forall cr, current_reaction s = Some cr -> is_Some (heap s !! cr))
  /\ (forall cc, current_component_context s = Some cc -> is_Some (contexts s !! cc)).

(** The world in which the body of a new effect has been run by the host:
    what [create_effect] makes of the two ways the body can end. *)
Definition after_execute (effect : ref) (w : World) : Outcome unit :=
  match execute_effect effect (with_is_flushing_effect true (store w)) with
  | Returned s =>
      match heap s !! effect with
      | Some e =>
          Ok tt {| store := with_is_flushing_effect (is_flushing_effect (store w))
                              (with_heap
                                 (<[effect := Effect.with_f (js_or (Effect.f e) EFFECT_RAN) e]>
                                    (heap s)) s);
                   trace := trace w ++ [Ev_execute_effect effect] |}
      | None => Stuck
      end
  | Raised v s =>
      Throw (Thrown v)
        {| store := with_is_flushing_effect (is_flushing_effect (store w)) s;
           trace := trace w ++ [Ev_execute_effect effect] |}
  end.

End Creation.

(** ** Concrete instances

    One assignment of the flag bits, two hosts, and small worlds on which
    the statements below are exercised. *)

Definition example_constants : Constants :=
  {| bit_EFFECT := 2;
     bit_PRE_EFFECT := 3;
     bit_RENDER_EFFECT := 4;
     bit_BLOCK_EFFECT := 5;
     bit_BRANCH_EFFECT := 6;
     bit_ROOT_EFFECT := 7;
     bit_CLEAN := 9;
     bit_DIRTY := 10;
     bit_MAYBE_DIRTY := 11;
     bit_INERT := 12;
     bit_DESTROYED := 13;
     bit_IS_ELSEIF := 14;
     bit_EFFECT_RAN := 15 |}.

(** A host whose effect bodies return at once, and for which an effect is
    dirty when its [DIRTY] bit is set. *)
Definition quiet_host : Host :=
  {| DEV := false;
     execute_effect := fun _ s => Returned s;
     check_dirtiness := fun r s =>
       Answered
         (match heap s !! r with
          | Some e => @has_flag (Effect.f e) (@DIRTY example_constants)
          | None => false
          end) s |}.

(** A host whose effect bodies raise. *)
Definition throwing_host : Host :=
  {| DEV := true;
     execute_effect := fun _ s => Raised 7 s;
     check_dirtiness := fun _ s => Answered true s |}.

Definition empty_store : Store :=
  {| heap := ∅; subscribers := ∅; contexts := ∅;
     current_effect := None; current_reaction := None;
     current_component_context := None;
     is_flushing_effect := false; queue := []; pending := ∅ |}.

Definition plain_effect (f : Z) : Effect.t :=
  {| Effect.parent := None; Effect.dom := None; Effect.deps := None;
     Effect.f := f; Effect.l := 0; Effect.fn := Some (user_fn 0);
     Effect.effects := None; Effect.deriveds := None; Effect.teardown := None;
     Effect.ctx := None; Effect.transitions := None |}.

(** A component being constructed: the render effect [0] runs, and the
    component context [0] is not mounted yet. *)
Definition mounting_world : World :=
  {| store :=
       {| heap := {[ 0%nat := plain_effect (@RENDER_EFFECT example_constants) ]};
          subscribers := ∅;
          contexts := {[ 0%nat := ComponentContext.make false None ]};
          current_effect := Some 0%nat;
          current_reaction := Some 0%nat;
          current_component_context := Some 0%nat;
          is_flushing_effect := false;
          queue := [];
          pending := ∅ |};
     trace := [] |}.

(** ** Exceptions of the runtime's own *)

(** A computation from which no [Error] made by the runtime escapes: what
    it throws was raised by user code. *)
Definition never_errors {A} (m : M A) : Prop :=
  forall w x w', m w = Throw x w' -> exists v, x = Thrown v.

(** The decision [user_effect] takes: defer when the current effect is a
    render effect and there is a component context that is not mounted. *)
Definition defers {K : Constants} (s : Store) (c : Effect.t) : bool :=
  has_flag (Effect.f c) RENDER_EFFECT
  && match current_component_context s with
     | Some cc =>
         match contexts s !! cc with
         | Some context => negb (ComponentContext.m context)
         | None => false
         end
     | None => false
     end.

(** ** A pause followed by a resume *)

(** The transitions whose [in] a trace calls, in call order. *)
Definition entered (evs : list Event) : list Transition :=
  omap (fun ev => match ev with Ev_transition_in t => Some t | _ => None end) evs.

(** The events a resume can make: none of them belongs to a destroy. *)
Definition resume_event (ev : Event) : Prop :=
  match ev with
  | Ev_check_dirtiness _ _ | Ev_check_raised _ | Ev_execute_effect _
  | Ev_transition_in _ => True
  | _ => False
  end.



Section ExampleBlock.

#[local] Existing Instance example_constants.

Definition tr_local_a : Transition := {| tid := 10; is_global := false |}.
Definition tr_global : Transition := {| tid := 11; is_global := true |}.
Definition tr_local_b : Transition := {| tid := 12; is_global := false |}.

(** A block [0] with one branch [1]; the branch owns a dirty render effect
    [2], a user effect [3] and a derived [4]. The sources [100] and [101]
    know their subscribers; [9] is an effect elsewhere. *)
Definition block_heap : gmap ref Effect.t :=
  {[ 0%nat := {| Effect.parent := None; Effect.dom := Some 50%nat;
                 Effect.deps := Some [100%nat];
                 Effect.f := js_or RENDER_EFFECT BLOCK_EFFECT; Effect.l := 0;
                 Effect.fn := Some (user_fn 0);
                 Effect.effects := Some [1%nat]; Effect.deriveds := None;
                 Effect.teardown := None; Effect.ctx := None;
                 Effect.transitions := None |};
     1%nat := {| Effect.parent := Some 0%nat; Effect.dom := Some 51%nat;
                 Effect.deps := None;
                 Effect.f := js_or RENDER_EFFECT BRANCH_EFFECT; Effect.l := 1;
                 Effect.fn := Some (user_fn 1);
                 Effect.effects := Some [2%nat; 3%nat]; Effect.deriveds := Some [4%nat];
                 Effect.teardown := Some (user_fn 21); Effect.ctx := None;
                 Effect.transitions := Some [tr_local_a] |};
     2%nat := {| Effect.parent := Some 1%nat; Effect.dom := None;
                 Effect.deps := Some [100%nat; 101%nat];
                 Effect.f := js_or RENDER_EFFECT DIRTY; Effect.l := 2;
                 Effect.fn := Some (user_fn 2);
                 Effect.effects := None; Effect.deriveds := None;
                 Effect.teardown := None; Effect.ctx := None;
                 Effect.transitions := Some [tr_global] |};
     3%nat := {| Effect.parent := Some 1%nat; Effect.dom := None;
                 Effect.deps := Some [101%nat];
                 Effect.f := EFFECT; Effect.l := 2;
                 Effect.fn := Some (user_fn 3);
                 Effect.effects := None; Effect.deriveds := None;
                 Effect.teardown := Some (user_fn 23); Effect.ctx := None;
                 Effect.transitions := Some [tr_local_b] |};
     4%nat := {| Effect.parent := None; Effect.dom := None;
                 Effect.deps := Some [100%nat];
                 Effect.f := CLEAN; Effect.l := 0;
                 Effect.fn := Some (user_fn 4);
                 Effect.effects := None; Effect.deriveds := None;
                 Effect.teardown := None; Effect.ctx := None;
                 Effect.transitions := None |} ]}.

Definition block_world : World :=
  {| store :=
       {| heap := block_heap;
          subscribers := {[ 100%nat := {[ 0%nat; 2%nat; 4%nat; 9%nat ]};
                            101%nat := {[ 2%nat; 3%nat ]} ]};
          contexts := ∅;
          current_effect := None; current_reaction := None;
          current_component_context := None;
          is_flushing_effect := false; queue := []; pending := ∅ |};
     trace := [] |}.

(** What a pause or a resume of [0] walks, and what a destroy of [0] walks. *)
Definition block_tree : Tree :=
  Node 0%nat [Node 1%nat [Node 2%nat []; Node 3%nat []]].
Definition block_owned_tree : Tree :=
  Node 0%nat [Node 1%nat [Node 2%nat []; Node 3%nat []; Node 4%nat []]].

End ExampleBlock.

(** The block of [block_world] once paused. *)
Definition paused_block_world : World :=
  set_heap (@toggle_all example_constants (nodes block_tree) block_heap) block_world.

(** ** What the walks of [effects.js] leave alone *)

(** The scheduler queue, the completion closures and the module variables
    of two worlds are the same. *)
Definition same_control (w w' : World) : Prop :=
  queue (store w') = queue (store w)
  /\ pending (store w') = pending (store w)
  /\ contexts (store w') = contexts (store w)
  /\ current_effect (store w') = current_effect (store w)
  /\ current_reaction (store w') = current_reaction (store w)
  /\ current_component_context (store w') = current_component_context (store w)
  /\ is_flushing_effect (store w') = is_flushing_effect (store w).

(** Every returning run of [m] relates the world before to the world after. *)
Definition steps {A} (R : World -> World -> Prop) (m : M A) : Prop :=
  forall w a w', m w = Ok a w' -> R w w'.

(** The host calls a destroy makes: none runs an effect body, starts a
    transition or calls a completion callback. *)
Definition release_event (ev : Event) : Prop :=
  match ev with
  | Ev_transition_stop _ | Ev_teardown _ _ | Ev_remove _ => True
  | _ => False
  end.

(** What a destroy may do to a world: it adds release calls to the trace
    and leaves the scheduler, the completion closures and the module
    variables alone. *)
Definition destroy_step (w w' : World) : Prop :=
  same_control w w'
  /\ exists evs, trace w' = trace w ++ evs /\ Forall release_event evs.

(** The calls of [transition.out] that hand the closure [k] over. *)
Definition outs (k : nat) (ts : list Transition) : list Event :=
  map (fun tr => Ev_transition_out tr k) ts.

(** ** Two items of an each block

    The items [0] and [1] are branches; [0] plays a local transition and
    owns the user effect [2], whose own local transition is out of the
    family of [0]. *)

Section ExampleItems.

#[local] Existing Instance example_constants.

Definition items_heap : gmap ref Effect.t :=
  {[ 0%nat := {| Effect.parent := None; Effect.dom := Some 60%nat;
                 Effect.deps := None;
                 Effect.f := js_or RENDER_EFFECT BRANCH_EFFECT; Effect.l := 1;
                 Effect.fn := Some (user_fn 0);
                 Effect.effects := Some [2%nat]; Effect.deriveds := None;
                 Effect.teardown := None; Effect.ctx := None;
                 Effect.transitions := Some [tr_local_a] |};
     1%nat := {| Effect.parent := None; Effect.dom := Some 61%nat;
                 Effect.deps := None;
                 Effect.f := js_or RENDER_EFFECT BRANCH_EFFECT; Effect.l := 1;
                 Effect.fn := Some (user_fn 1);
                 Effect.effects := None; Effect.deriveds := None;
                 Effect.teardown := None; Effect.ctx := None;
                 Effect.transitions := Some [tr_global] |};
     2%nat := {| Effect.parent := Some 0%nat; Effect.dom := None;
                 Effect.deps := Some [100%nat];
                 Effect.f := EFFECT; Effect.l := 2;
                 Effect.fn := Some (user_fn 2);
                 Effect.effects := None; Effect.deriveds := None;
                 Effect.teardown := Some (user_fn 22); Effect.ctx := None;
                 Effect.transitions := Some [tr_local_b] |} ]}.

Definition items_world : World :=
  {| store :=
       {| heap := items_heap;
          subscribers := {[ 100%nat := {[ 2%nat; 9%nat ]} ]};
          contexts := ∅;
          current_effect := None; current_reaction := None;
          current_component_context := None;
          is_flushing_effect := false; queue := [2%nat]; pending := ∅ |};
     trace := [] |}.

Definition items_forest : list Tree := [Node 0%nat [Node 2%nat []]; Node 1%nat []].

End ExampleItems.

(** The items of [items_world] once paused. *)
Definition paused_items_world : World :=
  set_heap (@toggle_all example_constants (flat_map nodes items_forest) items_heap) items_world.

(** ** A resume when nothing changed during the pause *)

Section QuietResume.

Context {K : Constants} {H : Host}.

(** No node of [rs] became dirty: the check says no and leaves the store
    as it is. *)
Definition nothing_dirty (rs : list ref) : Prop :=
  forall r s, r ∈ rs -> check_dirtiness r s = Answered false s.

(** The host calls of such a resume: at an inert node the check, then
    the children, then the enter transitions that are eligible. *)
Fixpoint quiet_resume_events (h : gmap ref Effect.t) (local : bool) (t : Tree) : list Event :=
  match t with
  | Node r ts =>
      match h !! r with
      | Some e =>
          if inert e
          then Ev_check_dirtiness r false
                 :: flat_map (fun k => quiet_resume_events h (local_for h local (root k)) k) ts
                 ++ map Ev_transition_in (eligible local e)
          else []
      | None => []
      end
  end.

End QuietResume.

(** The flag words of the nodes [rs] are 32-bit integers, as every word
    that JavaScript's bitwise operators produce. *)
Definition flags_int32 (rs : list ref) (h : gmap ref Effect.t) : Prop :=
  forall n e, n ∈ rs -> h !! n = Some e -> is_int32 (Effect.f e).

(** A host for which nothing ever changes: bodies return at once and no
    effect is dirty. *)
Definition settled_host : Host :=
  {| DEV := false;
     execute_effect := fun _ s => Returned s;
     check_dirtiness := fun _ s => Answered false s |}.

(** ** A resume, whatever the host does

    A re-execution is the host's: the spec lets it destroy the children
    of the node and build new ones, and it can raise, as a dirtiness
    check can. What [resume_children] makes of it is written here
    following the spec, on the ownership tree, with the calls of the host
    spelled out. *)

Fixpoint subtrees (t : Tree) : list Tree :=
  match t with Node r ts => Node r ts :: flat_map subtrees ts end.

(** [n] is strictly below [a] in [t]. *)
Definition below (t : Tree) (a n : ref) : Prop :=
  exists ks, Node a ks ∈ subtrees t /\ n ∈ flat_map nodes ks.

(** The nodes whose dirtiness check answered, in call order. *)
Definition checked (evs : list Event) : list ref :=
  omap (fun ev => match ev with Ev_check_dirtiness n _ => Some n | _ => None end) evs.

(** The nodes that are re-executed are those whose check said dirty. *)
Definition runs_the_dirty (evs : list Event) : Prop :=
  forall n, Ev_execute_effect n ∈ evs <-> Ev_check_dirtiness n true ∈ evs.

(** The host calls of a reconciliation that returned. *)
Definition reconcile_events (r : ref) (b : bool) : list Event :=
  Ev_check_dirtiness r b :: (if b then [Ev_execute_effect r] else []).

Section ResumeWalkSpec.

Context {K : Constants} {H : Host}.

(** The nodes of [F] that are not in [inside] are still there, with the
    same links. *)
Definition kept_outside (F inside : list ref) (h h' : gmap ref Effect.t) : Prop :=
  forall n e, n ∈ F -> n ∉ inside -> h !! n = Some e ->
    exists e', h' !! n = Some e' /\ links e' = links e.

(** What a resume of [t] needs of the host, [F] being the nodes the walk
    may still come to. It is asked of the stores in which the subtree of
    the node is the one it has in [t]. A dirtiness check of a node of
    [t] that answers leaves the links of [F] alone. A re-execution of a
    node of [t] that returns leaves alone the links of the nodes of [F]
    outside the subtree of the node; the node is still there and has not
    become inert; and either its children are those it had, with the
    links below them left alone, or its children are nodes that are not
    inert: the re-execution rebuilt what the node owns. Either call can
    raise. *)
Definition host_reconciles (F : list ref) (t : Tree) : Prop :=
  forall r ks s, Node r ks ∈ subtrees t ->
    shaped children (heap s) (Node r ks) -> NoDup (nodes (Node r ks)) ->
    (forall b s', check_dirtiness r s = Answered b s' -> kept_outside F [] (heap s) (heap s'))
    /\ (forall s' e,
          execute_effect r s = Returned s' -> heap s !! r = Some e ->
          kept_outside F (nodes (Node r ks)) (heap s) (heap s')
          /\ exists e',
               heap s' !! r = Some e' /\ inert e' = inert e
               /\ ((children e' = children e
                    /\ kept_outside F [] (heap s) (heap s'))
                   \/ (forall c, c ∈ children e' ->
                         exists ec, heap s' !! c = Some ec /\ inert ec = false))).

Definition host_world (s : Store) (evs : list Event) (w : World) : World :=
  {| store := s; trace := trace w ++ evs |}.

(** Reconciling the deferred state of [r]: the host says whether a
    dependency of [r] changed while it was inert, and if so runs [r] at
    once. The result tells whether [r] was run. *)
Definition reconcile (r : ref) : M bool :=
  fun w =>
    match check_dirtiness r (store w) with
    | Failed v s => Throw (Thrown v) (host_world s [Ev_check_raised r] w)
    | Answered false s => Ok false (host_world s [Ev_check_dirtiness r false] w)
    | Answered true s =>
        match execute_effect r s with
        | Returned s' =>
            Ok true (host_world s' [Ev_check_dirtiness r true; Ev_execute_effect r] w)
        | Raised v s' =>
            Throw (Thrown v) (host_world s' [Ev_check_dirtiness r true; Ev_execute_effect r] w)
        end
    end.

(** The enter transitions of [r] that are eligible are triggered. *)
Definition enter (local : bool) (r : ref) : M unit :=
  fun w =>
    match heap (store w) !! r with
    | Some e => Ok tt (add_trace (map Ev_transition_in (eligible local e)) w)
    | None => Stuck
    end.

(** Modelled from the spec: walk the subtree clearing inert flags, and
    stop at a node that is not inert; reconcile the node; recurse into
    the children; finally trigger the enter transitions. The children
    that a re-execution put in the place of the old ones are new and not
    inert: there is nothing to resume below the node then. *)
Fixpoint resume_walk (local : bool) (t : Tree) {struct t} : M unit :=
  match t with
  | Node r ts =>
      let! e := get_effect r in
      if inert e then
        set_effect r (toggle_inert e) ;;
        reconcile r ;;
        let! e' := get_effect r in
        (if bool_decide (children e' = map root ts)
         then (fix each (ks : list Tree) : M unit :=
                 match ks with
                 | [] => ret tt
                 | k :: ks' =>
                     (let! c := get_effect (root k) in
                      resume_walk (if transparent c then local else false) k) ;;
                     each ks'
                 end) ts
         else ret tt) ;;
        enter local r
      else ret tt
  end.

Definition walk_body (local : bool) (k : Tree) : M unit :=
  let! c := get_effect (root k) in
  resume_walk (if transparent c then local else false) k.

(** What holds of the host calls [evs] of a walk of the trees [ks] from
    the heap [h], however the walk ends. *)
Definition walk_events (h : gmap ref Effect.t) (ks : list Tree) (evs : list Event) : Prop :=
  Forall resume_event evs
  /\ runs_the_dirty evs
  /\ (forall n, n ∈ checked evs -> n ∈ flat_map (resumed h) ks).

(** What holds once the walk has returned: the nodes outside it kept
    their links, the nodes it checked are not inert, every node inert at
    the start and reached through inert nodes was checked unless a node
    above it was re-executed, and the transitions entered are the
    eligible ones of the nodes checked. [member n] tells whether [n] is
    of the family of the origin. *)
Definition walk_returned (F : list ref) (h : gmap ref Effect.t) (member : ref -> bool)
    (ks : list Tree) (evs : list Event) (w w' : World) : Prop :=
  kept_outside F (flat_map nodes ks) (heap (store w)) (heap (store w'))
  /\ (forall n, n ∈ checked evs ->
        exists e', heap (store w') !! n = Some e' /\ inert e' = false)
  /\ (forall n, n ∈ flat_map (resumed h) ks ->
        n ∈ checked evs
        \/ exists a k, k ∈ ks /\ below k a n /\ Ev_execute_effect a ∈ evs)
  /\ entered evs
     ≡ₚ flat_map (fun n => eligible_at (heap (store w')) (member n) n) (checked evs).

Definition walk_result (F : list ref) (h : gmap ref Effect.t) (member : ref -> bool)
    (ks : list Tree) (w : World) (o : Outcome unit) : Prop :=
  match o with
  | Ok _ w' =>
      exists evs,
        trace w' = trace w ++ evs /\ walk_events h ks evs
        /\ walk_returned F h member ks evs w w'
  | Throw x w' =>
      exists v evs, x = Thrown v /\ trace w' = trace w ++ evs /\ walk_events h ks evs
  | Stuck => False
  end.

Definition walks (F : list ref) (fuel : nat) (k : Tree) : Prop :=
  forall local w,
    shaped children (heap (store w)) k -> NoDup (nodes k) ->
    (forall n, n ∈ nodes k -> n ∈ F) -> host_reconciles F k ->
    resume_children fuel (root k) local w = resume_walk local k w
    /\ walk_result F (heap (store w))
         (fun n => local && bool_decide (n ∈ family (heap (store w)) k)) [k] w
         (resume_walk local k w).

End ResumeWalkSpec.

Section PendingSpec.

Context {H : Host}.



End PendingSpec.

(** Modelled from the spec: an execution destroys the children of the
    previous run before it runs the body. This host does so for the
    effects the node lists, and its bodies build no child. *)
Definition replacing_host : Host :=
  {| DEV := false;
     execute_effect := fun r s =>
       Returned
         (with_heap
            (alter (Effect.with_effects None) r
               (@destroy_all example_constants
                  (match heap s !! r with Some e => children e | None => [] end)
                  (heap s)))
            s);
     check_dirtiness := fun r s =>
       Answered
         (match heap s !! r with
          | Some e => @has_flag (Effect.f e) (@DIRTY example_constants)
          | None => false
          end) s |}.

(** Modelled from the spec: a write to a source marks every effect that
    reads it dirty. [mark_dirty n] is what such a write does to [n]. *)
Definition mark_dirty (n : ref) (w : World) : World :=
  set_heap
    (alter (fun e => Effect.with_f (js_or (Effect.f e) (@DIRTY example_constants)) e) n
       (heap (store w)))
    w.

(** The paused block of [block_world] whose branch [1] became dirty
    during the pause. *)
Definition stale_block_world : World := mark_dirty 1%nat paused_block_world.

(** ** Ownership, as creation keeps it *)

(** The arrays [effects] make a forest of existing nodes: what an array
    lists exists, no array lists a node twice, and no two nodes list the
    same node. *)
Definition owned_once (h : gmap ref Effect.t) : Prop :=
  (forall x e c, h !! x = Some e -> c ∈ children e -> is_Some (h !! c))
  /\ (forall x e, h !! x = Some e -> NoDup (children e))
  /\ (forall x y ex ey c,
        h !! x = Some ex -> h !! y = Some ey ->
        c ∈ children ex -> c ∈ children ey -> x = y).

(** Parents exist, and [l] counts the depth: a node is one level below
    its parent. *)
Definition levelled (h : gmap ref Effect.t) : Prop :=
  forall x e p,
    h !! x = Some e -> Effect.parent e = Some p ->
    exists ep, h !! p = Some ep /\ Effect.l e = Effect.l ep + 1.

(** The node that lists an effect in its [effects] is the parent of that
    effect. *)
Definition owner_is_parent (h : gmap ref Effect.t) : Prop :=
  forall x e c ec,
    h !! x = Some e -> c ∈ children e -> h !! c = Some ec -> Effect.parent ec = Some x.

(** ** [css-props.js]

    [css_props] wraps a component in an element and hands [render_effect]
    a closure that keeps the custom properties of that element in step
    with the object [props()] returns. The closure is embedded here; the
    methods of [tag.style] belong to the host and are recorded as calls.
    [props()] is taken to return a new object at every run, as the thunks
    the compiler emits do. *)

Module CssProps.

(** A props object, [Record<string, string>]: its own enumerable
    properties in the order [for ... in] lists them. The keys of an object
    are distinct. *)
Definition Props := list (string * string).

(** [o[key]] for an own property. *)
Fixpoint get (o : Props) (key : string) : option string :=
  match o with
  | [] => None
  | (k, v) :: o' => if String.eqb k key then Some v else get o' key
  end.

Definition has_own (o : Props) (key : string) : bool :=
  match get o key with Some _ => true | None => false end.

(** The calls made on [tag.style]. *)
Inductive StyleCall :=
| removeProperty (key : string)
| setProperty (key : string) (value : string).

(** What the closure works on: the calls made so far and the captured
    variable [current_props]. *)
Record State := { calls : list StyleCall; current_props : Props }.

(** [let current_props = {}] *)
Definition initial : State := {| calls := []; current_props := [] |}.

Definition call (c : StyleCall) (st : State) : State :=
  {| calls := calls st ++ [c]; current_props := current_props st |}.

(** [for (const key in o) body(key, o[key])] *)
Definition for_in (o : Props) (body : string -> string -> State -> State) (st : State) : State :=
  foldl (fun st kv => body kv.1 kv.2 st) st o.

Section Update.

(** The names [in] finds on the prototype chain of a props object. None
    of them is enumerable: [for ... in] lists own properties only. *)
Variable inherited : string -> bool.

(** [key in o] *)
Definition has (o : Props) (key : string) : bool := has_own o key || inherited key.

(** The closure handed to [render_effect], run with [next_props] the
    object that [props()] returned. *)
Definition update (next_props : Props) (st : State) : State :=
  let st :=
    for_in (current_props st)
      (fun key _ st => if negb (has next_props key) then call (removeProperty key) st else st)
      st in
  let st := for_in next_props (fun key value st => call (setProperty key value) st) st in
  {| calls := calls st; current_props := next_props |}.

(** The runs of the closure, one for each object that [props()] returned,
    from the creation of the effect on. *)
Definition run (runs : list Props) : State :=
  foldl (fun st next_props => update next_props st) initial runs.

(** The keys whose removal one run asks for. *)
Definition removals (current next : Props) : list string :=
  filter (fun key => has next key = false) (map fst current).

End Update.

(** What the host was last asked about [key]: to set it to a value
    ([Some (Some v)]), to remove it ([Some None]), or nothing yet. *)
Definition last_request (key : string) (cs : list StyleCall) : option (option string) :=
  foldl (fun acc c =>
           match c with
           | removeProperty k => if String.eqb k key then Some None else acc
           | setProperty k v => if String.eqb k key then Some (Some v) else acc
           end) None cs.

(** [key] was a property of one of the objects. *)
Definition seen (key : string) (runs : list Props) : bool :=
  existsb (fun o => has_own o key) runs.

Definition sets (o : Props) : list StyleCall := map (fun kv => setProperty kv.1 kv.2) o.

End CssProps.

(** ** Legacy reactive statements

    [legacy_pre_effect] and [legacy_pre_effect_reset] hand closures to
    [pre_effect] and [render_effect]. The closures are embedded here, on
    the two fields of the component context they work on. The user's
    [deps] and [fn] are recorded as calls and taken to leave these fields
    alone; the object [{}] each [legacy_pre_effect] makes is a token,
    different for every statement. *)

Module Legacy.

Inductive Call :=
| call_deps (token : nat)
| call_fn (token : nat)
| call_set_l2 (value : bool)
| call_get_l2.

(** [l1]: the tokens of the statements that ran since the last reset;
    [l2_v]: the field [v] of the source [l2]. *)
Record State := { l1 : list nat; l2_v : bool; calls : list Call }.

Definition log (c : Call) (st : State) : State :=
  {| l1 := l1 st; l2_v := l2_v st; calls := calls st ++ [c] |}.

(** Modelled from the spec: [set] of [sources.js] is missing; the spec's
    write stores the new value in the source (and tells the subscribers,
    which the recorded call stands for). *)
Definition set_l2 (value : bool) (st : State) : State :=
  log (call_set_l2 value) {| l1 := l1 st; l2_v := value; calls := calls st |}.

(** Modelled from the spec: [get] of [runtime.js] is missing; the spec's
    read returns the current value of the source. *)
Definition get_l2 (st : State) : bool * State := (l2_v st, log call_get_l2 st).

(** [component_context.l1.push(token)] *)
Definition push_l1 (token : nat) (st : State) : State :=
  {| l1 := l1 st ++ [token]; l2_v := l2_v st; calls := calls st |}.

(** The closure [legacy_pre_effect] hands to [pre_effect]. *)
Definition legacy_pre_effect_body (token : nat) (st : State) : State :=
  let st := log (call_deps token) st in
  if bool_decide (token ∈ l1 st) then st
  else
    let st := push_l1 token st in
    let st := set_l2 true st in
    log (call_fn token) st.

(** The closure [legacy_pre_effect_reset] hands to [render_effect]. *)
Definition legacy_pre_effect_reset_body (st : State) : State :=
  let '(x, st) := get_l2 st in
  if x then {| l1 := []; l2_v := false; calls := calls st |} else st.

(** Runs of the closures of the statements [tokens], in that order. *)
Definition run (tokens : list nat) (st : State) : State :=
  foldl (fun st token => legacy_pre_effect_body token st) st tokens.

Definition fns (cs : list Call) : list nat :=
  omap (fun c => match c with call_fn t => Some t | _ => None end) cs.

Definition depss (cs : list Call) : list nat :=
  omap (fun c => match c with call_deps t => Some t | _ => None end) cs.

(** When some statement ran since the last reset, [l2] says so. *)
Definition armed (st : State) : Prop := l1 st <> [] -> l2_v st = true.

End Legacy.

(** Two heaps that give the nodes [rs] the same resources to release. *)
Definition same_resources (rs : list ref) (h h' : gmap ref Effect.t) : Prop :=
  forall n e, n ∈ rs -> h !! n = Some e ->
    exists e', h' !! n = Some e'
               /\ Effect.transitions e' = Effect.transitions e
               /\ Effect.teardown e' = Effect.teardown e
               /\ Effect.dom e' = Effect.dom e
               /\ Effect.effects e' = Effect.effects e
               /\ Effect.deriveds e' = Effect.deriveds e.

(** ** What [user_effect] leaves behind *)

(** [(context.e ??= []).push(effect)] on the current component context. *)
Definition record_deferred (effect : ref) (s : Store) : Store :=
  match current_component_context s with
  | Some cc =>
      with_contexts
        (alter (fun context =>
                  ComponentContext.make (ComponentContext.m context)
                    (Some (array (ComponentContext.e context) ++ [effect])))
               cc (contexts s)) s
  | None => s
  end.

(** The store after [user_effect] created [effect] under the current
    effect [c]: the effect is recorded on the component context when it
    is deferred, and enqueued otherwise. *)
Definition user_effect_store {K : Constants} (fn : Closure) (c : Effect.t) (s : Store) : Store :=
  let effect := fresh (dom (heap s)) in
  let s1 := with_heap (registered_heap EFFECT fn s) s in
  if defers s c then record_deferred effect s1 else with_queue (queue s ++ [effect]) s1.

(** The effects deferred on the current component context, in order. *)
Definition deferred (s : Store) : list ref :=
  match current_component_context s with
  | Some cc =>
      match contexts s !! cc with
      | Some context => array (ComponentContext.e context)
      | None => []
      end
  | None => []
  end.

(** ** Mount and flush

    [runtime.js], which marks a component mounted and runs the
    scheduler, is missing. *)

Section Mount.

Context {K : Constants} {H : Host}.

(** Modelled from the spec: the user effects declared during the first
    construction of a component are deferred to run once, after mount.
    When the component is mounted they are handed to the scheduler, in
    the order of their creation, and the context is marked mounted. *)
Definition mount (cc : ref) : M unit :=
  let! s := get_store in
  match contexts s !! cc with
  | None => stuck
  | Some context =>
      for_each (array (ComponentContext.e context)) schedule_effect ;;
      modify_store (fun s =>
        with_contexts (<[cc := ComponentContext.make true None]> (contexts s)) s)
  end.

(** Modelled from the spec: a flush is a pass over the queued effects;
    each is taken off the queue and executed, unless it is found
    destroyed; an exception ends the pass and leaves the effects not yet
    reached in the queue. The priority the spec gives to the kinds of
    effects is not modelled: the queue is taken in order. *)
Fixpoint flush_effects (rs : list ref) : M unit :=
  match rs with
  | [] => ret tt
  | r :: rs' =>
      modify_store (fun s => with_queue (tail (queue s)) s) ;;
      let! e := get_effect r in
      (if has_flag (Effect.f e) DESTROYED then ret tt else call_execute_effect r) ;;
      flush_effects rs'
  end.

Definition flush : M unit :=
  let! s := get_store in flush_effects (queue s).

(** The effects of [rs] that a flush finds alive. *)
Definition alive (h : gmap ref Effect.t) (rs : list ref) : list ref :=
  List.filter (fun r => match h !! r with
                        | Some e => negb (has_flag (Effect.f e) DESTROYED)
                        | None => false
                        end) rs.

(** The executions that a flush of [rs] asks for return; they may
    enqueue more effects, and leave the effects of [rs] in place, as
    alive as they were. *)
Definition host_runs (rs : list ref) : Prop :=
  forall r s, r ∈ rs ->
    exists s' more, execute_effect r s = Returned s'
               /\ queue s' = queue s ++ more
               /\ forall n e, n ∈ rs -> heap s !! n = Some e ->
                    exists e', heap s' !! n = Some e'
                               /\ has_flag (Effect.f e') DESTROYED
                                  = has_flag (Effect.f e) DESTROYED.

End Mount.

(** * Proofs *)

#[local] Set Warnings "-clear-no-such-hyp".

Lemma to_int32_range z : is_int32 (to_int32 z).
Proof.
  unfold is_int32, to_int32.
  pose proof (Z.mod_pos_bound (z + 2 ^ 31) (2 ^ 32) ltac:(lia)). lia.
Qed.

Lemma to_int32_id z : is_int32 z -> to_int32 z = z.
Proof.
  unfold is_int32, to_int32. intros H.
  rewrite Z.mod_small by lia. lia.
Qed.

Lemma to_int32_mod z : to_int32 z mod 2 ^ 32 = z mod 2 ^ 32.
Proof.
  unfold to_int32.
  rewrite Zminus_mod, Z.mod_mod by lia.
  rewrite <- Zminus_mod. f_equal. lia.
Qed.

Lemma to_int32_testbit z i : 0 <= i < 32 -> Z.testbit (to_int32 z) i = Z.testbit z i.
Proof.
  intros Hi.
  rewrite <- (Z.mod_pow2_bits_low (to_int32 z) 32 i) by lia.
  rewrite <- (Z.mod_pow2_bits_low z 32 i) by lia.
  now rewrite to_int32_mod.
Qed.

Lemma mask_int32 k : 0 <= k < 31 -> is_int32 (mask k).
Proof.
  intros Hk. unfold is_int32, mask. rewrite Z.shiftl_1_l.
  split; [ pose proof (Z.pow_pos_nonneg 2 k); lia | ].
  apply Z.pow_lt_mono_r; lia.
Qed.

Lemma mask_testbit k i : 0 <= k -> Z.testbit (mask k) i = bool_decide (i = k).
Proof.
  intros Hk. unfold mask. rewrite Z.shiftl_1_l.
  case_bool_decide as Hik.
  - subst. apply Z.pow2_bits_true. lia.
  - apply Z.pow2_bits_false. congruence.
Qed.

(** [(x & (1 << k)) !== 0] reads bit [k] of [x]. *)
Lemma js_and_mask_test x k :
  0 <= k < 31 -> negb (js_and x (mask k) =? 0) = Z.testbit x k.
Proof.
  intros Hk. unfold js_and.
  rewrite (to_int32_id (mask k)) by (apply mask_int32; lia).
  rewrite <- (to_int32_testbit x k) by lia.
  unfold mask. rewrite Z.shiftl_1_l.
  destruct (Z.testbit (to_int32 x) k) eqn:Hb.
  - apply negb_true_iff, Z.eqb_neq. intros H0.
    assert (Hbit : Z.testbit (Z.land (to_int32 x) (2 ^ k)) k = true).
    { rewrite Z.land_spec, Hb, Z.pow2_bits_true by lia. reflexivity. }
    rewrite H0, Z.bits_0 in Hbit. discriminate.
  - apply negb_false_iff, Z.eqb_eq. apply Z.bits_inj'. intros n Hn.
    rewrite Z.land_spec, Z.bits_0.
    destruct (Z.eq_dec n k) as [->|Hne].
    + rewrite Hb. reflexivity.
    + rewrite Z.pow2_bits_false by congruence. apply andb_false_r.
Qed.

Lemma js_or_testbit a b i :
  0 <= i < 32 -> Z.testbit (js_or a b) i = Z.testbit a i || Z.testbit b i.
Proof. intros Hi. unfold js_or. rewrite Z.lor_spec, !to_int32_testbit by lia. reflexivity. Qed.

Lemma js_and_testbit a b i :
  0 <= i < 32 -> Z.testbit (js_and a b) i = Z.testbit a i && Z.testbit b i.
Proof. intros Hi. unfold js_and. rewrite Z.land_spec, !to_int32_testbit by lia. reflexivity. Qed.

Lemma js_xor_testbit a b i :
  0 <= i < 32 -> Z.testbit (js_xor a b) i = xorb (Z.testbit a i) (Z.testbit b i).
Proof. intros Hi. unfold js_xor. rewrite Z.lxor_spec, !to_int32_testbit by lia. reflexivity. Qed.

Lemma js_not_testbit a i :
  0 <= i < 32 -> Z.testbit (js_not a) i = negb (Z.testbit a i).
Proof. intros Hi. unfold js_not. rewrite Z.lnot_spec, to_int32_testbit by lia. reflexivity. Qed.

Lemma Tree_ind' (P : Tree -> Prop) :
  (forall r ts, Forall P ts -> P (Node r ts)) -> forall t, P t.
Proof.
  intros IH. fix F 1. intros [r ts]. apply IH.
  induction ts as [|t ts IHts]; constructor; [ apply F | exact IHts ].
Qed.

Lemma elem_of_flat_map {A B} (g : A -> list B) (xs : list A) (y : B) :
  y ∈ flat_map g xs <-> exists x, x ∈ xs /\ y ∈ g x.
Proof.
  split.
  - intros Hy. apply list_elem_of_In, in_flat_map in Hy as (x & H1 & H2).
    exists x. split; apply list_elem_of_In; assumption.
  - intros (x & H1 & H2). apply list_elem_of_In, in_flat_map.
    exists x. split; apply list_elem_of_In; assumption.
Qed.

Section ShapeFacts.

Variable owned : Effect.t -> list ref.

Lemma shaped_same_owned h h' t :
  shaped owned h t -> same_owned owned (nodes t) h h' -> shaped owned h' t.
Proof.
  induction t as [r ts IH] using Tree_ind'. intros Hs Hsame.
  inversion Hs as [r' ts' e Hr Ho Hk]; subst.
  destruct (Hsame r ltac:(simpl; left) e Hr) as (e' & Hr' & Ho').
  econstructor; [ exact Hr' | congruence | ].
  rewrite Forall_forall in IH, Hk. apply Forall_forall. intros k Hin.
  apply IH; [ exact Hin | apply Hk; exact Hin | ].
  intros n Hn. apply Hsame. simpl. right.
  apply elem_of_flat_map. eauto.
Qed.

Lemma shaped_nodes_allocated h t n :
  shaped owned h t -> n ∈ nodes t -> is_Some (h !! n).
Proof.
  induction t as [r ts IH] using Tree_ind'. intros Hs Hn.
  inversion Hs as [r' ts' e Hr Ho Hk]; subst.
  simpl in Hn. apply elem_of_cons in Hn as [->|Hn]; [ eauto | ].
  apply elem_of_flat_map in Hn as (k & Hk1 & Hk2).
  rewrite Forall_forall in IH, Hk. eauto.
Qed.

End ShapeFacts.

Lemma set_heap_id w : set_heap (heap (store w)) w = w.
Proof. destruct w as [[] ?]; reflexivity. Qed.

Lemma set_heap_set_heap h h' w : set_heap h (set_heap h' w) = set_heap h w.
Proof. reflexivity. Qed.

Lemma heap_set_heap h w : heap (store (set_heap h w)) = h.
Proof. reflexivity. Qed.

Lemma get_effect_ok r e w :
  heap (store w) !! r = Some e -> get_effect r w = Ok e w.
Proof. intros Hr. unfold get_effect. rewrite Hr. reflexivity. Qed.

Lemma set_effect_ok r e w :
  set_effect r e w = Ok tt (set_heap (<[r := e]> (heap (store w))) w).
Proof. reflexivity. Qed.

Lemma bind_ok {A B} (m : M A) (k : A -> M B) w a w' :
  m w = Ok a w' -> bind m k w = k a w'.
Proof. intros Hm. unfold bind. rewrite Hm. reflexivity. Qed.

Section PauseSpecFacts.

Context {K : Constants}.

Lemma toggle_all_app rs rs' h :
  toggle_all (rs ++ rs') h = toggle_all rs' (toggle_all rs h).
Proof. unfold toggle_all. apply foldl_app. Qed.

Lemma toggle_all_lookup_notin rs h n :
  n ∉ rs -> toggle_all rs h !! n = h !! n.
Proof.
  revert h. induction rs as [|r rs IH]; intros h Hn; [ reflexivity | ].
  simpl. apply not_elem_of_cons in Hn as [Hne Hn].
  rewrite IH by exact Hn. apply lookup_alter_ne. congruence.
Qed.

Lemma toggle_all_lookup_in rs h n :
  NoDup rs -> n ∈ rs -> toggle_all rs h !! n = toggle_inert <$> h !! n.
Proof.
  revert h. induction rs as [|r rs IH]; intros h Hnd Hn; [ inversion Hn | ].
  apply NoDup_cons in Hnd as [Hr Hnd]. simpl.
  apply elem_of_cons in Hn as [->|Hn].
  - rewrite toggle_all_lookup_notin by exact Hr. apply lookup_alter_eq.
  - rewrite IH by assumption. rewrite lookup_alter_ne; [ reflexivity | ].
    intros ->. contradiction.
Qed.

Lemma paused_subset h t n : n ∈ paused h t -> n ∈ nodes t.
Proof.
  induction t as [r ts IH] using Tree_ind'. simpl.
  destruct (h !! r) as [e|]; [ | intros Hn; inversion Hn ].
  destruct (inert e); [ intros Hn; inversion Hn | ].
  intros Hn. apply elem_of_cons in Hn as [->|Hn]; [ left | right ].
  apply elem_of_flat_map in Hn as (k & Hk & Hn).
  rewrite Forall_forall in IH. apply elem_of_flat_map. eauto.
Qed.

(** The walk only looks at the nodes of the tree. *)
Lemma paused_agree h h' t :
  (forall n, n ∈ nodes t -> h' !! n = h !! n) -> paused h' t = paused h t.
Proof.
  induction t as [r ts IH] using Tree_ind'. intros Hag. simpl.
  rewrite (Hag r) by (simpl; left).
  destruct (h !! r) as [e|]; [ | reflexivity ].
  destruct (inert e); [ reflexivity | ]. f_equal.
  assert (Hks : forall k, k ∈ ts -> paused h' k = paused h k).
  { intros k Hk. rewrite Forall_forall in IH. apply IH; [ exact Hk | ].
    intros n Hn. apply Hag. simpl. right. apply elem_of_flat_map. eauto. }
  clear IH Hag. induction ts as [|k ts IHts]; [ reflexivity | ].
  simpl. rewrite Hks by left. f_equal. apply IHts.
  intros k' Hk'. apply Hks. right. exact Hk'.
Qed.

Lemma collected_agree h h' local t :
  (forall n, n ∈ nodes t -> h' !! n = h !! n) ->
  collected h' local t = collected h local t.
Proof.
  revert local. induction t as [r ts IH] using Tree_ind'. intros local Hag. simpl.
  rewrite (Hag r) by (simpl; left).
  destruct (h !! r) as [e|]; [ | reflexivity ].
  destruct (inert e); [ reflexivity | ]. f_equal.
  assert (Hks : forall k, k ∈ ts ->
            collected h' (local_for h' local (root k)) k
            = collected h (local_for h local (root k)) k).
  { intros k Hk. rewrite Forall_forall in IH.
    assert (Hag' : forall n, n ∈ nodes k -> h' !! n = h !! n).
    { intros n Hn. apply Hag. simpl. right. apply elem_of_flat_map. eauto. }
    unfold local_for. rewrite (Hag' (root k)) by (destruct k; simpl; left).
    apply IH; assumption. }
  clear IH Hag. induction ts as [|k ts IHts]; [ reflexivity | ].
  simpl. rewrite Hks by left. f_equal. apply IHts.
  intros k' Hk'. apply Hks. right. exact Hk'.
Qed.

End PauseSpecFacts.

Lemma flat_map_ext_elem {A B} (g g' : A -> list B) (xs : list A) :
  (forall x, x ∈ xs -> g x = g' x) -> flat_map g xs = flat_map g' xs.
Proof.
  induction xs as [|x xs IH]; intros Hg; [ reflexivity | ].
  simpl. rewrite Hg by left. f_equal. apply IH. intros y Hy. apply Hg. right. exact Hy.
Qed.

Lemma alter_lookup_insert (g : Effect.t -> Effect.t) r e (h : gmap ref Effect.t) :
  h !! r = Some e -> <[r := g e]> h = alter g r h.
Proof.
  intros Hr. apply map_eq. intros n.
  destruct (decide (n = r)) as [->|Hne].
  - rewrite lookup_insert_eq, lookup_alter_eq, Hr. reflexivity.
  - rewrite lookup_insert_ne, lookup_alter_ne by congruence. reflexivity.
Qed.

Lemma root_in_nodes t : root t ∈ nodes t.
Proof. destruct t. simpl. left. Qed.

Lemma shaped_agree owned h h' t :
  shaped owned h t -> (forall n, n ∈ nodes t -> h' !! n = h !! n) -> shaped owned h' t.
Proof.
  intros Hs Hag. eapply shaped_same_owned; [ exact Hs | ].
  intros n Hn e He. exists e. rewrite Hag by exact Hn. auto.
Qed.

Section PauseWalk.

Context {K : Constants}.

Lemma pause_children_kids (ts : list Tree) (fuel : nat) :
  Forall (fun k => forall acc local w,
            shaped children (heap (store w)) k -> NoDup (nodes k) ->
            pause_children fuel (root k) acc local w
            = Ok (acc ++ collected (heap (store w)) local k)
                 (set_heap (toggle_all (paused (heap (store w)) k) (heap (store w))) w)) ts ->
  forall acc local w,
    Forall (shaped children (heap (store w))) ts ->
    NoDup (flat_map nodes ts) ->
    for_each_acc (map root ts) acc
      (fun child transitions =>
         bind (get_effect child) (fun c =>
           pause_children fuel child transitions (if transparent c then local else false))) w
    = Ok (acc ++ flat_map (fun k => collected (heap (store w))
                                     (local_for (heap (store w)) local (root k)) k) ts)
         (set_heap (toggle_all (flat_map (paused (heap (store w))) ts) (heap (store w))) w).
Proof.
  induction ts as [|k ts IHts]; intros IH acc local w Hsh Hnd.
  - simpl. unfold ret. rewrite app_nil_r, set_heap_id. reflexivity.
  - apply Forall_cons in IH as [IHk IH]. apply Forall_cons in Hsh as [Hk Hsh].
    simpl in Hnd. apply NoDup_app in Hnd as (Hndk & Hdisj & Hndts).
    set (h := heap (store w)) in *.
    assert (Hc : exists c, h !! root k = Some c).
    { inversion Hk; subst; simpl; eauto. }
    destruct Hc as [c Hc].
    cbn [map for_each_acc].
    rewrite (bind_ok _ _ w (acc ++ collected h (local_for h local (root k)) k)
               (set_heap (toggle_all (paused h k) h) w)).
    2:{ rewrite (bind_ok _ _ w c w) by (apply get_effect_ok; exact Hc).
        rewrite IHk by assumption. unfold local_for. fold h. rewrite Hc. reflexivity. }
    assert (Hag : forall n, n ∈ flat_map nodes ts -> toggle_all (paused h k) h !! n = h !! n).
    { intros n Hn. apply toggle_all_lookup_notin. intros Hp.
      apply (Hdisj n); [ apply (paused_subset h); exact Hp | exact Hn ]. }
    rewrite IHts; [ | exact IH | | exact Hndts ].
    2:{ rewrite heap_set_heap. apply Forall_forall. intros k' Hk'.
        rewrite Forall_forall in Hsh. eapply shaped_agree; [ apply Hsh; exact Hk' | ].
        intros n Hn. apply Hag. apply elem_of_flat_map. eauto. }
    rewrite heap_set_heap, set_heap_set_heap.
    cbn [flat_map]. rewrite toggle_all_app, <- app_assoc. f_equal.
    + do 2 f_equal. apply flat_map_ext_elem. intros k' Hk'.
      assert (Hag' : forall n, n ∈ nodes k' -> toggle_all (paused h k) h !! n = h !! n).
      { intros n Hn. apply Hag. apply elem_of_flat_map. eauto. }
      unfold local_for. rewrite (Hag' (root k')) by apply root_in_nodes.
      apply collected_agree. exact Hag'.
    + f_equal. f_equal. apply flat_map_ext_elem. intros k' Hk'.
      apply paused_agree. intros n Hn. apply Hag. apply elem_of_flat_map. eauto.
Qed.

(** The walk of [pause_children] over the heap does what the spec says
    of the ownership tree. *)
Lemma pause_children_spec (t : Tree) :
  forall fuel acc local w,
    shaped children (heap (store w)) t -> NoDup (nodes t) -> (height t <= fuel)%nat ->
    pause_children fuel (root t) acc local w
    = Ok (acc ++ collected (heap (store w)) local t)
         (set_heap (toggle_all (paused (heap (store w)) t) (heap (store w))) w).
Proof.
  induction t as [r ts IH] using Tree_ind'. intros fuel acc local w Hsh Hnd Hfuel.
  destruct fuel as [|fuel]; [ simpl in Hfuel; lia | ].
  inversion Hsh as [r' ts' e Hr Ho Hk]; subst.
  cbn [pause_children root paused collected].
  rewrite (bind_ok _ _ w e w) by (apply get_effect_ok; exact Hr).
  rewrite Hr. unfold inert.
  destruct (has_flag (Effect.f e) INERT) eqn:Hin.
  - unfold ret. cbn [toggle_all foldl]. rewrite app_nil_r, set_heap_id. reflexivity.
  - set (h := heap (store w)) in *.
    rewrite (bind_ok _ _ w tt (set_heap (<[r := toggle_inert e]> h) w)) by apply set_effect_ok.
    simpl in Hnd. apply NoDup_cons in Hnd as [Hrts Hnd].
    assert (Hag : forall n, n ∈ flat_map nodes ts -> <[r := toggle_inert e]> h !! n = h !! n).
    { intros n Hn. apply lookup_insert_ne. intros ->. contradiction. }
    assert (Hkids :
      for_each_acc (map root ts)
        (acc ++ eligible local e)
        (fun child transitions =>
           bind (get_effect child) (fun c =>
             pause_children fuel child transitions (if transparent c then local else false)))
        (set_heap (<[r := toggle_inert e]> h) w)
      = Ok ((acc ++ eligible local e)
              ++ flat_map (fun k => collected h (local_for h local (root k)) k) ts)
           (set_heap (toggle_all (r :: flat_map (paused h) ts) h) w)).
    { rewrite pause_children_kids; [ | | | exact Hnd ].
      - rewrite heap_set_heap, set_heap_set_heap. f_equal.
        + f_equal. apply flat_map_ext_elem. intros k' Hk'.
          assert (Hag' : forall n, n ∈ nodes k' -> <[r := toggle_inert e]> h !! n = h !! n).
          { intros n Hn. apply Hag. apply elem_of_flat_map. eauto. }
          unfold local_for. rewrite (Hag' (root k')) by apply root_in_nodes.
          apply collected_agree. exact Hag'.
        + f_equal.
          change (toggle_all (r :: flat_map (paused h) ts) h)
            with (toggle_all (flat_map (paused h) ts) (alter toggle_inert r h)).
          rewrite <- (alter_lookup_insert toggle_inert r e h) by exact Hr.
          f_equal. apply flat_map_ext_elem. intros k' Hk'.
          apply paused_agree. intros n Hn. apply Hag. apply elem_of_flat_map. eauto.
      - apply Forall_forall. intros k' Hk' acc' local' w' Hs' Hnd'.
        rewrite Forall_forall in IH. apply IH; [ exact Hk' | exact Hs' | exact Hnd' | ].
        simpl in Hfuel.
        assert (height k' <= max_list (map height ts))%nat.
        { apply max_list_elem_of_le. apply list_elem_of_fmap. exists k'. auto. }
        lia.
      - rewrite heap_set_heap. apply Forall_forall. intros k' Hk'.
        rewrite Forall_forall in Hk. eapply shaped_agree; [ apply Hk; exact Hk' | ].
        intros n Hn. apply Hag. apply elem_of_flat_map. eauto. }
    unfold children, array in Ho.
    rewrite <- app_assoc in Hkids.
    unfold eligible in *.
    destruct (Effect.effects e) as [cs|] eqn:Hcs; simpl in Ho.
    + subst cs. destruct (Effect.transitions e) as [trs|]; [ exact Hkids | ].
      rewrite app_nil_r in Hkids. exact Hkids.
    + destruct ts as [|k ts]; [ | discriminate ].
      simpl in Hkids. unfold ret in *.
      destruct (Effect.transitions e) as [trs|]; [ exact Hkids | ].
      rewrite app_nil_r in Hkids. exact Hkids.
Qed.

End PauseWalk.

Lemma for_each_app {A} (xs ys : list A) (body : A -> M unit) w :
  for_each (xs ++ ys) body w = bind (for_each xs body) (fun _ => for_each ys body) w.
Proof.
  revert w. induction xs as [|x xs IH]; intros w; [ reflexivity | ].
  cbn [app for_each]. unfold bind in *. destruct (body x w); auto.
Qed.

Lemma for_each_log {A} (xs : list A) (ev : A -> Event) w :
  for_each xs (fun x => log (ev x)) w = Ok tt (add_trace (map ev xs) w).
Proof.
  revert w. induction xs as [|x xs IH]; intros w.
  - unfold add_trace. simpl. rewrite app_nil_r. destruct w; reflexivity.
  - cbn [for_each]. unfold bind, log at 1. rewrite IH. unfold add_trace. simpl.
    rewrite <- app_assoc. reflexivity.
Qed.

Section DestroySpecFacts.

Context {K : Constants}.

Lemma destroy_all_app rs rs' h :
  destroy_all (rs ++ rs') h = destroy_all rs' (destroy_all rs h).
Proof. apply foldl_app. Qed.

Lemma unsubscribe_all_app h rs rs' subs :
  unsubscribe_all h (rs ++ rs') subs = unsubscribe_all h rs' (unsubscribe_all h rs subs).
Proof. apply foldl_app. Qed.

Lemma destroy_all_lookup_notin rs h n :
  n ∉ rs -> destroy_all rs h !! n = h !! n.
Proof.
  revert h. induction rs as [|r rs IH]; intros h Hn; [ reflexivity | ].
  simpl. apply not_elem_of_cons in Hn as [Hne Hn].
  rewrite IH by exact Hn. apply lookup_alter_ne. congruence.
Qed.

Lemma destroy_all_lookup_in rs h n :
  NoDup rs -> n ∈ rs -> destroy_all rs h !! n = destroyed_node <$> h !! n.
Proof.
  revert h. induction rs as [|r rs IH]; intros h Hnd Hn; [ inversion Hn | ].
  apply NoDup_cons in Hnd as [Hr Hnd]. simpl.
  apply elem_of_cons in Hn as [->|Hn].
  - rewrite destroy_all_lookup_notin by exact Hr. apply lookup_alter_eq.
  - rewrite IH by assumption. rewrite lookup_alter_ne; [ reflexivity | ].
    intros ->. contradiction.
Qed.

Lemma unsubscribe_all_agree h h' rs subs :
  (forall n, n ∈ rs -> h' !! n = h !! n) ->
  unsubscribe_all h' rs subs = unsubscribe_all h rs subs.
Proof.
  revert subs. induction rs as [|r rs IH]; intros subs Hag; [ reflexivity | ].
  change (unsubscribe_all h' (r :: rs) subs)
    with (unsubscribe_all h' rs (unsubscribe r (deps_of h' r) subs)).
  change (unsubscribe_all h (r :: rs) subs)
    with (unsubscribe_all h rs (unsubscribe r (deps_of h r) subs)).
  assert (Hd : deps_of h' r = deps_of h r) by (unfold deps_of; rewrite (Hag r) by left; reflexivity).
  rewrite Hd. apply IH. intros n Hn. apply Hag. right. exact Hn.
Qed.

Lemma post_order_nodes t n : n ∈ post_order t <-> n ∈ nodes t.
Proof.
  induction t as [r ts IH] using Tree_ind'. simpl.
  rewrite elem_of_app, list_elem_of_singleton, elem_of_cons, !elem_of_flat_map.
  rewrite Forall_forall in IH.
  split.
  - intros [ (k & Hk & Hn) | -> ]; [ right; exists k; split; [ exact Hk | apply IH; assumption ] | left; reflexivity ].
  - intros [ -> | (k & Hk & Hn) ]; [ right; reflexivity | left; exists k; split; [ exact Hk | apply IH; assumption ] ].
Qed.

Lemma destroy_events_agree h h' t :
  (forall n, n ∈ nodes t -> h' !! n = h !! n) ->
  destroy_events h' t = destroy_events h t.
Proof.
  induction t as [r ts IH] using Tree_ind'. intros Hag. simpl.
  rewrite (Hag r) by (simpl; left). f_equal.
  apply flat_map_ext_elem. intros k Hk. rewrite Forall_forall in IH.
  apply IH; [ exact Hk | ]. intros n Hn. apply Hag. simpl. right.
  apply elem_of_flat_map. eauto.
Qed.

Lemma destroyed_nil w : destroyed [] [] w = w.
Proof.
  unfold destroyed. simpl. rewrite app_nil_r. destruct w as [[] ?]. reflexivity.
Qed.

Lemma destroyed_destroyed rs evs rs' evs' w :
  (forall n, n ∈ rs' -> n ∉ rs) ->
  destroyed rs' evs' (destroyed rs evs w) = destroyed (rs ++ rs') (evs ++ evs') w.
Proof.
  intros Hdisj. unfold destroyed. simpl.
  rewrite destroy_all_app, unsubscribe_all_app, app_assoc.
  rewrite (unsubscribe_all_agree (heap (store w)) (destroy_all rs (heap (store w)))) at 1.
  2:{ intros n Hn. apply destroy_all_lookup_notin. auto. }
  reflexivity.
Qed.

Lemma destroy_effect_unfold fuel effect :
  destroy_effect (S fuel) effect
  = bind (destroy_children (destroy_effect fuel) effect) (fun _ => release effect).
Proof. reflexivity. Qed.

Lemma for_each_remove_reaction r ds w :
  for_each ds (remove_reaction r) w
  = Ok tt (set_subscribers (unsubscribe r ds (subscribers (store w))) w).
Proof.
  revert w. induction ds as [|d ds IH]; intros w.
  - destruct w as [[] ?]; reflexivity.
  - cbn [for_each]. unfold bind, remove_reaction at 1, modify_store at 1.
    rewrite IH. reflexivity.
Qed.

Lemma remove_reactions_ok r e w :
  heap (store w) !! r = Some e ->
  remove_reactions r 0 w
  = Ok tt (set_subscribers
             (unsubscribe r (default [] (Effect.deps e)) (subscribers (store w))) w).
Proof.
  intros Hr. unfold remove_reactions.
  rewrite (bind_ok _ _ w e w) by (apply get_effect_ok; exact Hr).
  destruct (Effect.deps e) as [ds|].
  - rewrite drop_0. apply for_each_remove_reaction.
  - destruct w as [[] ?]; reflexivity.
Qed.

Lemma release_ok r e w :
  heap (store w) !! r = Some e ->
  release r w = Ok tt (destroyed [r] (release_events r e) w).
Proof.
  intros Hr. unfold release.
  rewrite (bind_ok _ _ _ _ _ (remove_reactions_ok r e w Hr)).
  unfold set_signal_status, modify_effect.
  match goal with |- bind (bind (get_effect r) ?k) ?k' ?w1 = _ =>
    rewrite (bind_ok (bind (get_effect r) k) k' w1 tt
               (set_heap (<[r := Effect.with_f (js_or (js_and (Effect.f e) STATUS_MASK) DESTROYED) e]>
                            (heap (store w1))) w1))
  end.
  2:{ rewrite (bind_ok _ _ _ e _) by (apply get_effect_ok; exact Hr). reflexivity. }
  match goal with |- bind (get_effect r) ?k ?w1 = _ =>
    rewrite (bind_ok (get_effect r) k w1
               (Effect.with_f (js_or (js_and (Effect.f e) STATUS_MASK) DESTROYED) e) w1)
  end.
  2:{ apply get_effect_ok. simpl. apply lookup_insert_eq. }
  cbn [Effect.with_f Effect.transitions Effect.teardown Effect.dom].
  unfold destroyed, release_events, remove.
  destruct w as [s tr]. destruct s. simpl in Hr.
  destruct (Effect.transitions e) as [trs|];
    destruct (Effect.teardown e) as [c|];
    destruct (Effect.dom e) as [d|];
    unfold bind; rewrite ?for_each_log; unfold log, ret, get_effect, set_effect, modify_store,
      add_trace, set_heap, set_subscribers, with_heap, with_subscribers; simpl;
    rewrite ?lookup_insert_eq; simpl; rewrite ?insert_insert_eq, ?app_nil_r, <- ?app_assoc;
    rewrite <- (alter_lookup_insert destroyed_node r e) by exact Hr;
    unfold deps_of; rewrite Hr; reflexivity.
Qed.

End DestroySpecFacts.

Section DestroyWalk.

Context {K : Constants}.

Lemma height_kid k r ts : k ∈ ts -> (height k < height (Node r ts))%nat.
Proof.
  intros Hk. simpl.
  assert (height k <= max_list (map height ts))%nat; [ | lia ].
  apply max_list_elem_of_le. apply list_elem_of_fmap. exists k. auto.
Qed.

Lemma destroy_effect_kids (ts : list Tree) (fuel : nat) :
  Forall (fun k => forall w,
            shaped owned_nodes (heap (store w)) k -> NoDup (nodes k) ->
            destroy_effect fuel (root k) w
            = Ok tt (destroyed (post_order k) (destroy_events (heap (store w)) k) w)) ts ->
  forall w,
    Forall (shaped owned_nodes (heap (store w))) ts ->
    NoDup (flat_map nodes ts) ->
    for_each (map root ts) (destroy_effect fuel) w
    = Ok tt (destroyed (flat_map post_order ts)
               (flat_map (destroy_events (heap (store w))) ts) w).
Proof.
  induction ts as [|k ts IHts]; intros IH w Hsh Hnd.
  - simpl. rewrite destroyed_nil. reflexivity.
  - apply Forall_cons in IH as [IHk IH]. apply Forall_cons in Hsh as [Hk Hsh].
    simpl in Hnd. apply NoDup_app in Hnd as (Hndk & Hdisj & Hndts).
    set (h := heap (store w)) in *.
    cbn [map for_each flat_map].
    rewrite (bind_ok _ _ _ _ _ (IHk w Hk Hndk)). fold h.
    assert (Hag : forall n, n ∈ flat_map nodes ts ->
              heap (store (destroyed (post_order k) (destroy_events h k) w)) !! n = h !! n).
    { intros n Hn. simpl. apply destroy_all_lookup_notin. intros Hp.
      apply post_order_nodes in Hp. apply (Hdisj n); assumption. }
    rewrite IHts; [ | exact IH | | exact Hndts ].
    2:{ apply Forall_forall. intros k' Hk'.
        rewrite Forall_forall in Hsh. eapply shaped_agree; [ apply Hsh; exact Hk' | ].
        intros n Hn. apply Hag. apply elem_of_flat_map. eauto. }
    rewrite destroyed_destroyed.
    2:{ intros n Hn Hp. apply elem_of_flat_map in Hn as (k' & Hk' & Hn).
        apply post_order_nodes in Hn, Hp. apply (Hdisj n); [ exact Hp | ].
        apply elem_of_flat_map. eauto. }
    do 3 f_equal. apply flat_map_ext_elem. intros k' Hk'.
    apply destroy_events_agree. intros n Hn. apply Hag. apply elem_of_flat_map. eauto.
Qed.

(** The walk of [destroy_effect] over the heap tears the ownership tree
    down depth first. *)
Lemma destroy_effect_spec (t : Tree) :
  forall fuel w,
    shaped owned_nodes (heap (store w)) t -> NoDup (nodes t) -> (height t <= fuel)%nat ->
    destroy_effect fuel (root t) w
    = Ok tt (destroyed (post_order t) (destroy_events (heap (store w)) t) w).
Proof.
  induction t as [r ts IH] using Tree_ind'. intros fuel w Hsh Hnd Hfuel.
  destruct fuel as [|fuel]; [ simpl in Hfuel; lia | ].
  inversion Hsh as [r' ts' e Hr Ho Hk]; subst.
  simpl in Hnd. apply NoDup_cons in Hnd as [Hrts Hnd].
  set (h := heap (store w)) in *.
  rewrite destroy_effect_unfold. cbn [root post_order destroy_events].
  assert (Hkids : destroy_children (destroy_effect fuel) r w
                  = Ok tt (destroyed (flat_map post_order ts)
                             (flat_map (destroy_events h) ts) w)).
  { unfold destroy_children.
    rewrite (bind_ok _ _ w e w) by (apply get_effect_ok; exact Hr).
    rewrite <- for_each_app. fold (owned_nodes e). rewrite Ho.
    apply destroy_effect_kids; [ | exact Hk | exact Hnd ].
    apply Forall_forall. intros k' Hk' w' Hs' Hnd'.
    rewrite Forall_forall in IH. apply IH; [ exact Hk' | exact Hs' | exact Hnd' | ].
    pose proof (height_kid k' r ts Hk'). lia. }
  rewrite (bind_ok _ _ _ _ _ Hkids).
  assert (Hr' : heap (store (destroyed (flat_map post_order ts)
                               (flat_map (destroy_events h) ts) w)) !! r = Some e).
  { simpl. rewrite destroy_all_lookup_notin; [ exact Hr | ].
    intros Hp. apply Hrts. apply elem_of_flat_map in Hp as (k & Hk1 & Hk2).
    apply post_order_nodes in Hk2. apply elem_of_flat_map. eauto. }
  rewrite (release_ok r e _ Hr'). rewrite destroyed_destroyed.
  - fold h. rewrite Hr. reflexivity.
  - intros n Hn Hp. apply list_elem_of_singleton in Hn as ->.
    apply Hrts. apply elem_of_flat_map in Hp as (k & Hk1 & Hk2).
    apply post_order_nodes in Hk2. apply elem_of_flat_map. eauto.
Qed.

End DestroyWalk.

(** ** Reading flags under the assumptions on the constants *)

Section FlagFacts.

Context {K : Constants}.

Hypothesis HK : constants_ok.

Lemma bits_in_range k : k ∈ all_bits -> 0 <= k < 31.
Proof. destruct HK as [_ Hrg]. rewrite Forall_forall in Hrg. apply Hrg. Qed.

Lemma bits_distinct i j k k' :
  all_bits !! i = Some k -> all_bits !! j = Some k' -> i <> j -> k <> k'.
Proof.
  destruct HK as [Hnd _]. intros Hi Hj Hij ->.
  apply Hij. eapply NoDup_lookup; eauto.
Qed.

Lemma has_flag_testbit x k : k ∈ all_bits -> has_flag x (mask k) = Z.testbit x k.
Proof. intros Hk. apply js_and_mask_test, bits_in_range, Hk. Qed.

Lemma has_flag_xor x k k' :
  k ∈ all_bits -> k' ∈ all_bits ->
  has_flag (js_xor x (mask k')) (mask k) = xorb (has_flag x (mask k)) (bool_decide (k = k')).
Proof.
  intros Hk Hk'. rewrite !has_flag_testbit by assumption.
  pose proof (bits_in_range k Hk). pose proof (bits_in_range k' Hk').
  rewrite js_xor_testbit by lia. rewrite mask_testbit by lia. reflexivity.
Qed.

Lemma has_flag_or x k k' :
  k ∈ all_bits -> k' ∈ all_bits ->
  has_flag (js_or x (mask k')) (mask k) = has_flag x (mask k) || bool_decide (k = k').
Proof.
  intros Hk Hk'. rewrite !has_flag_testbit by assumption.
  pose proof (bits_in_range k Hk). pose proof (bits_in_range k' Hk').
  rewrite js_or_testbit by lia. rewrite mask_testbit by lia. reflexivity.
Qed.

Lemma has_flag_mask k k' :
  k ∈ all_bits -> k' ∈ all_bits -> has_flag (mask k') (mask k) = bool_decide (k = k').
Proof.
  intros Hk Hk'. rewrite has_flag_testbit by assumption.
  pose proof (bits_in_range k' Hk'). apply mask_testbit. lia.
Qed.

End FlagFacts.

Ltac bit_in := unfold all_bits; repeat first [ apply list_elem_of_here | apply list_elem_of_further ].

Ltac bit_ne HK i j :=
  apply (bits_distinct HK i%nat j%nat); [ reflexivity | reflexivity | discriminate ].

(** ** What resuming does, following the spec *)

Section ResumeSpecFacts.

Context {K : Constants}.

Lemma links_eq e e' :
  links e' = links e ->
  Effect.effects e' = Effect.effects e /\ Effect.transitions e' = Effect.transitions e
  /\ transparent e' = transparent e
  /\ has_flag (Effect.f e') DESTROYED = has_flag (Effect.f e) DESTROYED
  /\ inert e' = inert e.
Proof. unfold links. intros Hl. inversion Hl. auto. Qed.

Lemma links_flip_eq e e' :
  links e' = flip_inert (links e) ->
  Effect.effects e' = Effect.effects e /\ Effect.transitions e' = Effect.transitions e
  /\ transparent e' = transparent e
  /\ has_flag (Effect.f e') DESTROYED = has_flag (Effect.f e) DESTROYED
  /\ inert e' = negb (inert e).
Proof. unfold links, flip_inert. intros Hl. inversion Hl. auto. Qed.

Lemma keeps_refl h : keeps [] h h.
Proof. intros n e Hn. exists e. split; [ exact Hn | reflexivity ]. Qed.


Lemma keeps_trans rs1 rs2 h h1 h2 :
  keeps rs1 h h1 -> keeps rs2 h1 h2 -> (forall n, n ∈ rs1 -> n ∉ rs2) ->
  keeps (rs1 ++ rs2) h h2.
Proof.
  intros H1 H2 Hdisj n e Hn.
  destruct (H1 n e Hn) as (e1 & Hn1 & Hl1).
  destruct (H2 n e1 Hn1) as (e2 & Hn2 & Hl2).
  exists e2. split; [ exact Hn2 | ]. rewrite Hl2, Hl1.
  destruct (bool_decide_reflect (n ∈ rs1)) as [Hr1|Hr1];
    destruct (bool_decide_reflect (n ∈ rs2)) as [Hr2|Hr2];
    destruct (bool_decide_reflect (n ∈ rs1 ++ rs2)) as [Hr|Hr];
    rewrite elem_of_app in Hr; try reflexivity; try tauto.
  exfalso. eapply Hdisj; eauto.
Qed.

Lemma keeps_agree_on flipped rs h h' :
  keeps flipped h h' -> (forall n, n ∈ rs -> n ∉ flipped) -> agree_on rs h h'.
Proof.
  intros Hk Hdisj n e Hn He. destruct (Hk n e He) as (e' & He' & Hl).
  exists e'. split; [ exact He' | ]. rewrite Hl.
  case_bool_decide; [ exfalso; eapply Hdisj; eauto | reflexivity ].
Qed.

Lemma agree_on_shaped h h' t :
  shaped children h t -> agree_on (nodes t) h h' -> shaped children h' t.
Proof.
  intros Hs Hag. eapply shaped_same_owned; [ exact Hs | ].
  intros n Hn e He. destruct (Hag n e Hn He) as (e' & He' & Hl).
  exists e'. split; [ exact He' | ]. unfold children.
  apply links_eq in Hl as (-> & _). reflexivity.
Qed.

Lemma agree_on_kid h h' r ts k :
  agree_on (nodes (Node r ts)) h h' -> k ∈ ts -> agree_on (nodes k) h h'.
Proof.
  intros Hag Hk n e Hn. apply Hag. simpl. right. apply elem_of_flat_map. eauto.
Qed.

Lemma agree_on_local_for h h' local n e :
  h !! n = Some e -> agree_on [n] h h' -> local_for h' local n = local_for h local n.
Proof.
  intros He Hag. destruct (Hag n e ltac:(left) He) as (e' & He' & Hl).
  unfold local_for. rewrite He, He'.
  apply links_eq in Hl as (_ & _ & -> & _). reflexivity.
Qed.

Lemma resumed_subset h t n : n ∈ resumed h t -> n ∈ nodes t.
Proof.
  induction t as [r ts IH] using Tree_ind'. simpl.
  destruct (h !! r) as [e|]; [ | intros Hn; inversion Hn ].
  destruct (inert e); [ | intros Hn; inversion Hn ].
  intros Hn. apply elem_of_cons in Hn as [->|Hn]; [ left | right ].
  apply elem_of_flat_map in Hn as (k & Hk & Hn).
  rewrite Forall_forall in IH. apply elem_of_flat_map. eauto.
Qed.

Lemma resumed_agree h h' t :
  shaped children h t -> agree_on (nodes t) h h' -> resumed h' t = resumed h t.
Proof.
  induction t as [r ts IH] using Tree_ind'. intros Hs Hag.
  inversion Hs as [r' ts' e Hr Ho Hk]; subst.
  destruct (Hag r e ltac:(simpl; left) Hr) as (e' & Hr' & Hl).
  simpl. rewrite Hr, Hr'.
  apply links_eq in Hl as (_ & _ & _ & _ & ->).
  destruct (inert e); [ | reflexivity ]. f_equal.
  apply flat_map_ext_elem. intros k Hkin. rewrite Forall_forall in IH, Hk.
  apply IH; [ exact Hkin | apply Hk; exact Hkin | ].
  eapply agree_on_kid; eauto.
Qed.

Lemma resume_trace_agree h h' t :
  forall local evs,
    shaped children h t -> agree_on (nodes t) h h' ->
    resume_trace h' local t evs -> resume_trace h local t evs.
Proof.
  induction t as [r ts IH] using Tree_ind'. intros local evs Hs Hag Htr.
  inversion Hs as [r' ts' e Hr Ho Hk]; subst.
  destruct (Hag r e ltac:(simpl; left) Hr) as (e' & Hr' & Hl).
  apply links_eq in Hl as (_ & Htrs & _ & _ & Hine).
  inversion Htr as [? ? ? e'' Hr'' Hin | ? ? ? e'' dirty trs Hr'' Hin Hall]; subst;
    rewrite Hr' in Hr''; inversion Hr''; subst e''.
  - eapply resume_stop; [ exact Hr | congruence ].
  - replace (eligible local e') with (eligible local e) by (unfold eligible; rewrite Htrs; reflexivity).
    eapply resume_visit; [ exact Hr | congruence | ].
    clear Htr. revert trs Hall. rewrite Forall_forall in IH, Hk.
    assert (Hks : forall k, k ∈ ts -> k ∈ ts) by auto.
    revert Hks. generalize ts at 1 3 4 as ks.
    induction ks as [|k ks IHks]; intros Hks trs Hall; inversion Hall; subst; constructor.
    + assert (Hkin : k ∈ ts) by (apply Hks; left).
      assert (Hagk : agree_on (nodes k) h h') by (eapply agree_on_kid; eauto).
      assert (Hrk : exists c, h !! root k = Some c).
      { pose proof (Hk k Hkin) as Hsk. inversion Hsk; subst; simpl; eauto. }
      destruct Hrk as [c Hc].
      rewrite <- (agree_on_local_for h h' local (root k) c Hc).
      2:{ intros n e0 Hn. apply list_elem_of_singleton in Hn as ->.
          apply Hagk. apply root_in_nodes. }
      apply IH; auto.
    + apply IHks; [ intros k' Hk'; apply Hks; right; exact Hk' | assumption ].
Qed.

End ResumeSpecFacts.

Lemma Forall2_impl_elem {A B} (P Q : A -> B -> Prop) (xs : list A) (ys : list B) :
  Forall2 P xs ys -> (forall x y, x ∈ xs -> P x y -> Q x y) -> Forall2 Q xs ys.
Proof.
  induction 1 as [|x y xs ys Hxy Hall IH]; intros Himp; constructor.
  - apply Himp; [ left | exact Hxy ].
  - apply IH. intros x' y' Hx'. apply Himp. right. exact Hx'.
Qed.

Section ResumeWalk.

Context {K : Constants} {H : Host}.

Hypothesis HK : constants_ok.

Lemma links_toggle_inert e : links (toggle_inert e) = flip_inert (links e).
Proof.
  unfold links, flip_inert, toggle_inert, transparent, inert, INERT, IS_ELSEIF,
    BRANCH_EFFECT, DESTROYED. simpl.
  rewrite !(has_flag_xor HK) by bit_in.
  assert (bit_IS_ELSEIF <> bit_INERT) by (bit_ne HK 11%nat 9%nat).
  assert (bit_BRANCH_EFFECT <> bit_INERT) by (bit_ne HK 4%nat 9%nat).
  assert (bit_DESTROYED <> bit_INERT) by (bit_ne HK 10%nat 9%nat).
  rewrite !bool_decide_eq_false_2 by assumption.
  rewrite bool_decide_eq_true_2 by reflexivity.
  rewrite !xorb_false_r, xorb_true_r. reflexivity.
Qed.

Lemma keeps_toggle h r e :
  h !! r = Some e -> keeps [r] h (<[r := toggle_inert e]> h).
Proof.
  intros Hr n e0 Hn. destruct (decide (n = r)) as [->|Hne].
  - exists (toggle_inert e). rewrite lookup_insert_eq. split; [ reflexivity | ].
    rewrite bool_decide_eq_true_2 by left.
    rewrite Hr in Hn. inversion Hn; subst. apply links_toggle_inert.
  - exists e0. rewrite lookup_insert_ne by congruence. split; [ exact Hn | ].
    rewrite bool_decide_eq_false_2; [ reflexivity | ].
    intros Hin. apply list_elem_of_singleton in Hin. contradiction.
Qed.

Lemma resume_children_kids (ts : list Tree) (fuel : nat) (local : bool) :
  Forall (resume_ok fuel) ts ->
  forall w,
    Forall (shaped children (heap (store w))) ts ->
    NoDup (flat_map nodes ts) ->
    host_keeps_links (flat_map nodes ts) ->
    exists w' trs,
      for_each (map root ts) (resume_body fuel local) w = Ok tt w'
      /\ trace w' = trace w ++ concat trs
      /\ Forall2 (fun k tr => resume_trace (heap (store w))
                                (local_for (heap (store w)) local (root k)) k tr) ts trs
      /\ keeps (flat_map (resumed (heap (store w))) ts) (heap (store w)) (heap (store w')).
Proof.
  induction ts as [|k ts IHts]; intros IH w Hsh Hnd Hhost.
  - exists w, []. simpl. rewrite app_nil_r.
    repeat split; [ constructor | apply keeps_refl ].
  - apply Forall_cons in IH as [IHk IH]. apply Forall_cons in Hsh as [Hk Hsh].
    simpl in Hnd. apply NoDup_app in Hnd as (Hndk & Hdisj & Hndts).
    set (h := heap (store w)) in *.
    assert (Hc : exists c, h !! root k = Some c).
    { inversion Hk; subst; simpl; eauto. }
    destruct Hc as [c Hc].
    destruct (IHk (local_for h local (root k)) w Hk Hndk) as (w1 & evs1 & Hrun1 & Htr1 & Hrt1 & Hkeep1).
    { intros r s Hr. apply Hhost. simpl. apply elem_of_app. left. exact Hr. }
    fold h in Hrt1, Hkeep1.
    assert (Hag : forall k', k' ∈ ts -> agree_on (nodes k') h (heap (store w1))).
    { intros k' Hk'. eapply keeps_agree_on; [ exact Hkeep1 | ].
      intros n Hn Hp. apply resumed_subset in Hp.
      apply (Hdisj n Hp). apply elem_of_flat_map. eauto. }
    destruct (IHts IH w1) as (w2 & trs & Hrun2 & Htr2 & Hrt2 & Hkeep2).
    { apply Forall_forall. intros k' Hk'. rewrite Forall_forall in Hsh.
      apply (agree_on_shaped h); auto. }
    { exact Hndts. }
    { intros r s Hr. apply Hhost. simpl. apply elem_of_app. right. exact Hr. }
    exists w2, (evs1 :: trs).
    split; [ | split; [ | split ] ].
    + cbn [map for_each]. unfold bind at 1.
      unfold resume_body at 1.
      rewrite (bind_ok _ _ w c w) by (apply get_effect_ok; exact Hc).
      unfold local_for in Hrun1. rewrite Hc in Hrun1. rewrite Hrun1. exact Hrun2.
    + rewrite Htr2, Htr1. simpl. rewrite app_assoc. reflexivity.
    + constructor; [ exact Hrt1 | ].
      eapply Forall2_impl_elem; [ exact Hrt2 | ].
      intros k' tr Hk' Hrt. simpl in Hrt.
      rewrite Forall_forall in Hsh.
      assert (Hrk : exists c', h !! root k' = Some c').
      { pose proof (Hsh k' Hk') as Hsk. inversion Hsk; subst; simpl; eauto. }
      destruct Hrk as [c' Hc'].
      rewrite (agree_on_local_for h (heap (store w1)) local (root k') c' Hc') in Hrt.
      2:{ intros n e0 Hn. apply list_elem_of_singleton in Hn as ->.
          apply (Hag k' Hk'). apply root_in_nodes. }
      eapply resume_trace_agree; eauto.
    + cbn [flat_map]. eapply keeps_trans; [ exact Hkeep1 | | ].
      * replace (flat_map (resumed h) ts) with (flat_map (resumed (heap (store w1))) ts);
          [ exact Hkeep2 | ].
        apply flat_map_ext_elem. intros k' Hk'. rewrite Forall_forall in Hsh.
        apply resumed_agree; auto.
      * intros n Hn Hp. apply resumed_subset in Hn.
        apply elem_of_flat_map in Hp as (k' & Hk' & Hp). apply resumed_subset in Hp.
        apply (Hdisj n Hn). apply elem_of_flat_map. eauto.
Qed.

Lemma call_check_dirtiness_ok r w :
  r ∈ [r] -> host_keeps_links [r] ->
  exists b w', call_check_dirtiness r w = Ok b w'
               /\ trace w' = trace w ++ [Ev_check_dirtiness r b]
               /\ keeps [] (heap (store w)) (heap (store w')).
Proof.
  intros Hin Hhost. unfold call_check_dirtiness.
  destruct (Hhost r (store w) Hin) as [_ (b & s' & Hcd & Hkc)].
  rewrite Hcd.
  exists b. eexists. split; [ reflexivity | ]. simpl. split; [ reflexivity | exact Hkc ].
Qed.

Lemma call_execute_effect_ok r w :
  r ∈ [r] -> host_keeps_links [r] ->
  exists w', call_execute_effect r w = Ok tt w'
             /\ trace w' = trace w ++ [Ev_execute_effect r]
             /\ keeps [] (heap (store w)) (heap (store w')).
Proof.
  intros Hin Hhost. unfold call_execute_effect.
  destruct (Hhost r (store w) Hin) as [(s' & Hex & Hke) _].
  simpl. rewrite Hex. eexists. split; [ reflexivity | ]. simpl. auto.
Qed.

(** The walk of [resume_children] over the heap does what the spec says
    of the ownership tree. *)
Lemma resume_children_spec (t : Tree) :
  forall fuel, (height t <= fuel)%nat -> resume_ok fuel t.
Proof.
  induction t as [r ts IH] using Tree_ind'.
  intros fuel Hfuel local w Hsh Hnd Hhost.
  destruct fuel as [|fuel]; [ simpl in Hfuel; lia | ].
  inversion Hsh as [r' ts' e Hr Ho Hk]; subst.
  simpl in Hnd. apply NoDup_cons in Hnd as [Hrts Hnd].
  set (h := heap (store w)) in *.
  cbn [resume_children root resumed].
  rewrite (bind_ok _ _ w e w) by (apply get_effect_ok; exact Hr).
  rewrite Hr. fold (inert e).
  destruct (inert e) eqn:Hin; cbn [negb].
  2:{ exists w, []. rewrite app_nil_r.
      repeat split; [ eapply resume_stop; eauto | apply keeps_refl ]. }
  assert (Hhr : host_keeps_links [r]).
  { intros r0 s Hr0. apply list_elem_of_singleton in Hr0 as ->. apply Hhost. simpl. left. }
  rewrite (bind_ok _ _ w tt (set_heap (<[r := toggle_inert e]> h) w)) by apply set_effect_ok.
  destruct (call_check_dirtiness_ok r (set_heap (<[r := toggle_inert e]> h) w))
    as (b & w2 & Hrun2 & Htr2 & Hkeep2); [ left | exact Hhr | ].
  rewrite (bind_ok _ _ _ _ _ Hrun2).
  assert (Hexec : exists w3,
            (if b then call_execute_effect r else ret tt) w2 = Ok tt w3
            /\ trace w3 = trace w2 ++ (if b then [Ev_execute_effect r] else [])
            /\ keeps [] (heap (store w2)) (heap (store w3))).
  { destruct b.
    - apply call_execute_effect_ok; [ left | exact Hhr ].
    - exists w2. rewrite app_nil_r. repeat split. apply keeps_refl. }
  destruct Hexec as (w3 & Hrun3 & Htr3 & Hkeep3).
  rewrite (bind_ok _ _ _ _ _ Hrun3).
  assert (Hkeep : keeps [r] h (heap (store w3))).
  { pose proof (keeps_trans _ _ _ _ _ (keeps_toggle h r e Hr)
                  (keeps_trans _ _ _ _ _ Hkeep2 Hkeep3 ltac:(intros ? Hx; inversion Hx))
                  ltac:(intros ? _ Hx; inversion Hx)) as Hkt.
    simpl in Hkt. exact Hkt. }
  destruct (Hkeep r e Hr) as (e3 & Hr3 & Hl3).
  rewrite bool_decide_eq_true_2 in Hl3 by left.
  apply links_flip_eq in Hl3 as (Heff3 & Htrs3 & _).
  rewrite (bind_ok _ _ _ _ _ (get_effect_ok r e3 w3 Hr3)).
  assert (Hagk : forall k, k ∈ ts -> agree_on (nodes k) h (heap (store w3))).
  { intros k Hkin. eapply keeps_agree_on; [ exact Hkeep | ].
    intros n Hn Hp. apply list_elem_of_singleton in Hp as ->.
    apply Hrts. apply elem_of_flat_map. eauto. }
  destruct (resume_children_kids ts fuel local) with (w := w3)
    as (w4 & trs & Hrun4 & Htr4 & Hrt4 & Hkeep4).
  { apply Forall_forall. intros k Hkin. rewrite Forall_forall in IH.
    apply IH; [ exact Hkin | ]. pose proof (height_kid k r ts Hkin). lia. }
  { apply Forall_forall. intros k Hkin. rewrite Forall_forall in Hk.
    apply (agree_on_shaped h); auto. }
  { exact Hnd. }
  { intros r0 s Hr0. apply Hhost. simpl. right. exact Hr0. }
  assert (Hkidsrun :
    match Effect.effects e3 with
    | Some children =>
        for_each children (fun child =>
          bind (get_effect child) (fun c =>
            resume_children fuel child (if transparent c then local else false)))
    | None => ret tt
    end w3 = Ok tt w4).
  { rewrite Heff3. unfold children, array in Ho.
    destruct (Effect.effects e) as [cs|]; simpl in Ho.
    - subst cs. exact Hrun4.
    - destruct ts; [ exact Hrun4 | discriminate ]. }
  rewrite (bind_ok _ _ _ _ _ Hkidsrun).
  assert (Hres : flat_map (resumed (heap (store w3))) ts = flat_map (resumed h) ts).
  { apply flat_map_ext_elem. intros k Hkin. rewrite Forall_forall in Hk.
    apply resumed_agree; auto. }
  rewrite Hres in Hkeep4.
  assert (Hkeep' : keeps (r :: flat_map (resumed h) ts) h (heap (store w4))).
  { apply (keeps_trans [r] _ h (heap (store w3))); [ exact Hkeep | exact Hkeep4 | ].
    intros n Hn Hp. apply list_elem_of_singleton in Hn as ->.
    apply Hrts. apply elem_of_flat_map in Hp as (k & Hkin & Hp).
    apply resumed_subset in Hp. apply elem_of_flat_map. eauto. }
  destruct (Hkeep' r e Hr) as (e4 & Hr4 & Hl4).
  rewrite bool_decide_eq_true_2 in Hl4 by left.
  apply links_flip_eq in Hl4 as (_ & Htrs4 & _).
  rewrite (bind_ok _ _ _ _ _ (get_effect_ok r e4 w4 Hr4)).
  exists (add_trace (map Ev_transition_in (eligible local e)) w4).
  eexists. split; [ | split; [ | split ] ].
  - unfold eligible. rewrite Htrs4.
    destruct (Effect.transitions e) as [trs'|].
    + rewrite for_each_log. reflexivity.
    + unfold ret, add_trace. simpl. rewrite app_nil_r. destruct w4; reflexivity.
  - simpl. rewrite Htr4, Htr3, Htr2. simpl. rewrite <- !app_assoc. simpl. reflexivity.
  - eapply resume_visit; [ exact Hr | exact Hin | ].
    eapply Forall2_impl_elem; [ exact Hrt4 | ].
    intros k tr Hkin Hrt. simpl in Hrt. rewrite Forall_forall in Hk.
    assert (Hrk : exists c, h !! root k = Some c).
    { pose proof (Hk k Hkin) as Hsk. inversion Hsk; subst; simpl; eauto. }
    destruct Hrk as [c Hc].
    rewrite (agree_on_local_for h (heap (store w3)) local (root k) c Hc) in Hrt.
    2:{ intros n e0 Hn. apply list_elem_of_singleton in Hn as ->.
        apply (Hagk k Hkin). apply root_in_nodes. }
    eapply resume_trace_agree; eauto.
  - exact Hkeep'.
Qed.

End ResumeWalk.

Section DestroyFacts.

Context {K : Constants}.

Lemma unsubscribe_lookup n ds (subs : gmap ref (gset ref)) d :
  unsubscribe n ds subs !! d
  = (fun S => if bool_decide (d ∈ ds) then S ∖ {[n]} else S) <$> subs !! d.
Proof.
  revert subs. induction ds as [|d0 ds IH]; intros subs.
  - simpl. destruct (subs !! d); reflexivity.
  - change (unsubscribe n (d0 :: ds) subs)
      with (unsubscribe n ds (alter (fun S => S ∖ {[n]}) d0 subs)).
    rewrite IH. destruct (decide (d = d0)) as [->|Hne].
    + rewrite lookup_alter_eq. rewrite (bool_decide_eq_true_2 (d0 ∈ d0 :: ds)) by left.
      destruct (subs !! d0) as [S|]; [ | reflexivity ]. simpl. f_equal.
      case_bool_decide; [ | reflexivity ]. set_solver.
    + rewrite lookup_alter_ne by congruence.
      destruct (subs !! d) as [S|]; [ | reflexivity ]. simpl. f_equal.
      destruct (bool_decide_reflect (d ∈ ds)) as [Hin|Hin].
      * rewrite bool_decide_eq_true_2 by (right; exact Hin). reflexivity.
      * rewrite bool_decide_eq_false_2; [ reflexivity | ].
        intros Hc. apply elem_of_cons in Hc as [?|?]; contradiction.
Qed.

Lemma unsubscribe_all_lookup h rs (subs : gmap ref (gset ref)) d :
  unsubscribe_all h rs subs !! d = (fun S => S ∖ unsubscribed h rs d) <$> subs !! d.
Proof.
  revert subs. induction rs as [|r rs IH]; intros subs.
  - simpl. destruct (subs !! d) as [S|]; [ | reflexivity ]. simpl. f_equal.
    unfold unsubscribed. simpl. set_solver.
  - change (unsubscribe_all h (r :: rs) subs)
      with (unsubscribe_all h rs (unsubscribe r (deps_of h r) subs)).
    rewrite IH, unsubscribe_lookup.
    destruct (subs !! d) as [S|]; [ | reflexivity ]. simpl. f_equal.
    unfold unsubscribed. rewrite filter_cons.
    destruct (decide (d ∈ deps_of h r)) as [Hin|Hin].
    + rewrite bool_decide_eq_true_2 by exact Hin. simpl. set_solver.
    + rewrite bool_decide_eq_false_2 by exact Hin. reflexivity.
Qed.

Lemma elem_of_unsubscribed h rs d n :
  n ∈ unsubscribed h rs d <-> n ∈ rs /\ d ∈ deps_of h n.
Proof.
  unfold unsubscribed. rewrite elem_of_list_to_set, list_elem_of_filter. tauto.
Qed.

Hypothesis HK : constants_ok.

Lemma destroyed_node_status e :
  has_flag (Effect.f (destroyed_node e)) DESTROYED = true
  /\ has_flag (Effect.f (destroyed_node e)) DIRTY = false
  /\ has_flag (Effect.f (destroyed_node e)) MAYBE_DIRTY = false
  /\ has_flag (Effect.f (destroyed_node e)) CLEAN = false.
Proof.
  unfold destroyed_node, STATUS_MASK, DESTROYED, DIRTY, MAYBE_DIRTY, CLEAN. simpl.
  assert (bit_DIRTY <> bit_DESTROYED) by (bit_ne HK 7%nat 10%nat).
  assert (bit_MAYBE_DIRTY <> bit_DESTROYED) by (bit_ne HK 8%nat 10%nat).
  assert (bit_CLEAN <> bit_DESTROYED) by (bit_ne HK 6%nat 10%nat).
  pose proof (bits_in_range HK bit_DESTROYED ltac:(bit_in)).
  pose proof (bits_in_range HK bit_DIRTY ltac:(bit_in)).
  pose proof (bits_in_range HK bit_MAYBE_DIRTY ltac:(bit_in)).
  pose proof (bits_in_range HK bit_CLEAN ltac:(bit_in)).
  rewrite !(has_flag_or HK) by bit_in.
  rewrite !(has_flag_testbit HK) by bit_in.
  rewrite !js_and_testbit, !js_not_testbit, !js_or_testbit, !mask_testbit by lia.
  repeat split; repeat case_bool_decide; try congruence;
    rewrite ?orb_true_r, ?andb_false_r; reflexivity.
Qed.

End DestroyFacts.

Lemma post_order_Permutation t : post_order t ≡ₚ nodes t.
Proof.
  induction t as [r ts IH] using Tree_ind'. simpl.
  rewrite <- Permutation_cons_append. constructor.
  induction IH as [|k ts Hk _ IHts]; [ reflexivity | ].
  simpl. rewrite Hk, IHts. reflexivity.
Qed.

Lemma unsubscribed_post_order {K : Constants} h t d :
  unsubscribed h (post_order t) d = unsubscribed h (nodes t) d.
Proof.
  apply set_eq. intros n. rewrite !elem_of_unsubscribed, post_order_nodes. reflexivity.
Qed.

(** C1. [destroy_effect] destroys the children first, depth first (effects,
    then deriveds), then removes the node from the subscriber set of each
    of its deps, marks it destroyed, stops its transitions, calls its
    teardown, removes its dom and nulls its links. Every node of the
    ownership tree therefore ends destroyed, no node outside the tree is
    touched, and when a node subscribes only to its deps no subscriber
    set contains a destroyed node any more. *)
Theorem destroy_effect_cascade {K : Constants} (t : Tree) (fuel : nat) (w : World) :
  constants_ok ->
  shaped owned_nodes (heap (store w)) t ->
  NoDup (nodes t) ->
  (height t <= fuel)%nat ->
  exists w',
    destroy_effect fuel (root t) w = Ok tt w'
    /\ trace w' = trace w ++ destroy_events (heap (store w)) t
    /\ (forall n, n ∈ nodes t ->
          exists e e',
            heap (store w) !! n = Some e /\ heap (store w') !! n = Some e'
            /\ has_flag (Effect.f e') DESTROYED = true
            /\ has_flag (Effect.f e') DIRTY = false
            /\ has_flag (Effect.f e') MAYBE_DIRTY = false
            /\ has_flag (Effect.f e') CLEAN = false
            /\ Effect.effects e' = None /\ Effect.teardown e' = None
            /\ Effect.ctx e' = None /\ Effect.dom e' = None
            /\ Effect.deps e' = None /\ Effect.fn e' = None)
    /\ (forall n, n ∉ nodes t -> heap (store w') !! n = heap (store w) !! n)
    /\ (forall d,
          subscribers (store w') !! d
          = (fun S => S ∖ unsubscribed (heap (store w)) (nodes t) d)
              <$> subscribers (store w) !! d)
    /\ ((forall n d S, n ∈ nodes t -> subscribers (store w) !! d = Some S -> n ∈ S ->
           d ∈ deps_of (heap (store w)) n) ->
        forall n d S', n ∈ nodes t -> subscribers (store w') !! d = Some S' -> n ∉ S').
Proof.
  intros HK Hsh Hnd Hfuel.
  exists (destroyed (post_order t) (destroy_events (heap (store w)) t) w).
  assert (Hsubs : forall d,
            subscribers (store (destroyed (post_order t) (destroy_events (heap (store w)) t) w)) !! d
            = (fun S => S ∖ unsubscribed (heap (store w)) (nodes t) d)
                <$> subscribers (store w) !! d).
  { intros d. simpl. rewrite unsubscribe_all_lookup, unsubscribed_post_order. reflexivity. }
  split; [ apply destroy_effect_spec; assumption | ].
  split; [ reflexivity | ].
  split; [ | split; [ | split; [ exact Hsubs | ] ] ].
  - intros n Hn.
    destruct (shaped_nodes_allocated _ _ _ _ Hsh Hn) as [e He].
    exists e, (destroyed_node e). split; [ exact He | ].
    split.
    { simpl. rewrite destroy_all_lookup_in, He; [ reflexivity | | ].
      - rewrite post_order_Permutation. exact Hnd.
      - apply post_order_nodes. exact Hn. }
    destruct (destroyed_node_status HK e) as (H1 & H2 & H3 & H4).
    repeat split; assumption.
  - intros n Hn. simpl. apply destroy_all_lookup_notin.
    rewrite post_order_nodes. exact Hn.
  - intros Hcons n d S' Hn Hd Hin.
    rewrite Hsubs in Hd.
    destruct (subscribers (store w) !! d) as [S|] eqn:HS; [ | discriminate ].
    simpl in Hd. inversion Hd; subst S'.
    apply elem_of_difference in Hin as [HnS Hnot].
    apply Hnot. apply elem_of_unsubscribed. split; [ exact Hn | ].
    eapply Hcons; eauto.
Qed.

Lemma entered_app evs evs' : entered (evs ++ evs') = entered evs ++ entered evs'.
Proof. apply omap_app. Qed.

Lemma entered_ins ts : entered (map Ev_transition_in ts) = ts.
Proof. induction ts as [|x ts IH]; [ reflexivity | ]. simpl. f_equal. exact IH. Qed.

Section PauseFacts.

Context {K : Constants}.

Lemma paused_sublist h t : paused h t `sublist_of` nodes t.
Proof.
  induction t as [r ts IH] using Tree_ind'. simpl.
  destruct (h !! r) as [e|]; [ | apply sublist_nil_l ].
  destruct (inert e); [ apply sublist_nil_l | ].
  apply sublist_skip.
  induction IH as [|k ts Hk _ IHts]; [ reflexivity | ].
  simpl. apply sublist_app; assumption.
Qed.

Lemma paused_NoDup h t : NoDup (nodes t) -> NoDup (paused h t).
Proof. intros Hnd. eapply sublist_NoDup; [ exact Hnd | apply paused_sublist ]. Qed.

Lemma family_subset h t n : n ∈ family h t -> n ∈ nodes t.
Proof.
  induction t as [r ts IH] using Tree_ind'. simpl.
  intros Hn. apply elem_of_cons in Hn as [->|Hn]; [ left | right ].
  apply elem_of_flat_map in Hn as (k & Hk & Hn).
  rewrite Forall_forall in IH. apply elem_of_flat_map. exists k. split; [ exact Hk | ].
  destruct (local_for h true (root k)); [ auto | inversion Hn ].
Qed.

(** Below a child [k] of [r], being in the family of [r] is being in the
    family of [k] with [k] a branch or an else-if. *)
Lemma family_kid h r ts k n :
  NoDup (nodes (Node r ts)) -> k ∈ ts -> n ∈ nodes k ->
  n ∈ family h (Node r ts) <-> local_for h true (root k) = true /\ n ∈ family h k.
Proof.
  intros Hnd Hkin Hn. simpl in Hnd. apply NoDup_cons in Hnd as [Hrts Hnd].
  simpl. rewrite elem_of_cons, elem_of_flat_map. split.
  - intros [->|(k' & Hk' & Hn')].
    + exfalso. apply Hrts. apply elem_of_flat_map. eauto.
    + destruct (local_for h true (root k')) eqn:Hl'; [ | inversion Hn' ].
      assert (k' = k); [ | subst; auto ].
      apply family_subset in Hn'.
      destruct (list_elem_of_lookup_1 _ _ Hk') as [i Hi].
      destruct (list_elem_of_lookup_1 _ _ Hkin) as [j Hj].
      destruct (decide (i = j)) as [->|Hij]; [ congruence | ].
      exfalso. clear -Hnd Hi Hj Hij Hn Hn'.
      revert i j Hi Hj Hij.
      induction ts as [|t0 ts IHts]; intros i j Hi Hj Hij; [ inversion Hi | ].
      simpl in Hnd. apply NoDup_app in Hnd as (_ & Hdisj & Hnd').
      destruct i as [|i], j as [|j]; simpl in Hi, Hj; try congruence.
      * inversion Hi; subst. apply (Hdisj n Hn'). apply elem_of_flat_map.
        exists k. split; [ eapply list_elem_of_lookup_2; eauto | exact Hn ].
      * inversion Hj; subst. apply (Hdisj n Hn). apply elem_of_flat_map.
        exists k'. split; [ eapply list_elem_of_lookup_2; eauto | exact Hn' ].
      * eapply IHts; eauto.
  - intros [Hl Hn']. right. exists k. split; [ exact Hkin | ]. rewrite Hl. exact Hn'.
Qed.

Lemma local_family_kid h r ts k n local :
  NoDup (nodes (Node r ts)) -> k ∈ ts -> n ∈ nodes k ->
  local && bool_decide (n ∈ family h (Node r ts))
  = local_for h local (root k) && bool_decide (n ∈ family h k).
Proof.
  intros Hnd Hkin Hn.
  rewrite (bool_decide_ext _ _ (family_kid h r ts k n Hnd Hkin Hn)). unfold local_for.
  destruct (h !! root k) as [c|]; [ destruct (transparent c) | ]; destruct local; cbn [andb];
    first [ reflexivity
          | apply bool_decide_ext; tauto
          | rewrite bool_decide_eq_false_2 by (intros [? _]; discriminate); reflexivity ].
Qed.

(** A transition is collected exactly when it is global, or when the walk
    is local and its node belongs to the family of the origin. *)
Lemma collected_family h t :
  forall local,
    NoDup (nodes t) ->
    collected h local t
    = flat_map (fun n => eligible_at h (local && bool_decide (n ∈ family h t)) n) (paused h t).
Proof.
  induction t as [r ts IH] using Tree_ind'. intros local Hnd.
  cbn [collected paused].
  destruct (h !! r) as [e|] eqn:Hr; [ | reflexivity ].
  destruct (inert e); [ reflexivity | ].
  cbn [flat_map]. f_equal.
  { unfold eligible_at. rewrite Hr. rewrite bool_decide_eq_true_2 by (simpl; left).
    rewrite andb_true_r. reflexivity. }
  assert (Hndts : NoDup (flat_map nodes ts)).
  { simpl in Hnd. apply NoDup_cons in Hnd as [_ Hnd]. exact Hnd. }
  assert (Hgen : forall ks, ks ⊆ ts -> NoDup (flat_map nodes ks) ->
    flat_map (fun k => collected h (local_for h local (root k)) k) ks
    = flat_map (fun n => eligible_at h (local && bool_decide (n ∈ family h (Node r ts))) n)
        (flat_map (paused h) ks)).
  2:{ apply Hgen; [ reflexivity | exact Hndts ]. }
  intros ks. induction ks as [|k ks IHks]; intros Hsub Hndks; [ reflexivity | ].
  simpl in Hndks. apply NoDup_app in Hndks as (Hndk & _ & Hndks).
  cbn [flat_map]. rewrite flat_map_app.
  assert (Hkin : k ∈ ts) by (apply Hsub; left).
  rewrite IHks; [ | intros x Hx; apply Hsub; right; exact Hx | exact Hndks ].
  f_equal.
  rewrite Forall_forall in IH. rewrite (IH k Hkin) by exact Hndk.
  apply flat_map_ext_elem. intros n Hn. apply paused_subset in Hn.
  f_equal. symmetry. apply local_family_kid; assumption.
Qed.

(** A resume enters a transition exactly when it is global, or when its
    node belongs to the family of the origin. *)
Lemma entering_family h t :
  forall local,
    NoDup (nodes t) ->
    entering h local t
    ≡ₚ flat_map (fun n => eligible_at h (local && bool_decide (n ∈ family h t)) n)
         (resumed h t).
Proof.
  induction t as [r ts IH] using Tree_ind'. intros local Hnd.
  cbn [entering resumed].
  destruct (h !! r) as [e|] eqn:Hr; [ | reflexivity ].
  destruct (inert e); [ | reflexivity ].
  cbn [flat_map]. rewrite Permutation_app_comm. apply Permutation_app.
  { unfold eligible_at. rewrite Hr. rewrite bool_decide_eq_true_2 by (simpl; left).
    rewrite andb_true_r. reflexivity. }
  assert (Hndts : NoDup (flat_map nodes ts)).
  { simpl in Hnd. apply NoDup_cons in Hnd as [_ Hnd]. exact Hnd. }
  assert (Hgen : forall ks, ks ⊆ ts -> NoDup (flat_map nodes ks) ->
    flat_map (fun k => entering h (local_for h local (root k)) k) ks
    ≡ₚ flat_map (fun n => eligible_at h (local && bool_decide (n ∈ family h (Node r ts))) n)
         (flat_map (resumed h) ks)).
  2:{ apply Hgen; [ reflexivity | exact Hndts ]. }
  intros ks. induction ks as [|k ks IHks]; intros Hsub Hndks; [ reflexivity | ].
  simpl in Hndks. apply NoDup_app in Hndks as (Hndk & _ & Hndks).
  cbn [flat_map]. rewrite flat_map_app.
  assert (Hkin : k ∈ ts) by (apply Hsub; left).
  apply Permutation_app.
  - rewrite Forall_forall in IH. rewrite (IH k Hkin) by exact Hndk.
    match goal with
    | |- ?X ≡ₚ ?Y => assert (Heq : X = Y); [ | rewrite Heq; reflexivity ]
    end.
    apply flat_map_ext_elem. intros n Hn. apply resumed_subset in Hn.
    f_equal. symmetry. apply local_family_kid; assumption.
  - apply IHks; [ intros x Hx; apply Hsub; right; exact Hx | exact Hndks ].
Qed.

(** The enter transitions in the host calls of a resume. *)
Lemma resume_trace_entering h t :
  forall local evs, resume_trace h local t evs -> entered evs = entering h local t.
Proof.
  induction t as [r ts IH] using Tree_ind'. intros local evs Htr.
  inversion Htr as [? ? ? e Hr Hin | ? ? ? e dirty trs Hr Hin Hall]; subst;
    cbn [entering]; rewrite Hr, Hin; [ reflexivity | ].
  change (Ev_check_dirtiness r dirty :: ?l) with ([Ev_check_dirtiness r dirty] ++ l).
  rewrite !entered_app, entered_ins.
  replace (entered [Ev_check_dirtiness r dirty]) with (@nil Transition) by reflexivity.
  replace (entered (if dirty then [Ev_execute_effect r] else [])) with (@nil Transition)
    by (destruct dirty; reflexivity).
  simpl. f_equal.
  clear Htr. rewrite Forall_forall in IH.
  assert (Hsub : forall k, k ∈ ts -> k ∈ ts) by auto.
  revert Hsub Hall. generalize ts at 1 3 4 as ks. intros ks.
  revert trs. induction ks as [|k ks IHks]; intros trs Hsub Hall; inversion Hall; subst.
  - reflexivity.
  - simpl. rewrite entered_app. f_equal.
    + apply IH; [ apply Hsub; left | assumption ].
    + apply IHks; [ intros k' Hk'; apply Hsub; right; exact Hk' | assumption ].
Qed.

End PauseFacts.

Section PauseCompletionFacts.

Context {K : Constants}.

Lemma bind_ret_tt (m : M unit) w : bind m (fun _ => ret tt) w = m w.
Proof. unfold bind, ret. destruct (m w) as [[] ?| |]; reflexivity. Qed.

Lemma with_remaining_same k (p : Pending) w :
  pending (store w) !! k = Some p -> with_remaining k (remaining p) w = w.
Proof.
  intros Hk. unfold with_remaining, with_pending. destruct w as [s tr]. destruct s. simpl in *.
  do 2 f_equal. apply map_eq. intros i. destruct (decide (i = k)) as [->|Hne].
  - rewrite lookup_alter_eq, Hk. destruct p; reflexivity.
  - rewrite lookup_alter_ne by congruence. reflexivity.
Qed.

Lemma with_remaining_twice k v v' w :
  with_remaining k v (with_remaining k v' w) = with_remaining k v w.
Proof.
  unfold with_remaining, with_pending. destruct w as [s tr]. destruct s. simpl.
  do 2 f_equal. apply map_eq. intros i. destruct (decide (i = k)) as [->|Hne].
  - rewrite !lookup_alter_eq. destruct (pending0 !! k); reflexivity.
  - rewrite !lookup_alter_ne by congruence. reflexivity.
Qed.

Lemma check_step fuel k (p : Pending) w :
  pending (store w) !! k = Some p ->
  check fuel k w
  = (if remaining p - 1 =? 0 then call_fn fuel (to_destroy p) (callback p) else ret tt)
      (with_remaining k (remaining p - 1) w).
Proof.
  intros Hk. unfold check, bind, get_store. rewrite Hk. unfold modify_store.
  replace {| store := _; trace := trace w |} with (with_remaining k (remaining p - 1) w);
    [ reflexivity | ].
  unfold with_remaining, with_pending. do 2 f_equal. apply map_eq. intros i.
  destruct (decide (i = k)) as [->|Hne].
  - rewrite lookup_alter_eq, lookup_insert_eq, Hk. reflexivity.
  - rewrite lookup_alter_ne, lookup_insert_ne by congruence. reflexivity.
Qed.

Lemma pending_with_remaining k v (p : Pending) w :
  pending (store w) !! k = Some p ->
  pending (store (with_remaining k v w)) !! k
  = Some {| remaining := v; to_destroy := to_destroy p; callback := callback p |}.
Proof. intros Hk. simpl. rewrite lookup_alter_eq, Hk. reflexivity. Qed.

(** Fewer completions than collected transitions only count down. *)
Lemma times_check_countdown fuel k m :
  forall (p : Pending) w,
    pending (store w) !! k = Some p -> Z.of_nat m < remaining p ->
    times m (check fuel k) w = Ok tt (with_remaining k (remaining p - Z.of_nat m) w).
Proof.
  induction m as [|m IH]; intros p w Hk Hlt.
  - simpl. rewrite Z.sub_0_r, (with_remaining_same k p w Hk). reflexivity.
  - cbn [times]. unfold bind. rewrite (check_step fuel k p w Hk).
    destruct (Z.eqb_spec (remaining p - 1) 0) as [H0|H0]; [ lia | ].
    unfold ret at 1.
    rewrite (IH _ _ (pending_with_remaining k (remaining p - 1) p w Hk)) by (simpl; lia).
    rewrite with_remaining_twice. simpl. do 2 f_equal. lia.
Qed.

(** The completion that brings the counter to zero runs the continuation. *)
Lemma times_check_fire fuel k m :
  forall (p : Pending) w,
    pending (store w) !! k = Some p -> remaining p = Z.of_nat (S m) ->
    times (S m) (check fuel k) w
    = call_fn fuel (to_destroy p) (callback p) (with_remaining k 0 w).
Proof.
  induction m as [|m IH]; intros p w Hk Hrem.
  - cbn [times]. rewrite bind_ret_tt, (check_step fuel k p w Hk), Hrem. reflexivity.
  - change (times (S (S m)) (check fuel k)) with (bind (check fuel k) (fun _ => times (S m) (check fuel k))).
    unfold bind at 1. rewrite (check_step fuel k p w Hk).
    destruct (Z.eqb_spec (remaining p - 1) 0) as [H0|H0]; [ lia | ].
    unfold ret at 1.
    rewrite (IH _ _ (pending_with_remaining k (remaining p - 1) p w Hk)) by (simpl; lia).
    rewrite with_remaining_twice. reflexivity.
Qed.

Lemma paused_not_inert h t n e :
  n ∈ paused h t -> h !! n = Some e -> inert e = false.
Proof.
  induction t as [r ts IH] using Tree_ind'. simpl.
  destruct (h !! r) as [e0|] eqn:Hr; [ | intros Hn; inversion Hn ].
  destruct (inert e0) eqn:Hin; [ intros Hn; inversion Hn | ].
  intros Hn He. apply elem_of_cons in Hn as [->|Hn]; [ congruence | ].
  apply elem_of_flat_map in Hn as (k & Hk & Hn).
  rewrite Forall_forall in IH. eauto.
Qed.

Lemma out_pending fuel ts effects callback w :
  ts <> [] ->
  out fuel ts effects callback w
  = Ok tt
      {| store := with_pending
                    (<[fresh (dom (pending (store w))) :=
                         {| remaining := Z.of_nat (length ts);
                            to_destroy := effects;
                            callback := callback |}]> (pending (store w)))
                    (store w);
         trace := trace w
                  ++ map (fun tr => Ev_transition_out tr (fresh (dom (pending (store w))))) ts |}.
Proof.
  intros Hne. unfold out.
  destruct (Z.ltb_spec 0 (Z.of_nat (length ts))) as [Hlt|Hle].
  - unfold bind, get_store, modify_store. rewrite for_each_log. reflexivity.
  - destruct ts; [ congruence | simpl in Hle; lia ].
Qed.

End PauseCompletionFacts.

Section PauseCompleteFacts.

Context {K : Constants}.

Lemma destroy_events_same_resources h h' t :
  shaped owned_nodes h t -> same_resources (nodes t) h h' ->
  destroy_events h' t = destroy_events h t.
Proof.
  induction t as [r ts IH] using Tree_ind'. intros Hsh Hsame.
  inversion Hsh as [r' ts' e Hr Ho Hk]; subst.
  cbn [destroy_events]. f_equal.
  - apply flat_map_ext_elem. intros k Hkin. rewrite Forall_forall in IH, Hk.
    apply IH; [ exact Hkin | apply Hk; exact Hkin | ].
    intros n e0 Hn. apply Hsame. simpl. right. apply elem_of_flat_map. eauto.
  - destruct (Hsame r e ltac:(simpl; left) Hr) as (e' & Hr' & Htrs & Htd & Hdom & _).
    rewrite Hr, Hr'. unfold release_events. rewrite Htrs, Htd, Hdom. reflexivity.
Qed.

Lemma shaped_same_resources h h' t :
  shaped owned_nodes h t -> same_resources (nodes t) h h' -> shaped owned_nodes h' t.
Proof.
  intros Hsh Hsame. eapply shaped_same_owned; [ exact Hsh | ].
  intros n Hn e He. destruct (Hsame n e Hn He) as (e' & He' & _ & _ & _ & Heff & Hder).
  exists e'. split; [ exact He' | ]. unfold owned_nodes. rewrite Heff, Hder. reflexivity.
Qed.

Lemma toggle_all_same_resources rs rs' h :
  NoDup rs' -> same_resources rs h (toggle_all rs' h).
Proof.
  intros Hnd n e Hn He. destruct (decide (n ∈ rs')) as [Hin|Hnin].
  - exists (toggle_inert e). rewrite toggle_all_lookup_in by assumption.
    rewrite He. auto 10.
  - exists e. rewrite toggle_all_lookup_notin by assumption. auto 10.
Qed.

(** The continuation of a pause on one effect: the effect is destroyed
    with all it owns, children first, and then the callback is called. *)
Lemma call_fn_tree dt fuel callback w :
  shaped owned_nodes (heap (store w)) dt -> NoDup (nodes dt) -> (height dt <= fuel)%nat ->
  call_fn fuel [root dt] callback w
  = Ok tt (add_trace [Ev_callback callback]
             (destroyed (post_order dt) (destroy_events (heap (store w)) dt) w)).
Proof.
  intros Hsh Hnd Hfuel. unfold call_fn. cbn [for_each].
  erewrite bind_ok; [ reflexivity | ].
  rewrite bind_ret_tt. apply destroy_effect_spec; assumption.
Qed.

(** The same after a pause: the nodes release what they had before it. *)
Lemma call_fn_paused dt fuel callback rs w0 w :
  shaped owned_nodes (heap (store w0)) dt -> NoDup (nodes dt) -> (height dt <= fuel)%nat ->
  NoDup rs -> heap (store w) = toggle_all rs (heap (store w0)) ->
  call_fn fuel [root dt] callback w
  = Ok tt (add_trace [Ev_callback callback]
             (destroyed (post_order dt) (destroy_events (heap (store w0)) dt) w)).
Proof.
  intros Hsh Hnd Hfuel Hrs Hw.
  assert (Hsame : same_resources (nodes dt) (heap (store w0)) (heap (store w))).
  { rewrite Hw. apply toggle_all_same_resources. exact Hrs. }
  rewrite (call_fn_tree dt fuel callback w); [ | | exact Hnd | exact Hfuel ].
  - rewrite (destroy_events_same_resources _ _ dt Hsh Hsame). reflexivity.
  - eapply shaped_same_resources; eauto.
Qed.

End PauseCompleteFacts.

(** C2. [pause_effect] walks the subtree from the effect: a node that is
    not inert gets its inert flag flipped, an inert node is skipped with
    all below it; of the nodes it flips it collects the global transitions
    and, for the nodes reached through branch and else-if children only,
    the local ones. With nothing collected the effect is destroyed with
    all it owns, children first, and the callback called, before
    [pause_effect] returns; otherwise every collected transition is given
    the completion closure, fewer completions than transitions only count
    down, and the completion that makes them all destroys the effect in
    the same way and then calls the callback. [dt] is what the effect
    owns, deriveds included, which is what a destroy walks. *)
Theorem pause_effect_spec {K : Constants} (t : Tree) (fuel : nat) (callback : Closure)
    (w : World) :
  constants_ok ->
  shaped children (heap (store w)) t ->
  NoDup (nodes t) ->
  (height t <= fuel)%nat ->
  let h := heap (store w) in
  let collected_ts := collected h true t in
  let paused_world := set_heap (toggle_all (paused h t) h) w in
  let k := fresh (dom (pending (store w))) in
  pause_children fuel (root t) [] true w = Ok collected_ts paused_world
  /\ (forall n, n ∈ paused h t ->
        exists e, h !! n = Some e /\ inert e = false
                  /\ heap (store paused_world) !! n = Some (toggle_inert e)
                  /\ inert (toggle_inert e) = true)
  /\ (forall n, n ∉ paused h t -> heap (store paused_world) !! n = h !! n)
  /\ collected_ts
     = flat_map (fun n => eligible_at h (bool_decide (n ∈ family h t)) n) (paused h t)
  /\ (forall dt,
        shaped owned_nodes h dt -> root dt = root t -> NoDup (nodes dt) ->
        (height dt <= fuel)%nat ->
        (collected_ts = [] ->
         pause_effect fuel (root t) callback w
         = Ok tt (add_trace [Ev_callback callback]
                    (destroyed (post_order dt) (destroy_events h dt) paused_world)))
        /\ (collected_ts <> [] ->
            exists w1,
              pause_effect fuel (root t) callback w = Ok tt w1
              /\ heap (store w1) = heap (store paused_world)
              /\ trace w1 = trace w ++ map (fun tr => Ev_transition_out tr k) collected_ts
              /\ pending (store w1) !! k
                 = Some {| remaining := Z.of_nat (length collected_ts);
                           to_destroy := [root t];
                           callback := callback |}
              /\ (forall m, (m < length collected_ts)%nat ->
                    times m (check fuel k) w1
                    = Ok tt (with_remaining k (Z.of_nat (length collected_ts) - Z.of_nat m) w1))
              /\ times (length collected_ts) (check fuel k) w1
                 = Ok tt (add_trace [Ev_callback callback]
                            (destroyed (post_order dt) (destroy_events h dt)
                               (with_remaining k 0 w1))))).
Proof.
  intros HK Hsh Hnd Hfuel h collected_ts paused_world k.
  assert (Hwalk : pause_children fuel (root t) [] true w = Ok collected_ts paused_world).
  { rewrite (pause_children_spec t fuel [] true w Hsh Hnd Hfuel). reflexivity. }
  split; [ exact Hwalk | ].
  split; [ | split; [ | split ] ].
  - intros n Hn.
    destruct (shaped_nodes_allocated _ _ _ _ Hsh (paused_subset h t n Hn)) as [e He].
    exists e. split; [ exact He | ].
    split; [ eapply paused_not_inert; eauto | ].
    split.
    + subst paused_world h. simpl.
      rewrite toggle_all_lookup_in by (auto using paused_NoDup). rewrite He. reflexivity.
    + pose proof (links_toggle_inert HK e) as Hl.
      apply links_flip_eq in Hl as (_ & _ & _ & _ & ->).
      rewrite (paused_not_inert h t n e Hn He). reflexivity.
  - intros n Hn. subst paused_world. simpl. apply toggle_all_lookup_notin. exact Hn.
  - subst collected_ts. rewrite (collected_family h t true Hnd). reflexivity.
  - intros dt Hsd Hroot Hndd Hfd.
    assert (Hfn : forall w0, heap (store w0) = heap (store paused_world) ->
              call_fn fuel [root t] callback w0
              = Ok tt (add_trace [Ev_callback callback]
                         (destroyed (post_order dt) (destroy_events h dt) w0))).
    { intros w0 Hw0. rewrite <- Hroot.
      apply (call_fn_paused dt fuel callback (paused h t) w w0 Hsd Hndd Hfd);
        [ apply paused_NoDup; exact Hnd | exact Hw0 ]. }
    split.
    { intros Hnil. unfold pause_effect. rewrite (bind_ok _ _ _ _ _ Hwalk).
      rewrite Hnil. apply Hfn. reflexivity. }
    intros Hne. unfold pause_effect. rewrite (bind_ok _ _ _ _ _ Hwalk).
    rewrite (out_pending fuel collected_ts [root t] callback paused_world Hne).
    eexists. split; [ reflexivity | ].
    assert (Hk : pending (store {| store := with_pending
                    (<[k := {| remaining := Z.of_nat (length collected_ts);
                               to_destroy := [root t];
                               callback := callback |}]> (pending (store paused_world)))
                    (store paused_world);
                  trace := trace paused_world
                           ++ map (fun tr => Ev_transition_out tr k) collected_ts |}) !! k
                 = Some {| remaining := Z.of_nat (length collected_ts);
                           to_destroy := [root t];
                           callback := callback |}).
    { simpl. apply lookup_insert_eq. }
    split; [ reflexivity | ].
    split; [ reflexivity | ].
    split; [ exact Hk | ].
    split.
    + intros m Hm. rewrite (times_check_countdown fuel k m _ _ Hk) by (simpl; lia).
      reflexivity.
    + destruct (length collected_ts) as [|m] eqn:Hlen.
      * destruct collected_ts; [ congruence | discriminate ].
      * rewrite (times_check_fire fuel k m _ _ Hk) by reflexivity.
        apply Hfn. reflexivity.
Qed.

Section ResumeFacts.

Context {K : Constants}.

Lemma resumed_inert h t n e :
  n ∈ resumed h t -> h !! n = Some e -> inert e = true.
Proof.
  induction t as [r ts IH] using Tree_ind'. simpl.
  destruct (h !! r) as [e0|] eqn:Hr; [ | intros Hn; inversion Hn ].
  destruct (inert e0) eqn:Hin; [ | intros Hn; inversion Hn ].
  intros Hn He. apply elem_of_cons in Hn as [->|Hn]; [ congruence | ].
  apply elem_of_flat_map in Hn as (k & Hk & Hn).
  rewrite Forall_forall in IH. eauto.
Qed.

Lemma elem_of_concat {B} (ys : list (list B)) (y : B) :
  y ∈ concat ys <-> exists tr, tr ∈ ys /\ y ∈ tr.
Proof.
  induction ys as [|tr ys IH]; simpl.
  - split; [ intros Hy; inversion Hy | intros (tr & Htr & _); inversion Htr ].
  - rewrite elem_of_app, IH. split.
    + intros [Hy|(tr' & Htr' & Hy)]; [ exists tr; split; [ left | exact Hy ] | ].
      exists tr'. split; [ right; exact Htr' | exact Hy ].
    + intros (tr' & Htr' & Hy). apply elem_of_cons in Htr' as [->|Htr']; [ left; exact Hy | ].
      right. exists tr'. auto.
Qed.

Lemma Forall2_elem_of_r {A B} (P : A -> B -> Prop) (xs : list A) (ys : list B) (y : B) :
  Forall2 P xs ys -> y ∈ ys -> exists x, x ∈ xs /\ P x y.
Proof.
  induction 1 as [|x0 y0 xs ys Hx Hall IH]; intros Hin; [ inversion Hin | ].
  apply elem_of_cons in Hin as [->|Hin].
  - exists x0. split; [ left | exact Hx ].
  - destruct (IH Hin) as (x & Hxin & HP). exists x. split; [ right; exact Hxin | exact HP ].
Qed.

Lemma Forall2_elem_of_l {A B} (P : A -> B -> Prop) (xs : list A) (ys : list B) (x : A) :
  Forall2 P xs ys -> x ∈ xs -> exists y, y ∈ ys /\ P x y.
Proof.
  induction 1 as [|x0 y0 xs ys Hx Hall IH]; intros Hin; [ inversion Hin | ].
  apply elem_of_cons in Hin as [->|Hin].
  - exists y0. split; [ left | exact Hx ].
  - destruct (IH Hin) as (y & Hy & HP). exists y. split; [ right; exact Hy | exact HP ].
Qed.

(** In the host calls of a resume a node is re-executed exactly when its
    dirtiness check said so, and the nodes checked are the nodes resumed. *)
Lemma resume_trace_checks h t :
  forall local evs,
    resume_trace h local t evs ->
    (forall n, Ev_execute_effect n ∈ evs <-> Ev_check_dirtiness n true ∈ evs)
    /\ (forall n b, Ev_check_dirtiness n b ∈ evs -> n ∈ resumed h t)
    /\ (forall n, n ∈ resumed h t -> exists b, Ev_check_dirtiness n b ∈ evs).
Proof.
  induction t as [r ts IH] using Tree_ind'. intros local evs Htr.
  inversion Htr as [? ? ? e Hr Hin | ? ? ? e dirty trs Hr Hin Hall]; subst.
  { simpl. rewrite Hr, Hin.
    repeat split; intros; exfalso; eapply not_elem_of_nil; eauto. }
  rewrite Forall_forall in IH.
  assert (Hins : forall ev, ev ∈ map Ev_transition_in (eligible local e) ->
                   exists x, ev = Ev_transition_in x).
  { intros ev Hev. apply list_elem_of_fmap in Hev as (x & -> & _). eauto. }
  assert (Hdirty : forall ev, ev ∈ (if dirty then [Ev_execute_effect r] else []) ->
                     dirty = true /\ ev = Ev_execute_effect r).
  { intros ev Hev. destruct dirty; [ | inversion Hev ].
    apply list_elem_of_singleton in Hev. auto. }
  assert (Hkid : forall ev, ev ∈ concat trs <->
                   exists k tr, k ∈ ts /\ tr ∈ trs
                                /\ resume_trace h (local_for h local (root k)) k tr /\ ev ∈ tr).
  { intros ev. rewrite elem_of_concat. split.
    - intros (tr & Htr' & Hev).
      destruct (Forall2_elem_of_r _ _ _ tr Hall Htr') as (k & Hk & Hrt). eauto 10.
    - intros (k & tr & _ & Htr' & _ & Hev). eauto. }
  simpl. rewrite Hr, Hin.
  split; [ | split ].
  - intros n. rewrite !elem_of_cons, !elem_of_app. split.
    + intros [Heq|[Hd|[Hc|Hi]]]; [ discriminate | | | ].
      * apply Hdirty in Hd as [-> Hd]. inversion Hd; subst. left. reflexivity.
      * right. right. left. apply Hkid in Hc as (k & tr & Hk & Htr' & Hrt & Hn).
        apply Hkid. exists k, tr. repeat split; try assumption.
        destruct (IH k Hk _ _ Hrt) as (Hex & _ & _). apply Hex. exact Hn.
      * destruct (Hins _ Hi) as [x Hx]. discriminate.
    + intros [Heq|[Hd|[Hc|Hi]]].
      * inversion Heq; subst. right. left. left.
      * apply Hdirty in Hd as [_ Hd]. discriminate.
      * right. right. left. apply Hkid in Hc as (k & tr & Hk & Htr' & Hrt & Hn).
        apply Hkid. exists k, tr. repeat split; try assumption.
        destruct (IH k Hk _ _ Hrt) as (Hex & _ & _). apply Hex. exact Hn.
      * destruct (Hins _ Hi) as [x Hx]. discriminate.
  - intros n b. rewrite !elem_of_cons, !elem_of_app.
    intros [Heq|[Hd|[Hc|Hi]]].
    + inversion Heq; subst. left. reflexivity.
    + apply Hdirty in Hd as [_ Hd]. discriminate.
    + right. apply Hkid in Hc as (k & tr & Hk & Htr' & Hrt & Hn).
      apply elem_of_flat_map. exists k. split; [ exact Hk | ].
      destruct (IH k Hk _ _ Hrt) as (_ & Hck & _). eapply Hck. exact Hn.
    + destruct (Hins _ Hi) as [x Hx]. discriminate.
  - intros n Hn. apply elem_of_cons in Hn as [->|Hn].
    + exists dirty. left.
    + apply elem_of_flat_map in Hn as (k & Hk & Hn).
      destruct (Forall2_elem_of_l _ _ _ k Hall Hk) as (tr & Htr' & Hrt).
      destruct (IH k Hk _ _ Hrt) as (_ & _ & Hall').
      destruct (Hall' n Hn) as [b Hb]. exists b.
      right. apply elem_of_app. right. apply elem_of_app. left.
      apply Hkid. exists k, tr. auto.
Qed.

End ResumeFacts.


Section GeneralResume.

Context {K : Constants} {H : Host}.

Hypothesis HK : constants_ok.

Lemma resume_walk_unfold local r ts :
  resume_walk local (Node r ts)
  = (let! e := get_effect r in
     if inert e then
       set_effect r (toggle_inert e) ;;
       reconcile r ;;
       let! e' := get_effect r in
       (if bool_decide (children e' = map root ts)
        then for_each ts (walk_body local)
        else ret tt) ;;
       enter local r
     else ret tt).
Proof.
  cbn [resume_walk].
  assert (Heach : forall ks,
            (fix each (ks : list Tree) : M unit :=
               match ks with
               | [] => ret tt
               | k :: ks' =>
                   (let! c := get_effect (root k) in
                    resume_walk (if transparent c then local else false) k) ;;
                   each ks'
               end) ks = for_each ks (walk_body local)).
  { induction ks as [|k ks IH]; [ reflexivity | ]. cbn [for_each]. rewrite IH. reflexivity. }
  rewrite Heach. reflexivity.
Qed.

Lemma elem_of_checked evs n :
  n ∈ checked evs <-> exists b, Ev_check_dirtiness n b ∈ evs.
Proof.
  unfold checked. rewrite list_elem_of_omap. split.
  - intros (ev & Hev & Hn). destruct ev; try discriminate. inversion Hn; subst. eauto.
  - intros (b & Hb). exists (Ev_check_dirtiness n b). auto.
Qed.

Lemma checked_app evs evs' : checked (evs ++ evs') = checked evs ++ checked evs'.
Proof. apply omap_app. Qed.

Lemma checked_ins ts : checked (map Ev_transition_in ts) = [].
Proof. induction ts as [|x ts IH]; [ reflexivity | exact IH ]. Qed.

Lemma runs_the_dirty_app evs evs' :
  runs_the_dirty evs -> runs_the_dirty evs' -> runs_the_dirty (evs ++ evs').
Proof. intros Ha Hb n. rewrite !elem_of_app, (Ha n), (Hb n). reflexivity. Qed.

Lemma runs_the_dirty_nil : runs_the_dirty [].
Proof. intros n. split; intros Hn; inversion Hn. Qed.

Lemma runs_the_dirty_ins ts : runs_the_dirty (map Ev_transition_in ts).
Proof.
  intros n. split; intros Hn; apply list_elem_of_fmap in Hn as (x & Hx & _); discriminate.
Qed.

Lemma resume_event_ins ts : Forall resume_event (map Ev_transition_in ts).
Proof. apply Forall_forall. intros ev Hev. apply list_elem_of_fmap in Hev as (x & -> & _). exact I. Qed.

Lemma walk_events_nil h ks : walk_events h ks [].
Proof.
  split; [ constructor | ]. split; [ apply runs_the_dirty_nil | ].
  intros n Hn. inversion Hn.
Qed.

Lemma walk_events_app h ks evs evs' :
  walk_events h ks evs -> walk_events h ks evs' -> walk_events h ks (evs ++ evs').
Proof.
  intros (Ha1 & Ha2 & Ha3) (Hb1 & Hb2 & Hb3).
  split; [ apply Forall_app; auto | ].
  split; [ apply runs_the_dirty_app; assumption | ].
  intros n. rewrite checked_app, elem_of_app. intros [Hn|Hn]; auto.
Qed.

Lemma walk_events_weaken h ks ks' evs :
  (forall n, n ∈ flat_map (resumed h) ks -> n ∈ flat_map (resumed h) ks') ->
  walk_events h ks evs -> walk_events h ks' evs.
Proof. intros Hsub (H1 & H2 & H3). repeat split; auto; apply H2. Qed.

Lemma kept_outside_refl F inside h : kept_outside F inside h h.
Proof. intros n e _ _ He. eauto. Qed.

Lemma kept_outside_trans F in1 in2 in3 h h1 h2 :
  kept_outside F in1 h h1 -> kept_outside F in2 h1 h2 ->
  (forall n, n ∈ in1 -> n ∈ in3) -> (forall n, n ∈ in2 -> n ∈ in3) ->
  kept_outside F in3 h h2.
Proof.
  intros H1 H2 Hs1 Hs2 n e HF Hn He.
  destruct (H1 n e HF ltac:(intros Hx; apply Hn, Hs1, Hx) He) as (e1 & He1 & Hl1).
  destruct (H2 n e1 HF ltac:(intros Hx; apply Hn, Hs2, Hx) He1) as (e2 & He2 & Hl2).
  exists e2. split; [ exact He2 | congruence ].
Qed.

Lemma kept_outside_agree_on F inside rs h h' :
  kept_outside F inside h h' -> (forall n, n ∈ rs -> n ∈ F /\ n ∉ inside) ->
  agree_on rs h h'.
Proof. intros Hk Hrs n e Hn He. destruct (Hrs n Hn) as [HF Hni]. eauto. Qed.

Lemma agree_on_trans rs h h1 h2 : agree_on rs h h1 -> agree_on rs h1 h2 -> agree_on rs h h2.
Proof.
  intros H1 H2 n e Hn He. destruct (H1 n e Hn He) as (e1 & He1 & Hl1).
  destruct (H2 n e1 Hn He1) as (e2 & He2 & Hl2). exists e2. split; [ exact He2 | congruence ].
Qed.

Lemma agree_on_subset rs rs' h h' :
  agree_on rs h h' -> (forall n, n ∈ rs' -> n ∈ rs) -> agree_on rs' h h'.
Proof. intros Hag Hsub n e Hn. apply Hag. auto. Qed.

Lemma family_agree h h' t :
  shaped children h t -> agree_on (nodes t) h h' -> family h' t = family h t.
Proof.
  induction t as [r ts IH] using Tree_ind'. intros Hsh Hag.
  inversion Hsh as [r' ts' e Hr Ho Hk]; subst. cbn [family]. f_equal.
  apply flat_map_ext_elem. intros k Hkin. rewrite Forall_forall in IH, Hk.
  assert (Hagk : agree_on (nodes k) h h') by (eapply agree_on_kid; eauto).
  assert (Hrk : exists c, h !! root k = Some c).
  { pose proof (Hk k Hkin) as Hsk. inversion Hsk; subst; simpl; eauto. }
  destruct Hrk as [c Hc].
  rewrite (agree_on_local_for h h' true (root k) c Hc).
  2:{ intros n e0 Hn. apply list_elem_of_singleton in Hn as ->. apply Hagk, root_in_nodes. }
  rewrite (IH k Hkin (Hk k Hkin) Hagk). reflexivity.
Qed.

Lemma subtrees_self t : t ∈ subtrees t.
Proof. destruct t as [r ts]. simpl. left. Qed.

Lemma subtrees_kid r ts k x : k ∈ ts -> x ∈ subtrees k -> x ∈ subtrees (Node r ts).
Proof. intros Hk Hx. simpl. right. apply elem_of_flat_map. eauto. Qed.

Lemma below_root r ts n : n ∈ flat_map nodes ts -> below (Node r ts) r n.
Proof. intros Hn. exists ts. split; [ apply subtrees_self | exact Hn ]. Qed.

Lemma below_kid r ts k a n : k ∈ ts -> below k a n -> below (Node r ts) a n.
Proof.
  intros Hk (ks & Hsub & Hn). exists ks. split; [ | exact Hn ].
  eapply subtrees_kid; eauto.
Qed.

Lemma host_reconciles_kid F r ts k :
  host_reconciles F (Node r ts) -> k ∈ ts -> host_reconciles F k.
Proof. intros Hh Hk r0 ks s Hsub. apply Hh. eapply subtrees_kid; eauto. Qed.

Lemma resume_children_active fuel r local e w :
  heap (store w) !! r = Some e -> inert e = false ->
  resume_children (S fuel) r local w = Ok tt w.
Proof.
  intros Hr Hin. cbn [resume_children].
  rewrite (bind_ok _ _ w e w) by (apply get_effect_ok; exact Hr).
  fold (inert e). rewrite Hin. reflexivity.
Qed.

Lemma resume_walk_active local r ts e w :
  heap (store w) !! r = Some e -> inert e = false ->
  resume_walk local (Node r ts) w = Ok tt w.
Proof.
  intros Hr Hin. rewrite resume_walk_unfold.
  rewrite (bind_ok _ _ w e w) by (apply get_effect_ok; exact Hr).
  rewrite Hin. reflexivity.
Qed.

(** The check and the re-execution that [resume_children] asks of the
    host are the reconciliation of the node. *)
Lemma reconcile_calls {B} r (rest : M B) w :
  bind (call_check_dirtiness r)
    (fun dirty => bind (if dirty then call_execute_effect r else ret tt) (fun _ => rest)) w
  = bind (reconcile r) (fun _ => rest) w.
Proof.
  unfold bind, call_check_dirtiness, reconcile, host_world.
  destruct (check_dirtiness r (store w)) as [[|] s|v s]; [ | reflexivity | reflexivity ].
  unfold call_execute_effect. cbn [store trace].
  destruct (execute_effect r s) as [s'|v s']; rewrite <- app_assoc; reflexivity.
Qed.

End GeneralResume.

Lemma bind_throw {A B} (m : M A) (k : A -> M B) w x w' :
  m w = Throw x w' -> bind m k w = Throw x w'.
Proof. intros Hm. unfold bind. rewrite Hm. reflexivity. Qed.

Section GeneralResumeWalk.

Context {K : Constants} {H : Host}.

Hypothesis HK : constants_ok.

Variable F : list ref.

Lemma reconcile_throw r x w w1 :
  reconcile r w = Throw x w1 ->
  exists v evs,
    x = Thrown v /\ trace w1 = trace w ++ evs
    /\ Forall resume_event evs /\ runs_the_dirty evs
    /\ (forall n, n ∈ checked evs -> n = r).
Proof.
  unfold reconcile, host_world.
  destruct (check_dirtiness r (store w)) as [[|] s|v s].
  - destruct (execute_effect r s) as [s'|v s']; [ discriminate | ].
    intros Hx. inversion Hx; subst. exists v. eexists.
    split; [ reflexivity | ]. split; [ reflexivity | ].
    split; [ repeat constructor | ]. split.
    + intros n. rewrite !elem_of_cons. split.
      * intros [Hn|[Hn|Hn]]; [ discriminate | inversion Hn; subst; left; reflexivity | inversion Hn ].
      * intros [Hn|[Hn|Hn]]; [ inversion Hn; subst; right; left; reflexivity | discriminate | inversion Hn ].
    + intros n Hn. simpl in Hn. apply list_elem_of_singleton in Hn. exact Hn.
  - discriminate.
  - intros Hx. inversion Hx; subst. exists v. eexists.
    split; [ reflexivity | ]. split; [ reflexivity | ].
    split; [ repeat constructor | ]. split.
    + intros n. rewrite !list_elem_of_singleton. split; discriminate.
    + intros n Hn. inversion Hn.
Qed.

Lemma reconcile_not_stuck r w : reconcile r w <> Stuck.
Proof.
  unfold reconcile.
  destruct (check_dirtiness r (store w)) as [[|] s|v s]; try discriminate.
  destruct (execute_effect r s); discriminate.
Qed.

Lemma reconcile_events_ok h r ts b e :
  h !! r = Some e -> inert e = true ->
  walk_events h [Node r ts] (reconcile_events r b).
Proof.
  intros Hr Hin. split; [ destruct b; repeat constructor | ]. split.
  - intros n. unfold reconcile_events. destruct b.
    + rewrite !elem_of_cons. split.
      * intros [Hn|[Hn|Hn]]; [ discriminate | inversion Hn; subst; left; reflexivity | inversion Hn ].
      * intros [Hn|[Hn|Hn]]; [ inversion Hn; subst; right; left; reflexivity | discriminate | inversion Hn ].
    + rewrite !list_elem_of_singleton. split; discriminate.
  - intros n Hn. cbn [flat_map resumed]. rewrite Hr, Hin, app_nil_r.
    assert (n = r); [ | subst; left ].
    destruct b; simpl in Hn; apply list_elem_of_singleton in Hn; exact Hn.
Qed.

(** What the reconciliation of a node of the tree leaves behind when it
    returns. *)
Lemma reconcile_ok r ts e0 w b w1 :
  host_reconciles F (Node r ts) -> r ∈ F ->
  shaped children (heap (store w)) (Node r ts) -> NoDup (nodes (Node r ts)) ->
  (forall n, n ∈ nodes (Node r ts) -> n ∈ F) ->
  heap (store w) !! r = Some e0 ->
  reconcile r w = Ok b w1 ->
  trace w1 = trace w ++ reconcile_events r b
  /\ kept_outside F (nodes (Node r ts)) (heap (store w)) (heap (store w1))
  /\ exists e1,
       heap (store w1) !! r = Some e1 /\ inert e1 = inert e0
       /\ ((children e1 = children e0
            /\ kept_outside F [] (heap (store w)) (heap (store w1)))
           \/ (b = true
               /\ forall c, c ∈ children e1 ->
                    exists ec, heap (store w1) !! c = Some ec /\ inert ec = false)).
Proof.
  intros Hhost HrF Hsh Hnd HF Hr. unfold reconcile, host_world.
  destruct (Hhost r ts (store w) (subtrees_self _) Hsh Hnd) as [Hcheck _].
  destruct (check_dirtiness r (store w)) as [[|] s|v s] eqn:Hcd; [ | | discriminate ].
  - specialize (Hcheck _ _ eq_refl).
    destruct (Hcheck r e0 HrF ltac:(intros Hx; inversion Hx) Hr) as (es & Hes & Hls).
    assert (Hshs : shaped children (heap s) (Node r ts)).
    { eapply shaped_same_owned; [ exact Hsh | ].
      intros n Hn e He.
      destruct (Hcheck n e (HF n Hn) ltac:(intros Hx; inversion Hx) He) as (e' & He' & Hl').
      exists e'. split; [ exact He' | ].
      apply links_eq in Hl' as (Heff' & _). unfold children. rewrite Heff'. reflexivity. }
    destruct (Hhost r ts s (subtrees_self _) Hshs Hnd) as [_ Hexec].
    destruct (execute_effect r s) as [s'|v s'] eqn:Hex; [ | discriminate ].
    intros Hx. inversion Hx; subst. cbn [store trace].
    destruct (Hexec _ es eq_refl Hes) as (Hout & e1 & He1 & Hin1 & Hmode).
    apply links_eq in Hls as (Heff & _ & _ & _ & Hins).
    split; [ reflexivity | ]. split.
    + eapply kept_outside_trans; [ exact Hcheck | exact Hout | | auto ].
      intros n Hn. inversion Hn.
    + exists e1. split; [ exact He1 | ]. split; [ congruence | ].
      destruct Hmode as [[Hch Hkeep]|Hnew].
      * left. split.
        -- rewrite Hch. unfold children. rewrite Heff. reflexivity.
        -- eapply kept_outside_trans; [ exact Hcheck | exact Hkeep | auto | auto ].
      * right. auto.
  - specialize (Hcheck _ _ eq_refl).
    destruct (Hcheck r e0 HrF ltac:(intros Hx; inversion Hx) Hr) as (es & Hes & Hls).
    intros Hx. inversion Hx; subst. cbn [store trace].
    apply links_eq in Hls as (Heff & _ & _ & _ & Hins).
    split; [ reflexivity | ]. split.
    + intros n e HFn _ He. apply (Hcheck n e HFn); [ intros Hx'; inversion Hx' | exact He ].
    + exists es. split; [ exact Hes | ]. split; [ exact Hins | ].
      left. split; [ unfold children; rewrite Heff; reflexivity | exact Hcheck ].
Qed.

Lemma flat_map_resumed_subset h ks n :
  n ∈ flat_map (resumed h) ks -> n ∈ flat_map nodes ks.
Proof.
  intros Hn. apply elem_of_flat_map in Hn as (k & Hk & Hn).
  apply elem_of_flat_map. exists k. split; [ exact Hk | eapply resumed_subset; eauto ].
Qed.

Lemma eligible_at_links h h' n e e' m :
  h !! n = Some e -> h' !! n = Some e' -> links e' = links e ->
  eligible_at h' m n = eligible_at h m n.
Proof.
  intros He He' Hl. unfold eligible_at, eligible. rewrite He, He'.
  apply links_eq in Hl as (_ & -> & _). reflexivity.
Qed.

Lemma walk_result_transport h h' member member' ks w o :
  flat_map (resumed h') ks = flat_map (resumed h) ks ->
  (forall n, n ∈ flat_map nodes ks -> member' n = member n) ->
  walk_result F h' member' ks w o -> walk_result F h member ks w o.
Proof.
  intros Hres Hmem. unfold walk_result, walk_events, walk_returned. rewrite Hres.
  destruct o as [[] w'|x w'|]; [ | exact (fun x => x) | exact (fun x => x) ].
  intros (evs & Htr & (Hev1 & Hev2 & Hev3) & Hk & Hact & Hcov & Hent).
  exists evs. split; [ exact Htr | ]. split; [ split; [ | split ]; assumption | ].
  split; [ exact Hk | ]. split; [ exact Hact | ]. split; [ exact Hcov | ].
  rewrite Hent.
  match goal with
  | |- ?X ≡ₚ ?Y => assert (Heq : X = Y); [ | rewrite Heq; reflexivity ]
  end.
  apply flat_map_ext_elem. intros n Hn. f_equal. apply Hmem.
  apply flat_map_resumed_subset with (h := h). auto.
Qed.

Lemma walk_events_left h ks ks' evs :
  walk_events h ks evs -> walk_events h (ks ++ ks') evs.
Proof.
  apply walk_events_weaken. intros n Hn. rewrite flat_map_app. apply elem_of_app. auto.
Qed.

Lemma walk_events_right h ks ks' evs :
  walk_events h ks' evs -> walk_events h (ks ++ ks') evs.
Proof.
  apply walk_events_weaken. intros n Hn. rewrite flat_map_app. apply elem_of_app. auto.
Qed.

(** One walk after another. *)
Lemma walk_result_seq h member ks1 ks2 w w1 o :
  (forall n, n ∈ flat_map nodes ks1 -> n ∈ F) ->
  (forall n, n ∈ flat_map nodes ks1 -> n ∉ flat_map nodes ks2) ->
  walk_result F h member ks1 w (Ok tt w1) ->
  walk_result F h member ks2 w1 o ->
  walk_result F h member (ks1 ++ ks2) w o.
Proof.
  intros HF Hdisj (evs1 & Htr1 & Hev1 & Hk1 & Hact1 & Hcov1 & Hent1) Hres2.
  assert (Hlate : forall w2, kept_outside F (flat_map nodes ks2) (heap (store w1)) (heap (store w2)) ->
            forall n, n ∈ checked evs1 ->
              exists e1 e2, heap (store w1) !! n = Some e1 /\ heap (store w2) !! n = Some e2
                            /\ links e2 = links e1 /\ inert e1 = false).
  { intros w2 Hk2 n Hn. destruct (Hact1 n Hn) as (e1 & He1 & Hin1).
    destruct Hev1 as (_ & _ & Hsub).
    pose proof (flat_map_resumed_subset _ _ _ (Hsub n Hn)) as Hnodes.
    destruct (Hk2 n e1 (HF n Hnodes) (Hdisj n Hnodes) He1) as (e2 & He2 & Hl).
    exists e1, e2. auto. }
  destruct o as [[] w2|x w2|]; cbn [walk_result] in *.
  - destruct Hres2 as (evs2 & Htr2 & Hev2 & Hk2 & Hact2 & Hcov2 & Hent2).
    exists (evs1 ++ evs2).
    split; [ rewrite Htr2, Htr1, app_assoc; reflexivity | ].
    split; [ apply walk_events_app; [ apply walk_events_left | apply walk_events_right ]; assumption | ].
    split; [ | split; [ | split ] ].
    + eapply kept_outside_trans; [ exact Hk1 | exact Hk2 | | ];
        intros n Hn; rewrite flat_map_app; apply elem_of_app; auto.
    + intros n. rewrite checked_app, elem_of_app. intros [Hn|Hn]; [ | auto ].
      destruct (Hlate w2 Hk2 n Hn) as (e1 & e2 & _ & He2 & Hl & Hin).
      exists e2. split; [ exact He2 | ].
      apply links_eq in Hl as (_ & _ & _ & _ & ->). exact Hin.
    + intros n. rewrite flat_map_app, elem_of_app. intros [Hn|Hn].
      * destruct (Hcov1 n Hn) as [Hc|(a & k & Hk & Hb & Hx)].
        -- left. rewrite checked_app. apply elem_of_app. auto.
        -- right. exists a, k. rewrite !elem_of_app. auto.
      * destruct (Hcov2 n Hn) as [Hc|(a & k & Hk & Hb & Hx)].
        -- left. rewrite checked_app. apply elem_of_app. auto.
        -- right. exists a, k. rewrite !elem_of_app. auto.
    + rewrite entered_app, checked_app, flat_map_app. apply Permutation_app; [ | exact Hent2 ].
      rewrite Hent1.
      match goal with
      | |- ?X ≡ₚ ?Y => assert (Heq : X = Y); [ | rewrite Heq; reflexivity ]
      end.
      apply flat_map_ext_elem. intros n Hn.
      destruct (Hlate w2 Hk2 n Hn) as (e1 & e2 & He1 & He2 & Hl & _).
      symmetry. eapply eligible_at_links; eauto.
  - destruct Hres2 as (v & evs2 & Hx & Htr2 & Hev2).
    exists v, (evs1 ++ evs2). split; [ exact Hx | ].
    split; [ rewrite Htr2, Htr1, app_assoc; reflexivity | ].
    apply walk_events_app; [ apply walk_events_left | apply walk_events_right ]; assumption.
  - exact Hres2.
Qed.

Lemma walk_result_nil h member w : walk_result F h member [] w (Ok tt w).
Proof.
  exists []. split; [ rewrite app_nil_r; reflexivity | ].
  split; [ apply walk_events_nil | ].
  split; [ apply kept_outside_refl | ].
  split; [ intros n Hn; inversion Hn | ].
  split; [ intros n Hn; inversion Hn | reflexivity ].
Qed.

(** The children of a node, one after the other. *)
Lemma walks_kids fuel local h r ts :
  NoDup (nodes (Node r ts)) ->
  (forall n, n ∈ nodes (Node r ts) -> n ∈ F) ->
  forall ks,
    (forall k, k ∈ ks -> k ∈ ts) ->
    Forall (walks F fuel) ks ->
    Forall (shaped children h) ks ->
    NoDup (flat_map nodes ks) ->
    Forall (host_reconciles F) ks ->
    forall w,
      agree_on (flat_map nodes ks) h (heap (store w)) ->
      for_each (map root ks) (resume_body fuel local) w = for_each ks (walk_body local) w
      /\ walk_result F h (fun n => local && bool_decide (n ∈ family h (Node r ts))) ks w
           (for_each ks (walk_body local) w).
Proof.
  intros Hnd HF ks. induction ks as [|k ks IHks]; intros Hsub Hw Hsh Hndk Hhost w Hag.
  { split; [ reflexivity | apply walk_result_nil ]. }
  apply Forall_cons in Hw as [Hwk Hw]. apply Forall_cons in Hsh as [Hshk Hsh].
  apply Forall_cons in Hhost as [Hhk Hhost].
  cbn [flat_map] in Hndk. apply NoDup_app in Hndk as (Hndk & Hdisj & Hndks).
  assert (Hkin : k ∈ ts) by (apply Hsub; left).
  assert (HFk : forall n, n ∈ nodes k -> n ∈ F).
  { intros n Hn. apply HF. simpl. right. apply elem_of_flat_map. eauto. }
  assert (Hagk : agree_on (nodes k) h (heap (store w))).
  { eapply agree_on_subset; [ exact Hag | ]. intros n Hn. cbn [flat_map]. apply elem_of_app. auto. }
  assert (Hshw : shaped children (heap (store w)) k) by (eapply agree_on_shaped; eauto).
  assert (Hc : exists c, h !! root k = Some c).
  { inversion Hshk; subst; simpl; eauto. }
  destruct Hc as [c Hc].
  destruct (Hagk (root k) c (root_in_nodes k) Hc) as (c' & Hc' & Hlc).
  set (local_k := if transparent c' then local else false).
  destruct (Hwk local_k w Hshw Hndk HFk Hhk) as [Heq Hres].
  assert (Hbody : walk_body local k w = resume_walk local_k k w).
  { unfold walk_body. rewrite (bind_ok _ _ w c' w) by (apply get_effect_ok; exact Hc').
    reflexivity. }
  assert (Hcode : resume_body fuel local (root k) w = resume_walk local_k k w).
  { unfold resume_body. rewrite (bind_ok _ _ w c' w) by (apply get_effect_ok; exact Hc').
    exact Heq. }
  assert (Hres' : walk_result F h (fun n => local && bool_decide (n ∈ family h (Node r ts)))
                    [k] w (resume_walk local_k k w)).
  { eapply walk_result_transport; [ | | exact Hres ].
    - cbn [flat_map]. f_equal. apply resumed_agree; assumption.
    - intros n Hn. cbn [flat_map] in Hn. rewrite app_nil_r in Hn. cbn beta.
      rewrite (local_family_kid h r ts k n local Hnd Hkin Hn).
      rewrite (family_agree h (heap (store w)) k Hshk Hagk). f_equal.
      unfold local_for, local_k. rewrite Hc.
      apply links_eq in Hlc as (_ & _ & -> & _). reflexivity. }
  cbn [map for_each].
  destruct (resume_walk local_k k w) as [[] w1|x w1|] eqn:Hrun.
  - rewrite (bind_ok _ _ _ _ _ Hcode), (bind_ok _ _ _ _ _ Hbody).
    assert (Hk1 : kept_outside F (flat_map nodes [k]) (heap (store w)) (heap (store w1))).
    { destruct Hres' as (evs & _ & _ & Hk1 & _). exact Hk1. }
    assert (Hag1 : agree_on (flat_map nodes ks) h (heap (store w1))).
    { eapply agree_on_trans.
      - eapply agree_on_subset; [ exact Hag | ].
        intros n Hn. cbn [flat_map]. apply elem_of_app. auto.
      - eapply kept_outside_agree_on; [ exact Hk1 | ].
        intros n Hn. split.
        + apply HF. simpl. right.
          apply elem_of_flat_map in Hn as (k' & Hk' & Hn).
          apply elem_of_flat_map. exists k'. split; [ apply Hsub; right; exact Hk' | exact Hn ].
        + cbn [flat_map]. rewrite app_nil_r. intros Hnk. apply (Hdisj n Hnk Hn). }
    destruct (IHks ltac:(intros k' Hk'; apply Hsub; right; exact Hk') Hw Hsh Hndks Hhost w1 Hag1)
      as [Heq2 Hres2].
    split; [ exact Heq2 | ].
    change (k :: ks) with ([k] ++ ks).
    eapply walk_result_seq; [ | | exact Hres' | exact Hres2 ].
    + intros n Hn. cbn [flat_map] in Hn. rewrite app_nil_r in Hn. auto.
    + intros n Hn. cbn [flat_map] in Hn. rewrite app_nil_r in Hn. apply Hdisj. exact Hn.
  - rewrite (bind_throw _ _ _ _ _ Hcode), (bind_throw _ _ _ _ _ Hbody).
    split; [ reflexivity | ].
    destruct Hres' as (v & evs & Hx & Htr & Hev).
    exists v, evs. split; [ exact Hx | ]. split; [ exact Htr | ].
    change (k :: ks) with ([k] ++ ks). apply walk_events_left. exact Hev.
  - destruct Hres'.
Qed.

Lemma for_each_noop {A} (xs : list A) (body : A -> M unit) w :
  (forall x, x ∈ xs -> body x w = Ok tt w) -> for_each xs body w = Ok tt w.
Proof.
  induction xs as [|x xs IH]; intros Hb; [ reflexivity | ].
  cbn [for_each]. rewrite (bind_ok _ _ _ _ _ (Hb x ltac:(left))).
  apply IH. intros y Hy. apply Hb. right. exact Hy.
Qed.

(** The last loop of [resume_children] triggers the enter transitions. *)
Lemma enter_calls local r w :
  bind (get_effect r)
    (fun e =>
       match Effect.transitions e with
       | Some ts =>
           for_each (filter (fun t => orb (is_global t) local = true) ts)
             (fun transition => log (Ev_transition_in transition))
       | None => ret tt
       end) w
  = enter local r w.
Proof.
  unfold bind, get_effect, enter, eligible.
  destruct (heap (store w) !! r) as [e|]; [ | reflexivity ].
  destruct (Effect.transitions e) as [ts|].
  - rewrite for_each_log. reflexivity.
  - unfold ret, add_trace. simpl. rewrite app_nil_r. destruct w; reflexivity.
Qed.

Lemma checked_reconcile_events r b : checked (reconcile_events r b) = [r].
Proof. destruct b; reflexivity. Qed.

Lemma entered_reconcile_events r b : entered (reconcile_events r b) = [].
Proof. destruct b; reflexivity. Qed.

(** The walk of [resume_children] over the heap is the walk the spec
    describes, and it has the result of one. *)
Lemma walks_spec (t : Tree) :
  forall fuel, (height t < fuel)%nat -> walks F fuel t.
Proof.
  induction t as [r ts IH] using Tree_ind'.
  intros fuel Hfuel local w Hsh Hnd HF Hhost.
  destruct fuel as [|fuel]; [ lia | ].
  inversion Hsh as [r' ts' e Hr Ho Hk]; subst.
  set (h := heap (store w)) in *.
  set (member := fun n => local && bool_decide (n ∈ family h (Node r ts))).
  rewrite resume_walk_unfold. cbn [resume_children root].
  rewrite !(bind_ok _ _ w e w) by (apply get_effect_ok; exact Hr).
  fold (inert e). destruct (inert e) eqn:Hin; cbn [negb].
  2:{ split; [ reflexivity | ].
      exists []. split; [ rewrite app_nil_r; reflexivity | ].
      split; [ apply walk_events_nil | ].
      split; [ apply kept_outside_refl | ].
      split; [ intros n Hn; inversion Hn | ].
      split; [ | reflexivity ].
      intros n Hn. cbn [flat_map resumed] in Hn. fold h in Hn. rewrite Hr, Hin in Hn.
      inversion Hn. }
  set (w0 := set_heap (<[r := toggle_inert e]> h) w).
  rewrite !(bind_ok _ _ w tt w0) by apply set_effect_ok.
  rewrite reconcile_calls.
  assert (HrF : r ∈ F) by (apply HF; simpl; left).
  assert (Hr0 : heap (store w0) !! r = Some (toggle_inert e)) by (simpl; apply lookup_insert_eq).
  pose proof (links_toggle_inert HK e) as Hlt.
  apply links_flip_eq in Hlt as (Hteff & Httr & _ & _ & Htin).
  rewrite Hin in Htin. cbn [negb] in Htin.
  simpl in Hnd. apply NoDup_cons in Hnd as [Hrts Hndts].
  assert (Hres_r : resumed h (Node r ts) = r :: flat_map (resumed h) ts).
  { cbn [resumed]. rewrite Hr, Hin. reflexivity. }
  assert (Hkids_in : forall evs, walk_events h ts evs -> walk_events h [Node r ts] evs).
  { intros evs. apply walk_events_weaken. intros n Hn. cbn [flat_map].
    rewrite app_nil_r, Hres_r. right. exact Hn. }
  assert (Hrec_ev : forall b, walk_events h [Node r ts] (reconcile_events r b)).
  { intros b. apply (reconcile_events_ok h r ts b e Hr Hin). }
  destruct (reconcile r w0) as [b w1|x w1|] eqn:Hrec.
  3:{ exfalso. eapply reconcile_not_stuck; eauto. }
  2:{ rewrite !(bind_throw _ _ _ _ _ Hrec). split; [ reflexivity | ].
      destruct (reconcile_throw r x w0 w1 Hrec) as (v & evs & -> & Htr & Hev & Hrd & Hck).
      exists v, evs. split; [ reflexivity | ]. split; [ exact Htr | ].
      split; [ exact Hev | ]. split; [ exact Hrd | ].
      intros n Hn. apply Hck in Hn as ->. cbn [flat_map]. rewrite Hres_r. left. }
  rewrite !(bind_ok _ _ _ _ _ Hrec).
  assert (Hsh0 : shaped children (heap (store w0)) (Node r ts)).
  { eapply shaped_same_owned; [ exact Hsh | ].
    intros n Hn e' He'. destruct (decide (n = r)) as [->|Hne].
    - exists (toggle_inert e). split; [ exact Hr0 | ].
      fold h in He'. rewrite Hr in He'. inversion He'; subst e'.
      unfold children. rewrite Hteff. reflexivity.
    - exists e'. split; [ | reflexivity ].
      simpl. rewrite lookup_insert_ne by congruence. exact He'. }
  destruct (reconcile_ok r ts (toggle_inert e) w0 b w1 Hhost HrF Hsh0
              ltac:(cbn [nodes]; apply NoDup_cons; split; assumption) HF Hr0 Hrec)
    as (Htr1 & Hout1 & e1 & He1 & Hin1 & Hmode).
  rewrite Htin in Hin1.
  rewrite !(bind_ok _ _ _ _ _ (get_effect_ok r e1 w1 He1)).
  assert (Hw0 : forall n, n <> r -> heap (store w0) !! n = h !! n).
  { intros n Hn. simpl. apply lookup_insert_ne. congruence. }
  assert (Hout : kept_outside F (nodes (Node r ts)) h (heap (store w1))).
  { intros n e' HFn Hnot He'. apply (Hout1 n e' HFn Hnot).
    rewrite Hw0; [ exact He' | ]. intros ->. apply Hnot. simpl. left. }
  (* what is left once the children are done *)
  assert (Hfinish : forall w4 evs_k,
            trace w4 = trace w1 ++ evs_k ->
            walk_events h [Node r ts] evs_k ->
            kept_outside F (flat_map nodes ts) (heap (store w1)) (heap (store w4)) ->
            (forall n, n ∈ checked evs_k ->
               exists e', heap (store w4) !! n = Some e' /\ inert e' = false) ->
            (forall n, n ∈ flat_map (resumed h) ts ->
               n ∈ checked evs_k
               \/ exists a, below (Node r ts) a n
                            /\ Ev_execute_effect a ∈ reconcile_events r b ++ evs_k) ->
            entered evs_k
            ≡ₚ flat_map (fun n => eligible_at (heap (store w4)) (member n) n) (checked evs_k) ->
            walk_result F h member [Node r ts] w (enter local r w4)).
  { intros w4 evs_k Htr4 Hev4 Hk4 Hact4 Hcov4 Hent4.
    destruct (Hk4 r e1 HrF Hrts He1) as (e4 & He4 & Hl4).
    apply links_eq in Hl4 as (_ & Htrs4 & _ & _ & Hin4).
    unfold enter. rewrite He4. cbn [walk_result].
    exists (reconcile_events r b ++ evs_k ++ map Ev_transition_in (eligible local e4)).
    split.
    { cbn [add_trace trace]. rewrite Htr4, Htr1. unfold w0. cbn [set_heap trace].
      rewrite <- !app_assoc. reflexivity. }
    split.
    { apply walk_events_app; [ apply Hrec_ev | ].
      apply walk_events_app; [ exact Hev4 | ].
      split; [ apply resume_event_ins | ]. split; [ apply runs_the_dirty_ins | ].
      intros n Hn. rewrite checked_ins in Hn. inversion Hn. }
    assert (Hchk : checked (reconcile_events r b ++ evs_k
                            ++ map Ev_transition_in (eligible local e4))
                   = r :: checked evs_k).
    { rewrite !checked_app, checked_reconcile_events, checked_ins, app_nil_r. reflexivity. }
    split; [ | split; [ | split ] ].
    - cbn [add_trace store flat_map]. rewrite app_nil_r.
      eapply kept_outside_trans; [ exact Hout | exact Hk4 | auto | ].
      intros n Hn. simpl. right. exact Hn.
    - intros n. rewrite Hchk. intros Hn. cbn [add_trace store].
      apply elem_of_cons in Hn as [->|Hn]; [ | auto ].
      exists e4. split; [ exact He4 | congruence ].
    - intros n Hn. cbn [flat_map] in Hn. rewrite app_nil_r, Hres_r in Hn. rewrite Hchk.
      apply elem_of_cons in Hn as [->|Hn]; [ left; left | ].
      destruct (Hcov4 n Hn) as [Hc|(a & Hb & Hx)]; [ left; right; exact Hc | ].
      right. exists a, (Node r ts). split; [ left | ]. split; [ exact Hb | ].
      rewrite app_assoc. apply elem_of_app. left. exact Hx.
    - rewrite Hchk. rewrite !entered_app, entered_reconcile_events, entered_ins.
      cbn [app flat_map add_trace store].
      rewrite Permutation_app_comm. apply Permutation_app; [ | exact Hent4 ].
      unfold eligible_at, member. rewrite He4.
      rewrite bool_decide_eq_true_2 by (simpl; left). rewrite andb_true_r. reflexivity. }
  destruct Hmode as [[Hch Hkeep]|[-> Hnew]].
  - (* the children are those the node had *)
    assert (Hch1 : children e1 = map root ts).
    { rewrite Hch. unfold children. rewrite Hteff. exact Ho. }
    assert (Hag : agree_on (flat_map nodes ts) h (heap (store w1))).
    { intros n e' Hn He'.
      assert (Hne : n <> r) by (intros ->; contradiction).
      apply (Hkeep n e'); [ apply HF; simpl; right; exact Hn | intros Hx; inversion Hx | ].
      rewrite Hw0 by exact Hne. exact He'. }
    destruct (walks_kids fuel local h r ts) with (ks := ts) (w := w1) as [Heq Hres];
      try assumption.
    { constructor; assumption. }
    { auto. }
    { apply Forall_forall. intros k Hkin. rewrite Forall_forall in IH.
      apply IH; [ exact Hkin | ]. pose proof (height_kid k r ts Hkin). lia. }
    { apply Forall_forall. intros k Hkin. eapply host_reconciles_kid; eauto. }
    rewrite bool_decide_eq_true_2 by exact Hch1.
    assert (Hloop :
      match Effect.effects e1 with
      | Some children =>
          for_each children (fun child =>
            bind (get_effect child) (fun c =>
              resume_children fuel child (if transparent c then local else false)))
      | None => ret tt
      end w1 = for_each ts (walk_body local) w1).
    { rewrite <- Heq. unfold children, array in Hch1.
      destruct (Effect.effects e1) as [cs|]; simpl in Hch1.
      - subst cs. reflexivity.
      - destruct ts; [ reflexivity | discriminate ]. }
    destruct (for_each ts (walk_body local) w1) as [[] w4|x w4|] eqn:Hrun.
    + rewrite (bind_ok _ _ _ _ _ Hloop), (bind_ok _ _ _ _ _ Hrun), enter_calls.
      split; [ reflexivity | ].
      destruct Hres as (evs_k & Htr4 & Hev4 & Hk4 & Hact4 & Hcov4 & Hent4).
      apply (Hfinish w4 evs_k); try assumption.
      * apply Hkids_in. exact Hev4.
      * intros n Hn. destruct (Hcov4 n Hn) as [Hc|(a & k & Hkin & Hb & Hx)]; [ auto | ].
        right. exists a. split; [ eapply below_kid; eauto | ].
        apply elem_of_app. right. exact Hx.
    + rewrite (bind_throw _ _ _ _ _ Hloop), (bind_throw _ _ _ _ _ Hrun).
      split; [ reflexivity | ].
      destruct Hres as (v & evs_k & -> & Htr4 & Hev4).
      exists v, (reconcile_events r b ++ evs_k). split; [ reflexivity | ].
      split.
      { rewrite Htr4, Htr1. unfold w0. cbn [set_heap trace]. rewrite <- app_assoc. reflexivity. }
      apply walk_events_app; [ apply Hrec_ev | apply Hkids_in; exact Hev4 ].
    + destruct Hres.
  - (* the node was re-executed and its children are not inert *)
    destruct fuel as [|fuel]; [ simpl in Hfuel; lia | ].
    assert (Hloop :
      match Effect.effects e1 with
      | Some children =>
          for_each children (fun child =>
            bind (get_effect child) (fun c =>
              resume_children (S fuel) child (if transparent c then local else false)))
      | None => ret tt
      end w1 = Ok tt w1).
    { unfold children, array in Hnew.
      destruct (Effect.effects e1) as [cs|]; [ | reflexivity ].
      apply for_each_noop. intros c Hc. destruct (Hnew c Hc) as (ec & Hec & Hinc).
      rewrite (bind_ok _ _ _ _ _ (get_effect_ok c ec w1 Hec)).
      eapply resume_children_active; eauto. }
    assert (Hwalk :
      (if bool_decide (children e1 = map root ts)
       then for_each ts (walk_body local) else ret tt) w1 = Ok tt w1).
    { case_bool_decide as Hch1; [ | reflexivity ].
      apply for_each_noop. intros k Hkin.
      destruct (Hnew (root k)) as (ec & Hec & Hinc).
      { rewrite Hch1. apply list_elem_of_fmap. eauto. }
      unfold walk_body. rewrite (bind_ok _ _ _ _ _ (get_effect_ok _ ec w1 Hec)).
      destruct k as [rk kk]. eapply resume_walk_active; eauto. }
    rewrite (bind_ok _ _ _ _ _ Hloop), (bind_ok _ _ _ _ _ Hwalk), enter_calls.
    split; [ reflexivity | ].
    apply (Hfinish w1 []).
    + rewrite app_nil_r. reflexivity.
    + apply walk_events_nil.
    + apply kept_outside_refl.
    + intros n Hn. inversion Hn.
    + intros n Hn. right. exists r. split.
      * apply below_root. eapply flat_map_resumed_subset; eauto.
      * rewrite app_nil_r. simpl. right. left.
    + reflexivity.
Qed.

End GeneralResumeWalk.

Section PendingFacts.

Context {K : Constants} {H : Host}.










End PendingFacts.

Lemma resume_effect_walk {K : Constants} {H : Host} (t : Tree) (fuel : nat) (w : World) :
  constants_ok ->
  shaped children (heap (store w)) t ->
  NoDup (nodes t) ->
  (height t < fuel)%nat ->
  host_reconciles (nodes t) t ->
  resume_effect fuel (root t) w = resume_walk true t w
  /\ walk_result (nodes t) (heap (store w))
       (fun n => bool_decide (n ∈ family (heap (store w)) t)) [t] w
       (resume_walk true t w).
Proof.
  intros HK Hsh Hnd Hfuel Hhost.
  exact (walks_spec HK (nodes t) t fuel Hfuel true w Hsh Hnd (fun n Hn => Hn) Hhost).
Qed.

(** C3. [resume_effect] does what the spec says of a resume, on the
    ownership tree: it walks the subtree from the effect and stops at a
    node that is not inert; at an inert node it clears the flag, asks
    [check_dirtiness] and re-executes the node at once when it is dirty,
    then resumes the children, and finally calls [in] on the transitions
    that are global, or local when the node was reached through branch
    and else-if children only. The host may raise, and a re-execution may
    replace the children of its node by nodes that are not inert. The
    walk is [resume_walk] and does not get stuck; an exception of the
    host ends it at once; when it returns, the nodes it checked are no
    longer inert, every node that was inert and reached through inert
    nodes was checked unless a node above it was re-executed, and the
    transitions entered are the eligible ones of the nodes checked. For a
    host that leaves the links alone, the host calls are those of
    [resume_trace] and every inert flag that is reached is cleared. *)
Theorem resume_effect_spec {K : Constants} {H : Host} (t : Tree) (fuel : nat) (w : World) :
  constants_ok ->
  shaped children (heap (store w)) t ->
  NoDup (nodes t) ->
  (height t < fuel)%nat ->
  host_reconciles (nodes t) t ->
  let h := heap (store w) in
  resume_effect fuel (root t) w = resume_walk true t w
  /\ (exists w' evs,
        trace w' = trace w ++ evs
        /\ Forall resume_event evs
        /\ runs_the_dirty evs
        /\ (forall n, n ∈ checked evs -> n ∈ resumed h t)
        /\ ((exists v, resume_effect fuel (root t) w = Throw (Thrown v) w')
            \/ (resume_effect fuel (root t) w = Ok tt w'
                /\ (forall n, n ∈ checked evs ->
                      exists e', heap (store w') !! n = Some e' /\ inert e' = false)
                /\ (forall n, n ∈ resumed h t ->
                      n ∈ checked evs
                      \/ exists a, below t a n /\ Ev_execute_effect a ∈ evs)
                /\ entered evs
                   ≡ₚ flat_map (fun n => eligible_at (heap (store w'))
                                           (bool_decide (n ∈ family h t)) n)
                        (checked evs))))
  /\ (host_keeps_links (nodes t) ->
      exists w' evs,
        resume_effect fuel (root t) w = Ok tt w'
        /\ trace w' = trace w ++ evs
        /\ resume_trace h true t evs
        /\ entered evs = entering h true t
        /\ entered evs
           ≡ₚ flat_map (fun n => eligible_at h (bool_decide (n ∈ family h t)) n) (resumed h t)
        /\ (forall n, n ∈ resumed h t <-> exists b, Ev_check_dirtiness n b ∈ evs)
        /\ (forall n, n ∈ resumed h t ->
              exists e e',
                h !! n = Some e /\ inert e = true
                /\ heap (store w') !! n = Some e' /\ inert e' = false
                /\ Effect.effects e' = Effect.effects e
                /\ Effect.transitions e' = Effect.transitions e)
        /\ (forall n e, n ∉ resumed h t -> h !! n = Some e ->
              exists e',
                heap (store w') !! n = Some e' /\ inert e' = inert e
                /\ Effect.effects e' = Effect.effects e
                /\ Effect.transitions e' = Effect.transitions e)).
Proof.
  intros HK Hsh Hnd Hfuel Hhost h.
  destruct (resume_effect_walk t fuel w HK Hsh Hnd Hfuel Hhost) as [Heq Hres].
  split; [ exact Heq | ]. split.
  - rewrite Heq. fold h in Hres.
    assert (Hone : forall evs, (forall n, n ∈ checked evs -> n ∈ flat_map (resumed h) [t]) ->
                     forall n, n ∈ checked evs -> n ∈ resumed h t).
    { intros evs Hsub n Hn. specialize (Hsub n Hn). cbn [flat_map] in Hsub.
      rewrite app_nil_r in Hsub. exact Hsub. }
    destruct (resume_walk true t w) as [[] w'|x w'|]; cbn [walk_result] in Hres.
    + destruct Hres as (evs & Htr & (Hev1 & Hev2 & Hev3) & _ & Hact & Hcov & Hent).
      exists w', evs. split; [ exact Htr | ]. split; [ exact Hev1 | ].
      split; [ exact Hev2 | ]. split; [ apply Hone; exact Hev3 | ].
      right. split; [ reflexivity | ]. split; [ exact Hact | ]. split; [ | exact Hent ].
      intros n Hn. destruct (Hcov n) as [Hc|(a & k & Hk & Hb & Hx)].
      * cbn [flat_map]. rewrite app_nil_r. exact Hn.
      * left. exact Hc.
      * right. exists a. apply list_elem_of_singleton in Hk as ->. auto.
    + destruct Hres as (v & evs & -> & Htr & (Hev1 & Hev2 & Hev3)).
      exists w', evs. split; [ exact Htr | ]. split; [ exact Hev1 | ].
      split; [ exact Hev2 | ]. split; [ apply Hone; exact Hev3 | ].
      left. exists v. reflexivity.
    + destruct Hres.
  - intros Hkeeps.
    destruct (resume_children_spec HK t fuel ltac:(lia) true w Hsh Hnd Hkeeps)
      as (w' & evs & Hrun & Htr & Hrt & Hkeep).
    destruct (resume_trace_checks h t true evs Hrt) as (Hex & Hck1 & Hck2).
    exists w', evs.
    split; [ exact Hrun | ].
    split; [ exact Htr | ].
    split; [ exact Hrt | ].
    split; [ exact (resume_trace_entering h t true evs Hrt) | ].
    split.
    { rewrite (resume_trace_entering h t true evs Hrt).
      rewrite (entering_family h t true Hnd). reflexivity. }
    split; [ intros n; split; [ apply Hck2 | intros [b Hb]; eapply Hck1; eauto ] | ].
    split.
    + intros n Hn.
      destruct (shaped_nodes_allocated _ _ _ _ Hsh (resumed_subset h t n Hn)) as [e He].
      destruct (Hkeep n e He) as (e' & He' & Hl).
      rewrite bool_decide_eq_true_2 in Hl by exact Hn.
      apply links_flip_eq in Hl as (Heff & Htrs & _ & _ & Hin).
      exists e, e'. rewrite Hin, (resumed_inert h t n e Hn He). auto 10.
    + intros n e Hn He.
      destruct (Hkeep n e He) as (e' & He' & Hl).
      rewrite bool_decide_eq_false_2 in Hl by exact Hn.
      apply links_eq in Hl as (Heff & Htrs & _ & _ & Hin).
      exists e'. auto.
Qed.

Section CreationFacts.

Context {K : Constants} {H : Host}.

Lemma create_effect_phases type fn sync init w :
  create_effect type fn sync init w
  = bind (allocate_effect type fn)
      (fun effect => bind (initialise_effect effect sync init) (fun _ => ret effect)) w.
Proof.
  unfold create_effect, allocate_effect, bind, get_store, set_effect, modify_store.
  destruct (current_effect (store w)) as [ce|];
    [ unfold modify_effect, bind, get_effect; simpl;
      repeat match goal with
             | |- context [match ?x !! ?i with _ => _ end] =>
                 destruct (x !! i); [ | reflexivity ]
             end
    | ];
    simpl;
    (destruct (current_reaction (store w)) as [cr|];
     [ destruct (negb (has_flag type ROOT_EFFECT));
       [ unfold modify_effect, bind, get_effect, set_effect, modify_store; simpl;
         match goal with
         | |- context [match ?x !! cr with _ => _ end] => destruct (x !! cr)
         end
       | ]
     | ]); reflexivity.
Qed.

Lemma fresh_not_allocated (h : gmap ref Effect.t) : h !! fresh (dom h) = None.
Proof. apply not_elem_of_dom. apply is_fresh. Qed.

Lemma allocate_effect_ok type fn w :
  current_allocated (store w) ->
  allocate_effect type fn w
  = Ok (fresh (dom (heap (store w)))) (set_heap (registered_heap type fn (store w)) w).
Proof.
  intros (Hce & Hcr & _).
  set (s := store w). set (r := fresh (dom (heap s))).
  assert (Hr : heap s !! r = None) by apply fresh_not_allocated.
  unfold allocate_effect. unfold bind at 1. unfold get_store. fold s. fold r.
  rewrite (bind_ok _ _ w tt (set_heap (<[r := new_effect type fn s]> (heap s)) w))
    by apply set_effect_ok.
  assert (Hstep1 :
    match current_effect s with
    | Some ce => bind (get_effect ce) (fun c => modify_effect r (Effect.with_l (Effect.l c + 1)))
    | None => ret tt
    end (set_heap (<[r := new_effect type fn s]> (heap s)) w)
    = Ok tt (set_heap (<[r := created_effect type fn s]> (heap s)) w)).
  { unfold created_effect. fold s. destruct (current_effect s) as [ce|] eqn:Hcur; [ | reflexivity ].
    destruct (Hce ce Hcur) as [c Hc]. fold s in Hc. rewrite Hc.
    assert (ce <> r) by congruence.
    erewrite bind_ok
      by (apply get_effect_ok; simpl; rewrite lookup_insert_ne by congruence; exact Hc).
    unfold modify_effect.
    erewrite bind_ok by (apply get_effect_ok; simpl; apply lookup_insert_eq).
    rewrite set_effect_ok. simpl. unfold set_heap. simpl. rewrite insert_insert_eq. reflexivity. }
  rewrite (bind_ok _ _ _ _ _ Hstep1).
  unfold registered_heap. fold s. fold r.
  destruct (current_reaction s) as [cr|] eqn:Hcur; [ | reflexivity ].
  destruct (has_flag type ROOT_EFFECT); [ reflexivity | ]. cbn [negb].
  destruct (Hcr cr Hcur) as [c Hc]. fold s in Hc.
  assert (cr <> r) by congruence.
  unfold modify_effect. unfold bind at 1.
  erewrite bind_ok
    by (apply get_effect_ok; simpl; rewrite lookup_insert_ne by congruence; exact Hc).
  rewrite set_effect_ok. unfold ret. rewrite heap_set_heap, set_heap_set_heap. do 2 f_equal.
  apply alter_lookup_insert. rewrite lookup_insert_ne by congruence. exact Hc.
Qed.

Lemma initialise_effect_sync effect w :
  initialise_effect effect true true w = after_execute effect w.
Proof.
  unfold initialise_effect, after_execute, try_finally, bind, get_store, ret,
    set_is_flushing_effect, modify_store, call_execute_effect, modify_effect, get_effect,
    set_effect, throw. simpl.
  destruct (execute_effect effect (with_is_flushing_effect true (store w))) as [s|v s];
    [ | reflexivity ].
  unfold bind, modify_store. simpl. destruct (heap s !! effect) as [e|]; reflexivity.
Qed.

Lemma initialise_effect_async effect w :
  initialise_effect effect false true w
  = Ok tt {| store := with_queue (queue (store w) ++ [effect]) (store w); trace := trace w |}.
Proof. reflexivity. Qed.

Lemma initialise_effect_skip effect sync w :
  initialise_effect effect sync false w = Ok tt w.
Proof. reflexivity. Qed.

(** Every way [create_effect] can end. *)
Lemma create_effect_run type fn sync init w :
  current_allocated (store w) ->
  create_effect type fn sync init w
  = bind (initialise_effect (fresh (dom (heap (store w)))) sync init)
      (fun _ => ret (fresh (dom (heap (store w)))))
      (set_heap (registered_heap type fn (store w)) w).
Proof.
  intros Hal. rewrite create_effect_phases.
  rewrite (bind_ok _ _ _ _ _ (allocate_effect_ok type fn w Hal)). reflexivity.
Qed.

Lemma registered_heap_new type fn s :
  current_allocated s ->
  registered_heap type fn s !! fresh (dom (heap s)) = Some (created_effect type fn s).
Proof.
  intros (_ & Hcr & _). unfold registered_heap.
  destruct (current_reaction s) as [cr|] eqn:Hcur; [ | apply lookup_insert_eq ].
  destruct (has_flag type ROOT_EFFECT); [ apply lookup_insert_eq | ].
  destruct (Hcr cr eq_refl) as [c Hc].
  pose proof (fresh_not_allocated (heap s)).
  rewrite lookup_alter_ne by congruence. apply lookup_insert_eq.
Qed.

Lemma registered_heap_root type fn s n :
  has_flag type ROOT_EFFECT = true -> n <> fresh (dom (heap s)) ->
  registered_heap type fn s !! n = heap s !! n.
Proof.
  intros Hroot Hn. unfold registered_heap. rewrite Hroot.
  destruct (current_reaction s); apply lookup_insert_ne; congruence.
Qed.

Lemma registered_heap_reaction type fn s cr c :
  has_flag type ROOT_EFFECT = false -> current_reaction s = Some cr -> heap s !! cr = Some c ->
  registered_heap type fn s !! cr = Some (push_effect (fresh (dom (heap s))) c).
Proof.
  intros Hroot Hcur Hc. unfold registered_heap. rewrite Hcur, Hroot.
  pose proof (fresh_not_allocated (heap s)).
  rewrite lookup_alter_eq, lookup_insert_ne by congruence. rewrite Hc. reflexivity.
Qed.

Lemma registered_heap_other type fn s n :
  n <> fresh (dom (heap s)) -> current_reaction s <> Some n ->
  registered_heap type fn s !! n = heap s !! n.
Proof.
  intros Hn Hcr. unfold registered_heap.
  destruct (current_reaction s) as [cr|]; [ | apply lookup_insert_ne; congruence ].
  destruct (has_flag type ROOT_EFFECT); [ apply lookup_insert_ne; congruence | ].
  rewrite lookup_alter_ne by congruence. apply lookup_insert_ne. congruence.
Qed.

End CreationFacts.

Lemma example_constants_ok : @constants_ok example_constants.
Proof.
  split.
  - unfold all_bits. simpl. refine (bool_decide_unpack _ _). vm_compute. exact I.
  - unfold all_bits. simpl. repeat constructor; lia.
Qed.

Lemma mounting_world_allocated : current_allocated (store mounting_world).
Proof.
  repeat split; intros x Hx; inversion Hx; subst; eexists; vm_compute; reflexivity.
Qed.

Lemma push_effect_children effect c : children (push_effect effect c) = children c ++ [effect].
Proof. unfold push_effect, children. destruct (Effect.effects c); reflexivity. Qed.

Lemma created_effect_fields {K : Constants} type fn s :
  Effect.parent (created_effect type fn s)
  = (if has_flag type ROOT_EFFECT then None else current_effect s)
  /\ Effect.f (created_effect type fn s) = js_or type DIRTY
  /\ Effect.fn (created_effect type fn s) = Some fn
  /\ Effect.ctx (created_effect type fn s) = current_component_context s
  /\ Effect.effects (created_effect type fn s) = None
  /\ Effect.transitions (created_effect type fn s) = None.
Proof.
  unfold created_effect, new_effect.
  destruct (current_effect s) as [ce|]; [ destruct (heap s !! ce) | ]; simpl;
    repeat split; reflexivity.
Qed.

(** C4, amended. [create_effect] builds a node whose parent is the current
    effect, or null for a root, with dirty status, and unless it is a root
    pushes it on the [effects] of the current reaction, so that it is torn
    down with that reaction: as long as the reaction lists it, a destroy
    of the reaction destroys it. Then, when [init] is set, it runs the
    node inline if [sync] is set and enqueues it on the scheduler
    otherwise; when [init] is not set the node is neither run nor
    enqueued. *)
Theorem create_effect_spec {K : Constants} {H : Host} (type : Z) (fn : Closure)
    (sync init : bool) (w : World) :
  constants_ok ->
  current_allocated (store w) ->
  let s := store w in
  let effect := fresh (dom (heap s)) in
  let is_root := has_flag type ROOT_EFFECT in
  let w1 := set_heap (registered_heap type fn s) w in
  (exists e,
      heap (store w1) !! effect = Some e
      /\ Effect.parent e = (if is_root then None else current_effect s)
      /\ Effect.f e = js_or type DIRTY
      /\ has_flag (Effect.f e) DIRTY = true
      /\ Effect.fn e = Some fn)
  /\ (forall cr c,
        current_reaction s = Some cr -> is_root = false -> heap s !! cr = Some c ->
        exists c1, heap (store w1) !! cr = Some c1 /\ children c1 = children c ++ [effect])
  /\ (forall cr w' c' t fuel,
        current_reaction s = Some cr -> is_root = false ->
        heap (store w') !! cr = Some c' -> effect ∈ children c' ->
        shaped owned_nodes (heap (store w')) t -> root t = cr ->
        NoDup (nodes t) -> (height t <= fuel)%nat ->
        exists e,
          heap (store w') !! effect = Some e
          /\ effect ∈ post_order t
          /\ destroy_effect fuel cr w'
             = Ok tt (destroyed (post_order t) (destroy_events (heap (store w')) t) w')
          /\ heap (store (destroyed (post_order t) (destroy_events (heap (store w')) t) w'))
               !! effect
             = Some (destroyed_node e)
          /\ has_flag (Effect.f (destroyed_node e)) DESTROYED = true)
  /\ (forall n, n <> effect -> current_reaction s <> Some n ->
        heap (store w1) !! n = heap s !! n)
  /\ (init = true -> sync = true ->
      create_effect type fn sync init w
      = match after_execute effect w1 with
        | Ok _ w' => Ok effect w'
        | Throw x w' => Throw x w'
        | Stuck => Stuck
        end)
  /\ (init = true -> sync = false ->
      create_effect type fn sync init w
      = Ok effect {| store := with_queue (queue s ++ [effect]) (store w1); trace := trace w |})
  /\ (init = false -> create_effect type fn sync init w = Ok effect w1).
Proof.
  intros HK Hal s effect is_root w1.
  pose proof (create_effect_run type fn sync init w Hal) as Hrun.
  fold s effect w1 in Hrun.
  split; [ | split; [ | split; [ | split; [ | split; [ | split ] ] ] ] ].
  - exists (created_effect type fn s).
    destruct (created_effect_fields type fn s) as (Hp & Hf & Hfn & _).
    split; [ apply registered_heap_new; exact Hal | ].
    split; [ exact Hp | ]. split; [ exact Hf | ]. split; [ | exact Hfn ].
    rewrite Hf. unfold DIRTY. rewrite (has_flag_or HK) by bit_in.
    rewrite bool_decide_eq_true_2 by reflexivity. apply orb_true_r.
  - intros cr c Hcr Hroot Hc. exists (push_effect effect c).
    split; [ apply registered_heap_reaction; assumption | apply push_effect_children ].
  - intros cr w' c' t fuel _ _ Hc' Hin Hsh Hrt Hnd Hfuel.
    assert (Hnodes : effect ∈ nodes t).
    { destruct t as [r ts]. simpl in Hrt. subst r.
      inversion Hsh as [r' ts' e0 Hr0 Ho Hk]; subst.
      rewrite Hr0 in Hc'. inversion Hc'; subst e0.
      assert (Hown : effect ∈ owned_nodes c') by (apply elem_of_app; left; exact Hin).
      rewrite Ho in Hown. apply list_elem_of_fmap in Hown as (k & Hk' & Hkin).
      simpl. right. apply elem_of_flat_map. exists k. split; [ exact Hkin | ].
      rewrite Hk'. apply root_in_nodes. }
    destruct (shaped_nodes_allocated _ _ _ _ Hsh Hnodes) as [e He].
    exists e. split; [ exact He | ].
    split; [ apply post_order_nodes; exact Hnodes | ].
    split; [ rewrite <- Hrt; apply destroy_effect_spec; assumption | ].
    split; [ | apply (destroyed_node_status HK) ].
    cbn [destroyed store heap with_subscribers with_heap].
    rewrite destroy_all_lookup_in.
    + rewrite He. reflexivity.
    + rewrite post_order_Permutation. exact Hnd.
    + apply post_order_nodes. exact Hnodes.
  - intros n Hn Hcr. apply registered_heap_other; assumption.
  - intros -> ->. rewrite Hrun. unfold bind. rewrite initialise_effect_sync.
    destruct (after_execute effect w1) as [[] ?| |]; reflexivity.
  - intros -> ->. rewrite Hrun. reflexivity.
  - intros ->. rewrite Hrun. destruct sync; reflexivity.
Qed.

(** C4 as stated fails: a creation with [sync] and [init] both unset (the
    call [user_effect] makes for a deferred effect) neither runs the new
    effect nor enqueues it. *)
Lemma create_effect_not_enqueued :
  exists w',
    @create_effect example_constants quiet_host (@EFFECT example_constants) (user_fn 1)
      false false mounting_world = Ok 1%nat w'
    /\ queue (store w') = []
    /\ trace w' = [].
Proof. eexists. split; [ vm_compute; reflexivity | split; reflexivity ]. Qed.


Lemma create_effect_spec_witness :
  @constants_ok example_constants
  /\ current_allocated (store mounting_world)
  /\ exists w' w2 e,
       @create_effect example_constants quiet_host (@EFFECT example_constants) (user_fn 1)
         false true mounting_world = Ok 1%nat w'
       /\ queue (store w') = [1%nat]
       /\ @destroy_effect example_constants 2 0%nat w' = Ok tt w2
       /\ heap (store w2) !! 1%nat = Some e
       /\ @has_flag (Effect.f e) (@DESTROYED example_constants) = true.
Proof.
  split; [ exact example_constants_ok | ].
  split; [ exact mounting_world_allocated | ].
  pose proof (@create_effect_spec example_constants quiet_host (@EFFECT example_constants)
                (user_fn 1) false true mounting_world example_constants_ok
                mounting_world_allocated) as Hthm.
  cbv zeta in Hthm. destruct Hthm as (_ & _ & Hdown & _ & _ & Hrun & _).
  specialize (Hrun eq_refl eq_refl).
  match type of Hrun with
  | _ = Ok _ ?w' =>
      destruct (Hdown 0%nat w'
                  (push_effect 1%nat (plain_effect (@RENDER_EFFECT example_constants)))
                  (Node 0%nat [Node 1%nat []]) 2%nat eq_refl ltac:(vm_compute; reflexivity)
                  ltac:(vm_compute; reflexivity)
                  ltac:(vm_compute; apply list_elem_of_singleton; reflexivity))
        as (e & _ & _ & Hdestroy & Hafter & Hflag);
        [ | | | | exists w' ]
  end.
  - repeat first
      [ exact I
      | apply Forall_nil
      | apply Forall_cons; split
      | eapply shaped_node; [ vm_compute; reflexivity | vm_compute; reflexivity | ] ].
  - reflexivity.
  - refine (bool_decide_unpack _ _). vm_compute. exact I.
  - vm_compute. lia.
  - eexists. exists (@destroyed_node example_constants e).
    split; [ exact Hrun | ]. split; [ reflexivity | ].
    split; [ exact Hdestroy | ]. split; [ exact Hafter | exact Hflag ].
Defined.

(** C7. An exception raised by the body of an effect that is run inline
    leaves [create_effect] as the same exception: the body is run once,
    the only thing done on the way out is the restoring of
    [is_flushing_effect], and nothing catches the exception. The same
    holds for the re-execution of a dirty node in [resume_children]. *)
Theorem effect_exception_propagates {K : Constants} {H : Host} (type : Z) (fn : Closure)
    (w : World) (v : nat) (s2 : Store) :
  current_allocated (store w) ->
  let effect := fresh (dom (heap (store w))) in
  let w1 := set_heap (registered_heap type fn (store w)) w in
  execute_effect effect (with_is_flushing_effect true (store w1)) = Raised v s2 ->
  create_effect type fn true true w
  = Throw (Thrown v)
      {| store := with_is_flushing_effect (is_flushing_effect (store w)) s2;
         trace := trace w ++ [Ev_execute_effect effect] |}
  /\ (forall fuel r local e w0 s0 s3,
        heap (store w0) !! r = Some e -> inert e = true ->
        check_dirtiness r (store (set_heap (<[r := toggle_inert e]> (heap (store w0))) w0))
        = Answered true s0 ->
        execute_effect r s0 = Raised v s3 ->
        resume_children (S fuel) r local w0
        = Throw (Thrown v)
            {| store := s3;
               trace := trace w0 ++ [Ev_check_dirtiness r true; Ev_execute_effect r] |}).
Proof.
  intros Hal effect w1 Hex. split.
  - rewrite (create_effect_run type fn true true w Hal).
    fold effect w1. unfold bind. rewrite initialise_effect_sync.
    unfold after_execute. rewrite Hex. reflexivity.
  - intros fuel r local e w0 s0 s3 Hr Hin Hcd Hex'.
    cbn [resume_children].
    rewrite (bind_ok _ _ _ _ _ (get_effect_ok r e w0 Hr)).
    fold (inert e). rewrite Hin. cbn [negb].
    rewrite (bind_ok _ _ _ _ _ (set_effect_ok r _ w0)).
    unfold bind at 1. unfold call_check_dirtiness.
    fold (toggle_inert e). rewrite Hcd.
    unfold bind at 1. unfold call_execute_effect. simpl. rewrite Hex'.
    rewrite <- app_assoc. reflexivity.
Qed.

Lemma effect_exception_propagates_witness :
  current_allocated (store mounting_world)
  /\ @create_effect example_constants throwing_host (@RENDER_EFFECT example_constants)
       (user_fn 1) true true mounting_world
     = Throw (Thrown 7)
         {| store := with_is_flushing_effect false
                       (with_is_flushing_effect true
                          (store (set_heap
                                    (@registered_heap example_constants
                                       (@RENDER_EFFECT example_constants) (user_fn 1)
                                       (store mounting_world)) mounting_world)));
            trace := [Ev_execute_effect 1%nat] |}.
Proof.
  split; [ exact mounting_world_allocated | ].
  apply (@effect_exception_propagates example_constants throwing_host
           (@RENDER_EFFECT example_constants) (user_fn 1) mounting_world 7%nat _
           mounting_world_allocated).
  reflexivity.
Defined.

(** C10. When [create_effect] runs the new effect inline,
    [is_flushing_effect] has its value from before the call again on the
    way out, whether the body returned or raised; the ran-once flag is set
    after a body that returned, and after a body that raised the heap is
    the one the body left: the flag was not touched. *)
Theorem is_flushing_effect_restored {K : Constants} {H : Host} (type : Z) (fn : Closure)
    (w : World) :
  constants_ok ->
  current_allocated (store w) ->
  let effect := fresh (dom (heap (store w))) in
  let w1 := set_heap (registered_heap type fn (store w)) w in
  (forall s', execute_effect effect (with_is_flushing_effect true (store w1)) = Returned s' ->
              is_Some (heap s' !! effect)) ->
  (exists e, heap (store w1) !! effect = Some e
             /\ has_flag (Effect.f e) EFFECT_RAN = has_flag type EFFECT_RAN)
  /\ match create_effect type fn true true w with
     | Ok r w' =>
         r = effect
         /\ is_flushing_effect (store w') = is_flushing_effect (store w)
         /\ (exists s', execute_effect effect (with_is_flushing_effect true (store w1))
                        = Returned s')
         /\ (exists e, heap (store w') !! effect = Some e
                       /\ has_flag (Effect.f e) EFFECT_RAN = true)
     | Throw x w' =>
         is_flushing_effect (store w') = is_flushing_effect (store w)
         /\ (exists v s', execute_effect effect (with_is_flushing_effect true (store w1))
                          = Raised v s'
                          /\ x = Thrown v /\ heap (store w') = heap s')
     | Stuck => False
     end.
Proof.
  intros HK Hal effect w1 Hkeep. split.
  - exists (created_effect type fn (store w)).
    split; [ apply registered_heap_new; exact Hal | ].
    destruct (created_effect_fields type fn (store w)) as (_ & -> & _).
    unfold EFFECT_RAN, DIRTY. rewrite (has_flag_or HK) by bit_in.
    assert (bit_EFFECT_RAN <> bit_DIRTY) by (bit_ne HK 12%nat 7%nat).
    rewrite bool_decide_eq_false_2 by assumption. apply orb_false_r.
  - rewrite (create_effect_run type fn true true w Hal).
    fold effect w1. unfold bind. rewrite initialise_effect_sync.
    unfold after_execute.
    destruct (execute_effect effect (with_is_flushing_effect true (store w1)))
      as [s'|v s'] eqn:Hex.
    + destruct (Hkeep s' eq_refl) as [e He]. rewrite He. unfold ret.
      split; [ reflexivity | ]. split; [ reflexivity | ]. split; [ eauto | ].
      exists (Effect.with_f (js_or (Effect.f e) EFFECT_RAN) e).
      split; [ simpl; apply lookup_insert_eq | ].
      simpl. unfold EFFECT_RAN. rewrite (has_flag_or HK) by bit_in.
      rewrite bool_decide_eq_true_2 by reflexivity. apply orb_true_r.
    + split; [ reflexivity | ]. exists v, s'. auto.
Qed.

Lemma is_flushing_effect_restored_witness :
  @constants_ok example_constants
  /\ current_allocated (store mounting_world)
  /\ exists w',
       @create_effect example_constants quiet_host (@RENDER_EFFECT example_constants)
         (user_fn 1) true true mounting_world = Ok 1%nat w'
       /\ is_flushing_effect (store w') = false.
Proof.
  split; [ exact example_constants_ok | ].
  split; [ exact mounting_world_allocated | ].
  pose proof (@is_flushing_effect_restored example_constants quiet_host
                (@RENDER_EFFECT example_constants) (user_fn 1) mounting_world
                example_constants_ok mounting_world_allocated) as Hthm.
  cbv zeta in Hthm.
  destruct Hthm as [_ Hthm].
  { intros s' Hs'. inversion Hs'; subst. eexists. vm_compute. reflexivity. }
  destruct (@create_effect example_constants quiet_host (@RENDER_EFFECT example_constants)
              (user_fn 1) true true mounting_world) as [r w'| |] eqn:Hrun.
  - destruct Hthm as (-> & Hfl & _). exists w'. split; [ reflexivity | exact Hfl ].
  - exfalso. vm_compute in Hrun. discriminate.
  - contradiction.
Defined.

Lemma destroy_children_spec {K : Constants} r ts fuel w :
  shaped owned_nodes (heap (store w)) (Node r ts) ->
  NoDup (nodes (Node r ts)) ->
  (height (Node r ts) <= S fuel)%nat ->
  destroy_children (destroy_effect fuel) r w
  = Ok tt (destroyed (flat_map post_order ts)
             (flat_map (destroy_events (heap (store w))) ts) w).
Proof.
  intros Hsh Hnd Hfuel.
  inversion Hsh as [r' ts' e Hr Ho Hk]; subst.
  simpl in Hnd. apply NoDup_cons in Hnd as [_ Hnd].
  unfold destroy_children.
  rewrite (bind_ok _ _ w e w) by (apply get_effect_ok; exact Hr).
  rewrite <- for_each_app. fold (owned_nodes e). rewrite Ho.
  apply destroy_effect_kids; [ | exact Hk | exact Hnd ].
  apply Forall_forall. intros k Hkin w' Hs' Hnd'.
  apply destroy_effect_spec; [ exact Hs' | exact Hnd' | ].
  pose proof (height_kid k r ts Hkin). lia.
Qed.

(** C9. A node created with the root kind has a null parent and no
    existing node is changed by its creation: it is not pushed on the
    [effects] of the current reaction. Destroying an effect that existed
    before, or destroying its children as a re-run does, therefore leaves
    the root as it is. [effect_root] gives the node the body wrapped in
    [untrack] and runs it inline before it returns, and the closure it
    returns destroys the root. *)
Theorem root_effect_unowned {K : Constants} {H : Host} (fn : Closure) (w : World) :
  constants_ok ->
  current_allocated (store w) ->
  let effect := fresh (dom (heap (store w))) in
  let w1 := set_heap (registered_heap ROOT_EFFECT (untracked fn) (store w)) w in
  (exists e, heap (store w1) !! effect = Some e
             /\ Effect.parent e = None
             /\ Effect.fn e = Some (untracked fn))
  /\ (forall n, n <> effect -> heap (store w1) !! n = heap (store w) !! n)
  /\ (forall t fuel,
        shaped owned_nodes (heap (store w)) t -> NoDup (nodes t) -> (height t <= fuel)%nat ->
        exists w2,
          destroy_effect fuel (root t) w1 = Ok tt w2
          /\ heap (store w2) !! effect = heap (store w1) !! effect)
  /\ (forall r ts fuel,
        shaped owned_nodes (heap (store w)) (Node r ts) -> NoDup (nodes (Node r ts)) ->
        (height (Node r ts) <= S fuel)%nat ->
        exists w2,
          destroy_children (destroy_effect fuel) r w1 = Ok tt w2
          /\ heap (store w2) !! effect = heap (store w1) !! effect)
  /\ effect_root fn w
     = match after_execute effect w1 with
       | Ok _ w' => Ok effect w'
       | Throw x w' => Throw x w'
       | Stuck => Stuck
       end
  /\ (forall t fuel w',
        shaped owned_nodes (heap (store w')) t -> root t = effect -> NoDup (nodes t) ->
        (height t <= fuel)%nat ->
        call_root_disposer fuel effect w'
        = Ok tt (destroyed (post_order t) (destroy_events (heap (store w')) t) w')).
Proof.
  intros HK Hal effect w1.
  assert (Hroot : has_flag ROOT_EFFECT ROOT_EFFECT = true).
  { unfold ROOT_EFFECT. rewrite (has_flag_mask HK) by bit_in.
    apply bool_decide_eq_true_2. reflexivity. }
  assert (Hframe : forall n, n <> effect -> heap (store w1) !! n = heap (store w) !! n).
  { intros n Hn. apply registered_heap_root; [ exact Hroot | exact Hn ]. }
  assert (Hout : forall t, shaped owned_nodes (heap (store w)) t ->
                   shaped owned_nodes (heap (store w1)) t /\ effect ∉ nodes t).
  { intros t Hsh.
    assert (Hnot : effect ∉ nodes t).
    { intros Hin. destruct (shaped_nodes_allocated _ _ _ _ Hsh Hin) as [e He].
      pose proof (fresh_not_allocated (heap (store w))). unfold effect in He. congruence. }
    split; [ | exact Hnot ].
    eapply shaped_agree; [ exact Hsh | ].
    intros n Hn. apply Hframe. intros ->. contradiction. }
  split; [ | split; [ exact Hframe | split; [ | split; [ | split ] ] ] ].
  - exists (created_effect ROOT_EFFECT (untracked fn) (store w)).
    destruct (created_effect_fields ROOT_EFFECT (untracked fn) (store w)) as (Hp & _ & Hfn & _).
    split; [ apply registered_heap_new; exact Hal | ].
    rewrite Hroot in Hp. auto.
  - intros t fuel Hsh Hnd Hfuel. destruct (Hout t Hsh) as [Hsh1 Hnot].
    eexists. split; [ exact (destroy_effect_spec t fuel w1 Hsh1 Hnd Hfuel) | ].
    simpl. apply destroy_all_lookup_notin. rewrite post_order_nodes. exact Hnot.
  - intros r ts fuel Hsh Hnd Hfuel. destruct (Hout _ Hsh) as [Hsh1 Hnot].
    eexists. split; [ exact (destroy_children_spec r ts fuel w1 Hsh1 Hnd Hfuel) | ].
    simpl. apply destroy_all_lookup_notin. intros Hin. apply Hnot. simpl. right.
    apply elem_of_flat_map in Hin as (k & Hk & Hin).
    apply post_order_nodes in Hin. apply elem_of_flat_map. eauto.
  - unfold effect_root. rewrite (create_effect_run _ _ true true w Hal).
    fold effect w1. unfold bind. rewrite initialise_effect_sync.
    destruct (after_execute effect w1) as [[] ?| |]; reflexivity.
  - intros t fuel w' Hsh Hr Hnd Hfuel. unfold call_root_disposer. rewrite <- Hr.
    apply destroy_effect_spec; assumption.
Qed.

Lemma root_effect_unowned_witness :
  @constants_ok example_constants
  /\ current_allocated (store mounting_world)
  /\ heap (store (set_heap
                    (@registered_heap example_constants (@ROOT_EFFECT example_constants)
                       (untracked (user_fn 1)) (store mounting_world)) mounting_world))
       !! 0%nat
     = heap (store mounting_world) !! 0%nat.
Proof.
  split; [ exact example_constants_ok | ].
  split; [ exact mounting_world_allocated | ].
  apply (@root_effect_unowned example_constants quiet_host (user_fn 1) mounting_world
           example_constants_ok mounting_world_allocated).
  vm_compute. discriminate.
Defined.

Section ErrorFacts.

Context {K : Constants} {H : Host}.

Lemma never_errors_bind {A B} (m : M A) (k : A -> M B) :
  never_errors m -> (forall a, never_errors (k a)) -> never_errors (bind m k).
Proof.
  intros Hm Hk w x w' Hrun. unfold bind in Hrun.
  destruct (m w) as [a w1|x1 w1|] eqn:Hmw; [ | | discriminate ].
  - eapply Hk; eauto.
  - inversion Hrun; subst. eapply Hm; eauto.
Qed.

Lemma never_errors_ret {A} (a : A) : never_errors (ret a).
Proof. intros w x w' Hrun. discriminate. Qed.

Lemma never_errors_get_store : never_errors get_store.
Proof. intros w x w' Hrun. discriminate. Qed.

Lemma never_errors_modify_store g : never_errors (modify_store g).
Proof. intros w x w' Hrun. discriminate. Qed.

Lemma never_errors_get_effect r : never_errors (get_effect r).
Proof.
  intros w x w' Hrun. unfold get_effect in Hrun.
  destruct (heap (store w) !! r); discriminate.
Qed.

Lemma never_errors_modify_effect r g : never_errors (modify_effect r g).
Proof.
  apply never_errors_bind; [ apply never_errors_get_effect | ].
  intros e. apply never_errors_modify_store.
Qed.

Lemma never_errors_call_execute_effect r : never_errors (call_execute_effect r).
Proof.
  intros w x w' Hrun. unfold call_execute_effect in Hrun.
  destruct (execute_effect r _); inversion Hrun; eauto.
Qed.

Lemma never_errors_try_finally {A} (body : M A) (cleanup : M unit) :
  never_errors body -> never_errors cleanup -> never_errors (try_finally body cleanup).
Proof.
  intros Hb Hc w x w' Hrun. unfold try_finally in Hrun.
  destruct (body w) as [a w1|x1 w1|] eqn:Hbw; [ | | discriminate ].
  - unfold bind in Hrun. destruct (cleanup w1) as [[] w2|x2 w2|] eqn:Hcw;
      [ discriminate | | discriminate ].
    inversion Hrun; subst. eapply Hc; eauto.
  - unfold bind in Hrun. destruct (cleanup w1) as [[] w2|x2 w2|] eqn:Hcw;
      [ | | discriminate ].
    + inversion Hrun; subst. eapply Hb; eauto.
    + inversion Hrun; subst. eapply Hc; eauto.
Qed.

Lemma never_errors_create_effect type fn sync init :
  never_errors (create_effect type fn sync init).
Proof.
  unfold create_effect.
  apply never_errors_bind; [ apply never_errors_get_store | intros s ].
  apply never_errors_bind; [ apply never_errors_modify_store | intros _ ].
  apply never_errors_bind.
  { destruct (current_effect s); [ | apply never_errors_ret ].
    apply never_errors_bind; [ apply never_errors_get_effect | intros c ].
    apply never_errors_modify_effect. }
  intros _. apply never_errors_bind.
  { destruct (current_reaction s); [ | apply never_errors_ret ].
    destruct (negb _); [ apply never_errors_modify_effect | apply never_errors_ret ]. }
  intros _. apply never_errors_bind; [ | intros _; apply never_errors_ret ].
  destruct init; [ | apply never_errors_ret ].
  destruct sync; [ | apply never_errors_modify_store ].
  apply never_errors_bind.
  { apply never_errors_bind; [ apply never_errors_get_store | intros s'; apply never_errors_ret ]. }
  intros prev. apply never_errors_try_finally; [ | apply never_errors_modify_store ].
  apply never_errors_bind; [ apply never_errors_modify_store | intros _ ].
  apply never_errors_bind; [ apply never_errors_call_execute_effect | intros _ ].
  apply never_errors_modify_effect.
Qed.

Lemma never_errors_user_effect_owned fn w ce :
  current_effect (store w) = Some ce ->
  forall x w', user_effect fn w = Throw x w' -> exists v, x = Thrown v.
Proof.
  intros Hce x w' Hrun. unfold user_effect in Hrun.
  unfold bind at 1 in Hrun. unfold get_store in Hrun. rewrite Hce in Hrun.
  revert Hrun. apply never_errors_bind; [ apply never_errors_get_effect | intros c ].
  apply never_errors_bind.
  { destruct (has_flag _ _); [ | apply never_errors_ret ].
    destruct (current_component_context (store w)); [ | apply never_errors_ret ].
    intros w0 x0 w0' Hrun0. destruct (contexts (store w0) !! _); discriminate. }
  intros defer.
  apply never_errors_bind; [ apply never_errors_create_effect | intros effect ].
  apply never_errors_bind; [ | intros _; apply never_errors_ret ].
  destruct defer; [ | apply never_errors_ret ].
  destruct (current_component_context (store w)); [ apply never_errors_modify_store | ].
  intros w0 x0 w0' Hrun0. discriminate.
Qed.

Lemma never_errors_user_pre_effect_owned fn w ce :
  current_effect (store w) = Some ce ->
  forall x w', user_pre_effect fn w = Throw x w' -> exists v, x = Thrown v.
Proof.
  intros Hce x w' Hrun. unfold user_pre_effect in Hrun.
  unfold bind at 1 in Hrun. unfold get_store in Hrun. rewrite Hce in Hrun.
  revert Hrun. apply never_errors_create_effect.
Qed.

End ErrorFacts.

Lemma prefix_append (a b : string) : String.prefix a (String.append a b) = true.
Proof.
  induction a as [|ch a IH]; simpl.
  - destruct b; reflexivity.
  - destruct (Ascii.ascii_dec ch ch); [ exact IH | contradiction ].
Qed.

(** C5. [user_effect] and [user_pre_effect] throw the orphan effect error,
    whose message starts with ERR_SVELTE_ORPHAN_EFFECT, exactly when no
    effect is current; the error leaves the call at once, with the world
    as it was. With a current effect any exception that leaves them was
    raised by user code. *)
Theorem orphan_effect_error {K : Constants} {H : Host} (fn : Closure) (w : World) :
  (current_effect (store w) = None ->
     user_effect fn w = Throw (Error (orphan_effect_message "$effect")) w
     /\ user_pre_effect fn w = Throw (Error (orphan_effect_message "$effect.pre")) w)
  /\ (current_effect (store w) <> None ->
      forall msg w',
        user_effect fn w <> Throw (Error msg) w'
        /\ user_pre_effect fn w <> Throw (Error msg) w')
  /\ (forall rune,
        String.prefix "ERR_SVELTE_ORPHAN_EFFECT" (orphan_effect_message rune) = true).
Proof.
  split; [ | split ].
  - intros Hnone. unfold user_effect, user_pre_effect, bind, get_store.
    rewrite Hnone. split; reflexivity.
  - intros Hsome msg w'.
    destruct (current_effect (store w)) as [ce|] eqn:Hce; [ | congruence ].
    split; intros Hrun.
    + destruct (never_errors_user_effect_owned fn w ce Hce _ _ Hrun) as [v Hv]. discriminate.
    + destruct (never_errors_user_pre_effect_owned fn w ce Hce _ _ Hrun) as [v Hv]. discriminate.
  - intros rune. unfold orphan_effect_message. apply prefix_append.
Qed.

Lemma orphan_effect_error_witness :
  @user_effect example_constants quiet_host (user_fn 1)
    {| store := empty_store; trace := [] |}
  = Throw (Error "ERR_SVELTE_ORPHAN_EFFECT") {| store := empty_store; trace := [] |}.
Proof.
  apply (@orphan_effect_error example_constants quiet_host (user_fn 1)
           {| store := empty_store; trace := [] |}).
  reflexivity.
Defined.

Lemma registered_heap_flags {K : Constants} type fn s n e :
  heap s !! n = Some e ->
  exists e', registered_heap type fn s !! n = Some e' /\ Effect.f e' = Effect.f e.
Proof.
  intros Hn.
  assert (Hne : n <> fresh (dom (heap s))).
  { intros ->. rewrite fresh_not_allocated in Hn. discriminate. }
  unfold registered_heap.
  destruct (current_reaction s) as [cr|] eqn:Hcr.
  - destruct (has_flag type ROOT_EFFECT) eqn:Hroot.
    + rewrite lookup_insert_ne by congruence. exists e. auto.
    + destruct (decide (n = cr)) as [->|Hnc].
      * rewrite lookup_alter_eq, lookup_insert_ne by congruence. rewrite Hn.
        eexists. split; [ reflexivity | ].
        unfold push_effect; destruct (Effect.effects e); reflexivity.
      * rewrite lookup_alter_ne, lookup_insert_ne by congruence. exists e. auto.
  - rewrite lookup_insert_ne by congruence. exists e. auto.
Qed.

Lemma user_effect_alive {K : Constants} fn s :
  constants_ok -> has_flag (Effect.f (created_effect EFFECT fn s)) DESTROYED = false.
Proof.
  intros HK. destruct (created_effect_fields EFFECT fn s) as (_ & -> & _).
  unfold EFFECT, DIRTY, DESTROYED.
  assert (Hd : bit_DESTROYED ∈ all_bits) by (apply list_elem_of_In; simpl; tauto).
  assert (He : bit_EFFECT ∈ all_bits) by (apply list_elem_of_In; simpl; tauto).
  assert (Hy : bit_DIRTY ∈ all_bits) by (apply list_elem_of_In; simpl; tauto).
  rewrite (has_flag_or HK) by assumption. rewrite (has_flag_mask HK) by assumption.
  rewrite !bool_decide_eq_false_2; [ reflexivity | | ].
  - apply (bits_distinct HK 10 7); [ reflexivity | reflexivity | lia ].
  - apply (bits_distinct HK 10 0); [ reflexivity | reflexivity | lia ].
Qed.

Section MountFacts.

Context {K : Constants} {H : Host}.

Lemma for_each_schedule rs w :
  for_each rs schedule_effect w
  = Ok tt {| store := with_queue (queue (store w) ++ rs) (store w); trace := trace w |}.
Proof.
  revert w. induction rs as [|r rs IH]; intros w.
  - simpl. unfold ret. rewrite app_nil_r. destruct w as [s tr]. destruct s. reflexivity.
  - cbn [for_each]. unfold bind, schedule_effect at 1, modify_store. rewrite IH.
    cbn [store trace queue with_queue]. rewrite <- app_assoc. reflexivity.
Qed.

Lemma mount_ok cc context w :
  contexts (store w) !! cc = Some context ->
  mount cc w
  = Ok tt {| store := with_contexts (<[cc := ComponentContext.make true None]> (contexts (store w)))
                        (with_queue (queue (store w) ++ array (ComponentContext.e context))
                           (store w));
             trace := trace w |}.
Proof.
  intros Hcc. unfold mount, bind, get_store. rewrite Hcc. rewrite for_each_schedule.
  reflexivity.
Qed.

Lemma alive_cons h r rs :
  alive h (r :: rs)
  = match h !! r with
    | Some e => if has_flag (Effect.f e) DESTROYED then alive h rs else r :: alive h rs
    | None => alive h rs
    end.
Proof.
  unfold alive. cbn [List.filter].
  destruct (h !! r) as [e|]; [ | reflexivity ].
  destruct (has_flag (Effect.f e) DESTROYED); reflexivity.
Qed.

Lemma alive_agree h h' rs :
  (forall n e, n ∈ rs -> h !! n = Some e ->
     exists e', h' !! n = Some e'
                /\ has_flag (Effect.f e') DESTROYED = has_flag (Effect.f e) DESTROYED) ->
  (forall n, n ∈ rs -> is_Some (h !! n)) ->
  alive h' rs = alive h rs.
Proof.
  induction rs as [|r rs IH]; intros Hag Hal; [ reflexivity | ].
  rewrite !alive_cons.
  destruct (Hal r ltac:(left)) as [e He]. destruct (Hag r e ltac:(left) He) as (e' & He' & Hd).
  rewrite He, He', Hd.
  rewrite IH; [ reflexivity | | ].
  - intros n e0 Hn. apply Hag. right. exact Hn.
  - intros n Hn. apply Hal. right. exact Hn.
Qed.


Lemma alive_app h rs rs' : alive h (rs ++ rs') = alive h rs ++ alive h rs'.
Proof. unfold alive. apply List.filter_app. Qed.

(** A flush pass executes every effect that it finds alive, once, in the
    order of the queue. *)
Lemma flush_effects_ok all :
  host_runs all ->
  forall rs more w,
    (forall n, n ∈ rs -> n ∈ all) ->
    (forall n, n ∈ all -> is_Some (heap (store w) !! n)) ->
    queue (store w) = rs ++ more ->
    exists w' more',
      flush_effects rs w = Ok tt w'
      /\ trace w' = trace w ++ map Ev_execute_effect (alive (heap (store w)) rs)
      /\ queue (store w') = more ++ more'.
Proof.
  intros Hhost. induction rs as [|r rs IH]; intros more w Hsub Hall Hq.
  - exists w, []. simpl. rewrite !app_nil_r. auto.
  - cbn [flush_effects]. unfold bind at 1. unfold modify_store at 1.
    destruct (Hall r (Hsub r ltac:(left))) as [e He].
    unfold bind at 1. unfold get_effect at 1. cbn [store heap]. 
    replace (heap (with_queue (tail (queue (store w))) (store w))) with (heap (store w))
      by (destruct (store w); reflexivity).
    rewrite He. rewrite alive_cons, He.
    destruct (has_flag (Effect.f e) DESTROYED) eqn:Hd.
    + unfold bind at 1. unfold ret at 1.
      destruct (IH more {| store := with_queue (tail (queue (store w))) (store w);
                           trace := trace w |}) as (w' & more' & Hrun & Htr & Hq').
      * intros n Hn. apply Hsub. right. exact Hn.
      * intros n Hn. cbn [store].
        replace (heap (with_queue (tail (queue (store w))) (store w))) with (heap (store w))
          by (destruct (store w); reflexivity).
        apply Hall, Hn.
      * cbn [store]. rewrite Hq. destruct (store w); reflexivity.
      * exists w', more'. split; [ exact Hrun | ]. split; [ | exact Hq' ].
        rewrite Htr. cbn [store trace].
        replace (heap (with_queue (tail (queue (store w))) (store w))) with (heap (store w))
          by (destruct (store w); reflexivity).
        reflexivity.
    + unfold bind at 1. unfold call_execute_effect at 1. cbn [store trace].
      destruct (Hhost r (with_queue (tail (queue (store w))) (store w)) (Hsub r ltac:(left)))
        as (s' & ex & Hex & Hqs & Hkeep).
      rewrite Hex.
      assert (Hheap : heap (with_queue (tail (queue (store w))) (store w)) = heap (store w))
        by (destruct (store w); reflexivity).
      rewrite Hheap in Hkeep.
      destruct (IH (more ++ ex) {| store := s'; trace := trace w ++ [Ev_execute_effect r] |})
        as (w' & more' & Hrun & Htr & Hq').
      * intros n Hn. apply Hsub. right. exact Hn.
      * intros n Hn. cbn [store]. destruct (Hall n Hn) as [en Hen].
        destruct (Hkeep n en Hn Hen) as (e' & He' & _). eauto.
      * cbn [store]. rewrite Hqs. 
        replace (queue (with_queue (tail (queue (store w))) (store w)))
          with (tail (queue (store w))) by (destruct (store w); reflexivity).
        rewrite Hq. cbn [tail]. rewrite app_assoc. reflexivity.
      * exists w', (ex ++ more'). split; [ exact Hrun | ]. split.
        -- rewrite Htr. cbn [store trace]. rewrite <- app_assoc. cbn [map app].
           rewrite (alive_agree (heap (store w)) (heap s') rs); [ reflexivity | | ].
           ++ intros n en Hn Hen. apply Hkeep; [ apply Hsub; right; exact Hn | exact Hen ].
           ++ intros n Hn. apply Hall, Hsub. right. exact Hn.
        -- rewrite Hq'. rewrite app_assoc. reflexivity.
Qed.

Lemma flush_ok w :
  host_runs (queue (store w)) ->
  (forall n, n ∈ queue (store w) -> is_Some (heap (store w) !! n)) ->
  exists w' more,
    flush w = Ok tt w'
    /\ trace w' = trace w ++ map Ev_execute_effect (alive (heap (store w)) (queue (store w)))
    /\ queue (store w') = more.
Proof.
  intros Hhost Hall.
  destruct (flush_effects_ok (queue (store w)) Hhost (queue (store w)) [] w
              (fun n Hn => Hn) Hall (eq_sym (app_nil_r _)))
    as (w' & more & Hrun & Htr & Hq).
  exists w', more. unfold flush, bind, get_store. auto.
Qed.

Lemma mount_twice cc context w w1 :
  contexts (store w) !! cc = Some context ->
  mount cc w = Ok tt w1 -> mount cc w1 = Ok tt w1.
Proof.
  intros Hcc Hrun. rewrite (mount_ok cc context w Hcc) in Hrun. inversion Hrun; subst w1.
  erewrite mount_ok; [ | cbn [store]; destruct (store w); cbn; apply lookup_insert_eq ].
  cbn [ComponentContext.e array default]. rewrite app_nil_r.
  destruct (store w); cbn. rewrite insert_insert_eq. reflexivity.
Qed.

End MountFacts.

(** C6. [user_effect], called while some effect is current, never runs the
    new effect. It defers when the current effect is a render effect and
    the component context is not mounted: the effect is then not enqueued
    but appended to the [e] of the context. In every other case the effect
    is enqueued on the scheduler. [user_pre_effect] runs its effect inline
    before it returns. A deferred effect runs once, after mount: [mount]
    hands it to the scheduler, last, and empties the [e] of the context,
    so that a second [mount] hands over nothing; nothing has been run so
    far; the flush that follows executes what was queued and is alive,
    and then the effect, once, when the executions it asks for return and
    leave the queued effects alive. *)
Theorem user_effect_deferred {K : Constants} {H : Host} (fn : Closure) (w : World)
    (ce : ref) (c : Effect.t) :
  current_allocated (store w) ->
  current_effect (store w) = Some ce ->
  heap (store w) !! ce = Some c ->
  let s := store w in
  let effect := fresh (dom (heap s)) in
  (exists w',
      user_effect fn w = Ok effect w'
      /\ trace w' = trace w
      /\ heap (store w') = registered_heap EFFECT fn s
      /\ (if defers s c
          then queue (store w') = queue s
               /\ exists cc context,
                    current_component_context s = Some cc
                    /\ contexts s !! cc = Some context
                    /\ ComponentContext.m context = false
                    /\ contexts (store w')
                       = <[cc := ComponentContext.make false
                                   (Some (array (ComponentContext.e context) ++ [effect]))]>
                           (contexts s)
          else queue (store w') = queue s ++ [effect]
               /\ contexts (store w') = contexts s))
  /\ user_pre_effect fn w
     = match after_execute effect (set_heap (registered_heap PRE_EFFECT fn s) w) with
       | Ok _ w' => Ok effect w'
       | Throw x w' => Throw x w'
       | Stuck => Stuck
       end
  /\ (defers s c = true ->
      exists cc context w' w1,
        let before := queue s ++ array (ComponentContext.e context) in
        current_component_context s = Some cc
        /\ contexts s !! cc = Some context
        /\ user_effect fn w = Ok effect w'
        /\ mount cc w' = Ok tt w1
        /\ trace w1 = trace w
        /\ heap (store w1) = registered_heap EFFECT fn s
        /\ queue (store w1) = before ++ [effect]
        /\ contexts (store w1) = <[cc := ComponentContext.make true None]> (contexts s)
        /\ mount cc w1 = Ok tt w1
        /\ (constants_ok ->
            (forall n, n ∈ before -> is_Some (heap s !! n)) ->
            host_runs (before ++ [effect]) ->
            (effect ∉ before)
            /\ exists w2,
                 flush w1 = Ok tt w2
                 /\ trace w2
                    = trace w ++ map Ev_execute_effect (alive (heap s) before)
                        ++ [Ev_execute_effect effect])).
Proof.
  intros Hal Hce Hc s effect.
  assert (Hfirst : exists w',
      user_effect fn w = Ok effect w'
      /\ trace w' = trace w
      /\ heap (store w') = registered_heap EFFECT fn s
      /\ (if defers s c
          then queue (store w') = queue s
               /\ exists cc context,
                    current_component_context s = Some cc
                    /\ contexts s !! cc = Some context
                    /\ ComponentContext.m context = false
                    /\ contexts (store w')
                       = <[cc := ComponentContext.make false
                                   (Some (array (ComponentContext.e context) ++ [effect]))]>
                           (contexts s)
          else queue (store w') = queue s ++ [effect]
               /\ contexts (store w') = contexts s)); [ | split; [ exact Hfirst | split ] ].
  - unfold user_effect. unfold bind at 1. unfold get_store. rewrite Hce.
    rewrite (bind_ok _ _ _ _ _ (get_effect_ok ce c w Hc)).
    unfold defers. fold s.
    destruct Hal as (Hal1 & Hal2 & Hal3).
    assert (Hdefer : exists d,
      (if has_flag (Effect.f c) RENDER_EFFECT
       then match current_component_context s with
            | Some cc => fun w0 => match contexts (store w0) !! cc with
                                   | Some context => Ok (negb (ComponentContext.m context)) w0
                                   | None => Stuck
                                   end
            | None => ret false
            end
       else ret false) w = Ok d w
      /\ d = has_flag (Effect.f c) RENDER_EFFECT
             && match current_component_context s with
                | Some cc => match contexts s !! cc with
                             | Some context => negb (ComponentContext.m context)
                             | None => false
                             end
                | None => false
                end).
    { destruct (has_flag (Effect.f c) RENDER_EFFECT); [ | exists false; split; reflexivity ].
      destruct (current_component_context s) as [cc|] eqn:Hcc;
        [ | exists false; split; reflexivity ].
      destruct (Hal3 cc Hcc) as [context Hctx].
      exists (negb (ComponentContext.m context)). unfold s. rewrite Hctx. split; reflexivity. }
    destruct Hdefer as (d & Hrun & Hd). rewrite <- Hd.
    rewrite (bind_ok _ _ _ _ _ Hrun).
    unfold bind at 1.
    rewrite (create_effect_run EFFECT fn false (negb d) w (conj Hal1 (conj Hal2 Hal3))).
    fold s effect.
    destruct d; cbn [negb].
    + unfold bind at 1. rewrite initialise_effect_skip. unfold ret at 1.
      symmetry in Hd. apply andb_true_iff in Hd as [_ Hd].
      destruct (current_component_context s) as [cc|] eqn:Hcc; [ | discriminate ].
      destruct (contexts s !! cc) as [context|] eqn:Hctx; [ | discriminate ].
      apply negb_true_iff in Hd.
      eexists. split; [ reflexivity | ]. simpl.
      split; [ reflexivity | ]. split; [ reflexivity | ]. split; [ reflexivity | ].
      exists cc, context. repeat split; try assumption.
      fold s. apply map_eq. intros i. destruct (decide (i = cc)) as [->|Hne].
      * rewrite lookup_alter_eq, lookup_insert_eq, Hctx. simpl. rewrite Hd. reflexivity.
      * rewrite lookup_alter_ne, lookup_insert_ne by congruence. reflexivity.
    + unfold bind at 1. rewrite initialise_effect_async. unfold ret at 1.
      eexists. split; [ reflexivity | ]. simpl. auto.
  - unfold user_pre_effect. unfold bind at 1. unfold get_store. rewrite Hce.
    unfold pre_effect. rewrite (create_effect_run PRE_EFFECT fn true true w Hal).
    fold s effect. unfold bind. rewrite initialise_effect_sync.
    destruct (after_execute effect _) as [[] ?| |]; reflexivity.
  - intros Hdef. destruct Hfirst as (w' & Hrun & Htr & Hheap & Hbranch).
    rewrite Hdef in Hbranch.
    destruct Hbranch as (Hq & cc & context & Hcc & Hctx & Hm & Hctxs).
    assert (Hctx' : contexts (store w') !! cc
                    = Some (ComponentContext.make false
                              (Some (array (ComponentContext.e context) ++ [effect])))).
    { rewrite Hctxs. apply lookup_insert_eq. }
    pose proof (mount_ok cc _ w' Hctx') as Hmount.
    change (array (ComponentContext.e
                      (ComponentContext.make false
                         (Some (array (ComponentContext.e context) ++ [effect])))))
      with (array (ComponentContext.e context) ++ [effect]) in Hmount.
    exists cc, context, w'. eexists. cbn zeta.
    split; [ exact Hcc | ]. split; [ exact Hctx | ]. split; [ exact Hrun | ].
    split; [ exact Hmount | ].
    assert (Hheap1 : forall q cs, heap (with_contexts cs (with_queue q (store w'))) = heap (store w'))
      by (intros; destruct (store w'); reflexivity).
    assert (Hqueue1 : forall q cs, queue (with_contexts cs (with_queue q (store w'))) = q)
      by (intros; destruct (store w'); reflexivity).
    assert (Hctxs1 : forall q cs, contexts (with_contexts cs (with_queue q (store w'))) = cs)
      by (intros; destruct (store w'); reflexivity).
    split; [ exact Htr | ].
    split; [ cbn [store]; rewrite Hheap1; exact Hheap | ].
    split; [ cbn [store]; rewrite Hqueue1, Hq, app_assoc; reflexivity | ].
    split; [ cbn [store]; rewrite Hctxs1, Hctxs; apply insert_insert_eq | ].
    split; [ exact (mount_twice cc _ w' _ Hctx' Hmount) | ].
    intros HK Hall Hhost.
    assert (Hfresh : effect ∉ queue s ++ array (ComponentContext.e context)).
    { intros Hin. destruct (Hall _ Hin) as [e He]. unfold effect in He.
      rewrite fresh_not_allocated in He. discriminate. }
    split; [ exact Hfresh | ].
    match goal with |- exists w2, flush ?x = _ /\ _ => set (w1 := x) end.
    assert (Hq1 : queue (store w1)
                  = (queue s ++ array (ComponentContext.e context)) ++ [effect]).
    { unfold w1. cbn [store]. rewrite Hqueue1, Hq, app_assoc. reflexivity. }
    assert (Hh1 : heap (store w1) = registered_heap EFFECT fn s).
    { unfold w1. cbn [store]. rewrite Hheap1. exact Hheap. }
    destruct (flush_ok w1) as (w2 & more & Hflush & Htr2 & _).
    { rewrite Hq1. exact Hhost. }
    { intros n Hn. rewrite Hq1 in Hn. rewrite Hh1. apply elem_of_app in Hn as [Hn|Hn].
      - destruct (Hall n Hn) as [e He].
        destruct (registered_heap_flags EFFECT fn s n e He) as (e' & He' & _). eauto.
      - apply list_elem_of_singleton in Hn. subst n.
        rewrite (registered_heap_new EFFECT fn s Hal). eauto. }
    exists w2. split; [ exact Hflush | ].
    rewrite Htr2, Hq1, Hh1, alive_app. unfold w1 at 1. cbn [trace]. rewrite Htr.
    rewrite map_app.
    rewrite (alive_agree (heap s) (registered_heap EFFECT fn s)).
    + rewrite alive_cons, (registered_heap_new EFFECT fn s Hal), (user_effect_alive fn s HK).
      reflexivity.
    + intros n e _ He. destruct (registered_heap_flags EFFECT fn s n e He) as (e' & He' & Hf).
      exists e'. rewrite Hf. auto.
    + exact Hall.
Qed.

Lemma user_effect_deferred_witness :
  current_allocated (store mounting_world)
  /\ exists w' w1 w2,
       @user_effect example_constants quiet_host (user_fn 1) mounting_world = Ok 1%nat w'
       /\ trace w' = []
       /\ queue (store w') = []
       /\ contexts (store w') !! 0%nat = Some (ComponentContext.make false (Some [1%nat]))
       /\ mount 0%nat w' = Ok tt w1
       /\ queue (store w1) = [1%nat]
       /\ contexts (store w1) !! 0%nat = Some (ComponentContext.make true None)
       /\ @flush example_constants quiet_host w1 = Ok tt w2
       /\ trace w2 = [Ev_execute_effect 1%nat].
Proof.
  split; [ exact mounting_world_allocated | ].
  destruct (@user_effect_deferred example_constants quiet_host (user_fn 1) mounting_world
              0%nat (plain_effect (@RENDER_EFFECT example_constants))
              mounting_world_allocated eq_refl eq_refl)
    as ((w' & Hrun & Htr & _ & Hq & cc & context & Hcc & Hctx & _ & Hctxs) & _ & Hlater).
  destruct (Hlater eq_refl)
    as (cc' & context' & w'' & w1 & Hcc' & Hctx' & Hrun' & Hmount & _ & _ & Hq1 & Hctxs1
        & _ & Hflush).
  rewrite Hrun in Hrun'. inversion Hrun'; subst w''.
  inversion Hcc; subst cc. inversion Hcc'; subst cc'.
  vm_compute in Hctx. inversion Hctx; subst context.
  vm_compute in Hctx'. inversion Hctx'; subst context'.
  destruct (Hflush example_constants_ok) as (_ & w2 & Hrun2 & Htr2).
  { intros n Hn. inversion Hn. }
  { intros r s _. exists s, []. split; [ reflexivity | ].
    split; [ rewrite app_nil_r; reflexivity | ]. intros n e _ He. exists e. auto. }
  exists w', w1, w2. split; [ exact Hrun | ]. split; [ exact Htr | ]. split; [ exact Hq | ].
  split; [ rewrite Hctxs; reflexivity | ].
  split; [ exact Hmount | ]. split; [ exact Hq1 | ].
  split; [ rewrite Hctxs1; reflexivity | ].
  split; [ exact Hrun2 | exact Htr2 ].
Defined.

Section PauseResumeFacts.

Context {K : Constants}.
Hypothesis HK : constants_ok.

Lemma paused_all h t :
  shaped children h t ->
  (forall n e, n ∈ nodes t -> h !! n = Some e -> inert e = false) ->
  paused h t = nodes t.
Proof.
  induction t as [r ts IH] using Tree_ind'. intros Hsh Hno.
  inversion Hsh as [r' ts' e Hr Ho Hk]; subst. simpl. rewrite Hr.
  rewrite (Hno r e ltac:(simpl; left) Hr). f_equal.
  apply flat_map_ext_elem. intros k Hkin. rewrite Forall_forall in IH, Hk.
  apply IH; [ exact Hkin | apply Hk; exact Hkin | ].
  intros n e' Hn. apply Hno. simpl. right. apply elem_of_flat_map. eauto.
Qed.

Lemma resumed_all h t :
  shaped children h t ->
  (forall n e, n ∈ nodes t -> h !! n = Some e -> inert e = true) ->
  resumed h t = nodes t.
Proof.
  induction t as [r ts IH] using Tree_ind'. intros Hsh Hno.
  inversion Hsh as [r' ts' e Hr Ho Hk]; subst. simpl. rewrite Hr.
  rewrite (Hno r e ltac:(simpl; left) Hr). f_equal.
  apply flat_map_ext_elem. intros k Hkin. rewrite Forall_forall in IH, Hk.
  apply IH; [ exact Hkin | apply Hk; exact Hkin | ].
  intros n e' Hn. apply Hno. simpl. right. apply elem_of_flat_map. eauto.
Qed.

Lemma toggle_inert_fields e :
  inert (toggle_inert e) = negb (inert e)
  /\ transparent (toggle_inert e) = transparent e
  /\ Effect.effects (toggle_inert e) = Effect.effects e
  /\ Effect.transitions (toggle_inert e) = Effect.transitions e
  /\ has_flag (Effect.f (toggle_inert e)) DESTROYED = has_flag (Effect.f e) DESTROYED.
Proof.
  pose proof (links_toggle_inert HK e) as Hl.
  apply links_flip_eq in Hl as (H1 & H2 & H3 & H4 & H5). auto.
Qed.

Lemma resume_trace_events h t :
  forall local evs, resume_trace h local t evs -> forall ev, ev ∈ evs -> resume_event ev.
Proof.
  induction t as [r ts IH] using Tree_ind'. intros local evs Htr ev Hev.
  inversion Htr as [? ? ? e Hr Hin | ? ? ? e dirty trs Hr Hin Hall]; subst;
    [ inversion Hev | ].
  apply elem_of_cons in Hev as [->|Hev]; [ exact I | ].
  apply elem_of_app in Hev as [Hev|Hev].
  { destruct dirty; [ | inversion Hev ].
    apply list_elem_of_singleton in Hev as ->. exact I. }
  apply elem_of_app in Hev as [Hev|Hev].
  - apply elem_of_concat in Hev as (tr & Htr' & Hev).
    destruct (Forall2_elem_of_r _ _ _ tr Hall Htr') as (k & Hk & Hrt).
    rewrite Forall_forall in IH. eapply IH; eauto.
  - apply list_elem_of_fmap in Hev as (x & -> & _). exact I.
Qed.


End PauseResumeFacts.





Section ExampleBlockFacts.

#[local] Existing Instance example_constants.
#[local] Existing Instance quiet_host.

Lemma quiet_host_keeps_links rs : host_keeps_links rs.
Proof.
  intros r s _. split.
  - exists s. split; [ reflexivity | apply keeps_refl ].
  - eexists. exists s. split; [ reflexivity | apply keeps_refl ].
Qed.

Lemma block_tree_shaped : shaped children (heap (store block_world)) block_tree.
Proof.
  repeat first
    [ exact I
    | apply Forall_nil
    | apply Forall_cons; split
    | eapply shaped_node; [ vm_compute; reflexivity | vm_compute; reflexivity | ] ].
Qed.

Lemma block_owned_tree_shaped :
  shaped owned_nodes (heap (store block_world)) block_owned_tree.
Proof.
  repeat first
    [ exact I
    | apply Forall_nil
    | apply Forall_cons; split
    | eapply shaped_node; [ vm_compute; reflexivity | vm_compute; reflexivity | ] ].
Qed.

Lemma block_tree_not_inert n e :
  n ∈ nodes block_tree -> heap (store block_world) !! n = Some e -> inert e = false.
Proof.
  intros Hn He. simpl in Hn.
  repeat (apply elem_of_cons in Hn as [->|Hn]); try solve [ inversion Hn ];
    vm_compute in He; inversion He; subst; vm_compute; reflexivity.
Qed.

End ExampleBlockFacts.

Lemma destroy_effect_cascade_witness :
  exists w',
    @destroy_effect example_constants 3 0%nat block_world = Ok tt w'
    /\ trace w'
       = [Ev_transition_stop tr_global;
          Ev_transition_stop tr_local_b; Ev_teardown 3%nat (user_fn 23);
          Ev_transition_stop tr_local_a; Ev_teardown 1%nat (user_fn 21); Ev_remove 51%nat;
          Ev_remove 50%nat]
    /\ subscribers (store w') !! 100%nat = Some {[ 9%nat ]}.
Proof.
  destruct (@destroy_effect_cascade example_constants block_owned_tree 3 block_world
              example_constants_ok block_owned_tree_shaped)
    as (w' & Hrun & Htr & _ & _ & Hsubs & _).
  - refine (bool_decide_unpack _ _). vm_compute. exact I.
  - vm_compute. lia.
  - exists w'. split; [ exact Hrun | ]. split; [ rewrite Htr; vm_compute; reflexivity | ].
    rewrite Hsubs. vm_compute. reflexivity.
Defined.

Lemma block_tree_NoDup : NoDup (nodes block_tree).
Proof. refine (bool_decide_unpack _ _). vm_compute. exact I. Qed.

Lemma paused_block_tree_shaped :
  shaped children (heap (store paused_block_world)) block_tree.
Proof.
  repeat first
    [ exact I
    | apply Forall_nil
    | apply Forall_cons; split
    | eapply shaped_node; [ vm_compute; reflexivity | vm_compute; reflexivity | ] ].
Qed.

Lemma pause_effect_spec_witness :
  exists w0 w1 w2 e,
    @pause_children example_constants 3 0%nat [] true block_world
    = Ok [tr_local_a; tr_global] w0
    /\ @pause_effect example_constants 3 0%nat (user_fn 99) block_world = Ok tt w1
    /\ times 2 (@check example_constants 3 0%nat) w1 = Ok tt w2
    /\ heap (store w2) !! 0%nat = Some e
    /\ @has_flag (Effect.f e) (@DESTROYED example_constants) = true
    /\ last (trace w2) = Some (Ev_callback (user_fn 99)).
Proof.
  pose proof (@pause_effect_spec example_constants block_tree 3 (user_fn 99) block_world
                example_constants_ok block_tree_shaped block_tree_NoDup
                ltac:(vm_compute; lia)) as Hthm.
  cbv zeta in Hthm. destruct Hthm as (Hwalk & _ & _ & _ & Hend).
  destruct (Hend block_owned_tree block_owned_tree_shaped eq_refl
              ltac:(refine (bool_decide_unpack _ _); vm_compute; exact I)
              ltac:(vm_compute; lia)) as [_ Hsome].
  destruct Hsome as (w1 & Hpause & _ & _ & _ & _ & Hfire); [ vm_compute; discriminate | ].
  eexists. exists w1. eexists. eexists.
  split; [ etransitivity; [ exact Hwalk | reflexivity ] | ].
  split; [ exact Hpause | ].
  split; [ etransitivity; [ exact Hfire | reflexivity ] | ].
  vm_compute in Hpause. inversion Hpause; subst w1.
  split; [ vm_compute; reflexivity | ].
  split; vm_compute; reflexivity.
Defined.



Lemma replacing_host_reconciles F t : @host_reconciles example_constants replacing_host F t.
Proof.
  intros r ks s _ Hsh Hnd. inversion Hsh as [r' ks' e0 Hr0 Ho Hk]; subst.
  cbn [nodes] in Hnd. apply NoDup_cons in Hnd as [Hrks _].
  assert (Hroots : forall n, n ∈ children e0 -> n ∈ flat_map nodes ks).
  { intros n Hn. rewrite Ho in Hn. apply list_elem_of_fmap in Hn as (k & -> & Hk').
    apply elem_of_flat_map. exists k. split; [ exact Hk' | apply root_in_nodes ]. }
  split.
  - intros b s' Hc. inversion Hc; subst. apply kept_outside_refl.
  - intros s' e Hex Hr. inversion Hex; subst. cbn [heap with_heap].
    rewrite Hr0 in Hr. inversion Hr; subst e0. rewrite Hr0. split.
    + intros n e0 _ Hn He0. exists e0. split; [ | reflexivity ].
      rewrite lookup_alter_ne by (intros ->; apply Hn; simpl; left).
      rewrite destroy_all_lookup_notin; [ exact He0 | ].
      intros Hc. apply Hn. simpl. right. apply Hroots. exact Hc.
    + exists (Effect.with_effects None e).
      split.
      { rewrite lookup_alter_eq.
        rewrite destroy_all_lookup_notin by (intros Hc; apply Hrks, Hroots; exact Hc).
        rewrite Hr0. reflexivity. }
      split; [ reflexivity | ].
      right. intros c Hc. inversion Hc.
Qed.


Lemma stale_block_tree_shaped :
  shaped children (heap (store stale_block_world)) block_tree.
Proof.
  repeat first
    [ exact I
    | apply Forall_nil
    | apply Forall_cons; split
    | eapply shaped_node; [ vm_compute; reflexivity | vm_compute; reflexivity | ] ].
Qed.

Lemma resume_effect_spec_witness :
  exists w' e1 e2,
    @resume_effect example_constants replacing_host 4 0%nat stale_block_world = Ok tt w'
    /\ trace w'
       = [Ev_check_dirtiness 0%nat false;
          Ev_check_dirtiness 1%nat true; Ev_execute_effect 1%nat;
          Ev_transition_in tr_local_a]
    /\ heap (store w') !! 1%nat = Some e1
    /\ Effect.effects e1 = None /\ @inert example_constants e1 = false
    /\ heap (store w') !! 2%nat = Some e2 /\ @inert example_constants e2 = true
    /\ @has_flag (Effect.f e2) (@DESTROYED example_constants) = true.
Proof.
  pose proof (@resume_effect_spec example_constants replacing_host block_tree 4
                stale_block_world example_constants_ok stale_block_tree_shaped
                block_tree_NoDup ltac:(vm_compute; lia)
                (replacing_host_reconciles (nodes block_tree) block_tree)) as Hthm.
  cbv zeta in Hthm. destruct Hthm as (Heq & _).
  eexists. eexists. eexists.
  split; [ etransitivity; [ exact Heq | vm_compute; reflexivity ] | ].
  split; [ reflexivity | ].
  split; [ vm_compute; reflexivity | ].
  split; [ reflexivity | ].
  split; [ vm_compute; reflexivity | ].
  split; [ vm_compute; reflexivity | ].
  split; [ vm_compute; reflexivity | ].
  vm_compute. reflexivity.
Defined.




Lemma same_control_refl w : same_control w w.
Proof. repeat split. Qed.

Lemma same_control_trans w1 w2 w3 :
  same_control w1 w2 -> same_control w2 w3 -> same_control w1 w3.
Proof.
  unfold same_control. intros (?&?&?&?&?&?&?) (?&?&?&?&?&?&?).
  repeat split; congruence.
Qed.

Lemma destroy_step_refl w : destroy_step w w.
Proof.
  split; [ apply same_control_refl | ]. exists []. rewrite app_nil_r. auto.
Qed.

Lemma destroy_step_trans w1 w2 w3 :
  destroy_step w1 w2 -> destroy_step w2 w3 -> destroy_step w1 w3.
Proof.
  intros (Hc1 & evs1 & Ht1 & Hf1) (Hc2 & evs2 & Ht2 & Hf2).
  split; [ eapply same_control_trans; eauto | ].
  exists (evs1 ++ evs2). rewrite Ht2, Ht1, app_assoc.
  split; [ reflexivity | apply Forall_app; auto ].
Qed.

Section Steps.

Variable R : World -> World -> Prop.

Hypothesis R_refl : forall w, R w w.

Hypothesis R_trans : forall w1 w2 w3, R w1 w2 -> R w2 w3 -> R w1 w3.

Lemma steps_ret {A} (a : A) : steps R (ret a).
Proof. intros w a' w' Hr. inversion Hr; subst. apply R_refl. Qed.

Lemma steps_bind {A B} (m : M A) (k : A -> M B) :
  steps R m -> (forall a, steps R (k a)) -> steps R (bind m k).
Proof.
  intros Hm Hk w b w' Hr. unfold bind in Hr.
  destruct (m w) as [a w1| |] eqn:Hmw; try discriminate.
  eapply R_trans; [ eapply Hm; eauto | eapply Hk; eauto ].
Qed.

Lemma steps_for_each {A} (xs : list A) (body : A -> M unit) :
  (forall x, steps R (body x)) -> steps R (for_each xs body).
Proof.
  intros Hb. induction xs as [|x xs IH]; [ apply steps_ret | ].
  cbn [for_each]. apply steps_bind; [ apply Hb | intros _; exact IH ].
Qed.

Lemma steps_get_effect r : steps R (get_effect r).
Proof.
  intros w e w' Hr. unfold get_effect in Hr.
  destruct (heap (store w) !! r); inversion Hr; subst. apply R_refl.
Qed.

End Steps.

Section DestroyStep.

Context {K : Constants}.

Lemma destroy_step_graph (g : Store -> Store) w :
  queue (g (store w)) = queue (store w) ->
  pending (g (store w)) = pending (store w) ->
  contexts (g (store w)) = contexts (store w) ->
  current_effect (g (store w)) = current_effect (store w) ->
  current_reaction (g (store w)) = current_reaction (store w) ->
  current_component_context (g (store w)) = current_component_context (store w) ->
  is_flushing_effect (g (store w)) = is_flushing_effect (store w) ->
  destroy_step w {| store := g (store w); trace := trace w |}.
Proof.
  intros. split; [ repeat split; assumption | ].
  exists []. simpl. rewrite app_nil_r. auto.
Qed.

Lemma steps_set_effect r e : steps destroy_step (set_effect r e).
Proof.
  intros w a w' Hr. inversion Hr; subst.
  apply (destroy_step_graph (fun s => with_heap (<[r := e]> (heap s)) s)); reflexivity.
Qed.

Lemma steps_modify_effect r g : steps destroy_step (modify_effect r g).
Proof.
  apply steps_bind; [ apply destroy_step_trans | apply steps_get_effect, destroy_step_refl | ].
  intros e. apply steps_set_effect.
Qed.

Lemma steps_log_release ev : release_event ev -> steps destroy_step (log ev).
Proof.
  intros Hev w a w' Hr. inversion Hr; subst.
  split; [ repeat split | ]. exists [ev]. simpl. auto.
Qed.

Lemma steps_remove_reactions r i : steps destroy_step (remove_reactions r i).
Proof.
  apply steps_bind; [ apply destroy_step_trans | apply steps_get_effect, destroy_step_refl | ].
  intros e. destruct (Effect.deps e) as [ds|]; [ | apply steps_ret, destroy_step_refl ].
  apply steps_for_each; [ apply destroy_step_refl | apply destroy_step_trans | ].
  intros d w a w' Hr. inversion Hr; subst.
  apply (destroy_step_graph
           (fun s => with_subscribers (alter (fun subs => subs ∖ {[r]}) d (subscribers s)) s));
    reflexivity.
Qed.

Lemma steps_destroy_effect fuel : forall r, steps destroy_step (destroy_effect fuel r).
Proof.
  pose proof destroy_step_refl as Hrefl. pose proof destroy_step_trans as Htrans.
  induction fuel as [|fuel IH]; intros r; [ intros w a w' Hr; discriminate | ].
  cbn [destroy_effect].
  apply steps_bind; [ exact Htrans | | ].
  { unfold destroy_children.
    apply steps_bind; [ exact Htrans | apply steps_get_effect, Hrefl | ].
    intros e. apply steps_bind; [ exact Htrans | apply steps_for_each; auto | ].
    intros _. apply steps_for_each; auto. }
  intros _. apply steps_bind; [ exact Htrans | apply steps_remove_reactions | ].
  intros _. apply steps_bind; [ exact Htrans | apply steps_modify_effect | ].
  intros _. apply steps_bind; [ exact Htrans | apply steps_get_effect, Hrefl | ].
  intros e. apply steps_bind; [ exact Htrans | | ].
  { destruct (Effect.transitions e); [ | apply steps_ret, Hrefl ].
    apply steps_for_each; auto. intros t. apply steps_log_release. exact I. }
  intros _. apply steps_bind; [ exact Htrans | | ].
  { destruct (Effect.teardown e); [ apply steps_log_release; exact I | apply steps_ret, Hrefl ]. }
  intros _. apply steps_bind; [ exact Htrans | | ].
  { destruct (Effect.dom e); [ apply steps_log_release; exact I | apply steps_ret, Hrefl ]. }
  intros _. apply steps_modify_effect.
Qed.

Lemma call_fn_same_control fuel effects callback :
  steps same_control (call_fn fuel effects callback).
Proof.
  unfold call_fn.
  apply steps_bind; [ apply same_control_trans | | ].
  - apply steps_for_each; [ apply same_control_refl | apply same_control_trans | ].
    intros r w a w' Hr. apply (steps_destroy_effect fuel r w a w' Hr).
  - intros _ w a w' Hr. inversion Hr; subst. repeat split.
Qed.

End DestroyStep.

Lemma bind_bind_ret {A B} (m : M A) (k : A -> M B) w :
  bind (bind m (fun a => ret a)) k w = bind m k w.
Proof. unfold bind, ret. destruct (m w); reflexivity. Qed.

Lemma times_add (a b : nat) (m : M unit) w :
  times (a + b) m w = bind (times a m) (fun _ => times b m) w.
Proof.
  revert w. induction a as [|a IH]; intros w; [ reflexivity | ].
  cbn [Nat.add times]. unfold bind in *. destruct (m w) as [[] w1| |]; auto.
Qed.

Section PauseEffectsWalk.

Context {K : Constants}.

(** The loop of [pause_effects] over several subtrees. *)
Lemma pause_children_forest (ts : list Tree) (fuel : nat) :
  forall acc w,
    Forall (shaped children (heap (store w))) ts ->
    NoDup (flat_map nodes ts) ->
    Forall (fun k => (height k <= fuel)%nat) ts ->
    for_each_acc (map root ts) acc
      (fun effect transitions => pause_children fuel effect transitions true) w
    = Ok (acc ++ flat_map (collected (heap (store w)) true) ts)
         (set_heap (toggle_all (flat_map (paused (heap (store w))) ts) (heap (store w))) w).
Proof.
  induction ts as [|k ts IHts]; intros acc w Hsh Hnd Hfuel.
  - simpl. unfold ret. rewrite app_nil_r, set_heap_id. reflexivity.
  - apply Forall_cons in Hsh as [Hk Hsh]. apply Forall_cons in Hfuel as [Hfk Hfuel].
    simpl in Hnd. apply NoDup_app in Hnd as (Hndk & Hdisj & Hndts).
    set (h := heap (store w)) in *.
    cbn [map for_each_acc].
    rewrite (bind_ok _ _ _ _ _ (pause_children_spec k fuel acc true w Hk Hndk Hfk)). fold h.
    assert (Hag : forall n, n ∈ flat_map nodes ts -> toggle_all (paused h k) h !! n = h !! n).
    { intros n Hn. apply toggle_all_lookup_notin. intros Hp.
      apply (Hdisj n); [ apply (paused_subset h); exact Hp | exact Hn ]. }
    rewrite IHts; [ | | exact Hndts | exact Hfuel ].
    2:{ rewrite heap_set_heap. apply Forall_forall. intros k' Hk'.
        rewrite Forall_forall in Hsh. eapply shaped_agree; [ apply Hsh; exact Hk' | ].
        intros n Hn. apply Hag. apply elem_of_flat_map. eauto. }
    rewrite heap_set_heap, set_heap_set_heap.
    cbn [flat_map]. rewrite toggle_all_app, <- app_assoc. f_equal.
    + do 2 f_equal. apply flat_map_ext_elem. intros k' Hk'.
      apply collected_agree. intros n Hn. apply Hag. apply elem_of_flat_map. eauto.
    + f_equal. f_equal. apply flat_map_ext_elem. intros k' Hk'.
      apply paused_agree. intros n Hn. apply Hag. apply elem_of_flat_map. eauto.
Qed.

Lemma paused_forest_subset h ts n :
  n ∈ flat_map (paused h) ts -> n ∈ flat_map nodes ts.
Proof.
  intros Hn. apply elem_of_flat_map in Hn as (k & Hk & Hn).
  apply elem_of_flat_map. exists k. split; [ exact Hk | eapply paused_subset; eauto ].
Qed.

(** Completions past the one that ran the continuation only count on. *)
Lemma times_check_spent fuel k m :
  forall (p : Pending) w,
    pending (store w) !! k = Some p -> remaining p <= 0 ->
    times m (check fuel k) w = Ok tt (with_remaining k (remaining p - Z.of_nat m) w).
Proof.
  induction m as [|m IH]; intros p w Hk Hle.
  - simpl. rewrite Z.sub_0_r, (with_remaining_same k p w Hk). reflexivity.
  - cbn [times]. unfold bind. rewrite (check_step fuel k p w Hk).
    destruct (Z.eqb_spec (remaining p - 1) 0) as [H0|H0]; [ lia | ].
    unfold ret at 1.
    rewrite (IH _ _ (pending_with_remaining k (remaining p - 1) p w Hk)) by (simpl; lia).
    rewrite with_remaining_twice. simpl. do 2 f_equal. lia.
Qed.

End PauseEffectsWalk.

(** X1. [pause_effects] pauses the subtrees of its effects one after the
    other and gathers their transitions in one array, in the order of the
    effects; all of them share one completion counter. With nothing
    gathered the continuation runs at once; otherwise fewer completions
    than transitions only count down, and the last one runs the
    continuation, which is given every effect of the list. *)
Theorem pause_effects_coordinated {K : Constants} (ts : list Tree) (fuel : nat)
    (callback : Closure) (w : World) :
  Forall (shaped children (heap (store w))) ts ->
  NoDup (flat_map nodes ts) ->
  Forall (fun k => (height k <= fuel)%nat) ts ->
  let h := heap (store w) in
  let effects := map root ts in
  let collected_ts := flat_map (collected h true) ts in
  let paused_world := set_heap (toggle_all (flat_map (paused h) ts) h) w in
  let k := fresh (dom (pending (store w))) in
  (forall n, n ∈ flat_map (paused h) ts ->
     exists e, h !! n = Some e /\ inert e = false
               /\ heap (store paused_world) !! n = Some (toggle_inert e))
  /\ (forall n, n ∉ flat_map (paused h) ts -> heap (store paused_world) !! n = h !! n)
  /\ (collected_ts = [] ->
      pause_effects fuel effects callback w = call_fn fuel effects callback paused_world)
  /\ (collected_ts <> [] ->
      exists w1,
        pause_effects fuel effects callback w = Ok tt w1
        /\ heap (store w1) = heap (store paused_world)
        /\ trace w1 = trace w ++ outs k collected_ts
        /\ pending (store w1) !! k
           = Some {| remaining := Z.of_nat (length collected_ts);
                     to_destroy := effects;
                     callback := callback |}
        /\ (forall m, (m < length collected_ts)%nat ->
              times m (check fuel k) w1
              = Ok tt (with_remaining k (Z.of_nat (length collected_ts) - Z.of_nat m) w1))
        /\ times (length collected_ts) (check fuel k) w1
           = call_fn fuel effects callback (with_remaining k 0 w1)).
Proof.
  intros Hsh Hnd Hfuel h effects collected_ts paused_world k.
  assert (Hwalk :
    for_each_acc effects []
      (fun effect transitions => pause_children fuel effect transitions true) w
    = Ok collected_ts paused_world).
  { unfold effects. rewrite (pause_children_forest ts fuel [] w Hsh Hnd Hfuel). reflexivity. }
  assert (Hndp : NoDup (flat_map (paused h) ts)).
  { clear Hwalk Hsh Hfuel. induction ts as [|t ts IH]; [ constructor | ].
    simpl in *. apply NoDup_app in Hnd as (Hndt & Hdisj & Hndts).
    apply NoDup_app. split; [ apply paused_NoDup; exact Hndt | ].
    split; [ | apply IH; exact Hndts ].
    intros n Hn Hn'. apply (Hdisj n); [ eapply paused_subset; eauto | ].
    eapply paused_forest_subset; eauto. }
  split; [ | split; [ | split ] ].
  - intros n Hn.
    apply elem_of_flat_map in Hn as Hn'. destruct Hn' as (t & Ht & Hnt).
    rewrite Forall_forall in Hsh.
    destruct (shaped_nodes_allocated _ _ _ _ (Hsh t Ht) (paused_subset h t n Hnt)) as [e He].
    exists e. split; [ exact He | ].
    split; [ eapply paused_not_inert; eauto | ].
    subst paused_world h. simpl.
    rewrite toggle_all_lookup_in by assumption. rewrite He. reflexivity.
  - intros n Hn. subst paused_world. simpl. apply toggle_all_lookup_notin. exact Hn.
  - intros Hnil. unfold pause_effects. rewrite (bind_ok _ _ _ _ _ Hwalk).
    rewrite Hnil. reflexivity.
  - intros Hne. unfold pause_effects. rewrite (bind_ok _ _ _ _ _ Hwalk).
    rewrite (out_pending fuel collected_ts effects callback paused_world Hne).
    eexists. split; [ reflexivity | ].
    assert (Hk : pending (store {| store := with_pending
                    (<[k := {| remaining := Z.of_nat (length collected_ts);
                               to_destroy := effects;
                               callback := callback |}]> (pending (store paused_world)))
                    (store paused_world);
                  trace := trace paused_world
                           ++ map (fun tr => Ev_transition_out tr k) collected_ts |}) !! k
                 = Some {| remaining := Z.of_nat (length collected_ts);
                           to_destroy := effects;
                           callback := callback |}).
    { simpl. apply lookup_insert_eq. }
    split; [ reflexivity | ].
    split; [ reflexivity | ].
    split; [ exact Hk | ].
    split.
    + intros m Hm. rewrite (times_check_countdown fuel k m _ _ Hk) by (simpl; lia).
      reflexivity.
    + destruct (length collected_ts) as [|m] eqn:Hlen.
      * destruct collected_ts; [ congruence | discriminate ].
      * rewrite (times_check_fire fuel k m _ _ Hk) by reflexivity. reflexivity.
Qed.

(** X2. [pause_effects] of no effect only calls the callback, and
    [pause_effects] of one effect is [pause_effect] of that effect. *)
Theorem pause_effects_degenerate {K : Constants} (fuel : nat) (callback : Closure)
    (effect : ref) (w : World) :
  pause_effects fuel [] callback w = Ok tt (add_trace [Ev_callback callback] w)
  /\ pause_effects fuel [effect] callback w = pause_effect fuel effect callback w.
Proof.
  split; [ reflexivity | ].
  unfold pause_effects, pause_effect. cbn [for_each_acc].
  apply bind_bind_ret.
Qed.

(** X3. The continuation that a pause hands to [out] destroys the effects
    in the order of the list, each one depth first with all it owns, and
    calls the callback once, after the last destroy. *)
Theorem completion_destroys_in_order {K : Constants} (ds : list Tree) (fuel : nat)
    (callback : Closure) (w : World) :
  Forall (shaped owned_nodes (heap (store w))) ds ->
  NoDup (flat_map nodes ds) ->
  Forall (fun k => (height k <= fuel)%nat) ds ->
  call_fn fuel (map root ds) callback w
  = Ok tt (add_trace [Ev_callback callback]
             (destroyed (flat_map post_order ds)
                (flat_map (destroy_events (heap (store w))) ds) w)).
Proof.
  intros Hsh Hnd Hfuel. unfold call_fn.
  erewrite bind_ok; [ reflexivity | ].
  apply destroy_effect_kids; [ | exact Hsh | exact Hnd ].
  apply Forall_forall. intros k Hk w' Hs' Hnd'.
  rewrite Forall_forall in Hfuel. apply destroy_effect_spec; auto.
Qed.

(** X4. The continuation of a pause runs once: when as many completions
    as there were transitions have come in and the continuation has
    returned, any number of further completions only move the counter
    below zero; they destroy nothing and call nothing. *)
Theorem completion_runs_once {K : Constants} (fuel : nat) (k : nat) (p : Pending)
    (m j : nat) (w w2 : World) :
  pending (store w) !! k = Some p ->
  remaining p = Z.of_nat (S m) ->
  call_fn fuel (to_destroy p) (callback p) (with_remaining k 0 w) = Ok tt w2 ->
  times (S m + j) (check fuel k) w = Ok tt (with_remaining k (- Z.of_nat j) w2)
  /\ trace (with_remaining k (- Z.of_nat j) w2) = trace w2.
Proof.
  intros Hk Hrem Hfn. split; [ | reflexivity ].
  rewrite times_add. unfold bind.
  rewrite (times_check_fire fuel k m p w Hk Hrem), Hfn.
  destruct (call_fn_same_control fuel _ _ _ _ _ Hfn) as (_ & Hpend & _).
  pose proof (pending_with_remaining k 0 p w Hk) as Hk0. rewrite <- Hpend in Hk0.
  rewrite (times_check_spent fuel k j _ w2 Hk0) by (simpl; lia).
  reflexivity.
Qed.

(** X5. [pause_effect] on an effect that is already inert does not wait:
    the walk stops at the effect, no transition is gathered, and the
    effect is destroyed with all it owns and the callback called before
    [pause_effect] returns. *)
Theorem pause_inert_effect_destroys {K : Constants} (t : Tree) (fuel : nat)
    (callback : Closure) (w : World) (e : Effect.t) :
  shaped owned_nodes (heap (store w)) t ->
  NoDup (nodes t) ->
  (height t <= fuel)%nat ->
  heap (store w) !! root t = Some e ->
  inert e = true ->
  pause_effect fuel (root t) callback w
  = Ok tt (add_trace [Ev_callback callback]
             (destroyed (post_order t) (destroy_events (heap (store w)) t) w)).
Proof.
  intros Hsh Hnd Hfuel Hr Hin.
  destruct fuel as [|fuel]; [ destruct t; simpl in Hfuel; lia | ].
  unfold pause_effect. cbn [pause_children].
  erewrite (bind_ok (bind (get_effect (root t)) _)); cycle 1.
  { rewrite (bind_ok _ _ w e w) by (apply get_effect_ok; exact Hr).
    unfold inert in Hin. rewrite Hin. reflexivity. }
  unfold out. cbn [length]. change (0 <? Z.of_nat 0) with false. cbv iota.
  unfold call_fn. cbn [for_each].
  erewrite bind_ok; cycle 1.
  { rewrite bind_ret_tt. apply destroy_effect_spec; assumption. }
  reflexivity.
Qed.

(** X6. [resume_effect] is idempotent: once a resume has returned, the
    effect is not inert, and a second resume stops at it, calling nothing
    and changing nothing. *)
Theorem resume_effect_idempotent {K : Constants} {H : Host} (t : Tree) (fuel : nat)
    (w : World) :
  constants_ok ->
  shaped children (heap (store w)) t ->
  NoDup (nodes t) ->
  (height t <= fuel)%nat ->
  host_keeps_links (nodes t) ->
  exists w',
    resume_effect fuel (root t) w = Ok tt w'
    /\ resume_effect fuel (root t) w' = Ok tt w'.
Proof.
  intros HK Hsh Hnd Hfuel Hhost.
  destruct (resume_children_spec HK t fuel Hfuel true w Hsh Hnd Hhost)
    as (w' & evs & Hrun & Htr & Hrt & Hkeep).
  exists w'. split; [ exact Hrun | ].
  destruct t as [r ts]. inversion Hsh as [r' ts' e Hr Ho Hk]; subst.
  destruct (Hkeep r e Hr) as (e' & He' & Hl).
  assert (Hin' : inert e' = false).
  { destruct (inert e) eqn:Hin.
    - rewrite bool_decide_eq_true_2 in Hl by (cbn [resumed]; rewrite Hr, Hin; left).
      apply links_flip_eq in Hl as (_ & _ & _ & _ & ->). rewrite Hin. reflexivity.
    - rewrite bool_decide_eq_false_2 in Hl
        by (cbn [resumed]; rewrite Hr, Hin; intros Hx; inversion Hx).
      apply links_eq in Hl as (_ & _ & _ & _ & ->). exact Hin. }
  destruct fuel as [|fuel]; [ simpl in Hfuel; lia | ].
  unfold resume_effect. cbn [resume_children root].
  rewrite (bind_ok _ _ w' e' w') by (apply get_effect_ok; exact He').
  unfold inert in Hin'. rewrite Hin'. reflexivity.
Qed.

Ltac shape_tac :=
  repeat first
    [ exact I
    | apply Forall_nil
    | apply Forall_cons; split
    | eapply shaped_node; [ vm_compute; reflexivity | vm_compute; reflexivity | ] ].

Section ExampleItemsFacts.

#[local] Existing Instance example_constants.
#[local] Existing Instance quiet_host.

Lemma items_forest_shaped :
  Forall (shaped children (heap (store items_world))) items_forest.
Proof. shape_tac. Qed.

Lemma items_forest_owned :
  Forall (shaped owned_nodes (heap (store items_world))) items_forest.
Proof. shape_tac. Qed.

Lemma items_forest_NoDup : NoDup (flat_map nodes items_forest).
Proof. refine (bool_decide_unpack _ _). vm_compute. exact I. Qed.

Lemma items_forest_height : Forall (fun k => (height k <= 2)%nat) items_forest.
Proof. repeat constructor. Qed.

Lemma paused_item_owned :
  shaped owned_nodes (heap (store paused_items_world)) (Node 0%nat [Node 2%nat []]).
Proof. shape_tac. Qed.

End ExampleItemsFacts.

Lemma pause_effects_coordinated_witness :
  exists w1,
    @pause_effects example_constants 2 [0%nat; 1%nat] (user_fn 99) items_world = Ok tt w1
    /\ trace w1 = [Ev_transition_out tr_local_a 0%nat; Ev_transition_out tr_global 0%nat]
    /\ pending (store w1) !! 0%nat
       = Some {| remaining := 2; to_destroy := [0%nat; 1%nat]; callback := user_fn 99 |}.
Proof.
  pose proof (@pause_effects_coordinated example_constants items_forest 2 (user_fn 99)
                items_world items_forest_shaped items_forest_NoDup items_forest_height)
    as Hthm.
  cbv zeta in Hthm. destruct Hthm as (_ & _ & _ & Hsome).
  destruct Hsome as (w1 & Hrun & _ & Htr & Hpend & _); [ vm_compute; discriminate | ].
  exists w1. split; [ exact Hrun | ]. split; [ exact Htr | exact Hpend ].
Defined.

Lemma completion_destroys_in_order_witness :
  exists w',
    @call_fn example_constants 2 [0%nat; 1%nat] (user_fn 99) items_world = Ok tt w'
    /\ trace w'
       = [Ev_transition_stop tr_local_b; Ev_teardown 2%nat (user_fn 22);
          Ev_transition_stop tr_local_a; Ev_remove 60%nat;
          Ev_transition_stop tr_global; Ev_remove 61%nat;
          Ev_callback (user_fn 99)].
Proof.
  eexists. split.
  - exact (@completion_destroys_in_order example_constants items_forest 2 (user_fn 99)
             items_world items_forest_owned items_forest_NoDup items_forest_height).
  - vm_compute. reflexivity.
Defined.

Lemma completion_runs_once_witness :
  exists w1 w2,
    @pause_effects example_constants 2 [0%nat; 1%nat] (user_fn 99) items_world = Ok tt w1
    /\ times 5 (@check example_constants 2 0%nat) w1 = Ok tt w2
    /\ trace w2
       = [Ev_transition_out tr_local_a 0%nat; Ev_transition_out tr_global 0%nat;
          Ev_transition_stop tr_local_b; Ev_teardown 2%nat (user_fn 22);
          Ev_transition_stop tr_local_a; Ev_remove 60%nat;
          Ev_transition_stop tr_global; Ev_remove 61%nat;
          Ev_callback (user_fn 99)].
Proof.
  eexists. eexists. split; [ vm_compute; reflexivity | ].
  split.
  - refine (proj1 (@completion_runs_once example_constants 2 0%nat _ 1 3 _ _ _ _ _)).
    + vm_compute. reflexivity.
    + reflexivity.
    + vm_compute. reflexivity.
  - vm_compute. reflexivity.
Defined.

Lemma pause_inert_effect_destroys_witness :
  exists w',
    @pause_effect example_constants 2 0%nat (user_fn 99) paused_items_world = Ok tt w'
    /\ trace w'
       = [Ev_transition_stop tr_local_b; Ev_teardown 2%nat (user_fn 22);
          Ev_transition_stop tr_local_a; Ev_remove 60%nat;
          Ev_callback (user_fn 99)].
Proof.
  eexists. split.
  - eapply (@pause_inert_effect_destroys example_constants (Node 0%nat [Node 2%nat []]) 2
              (user_fn 99) paused_items_world _ paused_item_owned).
    + refine (bool_decide_unpack _ _). vm_compute. exact I.
    + vm_compute. lia.
    + vm_compute. reflexivity.
    + vm_compute. reflexivity.
  - vm_compute. reflexivity.
Defined.

Lemma resume_effect_idempotent_witness :
  exists w',
    @resume_effect example_constants quiet_host 3 0%nat paused_block_world = Ok tt w'
    /\ @resume_effect example_constants quiet_host 3 0%nat w' = Ok tt w'.
Proof.
  exact (@resume_effect_idempotent example_constants quiet_host block_tree 3
           paused_block_world example_constants_ok paused_block_tree_shaped
           block_tree_NoDup ltac:(vm_compute; lia)
           (@quiet_host_keeps_links (nodes block_tree))).
Defined.

(** ** The bitwise operators stay within 32 bits *)

Lemma is_int32_shiftr z : is_int32 z <-> Z.shiftr z 31 = 0 \/ Z.shiftr z 31 = -1.
Proof.
  unfold is_int32. rewrite Z.shiftr_div_pow2 by lia.
  pose proof (Z.div_mod z (2 ^ 31) ltac:(lia)) as Hdm.
  pose proof (Z.mod_pos_bound z (2 ^ 31) ltac:(lia)) as Hb.
  change (2 ^ 31) with 2147483648 in *. lia.
Qed.

Lemma is_int32_lor a b : is_int32 a -> is_int32 b -> is_int32 (Z.lor a b).
Proof.
  rewrite !is_int32_shiftr, Z.shiftr_lor. intros [->| ->] [->| ->]; simpl; auto.
Qed.

Lemma is_int32_land a b : is_int32 a -> is_int32 b -> is_int32 (Z.land a b).
Proof.
  rewrite !is_int32_shiftr, Z.shiftr_land. intros [->| ->] [->| ->]; simpl; auto.
Qed.

Lemma is_int32_lxor a b : is_int32 a -> is_int32 b -> is_int32 (Z.lxor a b).
Proof.
  rewrite !is_int32_shiftr, Z.shiftr_lxor. intros [->| ->] [->| ->]; simpl; auto.
Qed.

Lemma js_or_int32 a b : is_int32 (js_or a b).
Proof. apply is_int32_lor; apply to_int32_range. Qed.

Lemma js_and_int32 a b : is_int32 (js_and a b).
Proof. apply is_int32_land; apply to_int32_range. Qed.

Lemma js_xor_int32 a b : is_int32 (js_xor a b).
Proof. apply is_int32_lxor; apply to_int32_range. Qed.

(** Two 32-bit words with the same 32 bits are equal. *)
Lemma int32_eq a b :
  is_int32 a -> is_int32 b ->
  (forall i, 0 <= i < 32 -> Z.testbit a i = Z.testbit b i) -> a = b.
Proof.
  intros Ha Hb Hbits.
  rewrite <- (to_int32_id a Ha), <- (to_int32_id b Hb). unfold to_int32.
  assert (Hmod : a mod 2 ^ 32 = b mod 2 ^ 32).
  { apply Z.bits_inj'. intros i Hi.
    destruct (Z.lt_ge_cases i 32) as [Hlt|Hge].
    - rewrite !Z.mod_pow2_bits_low by lia. apply Hbits. lia.
    - rewrite !Z.mod_pow2_bits_high by lia. reflexivity. }
  rewrite <- (Zplus_mod_idemp_l a), <- (Zplus_mod_idemp_l b), Hmod. reflexivity.
Qed.

Lemma int32_eq_0 a :
  is_int32 a -> a = 0 <-> forall i, 0 <= i < 32 -> Z.testbit a i = false.
Proof.
  intros Ha. split.
  - intros -> i _. apply Z.bits_0.
  - intros Hbits. apply int32_eq; [ exact Ha | unfold is_int32; lia | ].
    intros i Hi. rewrite Z.bits_0. auto.
Qed.

(** Flipping one flag twice gives the word back. *)
Lemma js_xor_twice x y : is_int32 x -> js_xor (js_xor x y) y = x.
Proof.
  intros Hx. apply int32_eq; [ apply js_xor_int32 | exact Hx | ].
  intros i Hi. rewrite !js_xor_testbit by lia.
  destruct (Z.testbit x i), (Z.testbit y i); reflexivity.
Qed.

Section MoreFlagFacts.

Context {K : Constants}.

Hypothesis HK : constants_ok.

(** [(x & (A | B)) !== 0] holds when one of the two flags is set. *)
Lemma has_flag_either x k k' :
  k ∈ all_bits -> k' ∈ all_bits ->
  has_flag x (js_or (mask k) (mask k')) = has_flag x (mask k) || has_flag x (mask k').
Proof.
  intros Hk Hk'. rewrite !(has_flag_testbit HK) by assumption.
  pose proof (bits_in_range HK k Hk) as Hrk. pose proof (bits_in_range HK k' Hk') as Hrk'.
  unfold has_flag.
  destruct (Z.eqb_spec (js_and x (js_or (mask k) (mask k'))) 0) as [H0|H0]; cbn [negb].
  - rewrite (int32_eq_0 _ (js_and_int32 _ _)) in H0.
    pose proof (H0 k ltac:(lia)) as Hbk. pose proof (H0 k' ltac:(lia)) as Hbk'.
    rewrite js_and_testbit, js_or_testbit, !mask_testbit in Hbk, Hbk' by lia.
    rewrite bool_decide_eq_true_2 in Hbk by reflexivity.
    rewrite (bool_decide_eq_true_2 (k' = k')) in Hbk' by reflexivity.
    rewrite orb_true_r in Hbk'. cbn [orb] in Hbk.
    rewrite andb_true_r in Hbk, Hbk'. rewrite Hbk, Hbk'. reflexivity.
  - symmetry. apply not_false_iff_true. intros Hor. apply H0.
    apply orb_false_iff in Hor as [Hbk Hbk'].
    apply (int32_eq_0 _ (js_and_int32 _ _)). intros i Hi.
    rewrite js_and_testbit, js_or_testbit, !mask_testbit by lia.
    repeat case_bool_decide; subst; rewrite ?Hbk, ?Hbk', ?andb_false_r; reflexivity.
Qed.

Lemma destroyed_node_twice e : destroyed_node (destroyed_node e) = destroyed_node e.
Proof.
  unfold destroyed_node. cbn [Effect.parent Effect.f Effect.l Effect.deriveds Effect.transitions].
  f_equal. apply int32_eq; [ apply js_or_int32 | apply js_or_int32 | ].
  intros i Hi. rewrite !js_or_testbit, !js_and_testbit, !js_or_testbit, !js_and_testbit by lia.
  destruct (Z.testbit (Effect.f e) i), (Z.testbit STATUS_MASK i), (Z.testbit DESTROYED i);
    reflexivity.
Qed.

End MoreFlagFacts.

(** X8. [effect_active] reads and changes nothing. It answers true exactly
    when an effect is current and that effect is neither a branch nor a
    root; so whenever it answers true, [user_effect] and
    [user_pre_effect] do not throw the orphan effect error. *)
Theorem effect_active_spec {K : Constants} {H : Host} (w : World) :
  constants_ok ->
  current_allocated (store w) ->
  exists b,
    effect_active w = Ok b w
    /\ (b = true <->
        exists ce c,
          current_effect (store w) = Some ce /\ heap (store w) !! ce = Some c
          /\ has_flag (Effect.f c) BRANCH_EFFECT = false
          /\ has_flag (Effect.f c) ROOT_EFFECT = false)
    /\ (current_effect (store w) = None -> b = false)
    /\ (b = true ->
        forall fn msg w',
          user_effect fn w <> Throw (Error msg) w'
          /\ user_pre_effect fn w <> Throw (Error msg) w').
Proof.
  intros HK (Hce & _ & _). unfold effect_active, bind, get_store.
  destruct (current_effect (store w)) as [ce|] eqn:Hcur.
  - destruct (Hce ce eq_refl) as [c Hc]. unfold get_effect. rewrite Hc. unfold ret.
    eexists. split; [ reflexivity | ].
    assert (Hb : (js_and (Effect.f c) (js_or BRANCH_EFFECT ROOT_EFFECT) =? 0)
                 = negb (has_flag (Effect.f c) BRANCH_EFFECT
                         || has_flag (Effect.f c) ROOT_EFFECT)).
    { unfold BRANCH_EFFECT, ROOT_EFFECT. rewrite <- (has_flag_either HK) by bit_in.
      unfold has_flag. rewrite negb_involutive. reflexivity. }
    rewrite Hb. split; [ | split ].
    + split.
      * intros Htrue. apply negb_true_iff, orb_false_iff in Htrue as [Hbr Hro].
        exists ce, c. auto.
      * intros (ce' & c' & Hce' & Hc' & Hbr & Hro).
        inversion Hce'; subst ce'. rewrite Hc in Hc'. inversion Hc'; subst c'.
        rewrite Hbr, Hro. reflexivity.
    + discriminate.
    + intros _ fn msg w'. split; intros Hthrow.
      * destruct (never_errors_user_effect_owned fn w ce Hcur _ _ Hthrow); discriminate.
      * destruct (never_errors_user_pre_effect_owned fn w ce Hcur _ _ Hthrow); discriminate.
  - exists false. split; [ reflexivity | ]. split; [ | split ].
    + split; [ discriminate | ]. intros (ce & c & Hx & _). discriminate.
    + reflexivity.
    + discriminate.
Qed.

Lemma effect_active_spec_witness :
  @effect_active example_constants mounting_world = Ok true mounting_world
  /\ @effect_active example_constants {| store := empty_store; trace := [] |}
     = Ok false {| store := empty_store; trace := [] |}.
Proof.
  destruct (@effect_active_spec example_constants quiet_host mounting_world
              example_constants_ok mounting_world_allocated) as (b & Hrun & _).
  split; [ | reflexivity ].
  rewrite Hrun. vm_compute in Hrun. inversion Hrun. reflexivity.
Defined.

Section DestroyAgain.

Context {K : Constants}.

Lemma add_trace_add_trace evs1 evs2 w :
  add_trace evs2 (add_trace evs1 w) = add_trace (evs1 ++ evs2) w.
Proof. unfold add_trace. cbn [store trace]. rewrite app_assoc. reflexivity. Qed.

Lemma release_again r e w :
  heap (store w) !! r = Some (destroyed_node e) ->
  release r w = Ok tt (add_trace (map Ev_transition_stop (default [] (Effect.transitions e))) w).
Proof.
  intros Hr. rewrite (release_ok _ _ _ Hr).
  f_equal. unfold destroyed, add_trace, release_events.
  cbn [destroyed_node Effect.transitions Effect.teardown Effect.dom]. rewrite !app_nil_r.
  f_equal.
  assert (Hheap : destroy_all [r] (heap (store w)) = heap (store w)).
  { cbn [destroy_all foldl]. apply map_eq. intros n.
    destruct (decide (n = r)) as [->|Hne].
    - rewrite lookup_alter_eq, Hr. cbn [fmap option_fmap option_map].
      rewrite destroyed_node_twice. reflexivity.
    - rewrite lookup_alter_ne by congruence. reflexivity. }
  assert (Hsubs : unsubscribe_all (heap (store w)) [r] (subscribers (store w))
                  = subscribers (store w)).
  { cbn [unsubscribe_all foldl]. unfold deps_of. rewrite Hr. reflexivity. }
  assert (Hid : forall s, with_subscribers (subscribers s) (with_heap (heap s) s) = s)
    by (intros []; reflexivity).
  rewrite Hheap, Hsubs. apply Hid.
Qed.

Lemma destroy_again_kids h fuel (ds : list ref) (ks : list Tree) :
  Forall (fun k => forall w,
            destroyed_in h (nodes k) w ->
            destroy_effect fuel (root k) w = Ok tt (add_trace (stops_again h k) w)) ks ->
  (forall k, k ∈ ks -> root k ∈ ds) ->
  forall w,
    destroyed_in h (flat_map nodes ks) w ->
    for_each (map root ks) (destroy_effect fuel) w
    = Ok tt (add_trace
               (flat_map (fun k => if bool_decide (root k ∈ ds)
                                   then stops_again h k else []) ks) w).
Proof.
  induction ks as [|k ks IHks]; intros IH Hin w Hw.
  - simpl. unfold add_trace. rewrite app_nil_r. destruct w; reflexivity.
  - apply Forall_cons in IH as [IHk IH].
    cbn [map for_each flat_map].
    rewrite (bind_ok _ _ _ _ _ (IHk w ltac:(intros n e Hn; apply Hw; cbn [flat_map];
                                             apply elem_of_app; left; exact Hn))).
    rewrite IHks; [ | exact IH | intros k' Hk'; apply Hin; right; exact Hk' | ].
    + rewrite add_trace_add_trace.
      rewrite bool_decide_eq_true_2 by (apply Hin; left). reflexivity.
    + intros n e Hn He. cbn [add_trace store]. apply Hw; [ | exact He ].
      cbn [flat_map]. apply elem_of_app. right. exact Hn.
Qed.

Lemma stops_again_skipped h (ds : list ref) (ks : list Tree) :
  (forall k, k ∈ ks -> root k ∉ ds) ->
  flat_map (fun k => if bool_decide (root k ∈ ds) then stops_again h k else []) ks = [].
Proof.
  induction ks as [|k ks IH]; intros Hout; [ reflexivity | ].
  cbn [flat_map]. rewrite bool_decide_eq_false_2 by (apply Hout; left).
  apply IH. intros k' Hk'. apply Hout. right. exact Hk'.
Qed.

(** A destroy of nodes that were destroyed: the walk follows the
    deriveds, stops the transitions again, and leaves the store. *)
Lemma destroy_again h (t : Tree) :
  forall fuel w,
    shaped owned_nodes h t -> NoDup (nodes t) -> (height t <= fuel)%nat ->
    destroyed_in h (nodes t) w ->
    destroy_effect fuel (root t) w = Ok tt (add_trace (stops_again h t) w).
Proof.
  induction t as [r ts IH] using Tree_ind'. intros fuel w Hsh Hnd Hfuel Hw.
  destruct fuel as [|fuel]; [ simpl in Hfuel; lia | ].
  inversion Hsh as [r' ts' e Hr Ho Hk]; subst.
  simpl in Hnd. apply NoDup_cons in Hnd as [Hrts Hnd].
  rewrite destroy_effect_unfold. cbn [root stops_again]. rewrite Hr.
  assert (Hr1 : heap (store w) !! r = Some (destroyed_node e)).
  { apply Hw; [ cbn [nodes]; left | exact Hr ]. }
  unfold owned_nodes in Ho. symmetry in Ho.
  apply fmap_app_inv in Ho as (ks1 & ks2 & Hks1 & Hks2 & ->).
  assert (Hroots : NoDup (map root (ks1 ++ ks2))).
  { clear -Hnd. induction (ks1 ++ ks2) as [|k ks IHk]; [ constructor | ].
    cbn [flat_map] in Hnd. apply NoDup_app in Hnd as (_ & Hdisj & Hnd).
    cbn [map]. apply NoDup_cons. split; [ | apply IHk; exact Hnd ].
    intros Hin. apply list_elem_of_fmap in Hin as (k' & Heq & Hk').
    apply (Hdisj (root k)); [ apply root_in_nodes | ].
    apply elem_of_flat_map. exists k'. split; [ exact Hk' | ].
    rewrite Heq. apply root_in_nodes. }
  rewrite map_app in Hroots. apply NoDup_app in Hroots as (_ & Hdisj & _).
  assert (Hkids : destroy_children (destroy_effect fuel) r w
                  = Ok tt (add_trace
                             (flat_map (fun k => if bool_decide (root k ∈ array (Effect.deriveds e))
                                                 then stops_again h k else []) (ks1 ++ ks2)) w)).
  { unfold destroy_children.
    rewrite (bind_ok _ _ w _ w (get_effect_ok _ _ _ Hr1)).
    cbn [destroyed_node Effect.effects Effect.deriveds array default for_each].
    unfold bind at 1. unfold ret at 1.
    rewrite flat_map_app. rewrite stops_again_skipped; cycle 1.
    { intros k Hk1 Hin. rewrite Hks2 in Hin.
      apply (Hdisj (root k)); [ | exact Hin ].
      apply list_elem_of_fmap. exists k. auto. }
    cbn [app]. change (default [] (Effect.deriveds e)) with (array (Effect.deriveds e)).
    rewrite Hks2 at 1.
    apply destroy_again_kids.
    - apply Forall_forall. intros k Hk2 w' Hw'.
      rewrite Forall_forall in IH, Hk.
      assert (Hin : k ∈ ks1 ++ ks2) by (apply elem_of_app; right; exact Hk2).
      apply IH; [ exact Hin | apply Hk; exact Hin | | | exact Hw' ].
      + clear -Hnd Hin. induction (ks1 ++ ks2) as [|k0 ks IHk]; [ inversion Hin | ].
        cbn [flat_map] in Hnd. apply NoDup_app in Hnd as (Hk0 & _ & Hnd).
        inversion Hin; subst; [ exact Hk0 | apply IHk; assumption ].
      + pose proof (height_kid k r (ks1 ++ ks2) Hin). lia.
    - intros k Hk2. rewrite Hks2. apply list_elem_of_fmap. exists k. auto.
    - intros n en Hn Hen. apply Hw; [ | exact Hen ].
      cbn [nodes]. right. rewrite flat_map_app. apply elem_of_app. right. exact Hn. }
  rewrite (bind_ok _ _ _ _ _ Hkids).
  rewrite (release_again r e) by exact Hr1.
  rewrite add_trace_add_trace. reflexivity.
Qed.

Lemma stops_again_stops h (t : Tree) :
  Forall (fun ev => exists tr, ev = Ev_transition_stop tr) (stops_again h t).
Proof.
  induction t as [r ts IH] using Tree_ind'. cbn [stops_again].
  destruct (h !! r) as [e|]; [ | constructor ].
  apply Forall_app. split.
  - apply Forall_flat_map. eapply Forall_impl; [ exact IH | ].
    intros k Hk. cbv beta. destruct (bool_decide _); [ exact Hk | constructor ].
  - apply Forall_fmap. apply Forall_forall. intros tr _. exists tr. reflexivity.
Qed.

Lemma stops_again_own h r ts e :
  h !! r = Some e -> Effect.deriveds e = None ->
  stops_again h (Node r ts) = map Ev_transition_stop (default [] (Effect.transitions e)).
Proof.
  intros Hr Hd. cbn [stops_again]. rewrite Hr, Hd.
  rewrite stops_again_skipped; [ reflexivity | ].
  intros k _ Hin. inversion Hin.
Qed.

End DestroyAgain.

(** X9. Destroying an effect twice: the first destroy nulled the
    children, the dependencies, the teardown and the host node of every
    node and kept its deriveds and transitions; so the second
    [destroy_effect] calls no teardown and removes nothing: it follows
    the deriveds only, calls [stop] again on the transitions of the nodes
    it reaches, which for an effect that owns no derived are its own, and
    leaves the store as the first destroy left it. *)
Theorem destroy_effect_twice {K : Constants} (t : Tree) (fuel : nat) (w : World) :
  shaped owned_nodes (heap (store w)) t ->
  NoDup (nodes t) ->
  (height t <= fuel)%nat ->
  exists w1,
    destroy_effect fuel (root t) w = Ok tt w1
    /\ destroy_effect fuel (root t) w1
       = Ok tt (add_trace (stops_again (heap (store w)) t) w1)
    /\ Forall (fun ev => exists tr, ev = Ev_transition_stop tr)
         (stops_again (heap (store w)) t)
    /\ (forall e, heap (store w) !! root t = Some e -> Effect.deriveds e = None ->
          stops_again (heap (store w)) t
          = map Ev_transition_stop (default [] (Effect.transitions e))).
Proof.
  intros Hsh Hnd Hfuel.
  set (h := heap (store w)) in *.
  eexists. split; [ apply destroy_effect_spec; assumption | ].
  split; [ | split; [ apply stops_again_stops | ] ].
  - apply destroy_again; try assumption.
    intros n e Hn He. cbn [destroyed store]. 
    replace (heap (with_subscribers
                     (unsubscribe_all (heap (store w)) (post_order t) (subscribers (store w)))
                     (with_heap (destroy_all (post_order t) (heap (store w))) (store w))))
      with (destroy_all (post_order t) h) by (destruct (store w); reflexivity).
    rewrite destroy_all_lookup_in.
    + rewrite He. reflexivity.
    + rewrite post_order_Permutation. exact Hnd.
    + apply post_order_nodes. exact Hn.
  - intros e He Hd. destruct t as [r ts]. apply stops_again_own; assumption.
Qed.

Lemma destroy_effect_twice_witness :
  exists w1 w2,
    @destroy_effect example_constants 2 1%nat block_world = Ok tt w1
    /\ @destroy_effect example_constants 2 1%nat w1 = Ok tt w2
    /\ trace w2 = trace w1 ++ [Ev_transition_stop tr_local_a]
    /\ store w2 = store w1.
Proof.
  destruct (@destroy_effect_twice example_constants
              (Node 1%nat [Node 2%nat []; Node 3%nat []; Node 4%nat []]) 2 block_world
              ltac:(shape_tac)
              ltac:(refine (bool_decide_unpack _ _); vm_compute; exact I)
              ltac:(vm_compute; lia))
    as (w1 & Hrun1 & Hrun2 & _).
  exists w1. eexists. split; [ exact Hrun1 | ]. split; [ exact Hrun2 | ].
  split; reflexivity.
Defined.

Lemma add_trace_set_heap evs1 evs2 h1 h2 w :
  add_trace evs2 (set_heap h2 (add_trace evs1 (set_heap h1 w)))
  = add_trace (evs1 ++ evs2) (set_heap h2 w).
Proof. unfold add_trace, set_heap. simpl. rewrite app_assoc. reflexivity. Qed.

Lemma add_trace_nil w : add_trace [] w = w.
Proof. unfold add_trace. rewrite app_nil_r. destruct w; reflexivity. Qed.

Section QuietResumeWalk.

Context {K : Constants} {H : Host}.

Hypothesis HK : constants_ok.

Lemma quiet_resume_events_agree h h' t :
  forall local,
    (forall n, n ∈ nodes t -> h' !! n = h !! n) ->
    quiet_resume_events h' local t = quiet_resume_events h local t.
Proof.
  induction t as [r ts IH] using Tree_ind'. intros local Hag.
  cbn [quiet_resume_events]. rewrite (Hag r) by (simpl; left).
  destruct (h !! r) as [e|]; [ | reflexivity ].
  destruct (inert e); [ | reflexivity ].
  f_equal. f_equal. apply flat_map_ext_elem. intros k Hk.
  assert (Hagk : forall n, n ∈ nodes k -> h' !! n = h !! n).
  { intros n Hn. apply Hag. simpl. right. apply elem_of_flat_map. eauto. }
  unfold local_for. rewrite (Hagk (root k)) by apply root_in_nodes.
  rewrite Forall_forall in IH. apply IH; assumption.
Qed.

Lemma resumed_agree_lookup h h' t :
  shaped children h t -> (forall n, n ∈ nodes t -> h' !! n = h !! n) ->
  resumed h' t = resumed h t.
Proof.
  intros Hsh Hag. apply resumed_agree; [ exact Hsh | ].
  intros n e Hn He. exists e. rewrite Hag by exact Hn. auto.
Qed.

Lemma call_check_dirtiness_quiet r w :
  nothing_dirty [r] ->
  call_check_dirtiness r w = Ok false (add_trace [Ev_check_dirtiness r false] w).
Proof.
  intros Hq. unfold call_check_dirtiness. rewrite (Hq r (store w)) by left.
  destruct w; reflexivity.
Qed.

Lemma resume_children_quiet_kids (ts : list Tree) (fuel : nat) (local : bool) :
  Forall (fun k => forall local w,
            shaped children (heap (store w)) k -> NoDup (nodes k) ->
            nothing_dirty (nodes k) ->
            resume_children fuel (root k) local w
            = Ok tt (add_trace (quiet_resume_events (heap (store w)) local k)
                       (set_heap (toggle_all (resumed (heap (store w)) k) (heap (store w))) w)))
    ts ->
  forall w,
    Forall (shaped children (heap (store w))) ts ->
    NoDup (flat_map nodes ts) ->
    nothing_dirty (flat_map nodes ts) ->
    for_each (map root ts) (resume_body fuel local) w
    = Ok tt (add_trace
               (flat_map (fun k => quiet_resume_events (heap (store w))
                                     (local_for (heap (store w)) local (root k)) k) ts)
               (set_heap (toggle_all (flat_map (resumed (heap (store w))) ts)
                            (heap (store w))) w)).
Proof.
  induction ts as [|k ts IHts]; intros IH w Hsh Hnd Hq.
  - simpl. unfold ret. rewrite set_heap_id, add_trace_nil. reflexivity.
  - apply Forall_cons in IH as [IHk IH]. apply Forall_cons in Hsh as [Hk Hsh].
    simpl in Hnd. apply NoDup_app in Hnd as (Hndk & Hdisj & Hndts).
    set (h := heap (store w)) in *.
    assert (Hc : exists c, h !! root k = Some c).
    { inversion Hk; subst; simpl; eauto. }
    destruct Hc as [c Hc].
    assert (Hqk : nothing_dirty (nodes k)).
    { intros r s Hr. apply Hq. simpl. apply elem_of_app. left. exact Hr. }
    assert (Hqts : nothing_dirty (flat_map nodes ts)).
    { intros r s Hr. apply Hq. simpl. apply elem_of_app. right. exact Hr. }
    cbn [map for_each].
    erewrite bind_ok; cycle 1.
    { unfold resume_body. rewrite (bind_ok _ _ w c w) by (apply get_effect_ok; exact Hc).
      rewrite IHk by assumption. fold h. reflexivity. }
    assert (Hag : forall n, n ∈ flat_map nodes ts -> toggle_all (resumed h k) h !! n = h !! n).
    { intros n Hn. apply toggle_all_lookup_notin. intros Hp.
      apply (Hdisj n); [ apply (resumed_subset h); exact Hp | exact Hn ]. }
    assert (Hsh' : Forall (shaped children (toggle_all (resumed h k) h)) ts).
    { apply Forall_forall. intros k' Hk'.
      rewrite Forall_forall in Hsh. eapply shaped_agree; [ apply Hsh; exact Hk' | ].
      intros n Hn. apply Hag. apply elem_of_flat_map. eauto. }
    rewrite IHts; [ | exact IH | exact Hsh' | exact Hndts | exact Hqts ].
    change (heap (store (add_trace ?evs (set_heap ?x ?w0)))) with x.
    rewrite add_trace_set_heap.
    assert (Hlk : local_for h local (root k) = if transparent c then local else false).
    { unfold local_for. rewrite Hc. reflexivity. }
    cbn [flat_map]. rewrite toggle_all_app, Hlk.
    do 2 f_equal.
    + f_equal. apply flat_map_ext_elem. intros k' Hk'.
      assert (Hag' : forall n, n ∈ nodes k' -> toggle_all (resumed h k) h !! n = h !! n).
      { intros n Hn. apply Hag. apply elem_of_flat_map. eauto. }
      unfold local_for. rewrite (Hag' (root k')) by apply root_in_nodes.
      apply quiet_resume_events_agree. exact Hag'.
    + do 2 f_equal. apply flat_map_ext_elem. intros k' Hk'.
      rewrite Forall_forall in Hsh. apply resumed_agree_lookup; [ apply Hsh; exact Hk' | ].
      intros n Hn. apply Hag. apply elem_of_flat_map. eauto.
Qed.

(** When nothing became dirty, the walk of [resume_children] clears the
    inert flags it meets, asks the check for each of those nodes, enters
    the eligible transitions, and touches nothing else. *)
Lemma resume_children_quiet (t : Tree) :
  forall fuel local w,
    shaped children (heap (store w)) t -> NoDup (nodes t) -> (height t <= fuel)%nat ->
    nothing_dirty (nodes t) ->
    resume_children fuel (root t) local w
    = Ok tt (add_trace (quiet_resume_events (heap (store w)) local t)
               (set_heap (toggle_all (resumed (heap (store w)) t) (heap (store w))) w)).
Proof.
  induction t as [r ts IH] using Tree_ind'. intros fuel local w Hsh Hnd Hfuel Hq.
  destruct fuel as [|fuel]; [ simpl in Hfuel; lia | ].
  inversion Hsh as [r' ts' e Hr Ho Hk]; subst.
  simpl in Hnd. apply NoDup_cons in Hnd as [Hrts Hnd].
  set (h := heap (store w)) in *.
  cbn [resume_children root resumed quiet_resume_events].
  rewrite (bind_ok _ _ w e w) by (apply get_effect_ok; exact Hr).
  rewrite Hr. fold (inert e).
  destruct (inert e) eqn:Hin; cbn [negb].
  2:{ unfold ret, h. cbn [toggle_all foldl]. rewrite set_heap_id, add_trace_nil. reflexivity. }
  set (h1 := <[r := toggle_inert e]> h).
  rewrite (bind_ok _ _ w tt (set_heap h1 w)) by apply set_effect_ok.
  rewrite (bind_ok _ _ _ _ _ (call_check_dirtiness_quiet r (set_heap h1 w)
                                 ltac:(intros r0 s Hr0; apply list_elem_of_singleton in Hr0 as ->;
                                       apply Hq; simpl; left))).
  unfold bind at 1. unfold ret at 1.
  assert (Hr1 : h1 !! r = Some (toggle_inert e)) by apply lookup_insert_eq.
  rewrite (bind_ok _ _ _ (toggle_inert e) _) by (apply get_effect_ok; exact Hr1).
  assert (Hag : forall n, n ∈ flat_map nodes ts -> h1 !! n = h !! n).
  { intros n Hn. apply lookup_insert_ne. intros <-. contradiction. }
  assert (Hkids :
    for_each (map root ts) (resume_body fuel local)
      (add_trace [Ev_check_dirtiness r false] (set_heap h1 w))
    = Ok tt (add_trace
               (Ev_check_dirtiness r false
                  :: flat_map (fun k => quiet_resume_events h (local_for h local (root k)) k) ts)
               (set_heap (toggle_all (r :: flat_map (resumed h) ts) h) w))).
  { rewrite resume_children_quiet_kids; [ | | | exact Hnd | ].
    - change (heap (store (add_trace ?evs (set_heap ?x ?w0)))) with x.
      rewrite add_trace_set_heap.
      cbn [app]. do 2 f_equal.
      + f_equal. apply flat_map_ext_elem. intros k' Hk'.
        assert (Hag' : forall n, n ∈ nodes k' -> h1 !! n = h !! n).
        { intros n Hn. apply Hag. apply elem_of_flat_map. eauto. }
        unfold local_for. rewrite (Hag' (root k')) by apply root_in_nodes.
        apply quiet_resume_events_agree. exact Hag'.
      + f_equal.
        change (toggle_all (r :: flat_map (resumed h) ts) h)
          with (toggle_all (flat_map (resumed h) ts) (alter toggle_inert r h)).
        rewrite <- (alter_lookup_insert toggle_inert r e h) by exact Hr.
        fold h1. f_equal. apply flat_map_ext_elem. intros k' Hk'.
        rewrite Forall_forall in Hk. apply resumed_agree_lookup; [ apply Hk; exact Hk' | ].
        intros n Hn. apply Hag. apply elem_of_flat_map. eauto.
    - apply Forall_forall. intros k' Hk' local' w' Hs' Hnd' Hq'.
      rewrite Forall_forall in IH. apply IH; [ exact Hk' | exact Hs' | exact Hnd' | | exact Hq' ].
      pose proof (height_kid k' r ts Hk'). lia.
    - change (heap (store (add_trace ?evs (set_heap ?x ?w0)))) with x.
      apply Forall_forall. intros k' Hk'.
      rewrite Forall_forall in Hk. eapply shaped_agree; [ apply Hk; exact Hk' | ].
      intros n Hn. apply Hag. apply elem_of_flat_map. eauto.
    - intros r0 s Hr0. apply Hq. simpl. right. exact Hr0. }
  assert (Hr2 : heap (store (add_trace
               (Ev_check_dirtiness r false
                  :: flat_map (fun k => quiet_resume_events h (local_for h local (root k)) k) ts)
               (set_heap (toggle_all (r :: flat_map (resumed h) ts) h) w))) !! r
                = Some (toggle_inert e)).
  { simpl. rewrite toggle_all_lookup_notin.
    - rewrite lookup_alter_eq. fold h. rewrite Hr. reflexivity.
    - intros Hp. apply Hrts. apply elem_of_flat_map in Hp as (k & Hk1 & Hk2).
      apply elem_of_flat_map. exists k. split; [ exact Hk1 | eapply resumed_subset; eauto ]. }
  assert (Heff : Effect.effects (toggle_inert e) = Effect.effects e) by reflexivity.
  assert (Htrs : Effect.transitions (toggle_inert e) = Effect.transitions e) by reflexivity.
  rewrite Heff.
  erewrite bind_ok; cycle 1.
  { unfold children, array in Ho.
    destruct (Effect.effects e) as [cs|] eqn:Hcs; simpl in Ho.
    - subst cs. exact Hkids.
    - destruct ts as [|k ts]; [ | discriminate ]. exact Hkids. }
  rewrite (bind_ok _ _ _ _ _ (get_effect_ok _ _ _ Hr2)). rewrite Htrs.
  unfold eligible.
  destruct (Effect.transitions e) as [trs|].
  - rewrite for_each_log. unfold add_trace. simpl. rewrite <- app_assoc. reflexivity.
  - unfold ret, add_trace. simpl. rewrite app_nil_r. reflexivity.
Qed.

End QuietResumeWalk.

Section RoundTripFacts.

Context {K : Constants}.

Lemma toggle_inert_twice e : is_int32 (Effect.f e) -> toggle_inert (toggle_inert e) = e.
Proof.
  intros Hf. destruct e as [p d ds f l fn effs ders td ctx trs].
  unfold toggle_inert, Effect.with_f. simpl in *.
  rewrite (js_xor_twice f INERT Hf). reflexivity.
Qed.

Lemma toggle_all_twice rs h :
  NoDup rs -> flags_int32 rs h -> toggle_all rs (toggle_all rs h) = h.
Proof.
  intros Hnd Hint. apply map_eq. intros n.
  destruct (decide (n ∈ rs)) as [Hn|Hn].
  - rewrite !toggle_all_lookup_in by assumption.
    destruct (h !! n) as [e|] eqn:He; [ | reflexivity ].
    cbn [fmap option_fmap option_map]. rewrite toggle_inert_twice; [ reflexivity | ].
    eapply Hint; eauto.
  - rewrite !toggle_all_lookup_notin by assumption. reflexivity.
Qed.

Lemma quiet_resume_events_no_run {H : Host} h t :
  forall local n, Ev_execute_effect n ∉ quiet_resume_events h local t.
Proof.
  induction t as [r ts IH] using Tree_ind'. intros local n Hn.
  cbn [quiet_resume_events] in Hn.
  destruct (h !! r) as [e|]; [ | inversion Hn ].
  destruct (inert e); [ | inversion Hn ].
  apply elem_of_cons in Hn as [Hn|Hn]; [ discriminate | ].
  apply elem_of_app in Hn as [Hn|Hn].
  - apply elem_of_flat_map in Hn as (k & Hk & Hn).
    rewrite Forall_forall in IH. eapply IH; eauto.
  - apply list_elem_of_fmap in Hn as (tr & Htr & _). discriminate.
Qed.

End RoundTripFacts.

(** X10. A pause followed by a resume of an effect none of whose nodes
    was inert before the pause, when the pause gathered at least one
    transition and nothing became dirty in between, is a round trip: the
    store after the resume is the store before the pause, to which only
    the completion closure of the pause was added; every flag word,
    status included, is as it was. No effect body is run. (A node that
    was inert before the pause would come out of the resume active.) *)
Theorem pause_resume_round_trip {K : Constants} {H : Host} (t : Tree) (fuel : nat)
    (callback : Closure) (w : World) :
  constants_ok ->
  shaped children (heap (store w)) t ->
  NoDup (nodes t) ->
  (height t <= fuel)%nat ->
  (forall n e, n ∈ nodes t -> heap (store w) !! n = Some e -> inert e = false) ->
  flags_int32 (nodes t) (heap (store w)) ->
  collected (heap (store w)) true t <> [] ->
  nothing_dirty (nodes t) ->
  let h := heap (store w) in
  let k := fresh (dom (pending (store w))) in
  exists w1 w2 evs,
    pause_effect fuel (root t) callback w = Ok tt w1
    /\ resume_effect fuel (root t) w1 = Ok tt w2
    /\ store w2
       = with_pending
           (<[k := {| remaining := Z.of_nat (length (collected h true t));
                      to_destroy := [root t];
                      callback := callback |}]> (pending (store w)))
           (store w)
    /\ heap (store w2) = h
    /\ trace w2 = trace w ++ outs k (collected h true t) ++ evs
    /\ evs = quiet_resume_events (heap (store w1)) true t
    /\ (forall n, Ev_execute_effect n ∉ evs).
Proof.
  intros HK Hsh Hnd Hfuel Hno Hint Hcol Hq h k.
  set (h1 := toggle_all (nodes t) h).
  set (w1 := {| store := with_pending
                  (<[k := {| remaining := Z.of_nat (length (collected h true t));
                             to_destroy := [root t];
                             callback := callback |}]> (pending (store w)))
                  (with_heap h1 (store w));
                trace := trace w ++ map (fun tr => Ev_transition_out tr k) (collected h true t) |}).
  assert (Hpause : pause_effect fuel (root t) callback w = Ok tt w1).
  { unfold pause_effect.
    rewrite (bind_ok _ _ _ _ _ (pause_children_spec t fuel [] true w Hsh Hnd Hfuel)).
    cbn [app]. fold h.
    rewrite (out_pending fuel (collected h true t) [root t] callback _ Hcol).
    unfold w1, h1. rewrite (paused_all h t Hsh Hno). reflexivity. }
  assert (Hlook : forall n e, n ∈ nodes t -> h !! n = Some e ->
                    heap (store w1) !! n = Some (toggle_inert e)).
  { intros n e Hn He. simpl. unfold h1.
    rewrite toggle_all_lookup_in by assumption. rewrite He. reflexivity. }
  assert (Hsh1 : shaped children (heap (store w1)) t).
  { eapply shaped_same_owned; [ exact Hsh | ].
    intros n Hn e He. exists (toggle_inert e). split; [ apply Hlook; assumption | reflexivity ]. }
  assert (Hall1 : forall n e1, n ∈ nodes t -> heap (store w1) !! n = Some e1 -> inert e1 = true).
  { intros n e1 Hn He1.
    destruct (shaped_nodes_allocated _ _ _ _ Hsh Hn) as [e He].
    rewrite (Hlook n e Hn He) in He1. inversion He1; subst e1.
    destruct (toggle_inert_fields HK e) as (-> & _). rewrite (Hno n e Hn He). reflexivity. }
  pose proof (resume_children_quiet t fuel true w1 Hsh1 Hnd Hfuel Hq) as Hresume.
  rewrite (resumed_all _ t Hsh1 Hall1) in Hresume.
  change (heap (store w1)) with h1 in Hresume at 2.
  unfold h1 in Hresume at 1. rewrite (toggle_all_twice _ _ Hnd Hint) in Hresume.
  exists w1. eexists. exists (quiet_resume_events (heap (store w1)) true t).
  split; [ exact Hpause | ].
  split; [ exact Hresume | ].
  split; [ unfold h; destruct w as [[] ?]; reflexivity | ].
  split; [ reflexivity | ].
  split; [ simpl; rewrite <- app_assoc; reflexivity | ].
  split; [ reflexivity | ].
  intros n. apply quiet_resume_events_no_run.
Qed.

Lemma items_tree_settled :
  @nothing_dirty settled_host (nodes (Node 0%nat [Node 2%nat []])).
Proof. intros r s _. reflexivity. Qed.

Lemma pause_resume_round_trip_witness :
  exists w1 w2,
    @pause_effect example_constants 2 0%nat (user_fn 99) items_world = Ok tt w1
    /\ @resume_effect example_constants settled_host 2 0%nat w1 = Ok tt w2
    /\ heap (store w2) = items_heap
    /\ trace w2
       = [Ev_transition_out tr_local_a 0%nat;
          Ev_check_dirtiness 0%nat false; Ev_check_dirtiness 2%nat false;
          Ev_transition_in tr_local_a].
Proof.
  destruct (@pause_resume_round_trip example_constants settled_host
              (Node 0%nat [Node 2%nat []]) 2 (user_fn 99) items_world
              example_constants_ok
              ltac:(pose proof items_forest_shaped as Hx;
                    apply Forall_cons in Hx as [Hx _]; exact Hx)
              ltac:(refine (bool_decide_unpack _ _); vm_compute; exact I)
              ltac:(vm_compute; lia))
    as (w1 & w2 & evs & Hpause & Hresume & _ & Hheap & Htr & Hevs & _).
  - intros n e Hn He. simpl in Hn.
    repeat (apply elem_of_cons in Hn as [->|Hn]); try solve [ inversion Hn ];
      vm_compute in He; inversion He; subst; vm_compute; reflexivity.
  - intros n e Hn He. simpl in Hn.
    repeat (apply elem_of_cons in Hn as [->|Hn]); try solve [ inversion Hn ];
      vm_compute in He; inversion He; subst; unfold is_int32; simpl; lia.
  - vm_compute. discriminate.
  - exact items_tree_settled.
  - exists w1, w2. split; [ exact Hpause | ]. split; [ exact Hresume | ].
    split; [ exact Hheap | ].
    rewrite Htr, Hevs. vm_compute in Hpause. inversion Hpause; subst w1.
    vm_compute. reflexivity.
Defined.

Section OwnershipFacts.

Context {K : Constants} {H : Host}.

Variables (type : Z) (fn : Closure) (s : Store).

Hypothesis Hal : current_allocated s.

Local Abbreviation r := (fresh (dom (heap s))).

Local Abbreviation h1 := (registered_heap type fn s).

(** What [create_effect] makes of a node that existed: it is as it was,
    or it is the current reaction and lists the new effect last. *)
Lemma registered_heap_old n e' :
  h1 !! n = Some e' -> n <> r ->
  exists e,
    heap s !! n = Some e
    /\ Effect.parent e' = Effect.parent e /\ Effect.l e' = Effect.l e
    /\ (children e' = children e
        \/ (children e' = children e ++ [r]
            /\ current_reaction s = Some n /\ has_flag type ROOT_EFFECT = false)).
Proof.
  intros Hn Hne. unfold registered_heap in Hn.
  destruct (current_reaction s) as [cr|] eqn:Hcr.
  - destruct (has_flag type ROOT_EFFECT) eqn:Hroot.
    + rewrite lookup_insert_ne in Hn by congruence. exists e'. auto 10.
    + destruct (decide (n = cr)) as [->|Hnc].
      * rewrite lookup_alter_eq, lookup_insert_ne in Hn by congruence.
        destruct (heap s !! cr) as [c|] eqn:Hc; [ | discriminate ].
        inversion Hn; subst e'. exists c.
        split; [ reflexivity | ].
        split; [ unfold push_effect; destruct (Effect.effects c); reflexivity | ].
        split; [ unfold push_effect; destruct (Effect.effects c); reflexivity | ].
        right. split; [ apply push_effect_children | auto ].
      * rewrite lookup_alter_ne, lookup_insert_ne in Hn by congruence. exists e'. auto 10.
  - rewrite lookup_insert_ne in Hn by congruence. exists e'. auto 10.
Qed.

Lemma registered_heap_kept n e :
  heap s !! n = Some e ->
  exists e', h1 !! n = Some e'
             /\ Effect.parent e' = Effect.parent e /\ Effect.l e' = Effect.l e.
Proof.
  intros Hn.
  assert (Hne : n <> r).
  { intros ->. rewrite fresh_not_allocated in Hn. discriminate. }
  unfold registered_heap.
  destruct (current_reaction s) as [cr|] eqn:Hcr.
  - destruct (has_flag type ROOT_EFFECT) eqn:Hroot.
    + rewrite lookup_insert_ne by congruence. exists e. auto.
    + destruct (decide (n = cr)) as [->|Hnc].
      * rewrite lookup_alter_eq, lookup_insert_ne by congruence. rewrite Hn.
        eexists. split; [ reflexivity | ].
        unfold push_effect; destruct (Effect.effects e); auto.
      * rewrite lookup_alter_ne, lookup_insert_ne by congruence. exists e. auto.
  - rewrite lookup_insert_ne by congruence. exists e. auto.
Qed.

Lemma registered_heap_fresh : h1 !! r = Some (created_effect type fn s).
Proof. apply registered_heap_new. exact Hal. Qed.

Lemma created_effect_childless : children (created_effect type fn s) = [].
Proof.
  destruct (created_effect_fields type fn s) as (_ & _ & _ & _ & Heff & _).
  unfold children. rewrite Heff. reflexivity.
Qed.

Lemma created_effect_level :
  forall p, Effect.parent (created_effect type fn s) = Some p ->
    exists ep, heap s !! p = Some ep
               /\ Effect.l (created_effect type fn s) = Effect.l ep + 1.
Proof.
  intros p Hp. destruct (created_effect_fields type fn s) as (Hpar & _).
  rewrite Hpar in Hp. destruct (has_flag type ROOT_EFFECT); [ discriminate | ].
  destruct Hal as (Hce & _). destruct (Hce p Hp) as [c Hc].
  exists c. split; [ exact Hc | ].
  unfold created_effect. rewrite Hp, Hc. reflexivity.
Qed.

Lemma registered_heap_owned_once : owned_once (heap s) -> owned_once h1.
Proof.
  intros (Hclosed & Hnodup & Hsingle).
  assert (Hnotin : forall x e, heap s !! x = Some e -> r ∉ children e).
  { intros x e Hx Hr. destruct (Hclosed x e r Hx Hr) as [e0 He0].
    rewrite fresh_not_allocated in He0. discriminate. }
  split; [ | split ].
  - intros x e' c Hx Hc. destruct (decide (x = r)) as [->|Hxr].
    { rewrite registered_heap_fresh in Hx. inversion Hx; subst e'.
      rewrite created_effect_childless in Hc. inversion Hc. }
    destruct (registered_heap_old x e' Hx Hxr) as (e & He & _ & _ & Hch).
    assert (Hcases : c ∈ children e \/ c = r).
    { destruct Hch as [Hch|(Hch & _)]; rewrite Hch in Hc; [ auto | ].
      apply elem_of_app in Hc as [Hc|Hc]; [ auto | ].
      apply list_elem_of_singleton in Hc. auto. }
    destruct Hcases as [Hc0| ->].
    + destruct (Hclosed x e c He Hc0) as [ec Hec].
      destruct (registered_heap_kept c ec Hec) as (ec' & Hec' & _). eauto.
    + rewrite registered_heap_fresh. eauto.
  - intros x e' Hx. destruct (decide (x = r)) as [->|Hxr].
    { rewrite registered_heap_fresh in Hx. inversion Hx; subst e'.
      rewrite created_effect_childless. constructor. }
    destruct (registered_heap_old x e' Hx Hxr) as (e & He & _ & _ & Hch).
    destruct Hch as [Hch|(Hch & _)]; rewrite Hch; [ eauto | ].
    apply NoDup_app. split; [ eauto | ].
    split; [ | apply NoDup_singleton ].
    intros c Hc Hc'. apply list_elem_of_singleton in Hc' as ->. exact (Hnotin x e He Hc).
  - intros x y ex' ey' c Hx Hy Hcx Hcy.
    destruct (decide (x = r)) as [->|Hxr].
    { rewrite registered_heap_fresh in Hx. inversion Hx; subst ex'.
      rewrite created_effect_childless in Hcx. inversion Hcx. }
    destruct (decide (y = r)) as [->|Hyr].
    { rewrite registered_heap_fresh in Hy. inversion Hy; subst ey'.
      rewrite created_effect_childless in Hcy. inversion Hcy. }
    destruct (registered_heap_old x ex' Hx Hxr) as (ex & Hex & _ & _ & Hchx).
    destruct (registered_heap_old y ey' Hy Hyr) as (ey & Hey & _ & _ & Hchy).
    destruct (decide (c = r)) as [->|Hcr].
    + destruct Hchx as [Hchx|(_ & Hcrx & _)].
      { rewrite Hchx in Hcx. exfalso. exact (Hnotin x ex Hex Hcx). }
      destruct Hchy as [Hchy|(_ & Hcry & _)].
      { rewrite Hchy in Hcy. exfalso. exact (Hnotin y ey Hey Hcy). }
      congruence.
    + assert (Hcx0 : c ∈ children ex).
      { destruct Hchx as [Hchx|(Hchx & _)]; rewrite Hchx in Hcx; [ exact Hcx | ].
        apply elem_of_app in Hcx as [Hcx|Hcx]; [ exact Hcx | ].
        apply list_elem_of_singleton in Hcx. contradiction. }
      assert (Hcy0 : c ∈ children ey).
      { destruct Hchy as [Hchy|(Hchy & _)]; rewrite Hchy in Hcy; [ exact Hcy | ].
        apply elem_of_app in Hcy as [Hcy|Hcy]; [ exact Hcy | ].
        apply list_elem_of_singleton in Hcy. contradiction. }
      eapply Hsingle; eauto.
Qed.

Lemma registered_heap_levelled : levelled (heap s) -> levelled h1.
Proof.
  intros Hlev x e' p Hx Hp. destruct (decide (x = r)) as [->|Hxr].
  - rewrite registered_heap_fresh in Hx. inversion Hx; subst e'.
    destruct (created_effect_level p Hp) as (ep & Hep & Hl).
    destruct (registered_heap_kept p ep Hep) as (ep' & Hep' & _ & Hl').
    exists ep'. split; [ exact Hep' | congruence ].
  - destruct (registered_heap_old x e' Hx Hxr) as (e & He & Hpar & Hl & _).
    rewrite Hpar in Hp. destruct (Hlev x e p He Hp) as (ep & Hep & Hlp).
    destruct (registered_heap_kept p ep Hep) as (ep' & Hep' & _ & Hl').
    exists ep'. split; [ exact Hep' | congruence ].
Qed.

Lemma registered_heap_owner_is_parent :
  owned_once (heap s) ->
  (has_flag type ROOT_EFFECT = false ->
   forall cr, current_reaction s = Some cr -> current_effect s = Some cr) ->
  owner_is_parent (heap s) -> owner_is_parent h1.
Proof.
  intros (Hclosed & _ & _) Hsame Hown x e' c ec' Hx Hc Hec.
  assert (Hnotin : forall x e, heap s !! x = Some e -> r ∉ children e).
  { intros x0 e Hx0 Hr. destruct (Hclosed x0 e r Hx0 Hr) as [e0 He0].
    rewrite fresh_not_allocated in He0. discriminate. }
  destruct (decide (x = r)) as [->|Hxr].
  { rewrite registered_heap_fresh in Hx. inversion Hx; subst e'.
    rewrite created_effect_childless in Hc. inversion Hc. }
  destruct (registered_heap_old x e' Hx Hxr) as (e & He & _ & _ & Hch).
  destruct (decide (c = r)) as [->|Hcr].
  - destruct Hch as [Hch|(_ & Hcur & Hroot)].
    { rewrite Hch in Hc. exfalso. exact (Hnotin x e He Hc). }
    rewrite registered_heap_fresh in Hec. inversion Hec; subst ec'.
    destruct (created_effect_fields type fn s) as (Hpar & _).
    rewrite Hpar, Hroot. apply Hsame; assumption.
  - assert (Hc0 : c ∈ children e).
    { destruct Hch as [Hch|(Hch & _)]; rewrite Hch in Hc; [ exact Hc | ].
      apply elem_of_app in Hc as [Hc|Hc]; [ exact Hc | ].
      apply list_elem_of_singleton in Hc. contradiction. }
    destruct (registered_heap_old c ec' Hec Hcr) as (ec & Hec0 & Hpar & _).
    rewrite Hpar. eapply Hown; eauto.
Qed.

End OwnershipFacts.

(** X11. [create_effect] keeps ownership well formed. In the heap in which
    the new effect is first run, scheduled or left alone, the [effects]
    arrays still make a forest of existing nodes, in which the new effect
    has no child and is listed by the current reaction only; every node is
    still one level below its parent; and when the current reaction is the
    current effect, the node that lists an effect is still its parent.
    When the effect is not run inline this is the heap [create_effect]
    returns. The level [l] is counted in unbounded integers: the
    [l + 1] of the code is exact as long as the depth stays below 2^53. *)
Theorem create_effect_keeps_ownership {K : Constants} {H : Host} (type : Z) (fn : Closure)
    (sync init : bool) (w : World) :
  current_allocated (store w) ->
  owned_once (heap (store w)) ->
  let s := store w in
  let effect := fresh (dom (heap s)) in
  let h1 := registered_heap type fn s in
  owned_once h1
  /\ (levelled (heap s) -> levelled h1)
  /\ ((has_flag type ROOT_EFFECT = false ->
       forall cr, current_reaction s = Some cr -> current_effect s = Some cr) ->
      owner_is_parent (heap s) -> owner_is_parent h1)
  /\ (forall x e, h1 !! x = Some e -> effect ∈ children e ->
        current_reaction s = Some x /\ has_flag type ROOT_EFFECT = false)
  /\ (exists e, h1 !! effect = Some e /\ children e = [] /\ Effect.effects e = None)
  /\ (sync && init = false ->
      exists w', create_effect type fn sync init w = Ok effect w' /\ heap (store w') = h1).
Proof.
  intros Hal Hown s effect h1.
  split; [ apply registered_heap_owned_once; assumption | ].
  split; [ apply registered_heap_levelled; assumption | ].
  split; [ intros Hsame; apply registered_heap_owner_is_parent; assumption | ].
  split; [ | split ].
  - intros x e Hx Hc.
    destruct (decide (x = effect)) as [->|Hxr].
    { unfold h1, effect, s in Hx. rewrite (registered_heap_fresh type fn _ Hal) in Hx.
      inversion Hx; subst e. rewrite created_effect_childless in Hc. inversion Hc. }
    destruct (registered_heap_old type fn s x e Hx Hxr) as (e0 & He0 & _ & _ & Hch).
    destruct Hch as [Hch|(_ & Hcur & Hroot)]; [ | auto ].
    rewrite Hch in Hc. destruct Hown as (Hclosed & _).
    destruct (Hclosed x e0 effect He0 Hc) as [e1 He1].
    unfold effect in He1. rewrite fresh_not_allocated in He1. discriminate.
  - exists (created_effect type fn s).
    split; [ apply (registered_heap_fresh type fn _ Hal) | ].
    split; [ apply created_effect_childless | ].
    apply (created_effect_fields type fn s).
  - intros Hsi. rewrite (create_effect_run type fn sync init w Hal).
    fold s effect h1. destruct init.
    + rewrite andb_true_r in Hsi. subst sync.
      unfold bind. rewrite initialise_effect_async. eexists. split; reflexivity.
    + unfold bind. rewrite initialise_effect_skip. eexists. split; reflexivity.
Qed.

Lemma mounting_world_lookup x e :
  heap (store mounting_world) !! x = Some e ->
  x = 0%nat /\ children e = [] /\ Effect.parent e = None.
Proof.
  intros Hx. simpl in Hx. apply lookup_singleton_Some in Hx as [<- <-]. auto.
Qed.

Lemma mounting_world_owned_once : owned_once (heap (store mounting_world)).
Proof.
  split; [ | split ].
  - intros x e c Hx Hc. destruct (mounting_world_lookup x e Hx) as (_ & Hch & _).
    rewrite Hch in Hc. inversion Hc.
  - intros x e Hx. destruct (mounting_world_lookup x e Hx) as (_ & Hch & _).
    rewrite Hch. constructor.
  - intros x y ex ey c Hx Hy Hcx _. destruct (mounting_world_lookup x ex Hx) as (_ & Hch & _).
    rewrite Hch in Hcx. inversion Hcx.
Qed.

Lemma create_effect_keeps_ownership_witness :
  exists w',
    @effect example_constants quiet_host (user_fn 1) mounting_world = Ok 1%nat w'
    /\ owned_once (heap (store w'))
    /\ (exists e, heap (store w') !! 1%nat = Some e /\ children e = []
                  /\ Effect.effects e = None)
    /\ levelled (heap (store w'))
    /\ owner_is_parent (heap (store w')).
Proof.
  destruct (@create_effect_keeps_ownership example_constants quiet_host
              (@EFFECT example_constants) (user_fn 1) false true mounting_world
              mounting_world_allocated mounting_world_owned_once)
    as (Hown & Hlev & Hpar & _ & Hnew & Hrun).
  destruct (Hrun eq_refl) as (w' & Hw' & Hheap).
  exists w'. split; [ exact Hw' | ]. rewrite Hheap.
  split; [ exact Hown | ]. split; [ exact Hnew | ]. split.
  - apply Hlev. intros x e p Hx Hp.
    destruct (mounting_world_lookup x e Hx) as (_ & _ & Hnone). congruence.
  - apply Hpar.
    + intros _ cr Hcr. exact Hcr.
    + intros x e c ec Hx Hc _. destruct (mounting_world_lookup x e Hx) as (_ & Hch & _).
      rewrite Hch in Hc. inversion Hc.
Defined.

Section CssPropsFacts.

Import CssProps.

Variable inherited : string -> bool.

Lemma for_in_remove next (o : Props) st :
  for_in o
    (fun key _ st => if negb (has inherited next key) then call (removeProperty key) st else st)
    st
  = {| calls := calls st
                ++ map removeProperty
                     (filter (fun key => has inherited next key = false) (map fst o));
       current_props := current_props st |}.
Proof.
  unfold for_in. revert st. induction o as [|[k v] o IH]; intros st.
  - simpl. rewrite app_nil_r. destruct st; reflexivity.
  - cbn [foldl map fst snd]. rewrite IH, filter_cons.
    destruct (has inherited next k) eqn:Hk; cbn [negb].
    + rewrite decide_False by congruence. reflexivity.
    + rewrite decide_True by reflexivity. unfold call. cbn [calls current_props map].
      rewrite <- app_assoc. reflexivity.
Qed.

Lemma for_in_set (o : Props) st :
  for_in o (fun key value st => call (setProperty key value) st) st
  = {| calls := calls st ++ sets o; current_props := current_props st |}.
Proof.
  unfold for_in, sets. revert st. induction o as [|[k v] o IH]; intros st.
  - simpl. rewrite app_nil_r. destruct st; reflexivity.
  - cbn [foldl map fst snd]. rewrite IH. unfold call. cbn [calls current_props].
    rewrite <- app_assoc. reflexivity.
Qed.

Lemma get_elem_of o key v : get o key = Some v -> (key, v) ∈ o.
Proof.
  induction o as [|[k v0] o IH]; [ discriminate | ]. cbn [get].
  destruct (String.eqb_spec k key) as [->|Hne].
  - intros Hv. inversion Hv; subst. left.
  - intros Hv. right. auto.
Qed.

Lemma has_own_keys o key : has_own o key = true <-> key ∈ map fst o.
Proof.
  unfold has_own. induction o as [|[k v] o IH]; cbn [get map fst].
  - split; [ discriminate | intros Hin; inversion Hin ].
  - destruct (String.eqb_spec k key) as [->|Hne].
    + split; [ intros _; left | reflexivity ].
    + rewrite IH. split; [ intros Hin; right; exact Hin | ].
      intros Hin. apply elem_of_cons in Hin as [Heq|Hin]; [ congruence | exact Hin ].
Qed.

Lemma get_NoDup o key v : NoDup (map fst o) -> (key, v) ∈ o -> get o key = Some v.
Proof.
  induction o as [|[k v0] o IH]; intros Hnd Hin; [ inversion Hin | ].
  cbn [map fst] in Hnd. apply NoDup_cons in Hnd as [Hk Hnd]. cbn [get].
  apply elem_of_cons in Hin as [Heq|Hin].
  - inversion Heq; subst. rewrite String.eqb_refl. reflexivity.
  - destruct (String.eqb_spec k key) as [->|Hne]; [ | auto ].
    exfalso. apply Hk. apply list_elem_of_fmap. exists (key, v). auto.
Qed.

(** One run of the closure, loops unrolled. *)
Lemma update_calls next st :
  update inherited next st
  = {| calls := calls st
                ++ map removeProperty (removals inherited (current_props st) next)
                ++ sets next;
       current_props := next |}.
Proof.
  unfold update. rewrite for_in_remove, for_in_set. cbn [calls current_props].
  rewrite <- app_assoc. reflexivity.
Qed.

Lemma last_request_app key cs cs' :
  last_request key (cs ++ cs')
  = match last_request key cs' with
    | Some r => Some r
    | None => last_request key cs
    end.
Proof.
  unfold last_request. rewrite foldl_app. generalize (foldl (fun acc c =>
           match c with
           | removeProperty k => if String.eqb k key then Some None else acc
           | setProperty k v => if String.eqb k key then Some (Some v) else acc
           end) None cs) as acc.
  induction cs' as [|c cs' IH] using rev_ind; intros acc.
  - simpl. destruct acc; reflexivity.
  - rewrite !foldl_app. cbn [foldl].
    destruct c as [k|k v]; destruct (String.eqb k key); try reflexivity; apply IH.
Qed.

Lemma last_request_removes key ks :
  last_request key (map removeProperty ks)
  = if bool_decide (key ∈ ks) then Some None else None.
Proof.
  induction ks as [|k ks IH] using rev_ind.
  - reflexivity.
  - rewrite map_app, last_request_app. cbn [map]. unfold last_request at 1. cbn [foldl].
    destruct (String.eqb_spec k key) as [->|Hne].
    + rewrite bool_decide_eq_true_2; [ reflexivity | ]. apply elem_of_app. right. left.
    + rewrite IH.
      assert (Heq : bool_decide (key ∈ ks ++ [k]) = bool_decide (key ∈ ks)).
      { apply bool_decide_ext. rewrite elem_of_app, list_elem_of_singleton.
        split; [ intros [Hi|Hi]; [ exact Hi | congruence ] | auto ]. }
      rewrite Heq. reflexivity.
Qed.

Lemma last_request_sets key o :
  NoDup (map fst o) ->
  last_request key (sets o)
  = match get o key with Some v => Some (Some v) | None => None end.
Proof.
  induction o as [|[k v] o IH] using rev_ind; intros Hnd; [ reflexivity | ].
  rewrite map_app in Hnd. apply NoDup_app in Hnd as (Hnd & Hdisj & _).
  unfold sets. rewrite map_app, last_request_app. cbn [map fst snd].
  unfold last_request at 1. cbn [foldl].
  destruct (String.eqb_spec k key) as [->|Hne].
  - assert (Hget : get (o ++ [(key, v)]) key = Some v).
    { apply get_NoDup.
      - rewrite map_app. apply NoDup_app. split; [ exact Hnd | ].
        split; [ exact Hdisj | apply NoDup_singleton ].
      - apply elem_of_app. right. left. }
    rewrite Hget. reflexivity.
  - fold (sets o). rewrite IH by exact Hnd.
    assert (Hget : get (o ++ [(k, v)]) key = get o key).
    { clear - Hne. induction o as [|[k0 v0] o IH]; cbn [app get].
      - destruct (String.eqb_spec k key); [ congruence | reflexivity ].
      - destruct (String.eqb k0 key); [ reflexivity | exact IH ]. }
    rewrite Hget. reflexivity.
Qed.

Lemma elem_of_removals current next key :
  key ∈ removals inherited current next
  <-> has_own current key = true /\ has_own next key = false /\ inherited key = false.
Proof.
  unfold removals. rewrite list_elem_of_filter, <- has_own_keys. unfold has.
  rewrite orb_false_iff. tauto.
Qed.

Lemma css_run_snoc runs next : run inherited (runs ++ [next]) = update inherited next (run inherited runs).
Proof. unfold run. rewrite foldl_app. reflexivity. Qed.

Lemma current_props_run runs :
  current_props (run inherited runs) = default [] (last runs).
Proof.
  induction runs as [|next runs _] using rev_ind; [ reflexivity | ].
  rewrite css_run_snoc, update_calls, last_snoc. reflexivity.
Qed.

Lemma seen_snoc key runs next :
  seen key (runs ++ [next]) = seen key runs || has_own next key.
Proof. unfold seen. rewrite existsb_app. cbn [existsb]. rewrite orb_false_r. reflexivity. Qed.

End CssPropsFacts.

(** X12. One run of the closure of [css_props]: it first asks for the
    removal of the keys the last props had and that [in] does not find in
    the new props, then sets every property of the new props, changed or
    not, and remembers the new props. It never removes a key that it then
    sets, and never removes a key whose name is on the prototype chain of
    the new props. A second run with the same props removes nothing and
    sets everything again. *)
Theorem css_props_update (inherited : string -> bool) (next_props : CssProps.Props)
    (st : CssProps.State) :
  let removed := CssProps.removals inherited (CssProps.current_props st) next_props in
  let st1 := CssProps.update inherited next_props st in
  CssProps.calls st1
  = CssProps.calls st ++ map CssProps.removeProperty removed ++ CssProps.sets next_props
  /\ CssProps.current_props st1 = next_props
  /\ (forall key, key ∈ removed <->
        CssProps.has_own (CssProps.current_props st) key = true
        /\ CssProps.has_own next_props key = false
        /\ inherited key = false)
  /\ (forall key value, key ∈ removed -> CssProps.setProperty key value ∉ CssProps.sets next_props)
  /\ CssProps.calls (CssProps.update inherited next_props st1)
     = CssProps.calls st1 ++ CssProps.sets next_props.
Proof.
  intros removed st1. unfold st1, removed. rewrite !update_calls. cbn [CssProps.calls CssProps.current_props].
  split; [ reflexivity | ]. split; [ reflexivity | ].
  split; [ intros key; apply elem_of_removals | ].
  split.
  - intros key value Hrem Hset. apply elem_of_removals in Hrem as (_ & Hown & _).
    apply list_elem_of_fmap in Hset as ([k v] & Heq & Hin). inversion Heq; subst k v.
    assert (Hk : key ∈ map fst next_props).
    { apply list_elem_of_fmap. exists (key, value). auto. }
    apply has_own_keys in Hk. congruence.
  - f_equal.
    assert (Hnone : CssProps.removals inherited next_props next_props = []).
    { destruct (CssProps.removals inherited next_props next_props) as [|k ks] eqn:Hr;
        [ reflexivity | ].
      assert (Hk : k ∈ CssProps.removals inherited next_props next_props)
        by (rewrite Hr; left).
      apply elem_of_removals in Hk as (H1 & H2 & _). congruence. }
    rewrite Hnone. reflexivity.
Qed.

(** X13. Over any number of runs of the closure of [css_props], what the
    host was last asked about a key is what the latest props say: the
    value the latest props give it, and a removal when the latest props
    do not have the key but earlier ones had; a key that no props had is
    never touched. This holds for the keys that are not names on the
    prototype chain; for a key that is, no removal is ever asked. *)
Theorem css_props_latest_wins (inherited : string -> bool) (runs : list CssProps.Props)
    (key : string) :
  Forall (fun o => NoDup (map fst o)) runs ->
  (inherited key = false ->
   CssProps.last_request key (CssProps.calls (CssProps.run inherited runs))
   = match last runs with
     | None => None
     | Some o =>
         match CssProps.get o key with
         | Some v => Some (Some v)
         | None => if CssProps.seen key runs then Some None else None
         end
     end)
  /\ (inherited key = true ->
      CssProps.removeProperty key ∉ CssProps.calls (CssProps.run inherited runs)).
Proof.
  intros Hnd. split; intros Hinh.
  - induction runs as [|next runs IH] using rev_ind; [ reflexivity | ].
    apply Forall_app in Hnd as [Hnd Hnext]. rewrite Forall_singleton in Hnext.
    specialize (IH Hnd).
    rewrite css_run_snoc, update_calls, last_snoc. cbn [CssProps.calls].
    rewrite current_props_run, app_assoc, last_request_app.
    rewrite (last_request_sets key next Hnext).
    destruct (CssProps.get next key) as [v|] eqn:Hget; [ reflexivity | ].
    rewrite last_request_app, last_request_removes, seen_snoc.
    assert (Hown : CssProps.has_own next key = false) by (unfold CssProps.has_own; rewrite Hget; reflexivity).
    rewrite Hown, orb_false_r.
    case_bool_decide as Hrem.
    + apply elem_of_removals in Hrem as (Hcur & _ & _).
      destruct (last runs) as [o|] eqn:Hlast; [ | discriminate ].
      cbn [from_option id] in Hcur.
      assert (Hseen : CssProps.seen key runs = true).
      { unfold CssProps.seen. apply existsb_exists. exists o. split; [ | exact Hcur ].
        apply list_elem_of_In. apply last_Some in Hlast as [l' ->]. apply elem_of_app. right. left. }
      rewrite Hseen. reflexivity.
    + rewrite IH. destruct (last runs) as [o|] eqn:Hlast;
        [ | apply last_None in Hlast; subst runs; reflexivity ].
      cbn [from_option id] in Hrem.
      destruct (CssProps.get o key) as [v|] eqn:Hgo; [ | reflexivity ].
      exfalso. apply Hrem. apply elem_of_removals.
      unfold CssProps.has_own at 1. rewrite Hgo. auto.
  - clear Hnd. induction runs as [|next runs IH] using rev_ind; [ intros Hin; inversion Hin | ].
    rewrite css_run_snoc, update_calls. cbn [CssProps.calls]. intros Hin.
    apply elem_of_app in Hin as [Hin|Hin]; [ exact (IH Hin) | ].
    apply elem_of_app in Hin as [Hin|Hin].
    + apply list_elem_of_fmap in Hin as (k & Heq & Hk). inversion Heq; subst k.
      apply elem_of_removals in Hk as (_ & _ & Hk). congruence.
    + apply list_elem_of_fmap in Hin as (kv & Heq & _). discriminate.
Qed.

Lemma css_props_latest_wins_witness :
  CssProps.last_request "--b"
    (CssProps.calls
       (CssProps.run (fun _ => false)
          [[("--a", "1"); ("--b", "2")]; [("--a", "3")]]))%string
  = Some None.
Proof.
  refine (proj1 (css_props_latest_wins (fun _ => false)
                   [[("--a", "1"); ("--b", "2")]; [("--a", "3")]]%string "--b"%string _)
            eq_refl).
  repeat constructor; intros Hin;
    repeat (apply elem_of_cons in Hin as [Hin|Hin]; [ discriminate | ]); inversion Hin.
Defined.

Section LegacyFacts.

Import Legacy.

Lemma fns_app cs cs' : fns (cs ++ cs') = fns cs ++ fns cs'.
Proof. apply omap_app. Qed.

Lemma depss_app cs cs' : depss (cs ++ cs') = depss cs ++ depss cs'.
Proof. apply omap_app. Qed.

Lemma legacy_run_snoc tokens token st :
  run (tokens ++ [token]) st = legacy_pre_effect_body token (run tokens st).
Proof. unfold run. rewrite foldl_app. reflexivity. Qed.

(** One run of the closure of a statement. *)
Lemma legacy_pre_effect_body_spec token st :
  legacy_pre_effect_body token st
  = if bool_decide (token ∈ l1 st)
    then {| l1 := l1 st; l2_v := l2_v st; calls := calls st ++ [call_deps token] |}
    else {| l1 := l1 st ++ [token]; l2_v := true;
            calls := calls st ++ [call_deps token; call_set_l2 true; call_fn token] |}.
Proof.
  unfold legacy_pre_effect_body, log, set_l2, push_l1, log. cbn [l1 l2_v calls].
  case_bool_decide; [ reflexivity | ].
  rewrite <- !app_assoc. reflexivity.
Qed.

Lemma run_armed tokens st : armed st -> armed (run tokens st).
Proof.
  intros Harm. induction tokens as [|token tokens IH] using rev_ind; [ exact Harm | ].
  rewrite legacy_run_snoc, legacy_pre_effect_body_spec.
  case_bool_decide; [ exact IH | ]. intros _. reflexivity.
Qed.

End LegacyFacts.

(** X14. Between two resets a legacy reactive statement runs its body
    once. Over any runs of the closures of [legacy_pre_effect], [deps] is
    called at every run, and [fn] only at the first run of each statement
    that had not run since the last reset; [l1] holds exactly the tokens
    of the statements that ran, each once. *)
Theorem legacy_pre_effect_runs_once (tokens : list nat) (st : Legacy.State) :
  let st' := Legacy.run tokens st in
  exists new,
    Legacy.calls st' = Legacy.calls st ++ new
    /\ Legacy.depss new = tokens
    /\ Legacy.l1 st' = Legacy.l1 st ++ Legacy.fns new
    /\ (NoDup (Legacy.l1 st) -> NoDup (Legacy.l1 st'))
    /\ (forall t, t ∈ Legacy.fns new <-> t ∈ tokens /\ t ∉ Legacy.l1 st)
    /\ (Legacy.fns new <> [] -> Legacy.l2_v st' = true).
Proof.
  induction tokens as [|token tokens IH] using rev_ind; intros st'.
  - exists []. unfold st'. simpl. rewrite !app_nil_r.
    split; [ reflexivity | ]. split; [ reflexivity | ]. split; [ reflexivity | ].
    split; [ auto | ]. split; [ | intros Hne; contradiction ].
    intros t. split; [ intros Hin; inversion Hin | intros [Hin _]; inversion Hin ].
  - destruct IH as (new & Hcalls & Hdeps & Hl1 & Hnd & Hfns & Hl2).
    unfold st'. rewrite legacy_run_snoc, legacy_pre_effect_body_spec.
    case_bool_decide as Hran.
    + exists (new ++ [Legacy.call_deps token]). cbn [Legacy.calls Legacy.l1 Legacy.l2_v].
      rewrite Hcalls, fns_app, depss_app, Hdeps, <- app_assoc.
      change (Legacy.fns [Legacy.call_deps token]) with (@nil nat).
      change (Legacy.depss [Legacy.call_deps token]) with [token].
      rewrite app_nil_r.
      split; [ reflexivity | ]. split; [ reflexivity | ].
      split; [ exact Hl1 | ]. split; [ exact Hnd | ].
      split; [ | exact Hl2 ].
      intros t. rewrite Hfns, elem_of_app, !list_elem_of_singleton.
      split; [ intros [Ht Hn]; auto | ].
      intros [[Ht| ->] Hn]; [ auto | ].
      rewrite Hl1, elem_of_app in Hran. destruct Hran as [Hran|Hran]; [ contradiction | ].
      apply Hfns in Hran. exact Hran.
    + exists (new ++ [Legacy.call_deps token; Legacy.call_set_l2 true; Legacy.call_fn token]).
      cbn [Legacy.calls Legacy.l1 Legacy.l2_v].
      rewrite Hcalls, fns_app, depss_app, Hdeps, <- app_assoc.
      change (Legacy.fns [Legacy.call_deps token; Legacy.call_set_l2 true;
                          Legacy.call_fn token]) with [token].
      change (Legacy.depss [Legacy.call_deps token; Legacy.call_set_l2 true;
                            Legacy.call_fn token]) with [token].
      rewrite Hl1, <- app_assoc.
      split; [ reflexivity | ]. split; [ reflexivity | ].
      split; [ reflexivity | ].
      split.
      * intros Hnd0. rewrite app_assoc, <- Hl1. apply NoDup_app.
        split; [ auto | ]. split; [ | apply NoDup_singleton ].
        intros t Ht Ht'. apply list_elem_of_singleton in Ht' as ->. contradiction.
      * split; [ | reflexivity ].
        intros t. rewrite !elem_of_app, Hfns, !list_elem_of_singleton.
        split.
        -- intros [[Ht Hn]| ->]; [ auto | ].
           split; [ auto | ]. intros Hin. apply Hran. rewrite Hl1. apply elem_of_app. auto.
        -- intros [[Ht| ->] Hn]; auto.
Qed.

(** X15. The closure of [legacy_pre_effect_reset] rearms the statements:
    when [l2] says that some statement ran it empties [l1] and writes
    false to [l2.v] directly, without a call of [set]; otherwise it
    changes nothing. After any runs and a reset, [l1] is empty, and the
    next run of any statement calls its [fn] again. *)
Theorem legacy_pre_effect_reset_rearms (tokens : list nat) (token : nat) (st : Legacy.State) :
  Legacy.armed st ->
  let st1 := Legacy.run tokens st in
  let st2 := Legacy.legacy_pre_effect_reset_body st1 in
  Legacy.l1 st2 = [] /\ Legacy.l2_v st2 = false
  /\ Legacy.calls st2 = Legacy.calls st1 ++ [Legacy.call_get_l2]
  /\ Legacy.armed st2
  /\ (Legacy.l2_v st1 = false -> Legacy.l1 st1 = [])
  /\ Legacy.legacy_pre_effect_body token st2
     = {| Legacy.l1 := [token]; Legacy.l2_v := true;
          Legacy.calls := Legacy.calls st2
                          ++ [Legacy.call_deps token; Legacy.call_set_l2 true;
                              Legacy.call_fn token] |}.
Proof.
  intros Harm st1 st2.
  pose proof (run_armed tokens st Harm) as Harm1. fold st1 in Harm1.
  assert (Hst2 : st2 = {| Legacy.l1 := []; Legacy.l2_v := false;
                          Legacy.calls := Legacy.calls st1 ++ [Legacy.call_get_l2] |}).
  { unfold st2, Legacy.legacy_pre_effect_reset_body, Legacy.get_l2, Legacy.log.
    destruct (Legacy.l2_v st1) eqn:Hv; [ reflexivity | ].
    cbn [Legacy.calls]. f_equal.
    destruct (Legacy.l1 st1) as [|t ts] eqn:Hl; [ reflexivity | ].
    assert (Htrue : Legacy.l2_v st1 = true) by (apply Harm1; rewrite Hl; discriminate).
    congruence. }
  rewrite Hst2. cbn [Legacy.l1 Legacy.l2_v Legacy.calls].
  split; [ reflexivity | ]. split; [ reflexivity | ]. split; [ reflexivity | ].
  split; [ intros Hne; contradiction | ].
  split.
  - intros Hv. destruct (Legacy.l1 st1) as [|t ts] eqn:Hl; [ reflexivity | ].
    assert (Htrue : Legacy.l2_v st1 = true) by (apply Harm1; rewrite Hl; discriminate).
    congruence.
  - rewrite legacy_pre_effect_body_spec. cbn [Legacy.l1 Legacy.l2_v Legacy.calls].
    rewrite bool_decide_eq_false_2 by (intros Hin; inversion Hin). reflexivity.
Qed.

Lemma legacy_pre_effect_reset_rearms_witness :
  Legacy.fns
    (Legacy.calls
       (Legacy.legacy_pre_effect_body 1
          (Legacy.legacy_pre_effect_reset_body
             (Legacy.run [1; 2; 1]%nat
                {| Legacy.l1 := []; Legacy.l2_v := false; Legacy.calls := [] |}))))
  = [1; 2; 1]%nat.
Proof.
  destruct (legacy_pre_effect_reset_rearms [1; 2; 1]%nat 1
              {| Legacy.l1 := []; Legacy.l2_v := false; Legacy.calls := [] |})
    as (_ & _ & _ & _ & _ & Hrun).
  - intros Hne. contradiction.
  - rewrite Hrun. reflexivity.
Defined.

(** X16. Host nodes are removed only when the last outro is over. After a
    pause that gathered [n] transitions, fewer than [n] completions add
    no call and change no node; the [n]-th destroys the effect with all it
    owns, children first, making the release calls the nodes had before
    the pause, and then calls the callback. *)
Theorem pause_completes_then_destroys {K : Constants} (pt dt : Tree) (fuel : nat)
    (callback : Closure) (w : World) :
  shaped children (heap (store w)) pt ->
  shaped owned_nodes (heap (store w)) dt ->
  root dt = root pt ->
  NoDup (nodes pt) ->
  NoDup (nodes dt) ->
  (height pt <= fuel)%nat ->
  (height dt <= fuel)%nat ->
  collected (heap (store w)) true pt <> [] ->
  let h := heap (store w) in
  let k := fresh (dom (pending (store w))) in
  let n := length (collected h true pt) in
  exists w1,
    pause_effect fuel (root pt) callback w = Ok tt w1
    /\ trace w1 = trace w ++ outs k (collected h true pt)
    /\ (forall m, (m < n)%nat ->
          exists w',
            times m (check fuel k) w1 = Ok tt w'
            /\ trace w' = trace w1 /\ heap (store w') = heap (store w1))
    /\ times n (check fuel k) w1
       = Ok tt (add_trace [Ev_callback callback]
                  (destroyed (post_order dt) (destroy_events h dt)
                     (with_remaining k 0 w1))).
Proof.
  intros Hsp Hsd Hroot Hndp Hndd Hfp Hfd Hcol h k n.
  set (h1 := toggle_all (paused h pt) h).
  set (w1 := {| store := with_pending
                  (<[k := {| remaining := Z.of_nat n;
                             to_destroy := [root pt];
                             callback := callback |}]> (pending (store w)))
                  (with_heap h1 (store w));
                trace := trace w ++ outs k (collected h true pt) |}).
  assert (Hpause : pause_effect fuel (root pt) callback w = Ok tt w1).
  { unfold pause_effect.
    rewrite (bind_ok _ _ _ _ _ (pause_children_spec pt fuel [] true w Hsp Hndp Hfp)).
    cbn [app]. fold h.
    rewrite (out_pending fuel (collected h true pt) [root pt] callback _ Hcol). reflexivity. }
  assert (Hk : pending (store w1) !! k
               = Some {| remaining := Z.of_nat n; to_destroy := [root pt];
                         callback := callback |}).
  { simpl. apply lookup_insert_eq. }
  exists w1. split; [ exact Hpause | ]. split; [ reflexivity | ]. split.
  - intros m Hm. eexists. split.
    + apply (times_check_countdown fuel k m _ w1 Hk). simpl. lia.
    + split; reflexivity.
  - assert (Hn : n = S (pred n)).
    { unfold n. destruct (collected h true pt) eqn:Hc;
        [ exfalso; apply Hcol; exact Hc | reflexivity ]. }
    rewrite Hn at 1. rewrite (times_check_fire fuel k (pred n) _ w1 Hk) by (simpl; lia).
    match goal with
    | |- _ = ?rhs => change (call_fn fuel [root pt] callback (with_remaining k 0 w1) = rhs)
    end.
    assert (Hsame : same_resources (nodes dt) h h1).
    { apply toggle_all_same_resources. apply paused_NoDup. exact Hndp. }
    pose proof (completion_forest := destroy_effect_spec dt fuel (with_remaining k 0 w1)).
    unfold call_fn. cbn [for_each]. rewrite <- Hroot.
    erewrite bind_ok; cycle 1.
    { rewrite bind_ret_tt. apply completion_forest; [ | exact Hndd | exact Hfd ].
      simpl. eapply shaped_same_resources; eauto. }
    change (heap (store (with_remaining k 0 w1))) with h1.
    rewrite (destroy_events_same_resources h h1 dt Hsd Hsame). reflexivity.
Qed.

Lemma pause_completes_then_destroys_witness :
  exists w1 w2,
    @pause_effect example_constants 3 0%nat (user_fn 99) block_world = Ok tt w1
    /\ times 2 (@check example_constants 3 0%nat) w1 = Ok tt w2
    /\ trace w2
       = [Ev_transition_out tr_local_a 0%nat; Ev_transition_out tr_global 0%nat;
          Ev_transition_stop tr_global;
          Ev_transition_stop tr_local_b; Ev_teardown 3%nat (user_fn 23);
          Ev_transition_stop tr_local_a; Ev_teardown 1%nat (user_fn 21); Ev_remove 51%nat;
          Ev_remove 50%nat;
          Ev_callback (user_fn 99)].
Proof.
  destruct (@pause_completes_then_destroys example_constants block_tree block_owned_tree 3
              (user_fn 99) block_world block_tree_shaped block_owned_tree_shaped eq_refl
              block_tree_NoDup
              ltac:(refine (bool_decide_unpack _ _); vm_compute; exact I)
              ltac:(vm_compute; lia) ltac:(vm_compute; lia)
              ltac:(vm_compute; discriminate))
    as (w1 & Hpause & _ & _ & Hfire).
  exists w1. eexists. split; [ exact Hpause | ]. split; [ exact Hfire | ].
  vm_compute in Hpause. inversion Hpause; subst w1. vm_compute. reflexivity.
Defined.

(** X17. A resume does not disarm the completion closure of the pause
    before it: it leaves the counter where the pause set it. For an
    effect none of whose nodes was inert before the pause, when the pause
    gathered at least one transition and nothing became dirty, the store
    after the pause and the resume still holds the closure with its full
    count, and if the completions of the transitions come in all the
    same, the last one runs the continuation of the pause: the effect is
    destroyed with all it owns, children first, and the callback is
    called. *)
Theorem resume_keeps_completion {K : Constants} {H : Host} (t : Tree) (fuel : nat)
    (callback : Closure) (w : World) :
  constants_ok ->
  shaped children (heap (store w)) t ->
  NoDup (nodes t) ->
  (height t <= fuel)%nat ->
  (forall n e, n ∈ nodes t -> heap (store w) !! n = Some e -> inert e = false) ->
  collected (heap (store w)) true t <> [] ->
  nothing_dirty (nodes t) ->
  let h := heap (store w) in
  let k := fresh (dom (pending (store w))) in
  let n := length (collected h true t) in
  exists w1 w2,
    pause_effect fuel (root t) callback w = Ok tt w1
    /\ resume_effect fuel (root t) w1 = Ok tt w2
    /\ pending (store w2) = pending (store w1)
    /\ pending (store w2) !! k
       = Some {| remaining := Z.of_nat n; to_destroy := [root t]; callback := callback |}
    /\ (forall dt,
          shaped owned_nodes h dt -> root dt = root t -> NoDup (nodes dt) ->
          (height dt <= fuel)%nat ->
          times n (check fuel k) w2
          = Ok tt (add_trace [Ev_callback callback]
                     (destroyed (post_order dt) (destroy_events h dt)
                        (with_remaining k 0 w2)))).
Proof.
  intros HK Hsh Hnd Hfuel Hno Hcol Hq h k n.
  set (h1 := toggle_all (nodes t) h).
  set (w1 := {| store := with_pending
                  (<[k := {| remaining := Z.of_nat n;
                             to_destroy := [root t];
                             callback := callback |}]> (pending (store w)))
                  (with_heap h1 (store w));
                trace := trace w ++ map (fun tr => Ev_transition_out tr k) (collected h true t) |}).
  assert (Hpause : pause_effect fuel (root t) callback w = Ok tt w1).
  { unfold pause_effect.
    rewrite (bind_ok _ _ _ _ _ (pause_children_spec t fuel [] true w Hsh Hnd Hfuel)).
    cbn [app]. fold h.
    rewrite (out_pending fuel (collected h true t) [root t] callback _ Hcol).
    unfold w1, h1. rewrite (paused_all h t Hsh Hno). reflexivity. }
  assert (Hsh1 : shaped children (heap (store w1)) t).
  { eapply shaped_same_owned; [ exact Hsh | ].
    intros x Hx e He. exists (toggle_inert e). split; [ | reflexivity ].
    simpl. unfold h1. rewrite toggle_all_lookup_in by assumption.
    fold h in He. rewrite He. reflexivity. }
  pose proof (resume_children_quiet t fuel true w1 Hsh1 Hnd Hfuel Hq) as Hresume.
  exists w1. eexists. split; [ exact Hpause | ]. split; [ exact Hresume | ].
  split; [ reflexivity | ].
  assert (Hk : pending (store (add_trace (quiet_resume_events (heap (store w1)) true t)
                 (set_heap (toggle_all (resumed (heap (store w1)) t) (heap (store w1))) w1)))
               !! k
               = Some {| remaining := Z.of_nat n; to_destroy := [root t];
                         callback := callback |}).
  { simpl. apply lookup_insert_eq. }
  split; [ exact Hk | ].
  assert (Hn : n = S (pred n)).
  { unfold n. destruct (collected h true t) eqn:Hc;
      [ exfalso; apply Hcol; exact Hc | reflexivity ]. }
  intros dt Hdsh Hroot Hdnd Hdfuel.
  rewrite Hn at 1. rewrite (times_check_fire fuel k (pred n) _ _ Hk) by (simpl; lia).
  match goal with |- call_fn _ ?a ?b _ = _ =>
    change a with [root t]; change b with callback
  end.
  rewrite <- Hroot.
  assert (HndR : NoDup (resumed (heap (store w1)) t)).
  { rewrite (resumed_all _ t Hsh1); [ exact Hnd | ].
    intros x e Hx He. simpl in He. unfold h1 in He.
    rewrite toggle_all_lookup_in in He by assumption.
    destruct (h !! x) as [e0|] eqn:He0; [ | discriminate ].
    inversion He; subst e.
    destruct (toggle_inert_fields HK e0) as (-> & _).
    rewrite (Hno x e0 Hx He0). reflexivity. }
  match goal with |- call_fn _ _ _ ?x = _ => set (w3 := x) end.
  assert (Hsame : same_resources (nodes dt) h (heap (store w3))).
  { intros x e Hx He.
    destruct (toggle_all_same_resources (nodes dt) (nodes t) h Hnd x e Hx He)
      as (e1 & He1 & Ha1 & Ha2 & Ha3 & Ha4 & Ha5).
    destruct (toggle_all_same_resources (nodes dt) (resumed (heap (store w1)) t)
                (heap (store w1)) HndR x e1 Hx He1)
      as (e2 & He2 & Hb1 & Hb2 & Hb3 & Hb4 & Hb5).
    exists e2. split; [ exact He2 | ].
    rewrite Hb1, Hb2, Hb3, Hb4, Hb5. auto. }
  rewrite (call_fn_tree dt fuel callback w3);
    [ | eapply shaped_same_resources; eauto | exact Hdnd | exact Hdfuel ].
  rewrite (destroy_events_same_resources _ _ dt Hdsh Hsame). reflexivity.
Qed.

Lemma resume_keeps_completion_witness :
  exists w1 w2 w3 e,
    @pause_effect example_constants 2 0%nat (user_fn 99) items_world = Ok tt w1
    /\ @resume_effect example_constants settled_host 2 0%nat w1 = Ok tt w2
    /\ times 1 (@check example_constants 2 0%nat) w2 = Ok tt w3
    /\ heap (store w3) !! 0%nat = Some e
    /\ @has_flag (Effect.f e) (@DESTROYED example_constants) = true.
Proof.
  destruct (@resume_keeps_completion example_constants settled_host
              (Node 0%nat [Node 2%nat []]) 2 (user_fn 99) items_world
              example_constants_ok
              ltac:(pose proof items_forest_shaped as Hx;
                    apply Forall_cons in Hx as [Hx _]; exact Hx)
              ltac:(refine (bool_decide_unpack _ _); vm_compute; exact I)
              ltac:(vm_compute; lia))
    as (w1 & w2 & Hpause & Hresume & _ & _ & Hfire).
  - intros n e Hn He. simpl in Hn.
    repeat (apply elem_of_cons in Hn as [->|Hn]); try solve [ inversion Hn ];
      vm_compute in He; inversion He; subst; vm_compute; reflexivity.
  - vm_compute. discriminate.
  - exact items_tree_settled.
  - specialize (Hfire (Node 0%nat [Node 2%nat []])
                  ltac:(pose proof items_forest_owned as Hx;
                        apply Forall_cons in Hx as [Hx _]; exact Hx)
                  eq_refl
                  ltac:(refine (bool_decide_unpack _ _); vm_compute; exact I)
                  ltac:(vm_compute; lia)).
    exists w1, w2.
    vm_compute in Hpause. inversion Hpause; subst w1.
    vm_compute in Hresume. inversion Hresume; subst w2.
    eexists. eexists. split; [ vm_compute; reflexivity | ].
    split; [ vm_compute; reflexivity | ].
    split; [ exact Hfire | ].
    split; [ vm_compute; reflexivity | ].
    vm_compute. reflexivity.
Defined.

Section UserEffectFacts.

Context {K : Constants} {H : Host}.

Lemma user_effect_run fn w ce c :
  current_allocated (store w) ->
  current_effect (store w) = Some ce ->
  heap (store w) !! ce = Some c ->
  user_effect fn w
  = Ok (fresh (dom (heap (store w))))
       {| store := user_effect_store fn c (store w); trace := trace w |}.
Proof.
  intros Hal Hce Hc. set (s := store w).
  unfold user_effect. unfold bind at 1. unfold get_store. rewrite Hce.
  rewrite (bind_ok _ _ _ _ _ (get_effect_ok ce c w Hc)).
  destruct Hal as (Hal1 & Hal2 & Hal3).
  assert (Hdefer :
    (if has_flag (Effect.f c) RENDER_EFFECT
     then match current_component_context (store w) with
          | Some cc => fun w0 => match contexts (store w0) !! cc with
                                 | Some context => Ok (negb (ComponentContext.m context)) w0
                                 | None => Stuck
                                 end
          | None => ret false
          end
     else ret false) w = Ok (defers s c) w).
  { unfold defers. fold s.
    destruct (has_flag (Effect.f c) RENDER_EFFECT); [ | reflexivity ].
    destruct (current_component_context s) as [cc|] eqn:Hcc; [ | reflexivity ].
    destruct (Hal3 cc Hcc) as [context Hctx].
    unfold s. rewrite Hctx. reflexivity. }
  rewrite (bind_ok _ _ _ _ _ Hdefer).
  unfold bind at 1.
  rewrite (create_effect_run EFFECT fn false (negb (defers s c)) w (conj Hal1 (conj Hal2 Hal3))).
  fold s. unfold user_effect_store. fold s.
  destruct (defers s c) eqn:Hd; cbn [negb].
  - unfold bind at 1. rewrite initialise_effect_skip. unfold ret at 1.
    unfold defers in Hd. apply andb_true_iff in Hd as [_ Hd].
    unfold record_deferred. cbn [current_component_context with_heap].
    destruct (current_component_context s) as [cc|] eqn:Hcc; [ | discriminate ].
    reflexivity.
  - unfold bind at 1. rewrite initialise_effect_async. reflexivity.
Qed.

Lemma user_effect_store_fields fn c s :
  current_allocated s ->
  heap (user_effect_store fn c s) = registered_heap EFFECT fn s
  /\ current_effect (user_effect_store fn c s) = current_effect s
  /\ current_reaction (user_effect_store fn c s) = current_reaction s
  /\ current_component_context (user_effect_store fn c s) = current_component_context s
  /\ (if defers s c
      then queue (user_effect_store fn c s) = queue s
           /\ deferred (user_effect_store fn c s) = deferred s ++ [fresh (dom (heap s))]
      else queue (user_effect_store fn c s) = queue s ++ [fresh (dom (heap s))]
           /\ deferred (user_effect_store fn c s) = deferred s)
  /\ (forall c', Effect.f c' = Effect.f c ->
        defers (user_effect_store fn c s) c' = defers s c).
Proof.
  intros (_ & _ & Hal3). unfold user_effect_store.
  destruct (defers s c) eqn:Hd.
  - unfold defers in Hd. apply andb_true_iff in Hd as [Hrender Hd].
    unfold record_deferred, deferred, defers. cbn [current_component_context with_heap].
    destruct (current_component_context s) as [cc|] eqn:Hcc; [ | discriminate ].
    destruct (contexts s !! cc) as [context|] eqn:Hctx; [ | discriminate ].
    cbn [heap with_contexts with_heap current_effect current_reaction
         current_component_context queue contexts].
    rewrite !Hcc, !lookup_alter_eq, Hctx.
    cbn [fmap option_fmap option_map ComponentContext.e ComponentContext.m array].
    repeat split; try reflexivity.
    intros c' Hf. rewrite Hf, Hrender, Hd. reflexivity.
  - unfold deferred, defers in *. cbn [heap with_queue with_heap current_effect current_reaction
         current_component_context queue contexts].
    repeat split; try reflexivity.
    intros c' Hf. rewrite Hf. exact Hd.
Qed.

Lemma user_effect_store_allocated fn c s :
  current_allocated s -> current_allocated (user_effect_store fn c s).
Proof.
  intros Hal. destruct (user_effect_store_fields fn c s Hal) as (Hh & Hce & Hcr & Hcc & _).
  destruct Hal as (Hal1 & Hal2 & Hal3).
  split; [ | split ].
  - intros ce. rewrite Hce, Hh. intros Hx. destruct (Hal1 ce Hx) as [e He].
    destruct (registered_heap_flags EFFECT fn s ce e He) as (e' & He' & _). eauto.
  - intros cr. rewrite Hcr, Hh. intros Hx. destruct (Hal2 cr Hx) as [e He].
    destruct (registered_heap_flags EFFECT fn s cr e He) as (e' & He' & _). eauto.
  - intros cc. rewrite Hcc. intros Hx. destruct (Hal3 cc Hx) as [context Hctx].
    unfold user_effect_store. destruct (defers s c).
    + unfold record_deferred. cbn [current_component_context with_heap]. rewrite Hx.
      cbn [contexts with_contexts with_heap]. rewrite lookup_alter_eq, Hctx.
      cbn [fmap option_fmap option_map]. eauto.
    + cbn [contexts with_queue with_heap]. eauto.
Qed.

End UserEffectFacts.

(** X18. User effects are kept in the order of their creation. Two calls
    of [user_effect] under the same effect make two different effects;
    when they are deferred both are appended, in that order, to the
    effects deferred on the component context and none is enqueued; when
    they are not deferred both are enqueued, in that order, and
    [user_effect] does what [effect] does. No effect body is run. *)
Theorem user_effects_in_order {K : Constants} {H : Host} (fn1 fn2 : Closure) (w : World)
    (ce : ref) (c : Effect.t) :
  current_allocated (store w) ->
  current_effect (store w) = Some ce ->
  heap (store w) !! ce = Some c ->
  let s := store w in
  (defers s c = false -> user_effect fn1 w = effect fn1 w)
  /\ exists r1 r2 w2,
       bind (user_effect fn1) (fun r1 => bind (user_effect fn2) (fun r2 => ret (r1, r2))) w
       = Ok (r1, r2) w2
       /\ r1 <> r2
       /\ trace w2 = trace w
       /\ (if defers s c
           then deferred (store w2) = deferred s ++ [r1; r2]
                /\ queue (store w2) = queue s
           else queue (store w2) = queue s ++ [r1; r2]
                /\ deferred (store w2) = deferred s).
Proof.
  intros Hal Hce Hc s. split.
  - intros Hd. rewrite (user_effect_run fn1 w ce c Hal Hce Hc).
    unfold effect. rewrite (create_effect_run EFFECT fn1 false true w Hal).
    unfold bind. rewrite initialise_effect_async. unfold ret.
    unfold user_effect_store. fold s. rewrite Hd. reflexivity.
  - set (r1 := fresh (dom (heap s))).
    set (s1 := user_effect_store fn1 c s).
    set (w1 := {| store := s1; trace := trace w |}).
    destruct (user_effect_store_fields fn1 c s Hal) as (Hh1 & Hce1 & _ & _ & Hq1 & Hdef1).
    fold s1 in Hh1, Hce1, Hq1, Hdef1.
    destruct (registered_heap_flags EFFECT fn1 s ce c Hc) as (c1 & Hc1 & Hf1).
    rewrite <- Hh1 in Hc1.
    assert (Hal' : current_allocated (store w1)) by (apply user_effect_store_allocated; exact Hal).
    assert (Hce' : current_effect (store w1) = Some ce) by (simpl; rewrite Hce1; exact Hce).
    pose proof (user_effect_run fn2 w1 ce c1 Hal' Hce' Hc1) as Hrun2.
    destruct (user_effect_store_fields fn2 c1 s1 Hal') as (_ & _ & _ & _ & Hq2 & _).
    rewrite (Hdef1 c1 Hf1) in Hq2.
    exists r1, (fresh (dom (heap s1))). eexists. split.
    { rewrite (bind_ok _ _ _ _ _ (user_effect_run fn1 w ce c Hal Hce Hc)).
      fold s s1 w1. rewrite (bind_ok _ _ _ _ _ Hrun2). reflexivity. }
    split.
    { intros Heq. pose proof (fresh_not_allocated (heap s1)) as Hfresh.
      rewrite <- Heq, Hh1 in Hfresh. unfold r1 in Hfresh.
      rewrite (registered_heap_new EFFECT fn1 s Hal) in Hfresh. discriminate. }
    split; [ reflexivity | ].
    unfold w1 in *. cbn [store] in *. fold r1 in Hq1.
    destruct (defers s c).
    + destruct Hq1 as [Hq1 Hd1]. destruct Hq2 as [Hq2 Hd2].
      rewrite Hd2, Hd1, Hq2, Hq1, <- app_assoc. auto.
    + destruct Hq1 as [Hq1 Hd1]. destruct Hq2 as [Hq2 Hd2].
      rewrite Hd2, Hd1, Hq2, Hq1, <- app_assoc. auto.
Qed.

Lemma user_effects_in_order_witness :
  exists w2,
    bind (@user_effect example_constants quiet_host (user_fn 1))
      (fun r1 => bind (@user_effect example_constants quiet_host (user_fn 2))
                   (fun r2 => ret (r1, r2))) mounting_world
    = Ok (1%nat, 2%nat) w2
    /\ deferred (store w2) = [1%nat; 2%nat]
    /\ queue (store w2) = []
    /\ trace w2 = [].
Proof.
  destruct (@user_effects_in_order example_constants quiet_host (user_fn 1) (user_fn 2)
              mounting_world 0%nat (plain_effect (@RENDER_EFFECT example_constants))
              mounting_world_allocated eq_refl eq_refl)
    as (_ & r1 & r2 & w2 & Hrun & _ & Htr & Hdef).
  vm_compute in Hrun. inversion Hrun; subst r1 r2 w2.
  eexists. split; [ vm_compute; reflexivity | ].
  split; [ vm_compute; reflexivity | ]. split; reflexivity.
Defined.
